(** * ImageMagick 6.5.4-10: the PNM coder and the TIFF alpha / colormap set-up

    A shallow embedding of the pixel marshalling code of [coders/pnm.c]
    ([ConstrainPixel], [PNMInteger], [ReadPNMImage], [WritePNMImage]) and of
    the alpha detection and colormap rescale of [ReadTIFFImage], followed by
    the properties of the transcoding engine that are stated about them.
    Further parts of the coders follow: the headers of the PNM formats, the
    hexadecimal and run-length output of the PostScript writer, and the
    tiles and strips of the TIFF coder.

    Conventions.
    - C integers are [Z]; a conversion to a narrower type is written out as
      a reduction modulo the width of the target type.
    - [QuantumRange] is a build-time constant of MagickCore (255, 65535, ...);
      every definition that depends on it takes it as its first argument.
    - The expression [(Quantum) (((double) QuantumRange*i)/max_value+0.5)]
      is embedded by exact arithmetic: the floor of the rational
      [QuantumRange*i/max_value + 1/2].  For the 8 and 16 bit builds and the
      sample maxima the coder accepts (below 65536) the double computation
      returns that integer, since the product is below 2^32 and the quotient
      is either a tie or at least 1/(2*max_value) away from one.
    - A blob is the list of the bytes that are still unread. *)

From Stdlib Require Import ZArith QArith List Lia String Ascii.
From stdpp Require Import base option list gmap relations.

Local Open Scope Z_scope.

(** ** MagickCore quantum helpers used by the coders *)

Module Quantum.

(** Conversion to [unsigned char], [unsigned short], [unsigned long] and
    [long] (LP64). *)
Definition to_uchar (x : Z) : Z := x mod 256.
Definition to_ushort (x : Z) : Z := x mod 65536.
Definition to_ulong (x : Z) : Z := x mod 2 ^ 64.
Definition to_long (x : Z) : Z :=
  let y := x mod 2 ^ 64 in if y <? 2 ^ 63 then y else y - 2 ^ 64.

(** Conversion to [Quantum], the unsigned type that holds [0..QuantumRange]. *)
Definition to_Quantum (QuantumRange x : Z) : Z := x mod (QuantumRange + 1).

(** The floor of [a/b + 1/2], for [b > 0]: the value of
    [(Quantum) (a/b+0.5)] on non-negative reals. *)
Definition round_half_up_div (a b : Z) : Z := (2 * a + b) / (2 * b).

(** Modelled from the spec: [GetQuantumRange] of magick/quantum.h is not
    among the sources; the largest sample of [depth] bits, [2^depth - 1]
    (the sample_max of a declared bit depth). *)
Definition GetQuantumRange (depth : Z) : Z := 2 ^ depth - 1.

(** Modelled from the spec: [ScaleAnyToQuantum] of magick/quantum.h is not
    among the sources; section 4.1, ScaleToCanonical:
    canonical_value = round(sample * CANONICAL_MAX / sample_max), rounding
    half up.  It is the expression the coder itself uses for its scale
    table. *)
Definition ScaleAnyToQuantum (QuantumRange quantum range : Z) : Z :=
  to_Quantum QuantumRange (round_half_up_div (QuantumRange * quantum) range).

(** Modelled from the spec: [ScaleQuantumToAny] of magick/quantum.h is not
    among the sources; section 4.1, ScaleFromCanonical, the inverse linear
    rescale sample = round(canonical * sample_max / CANONICAL_MAX). *)
Definition ScaleQuantumToAny (QuantumRange quantum range : Z) : Z :=
  round_half_up_div (range * quantum) QuantumRange.

(** Modelled from the spec: the byte cursor helpers of
    magick/quantum-private.h are not among the sources; section 4.2, a
    sample of 8 bits is one byte, a sample of 16 bits is two bytes in the
    declared order (the coder always passes [MSBEndian]). *)
Definition PopCharPixel (pixel : Z) (q : list Z) : list Z := q ++ [to_uchar pixel].
Definition PopShortPixel_MSB (pixel : Z) (q : list Z) : list Z :=
  q ++ [to_ushort pixel / 256; to_ushort pixel mod 256].

(** Modelled from the spec: [PushCharPixel] and [PushShortPixel] of
    magick/quantum-private.h are not among the sources; section 4.2, they
    read one sample at the cursor [p] and advance it.  Bytes past the end of
    the buffer read as 0 in the embedding (the coders size the buffer for a
    full row, so the case does not arise). *)
Definition PushCharPixel (p : list Z) : Z * list Z :=
  match p with
  | [] => (0, [])
  | b :: p' => (b, p')
  end.
Definition PushShortPixel_MSB (p : list Z) : Z * list Z :=
  let '(hi, p1) := PushCharPixel p in
  let '(lo, p2) := PushCharPixel p1 in
  (hi * 256 + lo, p2).

End Quantum.

(** ** Exceptions *)

Inductive ExceptionType : Type :=
  | CorruptImageError
  | ResourceLimitError.

Record ExceptionInfo : Type := ThrowMagickException {
  severity : ExceptionType;
  reason_tag : string
}.

(** ** coders/pnm.c, the plain (text) formats *)

Module PNM.
Import Quantum.

(** [ConstrainPixel(image,offset,extent)]: the index, and the exception
    recorded on [image->exception], if any. *)
Definition ConstrainPixel (offset extent : Z) : Z * list ExceptionInfo :=
  if (offset <? 0) || (offset >? to_long extent)
  then (0, [ThrowMagickException CorruptImageError "InvalidPixel"])
  else (offset, []).

Definition isdigit (c : Z) : bool := (48 <=? c) && (c <=? 57).

(** The first loop of [PNMInteger]: skip to the next digit, through
    comments ([#] to the end of the line).  [None] is the [EOF] return.
    The text of the comment, which the source stores as the image property
    "comment", is not kept. *)
Fixpoint PNMSkip (in_comment : bool) (blob : list Z) : option (Z * list Z) :=
  match blob with
  | [] => None
  | c :: blob' =>
      if in_comment then PNMSkip (negb (c =? 10)) blob'
      else if c =? 35 then PNMSkip true blob'
      else if isdigit c then Some (c, blob')
      else PNMSkip false blob'
  end.

(** The second loop of [PNMInteger]: [value] holds the digits read so far;
    the character that ends the number is consumed. *)
Fixpoint PNMDigits (value : Z) (blob : list Z) : Z * list Z :=
  match blob with
  | [] => (value, [])
  | c :: blob' =>
      if isdigit c then PNMDigits (to_ulong (value * 10 + (c - 48))) blob'
      else (value, blob')
  end.

Definition PNMInteger (base : Z) (blob : list Z) : Z * list Z :=
  match PNMSkip false blob with
  | None => (0, [])
  | Some (c, blob') =>
      if base =? 2 then (c - 48, blob')
      else PNMDigits (to_ulong (0 * 10 + (c - 48))) blob'
  end.

(** The pixel scaling table: [None] is the [NULL] table of the case
    [max_value == QuantumRange]; otherwise the entries [0..max_value].  For
    [max_value = 0] the C expression divides zero by zero and its conversion
    is undefined; the entry is 0 here. *)
Definition scale_entry (QuantumRange max_value i : Z) : Z :=
  to_Quantum QuantumRange (round_half_up_div (QuantumRange * i) max_value).

Definition scale_table (QuantumRange max_value : Z) : option (list Z) :=
  if max_value =? QuantumRange then None
  else Some (map (fun i : nat => scale_entry QuantumRange max_value (Z.of_nat i))
               (seq 0 (Z.to_nat (max_value + 1)))).

(** An access [scale[i]]; [None] when [i] is outside the allocated table. *)
Definition table_get (scale : list Z) (i : Z) : option Z :=
  if i <? 0 then None else scale !! Z.to_nat i.

Record PixelPacket : Type := mkPixel {
  red : Z; green : Z; blue : Z; opacity : Z
}.

(** The state threaded through a plain-format row: the blob and the
    exceptions recorded so far. *)
Record TextState : Type := mkText {
  text_blob : list Z;
  text_exceptions : list ExceptionInfo
}.

(** Case '1': one PBM pixel, stored through the cursor [q] into the queued
    pixel (whose opacity the loop leaves as it is). *)
Definition PBM_pixel (QuantumRange : Z) (q : PixelPacket) (st : TextState)
    : PixelPacket * TextState :=
  let '(v, blob') := PNMInteger 2 (text_blob st) in
  let r := to_Quantum QuantumRange (if v =? 0 then QuantumRange else 0) in
  (mkPixel r r r (opacity q), mkText blob' (text_exceptions st)).

(** Case '2': one PGM pixel.  The result is [None] if the table access is
    out of bounds. *)
Definition PGM_pixel (QuantumRange max_value : Z) (scale : option (list Z))
    (q : PixelPacket) (st : TextState) : option (PixelPacket * TextState) :=
  let '(intensity, blob') := PNMInteger 10 (text_blob st) in
  match scale with
  | None =>
      let r := to_Quantum QuantumRange intensity in
      Some (mkPixel r r r (opacity q), mkText blob' (text_exceptions st))
  | Some table =>
      let '(i, e) := ConstrainPixel (to_long intensity) max_value in
      match table_get table i with
      | None => None
      | Some v =>
          let r := to_Quantum QuantumRange (to_ulong v) in
          Some (mkPixel r r r (opacity q), mkText blob' (text_exceptions st ++ e))
      end
  end.

(** Case '3': one PPM pixel.  The samples pass through [MagickRealType]
    (a floating type of magick/magick-type.h): [long_of_real v] stands for
    [(long) ((MagickRealType) v)] and [quantum_of_real v] for
    [(Quantum) ((MagickRealType) v)]; nothing is assumed about them. *)
Section RealCasts.

Variable long_of_real : Z -> Z.
Variable quantum_of_real : Z -> Z.

Definition PPM_sample (max_value : Z) (scale : option (list Z)) (v : Z)
    : option (Z * list ExceptionInfo) :=
  match scale with
  | None => Some (quantum_of_real v, [])
  | Some table =>
      let '(i, e) := ConstrainPixel (long_of_real v) max_value in
      match table_get table i with
      | None => None
      | Some s => Some (quantum_of_real s, e)
      end
  end.

Definition PPM_pixel (max_value : Z) (scale : option (list Z))
    (q : PixelPacket) (st : TextState) : option (PixelPacket * TextState) :=
  let '(r, blob1) := PNMInteger 10 (text_blob st) in
  let '(g, blob2) := PNMInteger 10 blob1 in
  let '(b, blob3) := PNMInteger 10 blob2 in
  match PPM_sample max_value scale r with
  | None => None
  | Some (r', er) =>
      match PPM_sample max_value scale g with
      | None => None
      | Some (g', eg) =>
          match PPM_sample max_value scale b with
          | None => None
          | Some (b', eb) =>
              Some (mkPixel r' g' b' (opacity q),
                    mkText blob3 (text_exceptions st ++ er ++ eg ++ eb))
          end
      end
  end.

End RealCasts.

(** The inner loop [for (x=0; x < columns; x++)] over the queued row. *)
Fixpoint text_row (pixel : PixelPacket -> TextState -> option (PixelPacket * TextState))
    (queue : list PixelPacket) (st : TextState)
    : option (list PixelPacket * TextState) :=
  match queue with
  | [] => Some ([], st)
  | q :: queue' =>
      match pixel q st with
      | None => None
      | Some (p, st1) =>
          match text_row pixel queue' st1 with
          | None => None
          | Some (ps, st2) => Some (p :: ps, st2)
          end
      end
  end.

Definition PBM_row (QuantumRange : Z) :=
  text_row (fun q st => Some (PBM_pixel QuantumRange q st)).

Definition PGM_row (QuantumRange max_value : Z) :=
  text_row (PGM_pixel QuantumRange max_value (scale_table QuantumRange max_value)).

Definition PPM_row (long_of_real quantum_of_real : Z -> Z) (QuantumRange max_value : Z) :=
  text_row (PPM_pixel long_of_real quantum_of_real max_value
              (scale_table QuantumRange max_value)).

(** ** coders/pnm.c, the raw formats: reading *)

(** The result of a reader: the image it returns, or the exception with
    which it leaves. *)
Inductive ReadResult (A : Type) : Type :=
  | Returned (image : A)
  | Thrown (e : ExceptionInfo).
Arguments Returned {A} image.
Arguments Thrown {A} e.

(** Modelled from the spec: the macro [ThrowReaderException] of
    magick/exception-private.h is not among the sources; section 7, a
    failure that is fatal to the current operation: the exception is
    recorded and the reader returns at once, without an image. *)
Definition ThrowReaderException {A : Type} (s : ExceptionType) (tag : string)
    : ReadResult A :=
  Thrown (ThrowMagickException s tag).

(** Modelled from the spec: [ReadBlob] of magick/blob.c is not among the
    sources; section 6, ReadBytes(n): the next [extent] bytes of the stream,
    or as many as are left, are copied to the start of the buffer [pixels]
    (whose other bytes keep their contents) and their number is returned. *)
Definition ReadBlob (extent : Z) (pixels blob : list Z) : Z * list Z * list Z :=
  let data := take (Z.to_nat extent) blob in
  (Z.of_nat (length data),
   data ++ drop (length data) pixels,
   drop (Z.to_nat extent) blob).

(** The variables the row loops of cases '4', '5', '6', '7' and 'F' share. *)
Record RawState : Type := mkRaw {
  raw_blob : list Z;                       (* the unread bytes *)
  raw_row : Z;                             (* [row] *)
  raw_status : bool;                       (* [status] *)
  raw_pixels : list Z;                     (* the buffer of [GetQuantumPixels] *)
  raw_cache : gmap Z (list PixelPacket)    (* the rows synced to the pixel cache *)
}.

Section RawLoop.

(** What differs between the five loops, and the collaborators. *)
Variable extent : Z.
(** [None] when there is no progress monitor (or the image is not the first
    of its list); otherwise the answer of [SetImageProgress] at [row]. *)
Variable progress_monitor : option (Z -> bool).
(** [QueueCacheViewAuthenticPixels] at a row: [None] is [NULL]. *)
Variable queue : Z -> option (list PixelPacket).
(** [SyncCacheViewAuthenticPixels] at a row. *)
Variable sync : Z -> bool.
(** The row of the pixel cache that receives the read numbered [offset]. *)
Variable target : Z -> Z.
(** The import of the buffer into the queued row; the boolean is the result
    of the test [length == extent] where the loop makes it, [true] where
    it does not. *)
Variable import : list Z -> list PixelPacket -> list PixelPacket * bool.

(** The critical section: [ReadBlob], the progress monitor, [offset=row++].
    It returns [count], [offset] and the state. *)
Definition critical_section (st : RawState) : Z * Z * RawState :=
  let '(count, pixels, blob) := ReadBlob extent (raw_pixels st) (raw_blob st) in
  let status :=
    match progress_monitor with
    | Some proceed => if proceed (raw_row st) then raw_status st else false
    | None => raw_status st
    end in
  (count, raw_row st,
   mkRaw blob (raw_row st + 1) status pixels (raw_cache st)).

(** One iteration of the [for (y=0; y < rows; y++)] loop. *)
Definition raw_row_body (st : RawState) : RawState :=
  if negb (raw_status st) then st
  else
    let '(count, offset, st1) := critical_section st in
    let status1 := if count =? extent then raw_status st1 else false in
    match queue (target offset) with
    | None =>
        mkRaw (raw_blob st1) (raw_row st1) false (raw_pixels st1) (raw_cache st1)
    | Some q =>
        let '(r, length_ok) := import (raw_pixels st1) q in
        let status2 := if length_ok then status1 else false in
        if sync (target offset)
        then mkRaw (raw_blob st1) (raw_row st1) status2 (raw_pixels st1)
               (<[target offset := r]> (raw_cache st1))
        else mkRaw (raw_blob st1) (raw_row st1) false (raw_pixels st1)
               (raw_cache st1)
    end.

Fixpoint raw_rows (rows : nat) (st : RawState) : RawState :=
  match rows with
  | O => st
  | S n => raw_rows n (raw_row_body st)
  end.

(** The loop and the test that follows it. *)
Definition ReadRawRows (rows : nat) (st : RawState) : ReadResult RawState :=
  let st' := raw_rows rows st in
  if raw_status st' then Returned st'
  else ThrowReaderException CorruptImageError "UnableToReadImageData".

End RawLoop.

(** The state at [row=0; status=MagickTrue], with an empty pixel cache. *)
Definition raw_init (blob pixels : list Z) : RawState :=
  mkRaw blob 0 true pixels ∅.

(** The depth of an image whose header gives [max_value]:
    [for (depth=1; GetQuantumRange(depth) < max_value; depth++) ;].
    The reader has rejected [max_value >= 65536], so 16 steps suffice. *)
Fixpoint depth_loop (fuel : nat) (depth max_value : Z) : Z :=
  match fuel with
  | O => depth
  | S n =>
      if GetQuantumRange depth <? max_value
      then depth_loop n (depth + 1) max_value
      else depth
  end.
Definition image_depth (max_value : Z) : Z := depth_loop 16 1 max_value.

(** The sample cursor of the loops that do not call [ImportQuantumPixels]:
    [PushCharPixel] for [depth <= 8], [PushShortPixel(MSBEndian,...)]
    otherwise. *)
Definition push_sample (depth : Z) (p : list Z) : Z * list Z :=
  if depth <=? 8 then PushCharPixel p else PushShortPixel_MSB p.


(** Case '6' (and the default of case '7' without matte), the loop over [x]
    for depths other than 8 and 16. *)
Fixpoint import_rgb (QuantumRange depth : Z) (p : list Z) (q : list PixelPacket)
    : list PixelPacket :=
  match q with
  | [] => []
  | q0 :: q' =>
      let range := GetQuantumRange depth in
      let '(pixel, p1) := push_sample depth p in
      let r := ScaleAnyToQuantum QuantumRange pixel range in
      let '(pixel, p2) := push_sample depth p1 in
      let g := ScaleAnyToQuantum QuantumRange pixel range in
      let '(pixel, p3) := push_sample depth p2 in
      let b := ScaleAnyToQuantum QuantumRange pixel range in
      mkPixel r g b (opacity q0) :: import_rgb QuantumRange depth p3 q'
  end.

(** Modelled from the spec: [ImportQuantumPixels] of magick/quantum-import.c
    is not among the sources; section 4.4, for the RGB quantum type at a
    byte-aligned depth: per column one sample per channel in the order red,
    green, blue, each read by the byte-aligned cursor and scaled by
    ScaleToCanonical; it returns the number of bytes consumed. *)
Definition ImportQuantumPixels_RGB (QuantumRange depth : Z) (pixels : list Z)
    (q : list PixelPacket) : list PixelPacket * Z :=
  (import_rgb QuantumRange depth pixels q,
   3 * (if depth <=? 8 then 1 else 2) * Z.of_nat (length q)).

(** The extent and the import step of case '6'. *)
Definition extent_P6 (depth columns : Z) : Z :=
  3 * (if depth <=? 8 then 1 else 2) * columns.

Definition import_P6 (QuantumRange depth : Z) (pixels : list Z)
    (q : list PixelPacket) : list PixelPacket * bool :=
  if (depth =? 8) || (depth =? 16)
  then
    let '(r, length) := ImportQuantumPixels_RGB QuantumRange depth pixels q in
    (r, length =? extent_P6 depth (Z.of_nat (List.length q)))
  else (import_rgb QuantumRange depth pixels q, true).

(** The extent and the import step of case '5'. *)
Definition extent_P5 (depth columns : Z) : Z :=
  (if depth <=? 8 then 1 else 2) * columns.

(** Modelled from the spec: the bit cursor of magick/quantum-import.c is
    not among the sources; section 4.2, the bit of column [x] of a row of
    one-bit samples, most significant bit first. *)
Definition ExtractBit_MSB (pixels : list Z) (x : nat) : Z :=
  match pixels !! (x / 8)%nat with
  | Some b => if Z.testbit b (7 - Z.of_nat (x mod 8)) then 1 else 0
  | None => 0
  end.

(** Modelled from the spec: [ImportQuantumPixels] for the gray quantum type
    at depth 1 is not among the sources; section 4.4: one bit per column is
    extracted, the sample is scaled by ScaleToCanonical with sample_max 1,
    and with min-is-white set the value is inverted, canonical =
    CANONICAL_MAX - canonical; it returns the number of bytes consumed. *)
Definition ImportQuantumPixels_Gray1 (QuantumRange : Z) (min_is_white : bool)
    (pixels : list Z) (q : list PixelPacket) : list PixelPacket * Z :=
  (imap (fun x q0 =>
           let v := ScaleAnyToQuantum QuantumRange (ExtractBit_MSB pixels x) 1 in
           let r := if min_is_white then QuantumRange - v else v in
           mkPixel r r r (opacity q0)) q,
   (Z.of_nat (length q) + 7) / 8).

(** Case '4': [SetQuantumMinIsWhite(quantum_info,MagickTrue)], the extent of
    a row of bits, and the import step with its test [length != extent]. *)
Definition extent_P4 (columns : Z) : Z := (columns + 7) / 8.

Definition import_P4 (QuantumRange : Z) (pixels : list Z) (q : list PixelPacket)
    : list PixelPacket * bool :=
  let '(r, length) := ImportQuantumPixels_Gray1 QuantumRange true pixels q in
  (r, length =? extent_P4 (Z.of_nat (List.length q))).

(** ** coders/pnm.c, the raw formats: writing *)

(** [PopCharPixel] for [depth <= 8], [PopShortPixel(MSBEndian,...)]
    otherwise: the two loops of each case differ in nothing else. *)
Definition pop_sample (depth pixel : Z) (q : list Z) : list Z :=
  if depth <=? 8 then PopCharPixel pixel q else PopShortPixel_MSB pixel q.

(** Case '6', and the default of case '7': one pixel of the loops for depths
    other than 8 and 16. *)
Definition write_rgb_pixel (QuantumRange depth : Z) (matte : bool)
    (p : PixelPacket) (q : list Z) : list Z :=
  let range := GetQuantumRange depth in
  let q := pop_sample depth (ScaleQuantumToAny QuantumRange (red p) range) q in
  let q := pop_sample depth (ScaleQuantumToAny QuantumRange (green p) range) q in
  let q := pop_sample depth (ScaleQuantumToAny QuantumRange (blue p) range) q in
  if matte
  then pop_sample depth
         (ScaleQuantumToAny QuantumRange
            (to_Quantum QuantumRange (QuantumRange - opacity p)) range) q
  else q.

(** Case '7', [CMYKQuantum] and [CMYKAQuantum]: [index] is [indexes[x]]. *)
Definition write_cmyk_pixel (QuantumRange depth : Z) (matte : bool)
    (p : PixelPacket) (index : Z) (q : list Z) : list Z :=
  let range := GetQuantumRange depth in
  let q := pop_sample depth (ScaleQuantumToAny QuantumRange (red p) range) q in
  let q := pop_sample depth (ScaleQuantumToAny QuantumRange (green p) range) q in
  let q := pop_sample depth (ScaleQuantumToAny QuantumRange (blue p) range) q in
  let q := pop_sample depth (ScaleQuantumToAny QuantumRange index range) q in
  if matte
  then pop_sample depth
         (ScaleQuantumToAny QuantumRange
            (to_Quantum QuantumRange (QuantumRange - opacity p)) range) q
  else q.

(** Case '7', [GrayQuantum] and [GrayAlphaQuantum].  [PixelIntensityToQuantum]
    (magick/pixel-private.h, a weighted sum computed in floating point) is a
    parameter. *)
Definition write_gray_pixel (PixelIntensityToQuantum : PixelPacket -> Z)
    (QuantumRange depth : Z) (matte : bool) (p : PixelPacket) (q : list Z)
    : list Z :=
  let range := GetQuantumRange depth in
  let q := pop_sample depth
             (ScaleQuantumToAny QuantumRange (PixelIntensityToQuantum p) range) q in
  if matte
  then pop_sample depth
         (to_uchar (ScaleQuantumToAny QuantumRange (opacity p) range)) q
  else q.

(** The loop over [x] from [q=pixels]; the result is the [extent=q-pixels]
    bytes handed to [WriteBlob]. *)
Definition write_row {A : Type} (pixel : A -> list Z -> list Z) (row : list A)
    : list Z :=
  fold_left (fun q p => pixel p q) row [].

(** Modelled from the spec: [ExportQuantumPixels] of magick/quantum-export.c
    is not among the sources; section 4.5, for the RGB quantum type at a
    byte-aligned depth: per column the channels red, green, blue, each
    scaled by ScaleFromCanonical and written by the byte-aligned cursor. *)
Definition ExportQuantumPixels_RGB (QuantumRange depth : Z)
    (row : list PixelPacket) : list Z :=
  write_row (write_rgb_pixel QuantumRange depth false) row.

(** Case '6' of the writer: [if (image->depth > 8) image->depth=16], the
    header line with the maximum sample, and one row. *)
Definition depth_P6 (depth : Z) : Z := if depth >? 8 then 16 else depth.

Definition max_value_P6 (depth : Z) : Z := GetQuantumRange (depth_P6 depth).

Definition write_row_P6 (QuantumRange depth : Z) (matte : bool)
    (row : list PixelPacket) : list Z :=
  let depth := depth_P6 depth in
  if (depth =? 8) || (depth =? 16)
  then ExportQuantumPixels_RGB QuantumRange depth row
  else write_row (write_rgb_pixel QuantumRange depth matte) row.

(** The quantum types case '7' distinguishes. *)
Inductive QuantumType : Type :=
  | GrayQuantum | GrayAlphaQuantum
  | RGBQuantum | RGBAQuantum
  | CMYKQuantum | CMYKAQuantum.

(** Case '7' of the writer, one row at a depth other than 8 and 16 (after
    [if (image->depth > 16) image->depth=16]); the row pairs each pixel with
    its entry of [indexes]. *)
Definition write_row_PAM (PixelIntensityToQuantum : PixelPacket -> Z)
    (QuantumRange depth : Z) (quantum_type : QuantumType) (matte : bool)
    (row : list (PixelPacket * Z)) : list Z :=
  let depth := if depth >? 16 then 16 else depth in
  match quantum_type with
  | GrayQuantum | GrayAlphaQuantum =>
      write_row (fun pi => write_gray_pixel PixelIntensityToQuantum
                             QuantumRange depth matte (fst pi)) row
  | CMYKQuantum | CMYKAQuantum =>
      write_row (fun pi => write_cmyk_pixel QuantumRange depth matte
                             (fst pi) (snd pi)) row
  | _ =>
      write_row (fun pi => write_rgb_pixel QuantumRange depth matte (fst pi)) row
  end.

(** The alpha sample of one written pixel: the last sample of its bytes. *)
Definition last_sample (depth : Z) (bytes : list Z) : Z :=
  if depth <=? 8 then List.last bytes 0
  else
    match rev bytes with
    | lo :: hi :: _ => hi * 256 + lo
    | _ => 0
    end.

(** ** coders/pnm.c, the PFM format (cases 'F' and 'f') *)

(** The byte orders of magick/quantum.h. *)
Inductive EndianType : Type :=
  | UndefinedEndian
  | LSBEndian
  | MSBEndian.

Definition newline : string := String (ascii_of_nat 10) EmptyString.

(** The writer: the scale line of the header,
    [image->endian != LSBEndian ? "1.0\n" : "-1.0\n"]. *)
Definition PFM_scale_line (endian : EndianType) : string :=
  match endian with
  | LSBEndian => ("-1.0" ++ newline)%string
  | _ => ("1.0" ++ newline)%string
  end.

(** The writer: [for (y=rows-1; y >= 0; y--)], the scanlines in the order
    they are handed to [WriteBlob].  [export] is [ExportQuantumPixels] with
    the floating point format; [PFM_write_rows export rows y] writes the
    rows below [y]; a row the cache does not deliver ([NULL]) ends the
    loop.  The progress monitor, which can end the loop as well, lets the
    writer proceed. *)
Fixpoint PFM_write_rows {Row : Type} (export : Row -> list Z) (rows : list Row)
    (y : nat) : list (list Z) :=
  match y with
  | O => []
  | S y' =>
      match rows !! y' with
      | None => []
      | Some p => export p :: PFM_write_rows export rows y'
      end
  end.

Definition PFM_write {Row : Type} (export : Row -> list Z) (endian : EndianType)
    (rows : list Row) : string * list Z :=
  (PFM_scale_line endian, concat (PFM_write_rows export rows (length rows))).

(** The value of a [double] as far as the coder looks at it: a finite
    number, an infinity with its sign, or not a number.  A finite value is
    kept exact (a [double] rounds it to 53 bits); a negative zero is the
    zero: the coder only compares the value with [0.0] and takes its
    [fabs]. *)
Inductive Double : Type :=
  | Finite (q : Q)
  | Infinite (negative : bool)
  | NaN.

(** The comparison [d < 0.0]. *)
Definition lt_zero (d : Double) : bool :=
  match d with
  | Finite q => negb (Qle_bool 0 q)
  | Infinite negative => negative
  | NaN => false
  end.

(** The bounds of the rounding to a [double]: a value of magnitude
    [2^-1075] or less rounds to zero, one of magnitude [2^1024 - 2^970] or
    more to an infinity. *)
Definition double_underflow : Q := Qmake 1 (2 ^ 1075).
Definition double_overflow : Q := inject_Z (2 ^ 1024 - 2 ^ 970).

Definition round_double (q : Q) : Double :=
  let magnitude := if Qle_bool 0 q then q else Qopp q in
  if Qle_bool magnitude double_underflow then Finite 0
  else if Qle_bool double_overflow magnitude
       then Infinite (negb (Qle_bool 0 q))
       else Finite q.

(** [atof] of the C library, [strtod(nptr,NULL)] in the "C" locale
    (ISO C99 7.20.1.3): white space is skipped; then come an optional sign
    and either [inf] or [infinity], or [nan], in any case of the letters, or
    [0x] and hexadecimal digits with an optional radix character and an
    optional binary exponent [p], or decimal digits with an optional radix
    character and an optional decimal exponent [e].  The conversion stops at
    the first character that does not fit, and a string that starts with
    none of these forms gives zero. *)
Definition ascii_code (c : ascii) : Z := Z.of_nat (nat_of_ascii c).

Definition isspace_ascii (c : ascii) : bool :=
  (ascii_code c =? 32) || ((9 <=? ascii_code c) && (ascii_code c <=? 13)).

Definition tolower (n : Z) : Z :=
  if (65 <=? n) && (n <=? 90) then n + 32 else n.

Definition digit_of (c : ascii) : option Z :=
  let n := ascii_code c in
  if (48 <=? n) && (n <=? 57) then Some (n - 48) else None.

Definition xdigit_of (c : ascii) : option Z :=
  let n := tolower (ascii_code c) in
  if (48 <=? n) && (n <=? 57) then Some (n - 48)
  else if (97 <=? n) && (n <=? 102) then Some (n - 87)
  else None.

Fixpoint skip_white (s : string) : string :=
  match s with
  | String c s' => if isspace_ascii c then skip_white s' else s
  | EmptyString => s
  end.

(** [word] (the codes of lower case letters) starts [s], in any case. *)
Fixpoint caseless_prefix (word : list Z) (s : string) : bool :=
  match word, s with
  | [], _ => true
  | w :: word', String c s' =>
      (tolower (ascii_code c) =? w) && caseless_prefix word' s'
  | _ :: _, EmptyString => false
  end.

(** The digits of a mantissa: the number [num] the digits read so far
    denote, their number [count], the number [scale] of those that follow
    the radix character, and the rest of the string.  [point] tells whether
    the radix character has been passed. *)
Fixpoint atof_mantissa (digit : ascii -> option Z) (base : Z) (point : bool)
    (num count scale : Z) (s : string) : Z * Z * Z * string :=
  match s with
  | EmptyString => (num, count, scale, s)
  | String c s' =>
      match digit c with
      | Some d =>
          atof_mantissa digit base point (num * base + d) (count + 1)
            (if point then scale + 1 else scale) s'
      | None =>
          if Ascii.eqb c "."%char && negb point
          then atof_mantissa digit base true num count scale s'
          else (num, count, scale, s)
      end
  end.

(** The exponent part: the letter [marker] (lower case), an optional sign
    and at least one decimal digit; 0 where there is none. *)
Definition atof_exponent (marker : Z) (s : string) : Z :=
  match s with
  | String c s' =>
      if tolower (ascii_code c) =? marker
      then
        let '(negative, s1) :=
          match s' with
          | String "-"%char s1 => (true, s1)
          | String "+"%char s1 => (false, s1)
          | _ => (false, s')
          end in
        let '(e, count, _, _) := atof_mantissa digit_of 10 true 0 0 0 s1 in
        if count =? 0 then 0 else if negative then - e else e
      else 0
  | EmptyString => 0
  end.

(** The number after the sign. *)
Definition atof_number (s : string) : Q :=
  let decimal :=
    let '(num, count, scale, rest) := atof_mantissa digit_of 10 false 0 0 0 s in
    if count =? 0 then 0%Q
    else (inject_Z num * Qpower (inject_Z 10) (atof_exponent 101 rest - scale))%Q in
  match s with
  | String "0"%char (String x s') =>
      if tolower (ascii_code x) =? 120
      then
        let '(num, count, scale, rest) :=
          atof_mantissa xdigit_of 16 false 0 0 0 s' in
        if count =? 0 then 0%Q
        else (inject_Z num *
              Qpower (inject_Z 2) (atof_exponent 112 rest - 4 * scale))%Q
      else decimal
  | _ => decimal
  end.

Definition atof (s : string) : Double :=
  let s := skip_white s in
  let '(negative, s) :=
    match s with
    | String "-"%char s' => (true, s')
    | String "+"%char s' => (false, s')
    | _ => (false, s)
    end in
  if caseless_prefix [105; 110; 102] s then Infinite negative
  else if caseless_prefix [110; 97; 110] s then NaN
  else
    let q := atof_number s in
    round_double (if negative then Qopp q else q).

(** The reader: [image->endian=quantum_scale < 0.0 ? LSBEndian : MSBEndian]. *)
Definition PFM_endian (quantum_scale : Double) : EndianType :=
  if lt_zero quantum_scale then LSBEndian else MSBEndian.

(** The reader: the row that receives the read numbered [offset],
    [(long) (image->rows-offset-1)]. *)
Definition PFM_target (rows offset : Z) : Z := rows - offset - 1.

(** The reader: the loop of case 'F'.  [extent] is [GetQuantumExtent] and
    [import] is [ImportQuantumPixels] with the floating point format, which
    returns the row and the number of bytes it consumed.  There is no
    progress monitor, and the cache syncs every row. *)
Definition PFM_read_rows (extent : Z)
    (import : list Z -> list PixelPacket -> list PixelPacket * Z)
    (queue : Z -> option (list PixelPacket)) (rows : nat) (blob pixels : list Z)
    : ReadResult RawState :=
  ReadRawRows extent None queue (fun _ => true) (PFM_target (Z.of_nat rows))
    (fun p q => let '(r, length) := import p q in (r, length =? extent))
    rows (raw_init blob pixels).

End PNM.

(** ** The parallel row loops of [ReadPNMImage]

    With OpenMP the iterations of a row loop run on several workers.  The
    embedding is an interleaving semantics: a configuration is the shared
    variables and the phase of every iteration, and a step advances one
    iteration by one phase.  [#pragma omp critical] makes the critical
    sections mutually exclusive; the stream and [row] are touched nowhere
    else, so a critical section is one step. *)

Module Parallel.
Import PNM.

(** Modelled from the spec: [GetQuantumPixels] of magick/quantum.c is not
    among the sources; section 5, the row buffer is exclusively owned per
    in-flight row: an iteration keeps the bytes it read, [pixels], until it
    imports them.

    The phases of one iteration.  [k] is a ghost: the number of the
    [ReadBlob] the iteration executed, counting the reads against the stream
    from 0. *)
Inductive Phase : Type :=
  | AtTop                                   (* before [if (status == MagickFalse)] *)
  | Waiting                                 (* before the critical section *)
  | HasRead (k : nat) (count offset : Z) (pixels : list Z)
                                            (* after the critical section *)
  | Counted (k : nat) (offset : Z) (pixels : list Z)
                                            (* after [if (count != extent)] *)
  | Finished.

(** One import into the pixel cache: the number of the read that delivered
    the bytes, the row of the cache, and the bytes. *)
Record Import : Type := mkImport {
  read_number : nat;
  cache_row : Z;
  imported : list Z
}.

Record Shared : Type := mkShared {
  blob : list Z;
  row : Z;
  status : bool;
  nreads : nat;                 (* ghost: the reads executed so far *)
  imports : list Import         (* ghost: the imports made so far *)
}.

Definition Config : Type := Shared * list Phase.

Section Loop.

Variable extent : Z.
Variable target : Z -> Z.

Inductive step : Config -> Config -> Prop :=
  | step_skip sh ph y :
      ph !! y = Some AtTop -> status sh = false ->
      step (sh, ph) (sh, <[y := Finished]> ph)
  | step_enter sh ph y :
      ph !! y = Some AtTop -> status sh = true ->
      step (sh, ph) (sh, <[y := Waiting]> ph)
  | step_critical sh ph y (proceed : bool) count pixels blob' :
      ph !! y = Some Waiting ->
      ReadBlob extent [] (blob sh) = (count, pixels, blob') ->
      step (sh, ph)
        (mkShared blob' (row sh + 1) (if proceed then status sh else false)
           (S (nreads sh)) (imports sh),
         <[y := HasRead (nreads sh) count (row sh) pixels]> ph)
  | step_count sh ph y k count offset pixels :
      ph !! y = Some (HasRead k count offset pixels) ->
      step (sh, ph)
        (mkShared (blob sh) (row sh)
           (if count =? extent then status sh else false)
           (nreads sh) (imports sh),
         <[y := Counted k offset pixels]> ph)
  | step_queue_null sh ph y k offset pixels :
      ph !! y = Some (Counted k offset pixels) ->
      step (sh, ph)
        (mkShared (blob sh) (row sh) false (nreads sh) (imports sh),
         <[y := Finished]> ph)
  | step_import sh ph y k offset pixels (sync : bool) :
      ph !! y = Some (Counted k offset pixels) ->
      step (sh, ph)
        (mkShared (blob sh) (row sh) (if sync then status sh else false)
           (nreads sh) (imports sh ++ [mkImport k (target offset) pixels]),
         <[y := Finished]> ph).

End Loop.

(** [row=0; status=MagickTrue] and every iteration at its top. *)
Definition init (blob : list Z) (rows : nat) : Config :=
  (mkShared blob 0 true 0 [], replicate rows AtTop).

(** The configurations some interleaving of the workers reaches. *)
Definition reachable (extent : Z) (target : Z -> Z) (blob : list Z) (rows : nat)
    (c : Config) : Prop :=
  rtc (step extent target) (init blob rows) c.

(** The bytes of read number [k] of a stream: the [k]-th block of [extent]
    bytes, shorter or empty at the end of the stream. *)
Definition chunk (extent : Z) (blob : list Z) (k : nat) : list Z :=
  take (Z.to_nat extent) (drop (k * Z.to_nat extent) blob).

End Parallel.

(** ** [ReadTIFFImage]: the alpha set-up and the colormap *)

Module TIFF.
Import Quantum.

(** Constants of libtiff's tiff.h. *)
Definition EXTRASAMPLE_ASSOCALPHA : Z := 1.
Definition EXTRASAMPLE_UNASSALPHA : Z := 2.
Definition PHOTOMETRIC_RGB : Z := 2.

Inductive QuantumAlphaType : Type :=
  | UndefinedQuantumAlpha
  | AssociatedQuantumAlpha
  | DisassociatedQuantumAlpha.

(** What the alpha set-up decides: [image->matte], [associated_alpha], the
    alpha type of [quantum_info] and the image property "tiff:alpha". *)
Record AlphaSetup : Type := mkAlpha {
  matte : bool;
  associated_alpha : bool;
  alpha_type : QuantumAlphaType;
  tiff_alpha : option string
}.

(** The explicit signals: the EXTRASAMPLES tag as [TIFFGetFieldDefaulted]
    delivers it ([extra_samples] entries in [sample_info]) and the image
    option "tiff:alpha" of the caller ([None] when it is not set). *)
Record AlphaSignal : Type := mkSignal {
  extra_samples : Z;
  sample_info : list Z;
  option_tiff_alpha : option string
}.

Section AlphaSetup.

(** [LocaleCompare(option,"associated") == 0] of magick/locale.c. *)
Variable is_associated : string -> bool.

(** From [associated_alpha=MagickFalse] to the [SetImageProperty] of
    "tiff:alpha".  [matte0] and [alpha_type0] are [image->matte] and the
    alpha type of [quantum_info] on entry; [sample_info[0]] is read only
    when [extra_samples] is not 0. *)
Definition alpha_setup (matte0 : bool) (alpha_type0 : QuantumAlphaType)
    (sig : AlphaSignal) (samples_per_pixel photometric : Z) : AlphaSetup :=
  let associated_alpha := false in
  let sample_info0 := List.nth 0 (sample_info sig) 0 in
  let '(matte, associated_alpha, alpha_type) :=
    if extra_samples sig =? 0
    then
      if (samples_per_pixel =? 4) && (photometric =? PHOTOMETRIC_RGB)
      then (true, associated_alpha, alpha_type0)
      else (matte0, associated_alpha, alpha_type0)
    else
      let '(matte, associated_alpha) :=
        if samples_per_pixel >? 3 then (true, false)
        else (matte0, associated_alpha) in
      let '(matte, associated_alpha) :=
        if sample_info0 =? EXTRASAMPLE_UNASSALPHA then (true, false)
        else (matte, associated_alpha) in
      if sample_info0 =? EXTRASAMPLE_ASSOCALPHA
      then (true, true, DisassociatedQuantumAlpha)
      else (matte, associated_alpha, alpha_type0) in
  let associated_alpha :=
    match option_tiff_alpha sig with
    | Some option => is_associated option
    | None => associated_alpha
    end in
  mkAlpha matte associated_alpha alpha_type
    (if matte
     then Some (if associated_alpha then "associated" else "unassociated")%string
     else None).

End AlphaSetup.




End TIFF.

(** ** What the statements below compare the code with *)

(** [v] is [num/den] rounded to the nearest integer, ties rounded up:
    [v - 1/2 <= num/den < v + 1/2]. *)
Definition rounds_half_up (num den v : Z) : Prop :=
  2 * den * v - den <= 2 * num < 2 * den * v + den.



(** The row assignment as it is claimed of every parallel loop: whatever
    the interleaving, the read numbered [k] is imported into row [k]. *)
Definition reads_land_in_row_k (extent : Z) (target : Z -> Z) (blob : list Z)
    (rows : nat) : Prop :=
  forall c, Parallel.reachable extent target blob rows c ->
  forall i, i ∈ Parallel.imports (fst c) ->
  Parallel.cache_row i = Z.of_nat (Parallel.read_number i).

(** The invariant of the parallel loop over the stream [blob0]. *)
Definition row_invariant (extent : Z) (target : Z -> Z) (blob0 : list Z)
    (c : Parallel.Config) : Prop :=
  let sh := fst c in
  Parallel.row sh = Z.of_nat (Parallel.nreads sh) /\
  Parallel.blob sh = drop (Parallel.nreads sh * Z.to_nat extent) blob0 /\
  (forall y k count offset pixels,
     snd c !! y = Some (Parallel.HasRead k count offset pixels) ->
     offset = Z.of_nat k /\ pixels = Parallel.chunk extent blob0 k) /\
  (forall y k offset pixels,
     snd c !! y = Some (Parallel.Counted k offset pixels) ->
     offset = Z.of_nat k /\ pixels = Parallel.chunk extent blob0 k) /\
  (forall i, i ∈ Parallel.imports sh ->
     Parallel.cache_row i = target (Z.of_nat (Parallel.read_number i)) /\
     Parallel.imported i = Parallel.chunk extent blob0 (Parallel.read_number i)).

(** A schedule of the PFM loop over two rows of one byte: iteration 0 runs
    from its top to its import. *)
Definition PFM_two_rows_after_first_import : Parallel.Config :=
  (Parallel.mkShared [9] 1 true 1 [Parallel.mkImport 0 1 [7]],
   [Parallel.Finished; Parallel.AtTop]).

(** A reader that returns an image to its caller. *)
Definition returns_image {A : Type} (r : PNM.ReadResult A) : Prop :=
  exists image, r = PNM.Returned image.

(** Truncated-row recovery as it is claimed of a raw row loop: when the
    stream is too short for the rows of the image, the reader still returns
    an image. *)
Definition recovers_truncated_rows (result : PNM.ReadResult PNM.RawState) : Prop :=
  returns_image result.

(** The raw PPM loop (case '6') on a 1x3 image with maximum sample 15 on
    the 8 bit build whose stream ends one byte into the last sample of row 1:
    the rows 15 0 15 and 15 15. *)
Definition truncated_P6_blob : list Z := [15; 0; 15; 15; 15].

Definition truncated_P6_loop : PNM.RawState :=
  PNM.raw_rows (PNM.extent_P6 4 1) None
    (fun _ => Some [PNM.mkPixel 0 0 0 0]) (fun _ => true) (fun offset => offset)
    (PNM.import_P6 255 4) 3 (PNM.raw_init truncated_P6_blob [0; 0; 0]).

Definition truncated_P6_read : PNM.ReadResult PNM.RawState :=
  PNM.ReadRawRows (PNM.extent_P6 4 1) None
    (fun _ => Some [PNM.mkPixel 0 0 0 0]) (fun _ => true) (fun offset => offset)
    (PNM.import_P6 255 4) 3 (PNM.raw_init truncated_P6_blob [0; 0; 0]).

(** A canonical pixel: the colour channels lie in [0, QuantumRange]. *)
Definition canonical_pixel (QuantumRange : Z) (p : PNM.PixelPacket) : Prop :=
  0 <= PNM.red p <= QuantumRange /\
  0 <= PNM.green p <= QuantumRange /\
  0 <= PNM.blue p <= QuantumRange.

(** The colour channels of two pixels differ by at most [bound] each. *)
Definition channels_within (bound : Z) (p p' : PNM.PixelPacket) : Prop :=
  Z.abs (PNM.red p' - PNM.red p) <= bound /\
  Z.abs (PNM.green p' - PNM.green p) <= bound /\
  Z.abs (PNM.blue p' - PNM.blue p) <= bound.

(** The rounding error of a rescale to [range] and back, in the form
    [2 * range * error <= QuantumRange + range]. *)
Definition channels_close (QuantumRange range : Z) (p p' : PNM.PixelPacket)
    : Prop :=
  2 * range * Z.abs (PNM.red p' - PNM.red p) <= QuantumRange + range /\
  2 * range * Z.abs (PNM.green p' - PNM.green p) <= QuantumRange + range /\
  2 * range * Z.abs (PNM.blue p' - PNM.blue p) <= QuantumRange + range.

(** A raw PPM row written at [depth] and read back into the queued row
    [queue], at the depth the reader derives from the header. *)
Definition P6_roundtrip (QuantumRange depth : Z) (matte : bool)
    (row queue : list PNM.PixelPacket) : list PNM.PixelPacket * bool :=
  PNM.import_P6 QuantumRange (PNM.image_depth (PNM.max_value_P6 depth))
    (PNM.write_row_P6 QuantumRange depth matte row) queue.

(** The round trip as it is claimed for depths of 8 and more: every channel
    is reproduced within one canonical unit. *)
Definition roundtrip_within_one (QuantumRange depth : Z) (matte : bool)
    (row queue : list PNM.PixelPacket) : Prop :=
  exists row', P6_roundtrip QuantumRange depth matte row queue = (row', true) /\
               Forall2 (channels_within 1) row row'.

(** The test that follows a row loop,
    [if (status == MagickFalse) ThrowReaderException(...)], on the
    configuration the workers leave. *)
Definition parallel_result (c : Parallel.Config)
    : PNM.ReadResult Parallel.Shared :=
  if Parallel.status (fst c) then PNM.Returned (fst c)
  else PNM.ThrowReaderException CorruptImageError "UnableToReadImageData".

(** Every iteration of the loop has finished. *)
Definition loop_done (c : Parallel.Config) : Prop :=
  Forall (fun p => p = Parallel.Finished) (snd c).

(** The iterations that have passed the test of [status]: each of them has
    made a read, unless it was skipped. *)
Definition started (p : Parallel.Phase) : Z :=
  match p with
  | Parallel.AtTop | Parallel.Waiting => 0
  | _ => 1
  end.

Definition started_count (ph : list Parallel.Phase) : Z :=
  foldr (fun p n => started p + n) 0 ph.

(** The read numbered [k] of the stream does not deliver [extent] bytes. *)
Definition short_read (extent : Z) (blob0 : list Z) (k : nat) : Prop :=
  Z.of_nat (length (Parallel.chunk extent blob0 k)) <> extent.

(** The invariant of [status] in the parallel loop over the stream [blob0]:
    as long as [status] is [MagickTrue] no iteration was skipped, and every
    read that came short is still waiting for the test of its [count]. *)
Definition status_invariant (extent : Z) (blob0 : list Z) (rows : nat)
    (c : Parallel.Config) : Prop :=
  let sh := fst c in
  length (snd c) = rows /\
  Parallel.blob sh = drop (Parallel.nreads sh * Z.to_nat extent) blob0 /\
  (forall y k count offset pixels,
     snd c !! y = Some (Parallel.HasRead k count offset pixels) ->
     count = Z.of_nat (length (Parallel.chunk extent blob0 k))) /\
  (Parallel.status sh = true ->
     Z.of_nat (Parallel.nreads sh) = started_count (snd c) /\
     forall k, (k < Parallel.nreads sh)%nat -> short_read extent blob0 k ->
       exists y count offset pixels,
         snd c !! y = Some (Parallel.HasRead k count offset pixels)).


(** The endianness of an image after it has been written as a PFM file
    and read back: the writer's scale line, [atof], the reader's test. *)
Definition PFM_endian_roundtrip (endian : PNM.EndianType) : PNM.EndianType :=
  PNM.PFM_endian (PNM.atof (PNM.PFM_scale_line endian)).

(** The endianness is preserved, as it is claimed of every image. *)
Definition PFM_preserves_endianness (endian : PNM.EndianType) : Prop :=
  PFM_endian_roundtrip endian = endian.

(** The alpha treatment as it is claimed of two files with the same explicit
    signals: the alpha set-up decides the same for both, whether there is an
    alpha channel, whether it is associated, the alpha type of the importer
    and the recorded property. *)
Definition same_alpha_treatment (a b : TIFF.AlphaSetup) : Prop :=
  TIFF.matte a = TIFF.matte b /\
  TIFF.associated_alpha a = TIFF.associated_alpha b /\
  TIFF.alpha_type a = TIFF.alpha_type b /\
  TIFF.tiff_alpha a = TIFF.tiff_alpha b.

(** ** More of coders/pnm.c: the header of a file *)

Module PNMHeader.
Import Quantum PNM.

(** [IsPNM(magick,extent)]: [magick] holds the first [extent] bytes of the
    file. *)
Definition IsPNM (magick : list Z) : bool :=
  match magick with
  | m0 :: m1 :: _ =>
      (m0 =? 80) &&
      ((m1 =? 49) || (m1 =? 50) || (m1 =? 51) || (m1 =? 52) || (m1 =? 53) ||
       (m1 =? 54) || (m1 =? 55) || (m1 =? 70) || (m1 =? 102))
  | _ => false
  end.

(** The number a run of decimal digits denotes. *)
Definition decimal_value (digits : list Z) : Z :=
  fold_left (fun v d => v * 10 + d) digits 0.

(** The characters of a run of decimal digits. *)
Definition digit_chars (digits : list Z) : list Z :=
  map (fun d => d + 48) digits.

Definition is_decimal_digit (d : Z) : Prop := 0 <= d <= 9.

(** A character [PNMInteger] passes over before a number: neither a digit
    nor the [#] of a comment. *)
Definition is_separator (c : Z) : Prop := isdigit c = false /\ c <> 35.

(** The writer: the comment of the image, written after the magic number.
    [value] is the property "comment", [None] when there is none; the text
    is a C string, given here by the bytes [(unsigned char) *p] of its
    characters (a byte is 10 or 13 exactly when the character is). *)
Fixpoint write_comment_text (p : list Z) : list Z :=
  match p with
  | [] => []
  | c :: p' =>
      let more := match p' with [] => false | _ => true end in
      [c] ++
      (if (c =? 13) && more then [35] else []) ++
      (if (c =? 10) && more then [35] else []) ++
      write_comment_text p'
  end.

Definition write_comment (value : option (list Z)) : list Z :=
  match value with
  | None => []
  | Some p => [35] ++ write_comment_text p ++ [10]
  end.

(** The writer: the choice of the format character from [magick[1]], the
    second character of the format name of [image_info].  [no_compression]
    is [image_info->compression == NoCompression], [true_color] is
    [image_info->type == TrueColorType], [gray] and [monochrome] are the
    answers of [IsGrayImage] and [IsMonochromeImage]. *)
Definition writer_format (magick1 : Z) (no_compression true_color gray
    monochrome : bool) : Z :=
  let default := if no_compression then 51 else 54 in
  if (magick1 =? 65) || (magick1 =? 97) then 55
  else if (magick1 =? 66) || (magick1 =? 98)
  then (if no_compression then 49 else 52)
  else if (magick1 =? 70) || (magick1 =? 102)
  then (if gray then 102 else 70)
  else if (magick1 =? 71) || (magick1 =? 103)
  then (if no_compression then 50 else 53)
  else if (magick1 =? 78) || (magick1 =? 110)
  then
    if negb true_color && gray
    then
      if monochrome then (if no_compression then 49 else 52)
      else (if no_compression then 50 else 53)
    else default
  else default.

(** The reader: the cases of [switch (format)]; the others leave through
    [ThrowReaderException(CorruptImageError,"ImproperImageHeader")]. *)
Definition reader_handles (format : Z) : bool :=
  (format =? 49) || (format =? 50) || (format =? 51) || (format =? 52) ||
  (format =? 53) || (format =? 54) || (format =? 55) || (format =? 70) ||
  (format =? 102).

End PNMHeader.

(** ** The magic numbers of the three coders *)

Module Magic.

(** Whether the bytes [magick] start with the bytes [pattern]
    ([memcmp(magick,pattern,n) == 0] on a buffer of at least [n] bytes). *)
Fixpoint starts_with (pattern magick : list Z) : bool :=
  match pattern, magick with
  | [], _ => true
  | p :: pattern', m :: magick' => (p =? m) && starts_with pattern' magick'
  | _ :: _, [] => false
  end.

(** [IsTIFF(magick,length)]; [big] is whether [TIFF_VERSION_BIG] is
    defined. *)
Definition IsTIFF (big : bool) (magick : list Z) : bool :=
  if Z.of_nat (length magick) <? 4 then false
  else if starts_with [77; 77; 0; 42] magick then true
  else if starts_with [73; 73; 42; 0] magick then true
  else if big
  then
    if Z.of_nat (length magick) <? 8 then false
    else if starts_with [77; 77; 0; 43; 0; 8; 0; 0] magick then true
    else if starts_with [73; 73; 43; 0; 8; 0; 0; 0] magick then true
    else false
  else false.

(** [IsPS(magick,length)]. *)
Definition IsPS (magick : list Z) : bool :=
  if Z.of_nat (length magick) <? 4 then false
  else if starts_with [37; 33] magick then true
  else if starts_with [4; 37; 33] magick then true
  else false.

End Magic.

(** What a raw row loop over [rows] rows may touch: it takes bytes from the
    front of the stream only, at most one extent per read, and every row in
    the pixel cache is the row of a read it has made. *)
Definition raw_loop_bounds (extent : Z) (target : Z -> Z) (blob : list Z)
    (rows : nat) (st : PNM.RawState) : Prop :=
  0 <= PNM.raw_row st <= Z.of_nat rows /\
  suffix (PNM.raw_blob st) blob /\
  Z.of_nat (length blob) - Z.of_nat (length (PNM.raw_blob st)) <=
    Z.max 0 extent * PNM.raw_row st /\
  (forall key, is_Some (PNM.raw_cache st !! key) ->
     exists offset, 0 <= offset < PNM.raw_row st /\ key = target offset).

(** A row at which a collaborator stops a raw row loop: the progress
    monitor answers no, the pixel cache delivers no row, or the sync of the
    row fails. *)
Definition stops_at (progress_monitor : option (Z -> bool))
    (queue : Z -> option (list PNM.PixelPacket)) (sync : Z -> bool)
    (target : Z -> Z) (offset : Z) : Prop :=
  (exists proceed, progress_monitor = Some proceed /\ proceed offset = false) \/
  queue (target offset) = None \/
  sync (target offset) = false.

(** ** More of coders/pnm.c: a whole file of the formats '1' to '6' *)

Module PNMFile.
Import Quantum PNM PNMHeader.

(** [FormatMagickString] with the conversion [%lu] (the [printf] of the C
    library): the decimal digits of an [unsigned long], without leading
    zeros.  Twenty digits hold every value below 2^64. *)
Fixpoint decimal_digits (fuel : nat) (n : Z) (acc : list Z) : list Z :=
  match fuel with
  | O => acc
  | S fuel' =>
      let acc' := n mod 10 :: acc in
      if n / 10 =? 0 then acc' else decimal_digits fuel' (n / 10) acc'
  end.

Definition format_lu (n : Z) : list Z := digit_chars (decimal_digits 20 n []).

(** The writer: the line with the maximum sample, after the line with the
    size.  The plain formats '2' and '3' write 255 or 65535, the raw formats
    '5' and '6' the range of the depth (after [if (image->depth > 8)
    image->depth=16]), the bitmap formats nothing. *)
Definition write_max_line (format depth : Z) : list Z :=
  if (format =? 50) || (format =? 51)
  then (if depth <=? 8 then format_lu 255 else format_lu 65535) ++ [10]
  else if (format =? 53) || (format =? 54)
  then format_lu (max_value_P6 depth) ++ [10]
  else [].

(** The writer: the header of a file of the formats '1' to '6':
    ["P%c\n"], the comment, ["%lu %lu\n"] with the size, and the line with
    the maximum sample. *)
Definition write_header (format : Z) (comment : option (list Z))
    (columns rows depth : Z) : list Z :=
  [80; format; 10] ++ write_comment comment ++
  format_lu columns ++ [32] ++ format_lu rows ++ [10] ++
  write_max_line format depth.

Record Header : Type := mkHeader {
  format : Z;
  columns : Z;
  rows : Z;
  max_value : Z;
  depth : Z
}.

(** [ReadBlobByte]: the next byte, or [EOF]. *)
Definition ReadBlobByte (blob : list Z) : Z * list Z :=
  match blob with
  | [] => (-1, [])
  | c :: blob' => (c, blob')
  end.

(** The reader: from [count=ReadBlob(image,1,&format)] to [image->depth],
    for the formats whose header is the size and a maximum sample.  The
    headers of PAM ('7') and PFM ('F', 'f') take other branches, which are
    not embedded: the result is [None] for them. *)
Definition read_header (blob : list Z) : option (ReadResult (Header * list Z)) :=
  match blob with
  | [] => Some (ThrowReaderException CorruptImageError "ImproperImageHeader")
  | p :: blob1 =>
      if negb (p =? 80)
      then Some (ThrowReaderException CorruptImageError "ImproperImageHeader")
      else
        let '(format, blob2) := ReadBlobByte blob1 in
        if (format =? 55) || (format =? 70) || (format =? 102) then None
        else
          let '(columns, blob3) := PNMInteger 10 blob2 in
          let '(rows, blob4) := PNMInteger 10 blob3 in
          let '(max_value, blob5) :=
            if (format =? 49) || (format =? 52) then (1, blob4)
            else PNMInteger 10 blob4 in
          if (columns =? 0) || (rows =? 0)
          then Some (ThrowReaderException CorruptImageError
                       "NegativeOrZeroImageSize")
          else if max_value >=? 65536
          then Some (ThrowReaderException CorruptImageError
                       "ImproperImageHeader")
          else Some (Returned
                       (mkHeader format columns rows max_value
                          (image_depth max_value), blob5))
  end.

(** The writer, case '6': the rows of the image one after the other, each
    handed to [WriteBlob] (which takes every byte). *)
Definition write_rows_P6 (QuantumRange depth : Z) (matte : bool)
    (image : list (list PixelPacket)) : list Z :=
  concat (map (write_row_P6 QuantumRange depth matte) image).

(** The reader, case '6': the row loop on the data that follows the header
    [h], without a progress monitor and with a pixel cache that delivers
    the rows [queued] and syncs every row. *)
Definition read_rows_P6 (QuantumRange : Z) (h : Header)
    (queued : Z -> list PixelPacket) (data pixels : list Z)
    : ReadResult RawState :=
  ReadRawRows (extent_P6 (depth h) (columns h)) None
    (fun r => Some (queued r)) (fun _ => true) (fun offset => offset)
    (import_P6 QuantumRange (depth h)) (Z.to_nat (rows h))
    (raw_init data pixels).

End PNMFile.

(** ** More of coders/pnm.c: the writers of the plain formats *)

Module PNMPlain.
Import Quantum PNM PNMHeader PNMFile.

(** The line buffer [pixels[2048]] of the plain writers: [line] is what
    lies between [pixels] and [q], [written] what has been handed to
    [WriteBlob]. *)
Record TextWriter : Type := mkWriter {
  line : list Z;
  written : list Z
}.

(** [if ((q-pixels+reserve) >= 80) { *q++='\n'; WriteBlob(...); q=pixels; }] *)
Definition flush_at (reserve : Z) (w : TextWriter) : TextWriter :=
  if Z.of_nat (length (line w)) + reserve >=? 80
  then mkWriter [] (written w ++ line w ++ [10])
  else w.

(** After the rows: [if (q != pixels) { *q++='\n'; WriteBlob(...); }] *)
Definition finish (w : TextWriter) : list Z :=
  match line w with
  | [] => written w
  | _ => written w ++ line w ++ [10]
  end.

(** Case '1', one pixel: [pixel] is [PixelIntensityToQuantum(p)]. *)
Definition write_P1_pixel (QuantumRange pixel : Z) (w : TextWriter)
    : TextWriter :=
  flush_at 2
    (mkWriter
       (line w ++ [if pixel >=? to_Quantum QuantumRange (QuantumRange / 2)
                   then 48 else 49; 32])
       (written w)).

(** Case '1': the pixels of the rows in their order. *)
Definition write_P1 (QuantumRange : Z) (pixels : list Z) : list Z :=
  finish (fold_left (fun w pixel => write_P1_pixel QuantumRange pixel w)
            pixels (mkWriter [] [])).

(** Case '2', one pixel: [sample] is the argument of ["%u "],
    [ScaleQuantumToChar(index)] or [ScaleQuantumToShort(index)]; [extent]
    is the length of the formatted text. *)
Definition write_P2_pixel (sample : Z) (w : TextWriter) : TextWriter :=
  let text := format_lu sample ++ [32] in
  flush_at (Z.of_nat (length text)) (mkWriter (line w ++ text) (written w)).

Definition write_P2 (samples : list Z) : list Z :=
  finish (fold_left (fun w sample => write_P2_pixel sample w) samples
            (mkWriter [] [])).

(** Case '3', one pixel: the arguments of ["%u %u %u "]. *)
Definition write_P3_pixel (sample : Z * Z * Z) (w : TextWriter) : TextWriter :=
  let '(r, g, b) := sample in
  let text := format_lu r ++ [32] ++ format_lu g ++ [32] ++ format_lu b ++ [32] in
  flush_at (Z.of_nat (length text)) (mkWriter (line w ++ text) (written w)).

Definition write_P3 (samples : list (Z * Z * Z)) : list Z :=
  finish (fold_left (fun w sample => write_P3_pixel sample w) samples
            (mkWriter [] [])).

(** A stream of numbers as the plain writers lay it out: every number is
    followed by a space and, where a line ends, by a newline. *)
Definition number_piece (text : list Z) (newline : bool) : list Z :=
  text ++ [32] ++ (if newline then [10] else []).

(** The lines of a stream: what it holds between its newlines, when it ends
    with a newline (or is empty). *)
Definition lines_of (blob : list Z) (lines : list (list Z)) : Prop :=
  blob = concat (map (fun l => l ++ [10]) lines) /\
  Forall (fun l => 10 ∉ l) lines.

End PNMPlain.

(** What the plain PBM writer and reader make of a pixel: the character the
    writer writes for it and the quantum the reader stores for that
    character. *)
Definition P1_char (QuantumRange pixel : Z) : Z :=
  if pixel >=? Quantum.to_Quantum QuantumRange (QuantumRange / 2) then 48 else 49.

Definition P1_quantum (QuantumRange pixel : Z) : Z :=
  if pixel >=? Quantum.to_Quantum QuantumRange (QuantumRange / 2)
  then QuantumRange else 0.

(** The stream of the plain PBM writer for the pixels [pixels], with a
    newline after the pixels whose tag is set. *)
Definition P1_stream (QuantumRange : Z) (pixels : list Z) (tags : list bool)
    : list Z :=
  concat (zip_with
            (fun pixel newline =>
               PNMPlain.number_piece [P1_char QuantumRange pixel] newline)
            pixels tags).

(** The invariant of the loop of case '1' after the pixels [pixels]. *)
Definition P1_invariant (QuantumRange : Z) (w : PNMPlain.TextWriter)
    (pixels : list Z) (tags : list bool) (lines : list (list Z)) (k : nat)
    : Prop :=
  PNMPlain.written w ++ PNMPlain.line w = P1_stream QuantumRange pixels tags /\
  length tags = length pixels /\
  PNMPlain.lines_of (PNMPlain.written w) lines /\
  Forall (fun l => (length l <= 78)%nat) lines /\
  (10 ∉ PNMPlain.line w) /\
  length (PNMPlain.line w) = (2 * k)%nat /\ (k <= 38)%nat.

(** The stream of the plain PGM and PPM writers for the numbers [samples],
    with a newline after the numbers whose tag is set. *)
Definition numbers_stream (samples : list Z) (tags : list bool) : list Z :=
  concat (zip_with
            (fun sample newline =>
               PNMPlain.number_piece (PNMFile.format_lu sample) newline)
            samples tags).

(** The numbers of a row of PPM samples, in the order they are written. *)
Definition flatten_samples (samples : list (Z * Z * Z)) : list Z :=
  concat (map (fun '(r, g, b) => [r; g; b]) samples).


(** ** coders/ps.c: hexadecimal data *)

Module PS.
Import Quantum PNM PNMPlain.

(** [isxdigit] of <ctype.h> in the C locale. *)
Definition isxdigit (c : Z) : bool :=
  ((48 <=? c) && (c <=? 57)) || ((65 <=? c) && (c <=? 70)) ||
  ((97 <=? c) && (c <=? 102)).

(** The table [short int hex_digits[256]] of [ReadPSImage]: cleared by
    [ResetMagickMemory], then the entries of the hexadecimal digits set one
    by one. *)
Definition ReadPS_hex_digits : list Z :=
  fold_left (fun table '(c, v) => <[Z.to_nat c := v]> table)
    [(48, 0); (49, 1); (50, 2); (51, 3); (52, 4); (53, 5); (54, 6); (55, 7);
     (56, 8); (57, 9);
     (97, 10); (98, 11); (99, 12); (100, 13); (101, 14); (102, 15);
     (65, 10); (66, 11); (67, 12); (68, 13); (69, 14); (70, 15)]
    (replicate 256 0).

(** The conversion to [int] of a value that does not fit. *)
Definition to_int (x : Z) : Z :=
  let m := x mod 2 ^ 32 in if m <? 2 ^ 31 then m else m - 2 ^ 32.

(** The loop of [ProfileInteger]: [i] hexadecimal digits are read, [l] is
    the byte read before, [value] the digits so far.  The result is the
    value with the bytes left in the blob; -1 is [EOF]. *)
Fixpoint ProfileInteger_loop (i l value : Z) (blob : list Z) : Z * list Z :=
  match blob with
  | [] => (-1, [])
  | c :: blob' =>
      if (c =? 37) && (l =? 37) then (-1, blob')
      else
        let c' := Z.land c 255 in
        if negb (isxdigit c') then ProfileInteger_loop i c value blob'
        else
          let value' :=
            to_int (to_ulong (Z.shiftl (to_ulong value) 4)) +
            default 0 (ReadPS_hex_digits !! Z.to_nat c') in
          if i + 1 <? 2 then ProfileInteger_loop (i + 1) c value' blob'
          else (value', blob')
  end.

Definition ProfileInteger (blob : list Z) : Z * list Z :=
  ProfileInteger_loop 0 0 0 blob.

(** The table [hex_digits] of [WritePSImage]; the entry after the last
    one is [NULL]. *)
Definition WritePS_hex_digits : list string :=
  [
     "00"; "01"; "02"; "03"; "04"; "05"; "06"; "07"; "08"; "09"; "0A"; "0B";
     "0C"; "0D"; "0E"; "0F"; "10"; "11"; "12"; "13"; "14"; "15"; "16"; "17";
     "18"; "19"; "1A"; "1B"; "1C"; "1D"; "1E"; "1F"; "20"; "21"; "22"; "23";
     "24"; "25"; "26"; "27"; "28"; "29"; "2A"; "2B"; "2C"; "2D"; "2E"; "2F";
     "30"; "31"; "32"; "33"; "34"; "35"; "36"; "37"; "38"; "39"; "3A"; "3B";
     "3C"; "3D"; "3E"; "3F"; "40"; "41"; "42"; "43"; "44"; "45"; "46"; "47";
     "48"; "49"; "4A"; "4B"; "4C"; "4D"; "4E"; "4F"; "50"; "51"; "52"; "53";
     "54"; "55"; "56"; "57"; "58"; "59"; "5A"; "5B"; "5C"; "5D"; "5E"; "5F";
     "60"; "61"; "62"; "63"; "64"; "65"; "66"; "67"; "68"; "69"; "6A"; "6B";
     "6C"; "6D"; "6E"; "6F"; "70"; "71"; "72"; "73"; "74"; "75"; "76"; "77";
     "78"; "79"; "7A"; "7B"; "7C"; "7D"; "7E"; "7F"; "80"; "81"; "82"; "83";
     "84"; "85"; "86"; "87"; "88"; "89"; "8A"; "8B"; "8C"; "8D"; "8E"; "8F";
     "90"; "91"; "92"; "93"; "94"; "95"; "96"; "97"; "98"; "99"; "9A"; "9B";
     "9C"; "9D"; "9E"; "9F"; "A0"; "A1"; "A2"; "A3"; "A4"; "A5"; "A6"; "A7";
     "A8"; "A9"; "AA"; "AB"; "AC"; "AD"; "AE"; "AF"; "B0"; "B1"; "B2"; "B3";
     "B4"; "B5"; "B6"; "B7"; "B8"; "B9"; "BA"; "BB"; "BC"; "BD"; "BE"; "BF";
     "C0"; "C1"; "C2"; "C3"; "C4"; "C5"; "C6"; "C7"; "C8"; "C9"; "CA"; "CB";
     "CC"; "CD"; "CE"; "CF"; "D0"; "D1"; "D2"; "D3"; "D4"; "D5"; "D6"; "D7";
     "D8"; "D9"; "DA"; "DB"; "DC"; "DD"; "DE"; "DF"; "E0"; "E1"; "E2"; "E3";
     "E4"; "E5"; "E6"; "E7"; "E8"; "E9"; "EA"; "EB"; "EC"; "ED"; "EE"; "EF";
     "F0"; "F1"; "F2"; "F3"; "F4"; "F5"; "F6"; "F7"; "F8"; "F9"; "FA"; "FB";
     "FC"; "FD"; "FE"; "FF"
  ]%string.

Definition char_code (a : ascii) : Z := Z.of_N (N_of_ascii a).

(** [PopHexPixel(hex_digits,pixel,pixels)]: the two bytes stored at
    [pixels]; [None] when [hex_digits[pixel]] is the [NULL] entry or lies
    outside the table. *)
Definition PopHexPixel (pixel : Z) : option (list Z) :=
  if pixel <? 0 then None
  else
    match WritePS_hex_digits !! Z.to_nat pixel with
    | Some (String a (String b _)) => Some [char_code a; char_code b]
    | _ => None
    end.

(** [MagickMin] of this coder, on [size_t]. *)
Definition MagickMin (x y : Z) : Z := if x <? y then x else y.

(** Bytes appended at the cursor [q] of the buffer [pixels[2048]]. *)
Definition store (bytes : option (list Z)) (w : TextWriter)
    : option TextWriter :=
  match bytes with
  | None => None
  | Some bytes => Some (mkWriter (line w ++ bytes) (written w))
  end.

Definition pop_pixels (pixels : list Z) : option (list Z) :=
  fold_right (fun pixel bytes =>
                match PopHexPixel pixel, bytes with
                | Some b, Some bs => Some (b ++ bs)
                | _, _ => None
                end) (Some []) pixels.

Section DirectClass.

(** [ScaleQuantumToChar] of magick/quantum.h; it returns an
    [unsigned char]. *)
Variable ScaleQuantumToChar : Z -> Z.
Variable QuantumRange : Z.
(** [image->matte] *)
Variable matte : bool.

(** The macro [WriteRunlengthPacket(image,pixel,length,p)]: the bytes it
    stores.  [p] is the pixel at the cursor of the row, [None] when the
    cursor is behind the row; it is read only when the image has a matte
    channel.  [TransparentOpacity] is [QuantumRange]. *)
Definition WriteRunlengthPacket (pixel : PixelPacket) (length : Z)
    (p : option PixelPacket) : option (list Z) :=
  let transparent :=
    if matte
    then match p with
         | None => None
         | Some p => Some (opacity p =? to_Quantum QuantumRange QuantumRange)
         end
    else Some false in
  match transparent with
  | None => None
  | Some true => pop_pixels [255; 255; 255; MagickMin length 255]
  | Some false =>
      pop_pixels [ScaleQuantumToChar (red pixel);
                  ScaleQuantumToChar (green pixel);
                  ScaleQuantumToChar (blue pixel); MagickMin length 255]
  end.

Definition same_pixel (p pixel : PixelPacket) : bool :=
  (red p =? red pixel) && (green p =? green pixel) &&
  (blue p =? blue pixel) && (opacity p =? opacity pixel).

(** The packet and the test of the line length that follows it. *)
Definition write_packet (pixel : PixelPacket) (length : Z)
    (p : option PixelPacket) (w : TextWriter) : option TextWriter :=
  option_map (flush_at 10) (store (WriteRunlengthPacket pixel length p) w).

(** The loop [for (x=0; x < columns; x++)] of the run-length encoded
    DirectClass rows, from column [x] on: [row] holds the pixels from the
    cursor [p] to the end of the row. *)
Fixpoint runlength_loop (columns x : Z) (row : list PixelPacket)
    (pixel : PixelPacket) (length : Z) (w : TextWriter)
    : option (PixelPacket * Z * TextWriter) :=
  match row with
  | [] => Some (pixel, length, w)
  | p :: row' =>
      if same_pixel p pixel && (length <? 255) && (x <? columns - 1)
      then runlength_loop columns (x + 1) row' p (length + 1) w
      else
        match (if x >? 0 then write_packet pixel length (Some p) w
               else Some w) with
        | None => None
        | Some w' => runlength_loop columns (x + 1) row' p 0 w'
        end
  end.

(** One row: [pixel = *p; length = 255;], the loop, and the packet written
    behind it, where the cursor is behind the row and [beyond] is what lies
    there.  [None]: a read outside the row or the table. *)
Definition runlength_row (row : list PixelPacket) (beyond : option PixelPacket)
    (w : TextWriter) : option TextWriter :=
  match row with
  | [] => None
  | p :: _ =>
      match runlength_loop (Z.of_nat (length row)) 0 row p 255 w with
      | None => None
      | Some (pixel, length, w') => write_packet pixel length beyond w'
      end
  end.

(** The rows in their order; [GetVirtualPixels] gives every row and the
    progress monitor lets the loop go on. *)
Fixpoint runlength_rows (rows : list (list PixelPacket * option PixelPacket))
    (w : TextWriter) : option TextWriter :=
  match rows with
  | [] => Some w
  | (row, beyond) :: rows' =>
      match runlength_row row beyond w with
      | None => None
      | Some w' => runlength_rows rows' w'
      end
  end.

(** What the run-length encoded DirectClass branch writes after its header
    line: the rows, the rest of the buffer and the newline of
    [WriteBlobByte]. *)
Definition WritePS_runlength
    (rows : list (list PixelPacket * option PixelPacket)) : option (list Z) :=
  option_map (fun w => finish w ++ [10])
    (runlength_rows rows (mkWriter [] [])).

End DirectClass.

(** The run-length encoded PseudoClass rows: the loop over the colormap
    indexes of a row. *)
Definition write_index_packet (index length : Z) (w : TextWriter)
    : option TextWriter :=
  store (pop_pixels [index; MagickMin length 255]) w.

Fixpoint index_loop (columns x : Z) (indexes : list Z) (index length : Z)
    (w : TextWriter) : option (Z * Z * TextWriter) :=
  match indexes with
  | [] => Some (index, length, w)
  | next :: indexes' =>
      if (index =? next) && (length <? 255) && (x <? columns - 1)
      then index_loop columns (x + 1) indexes' next (length + 1) w
      else
        match (if x >? 0
               then option_map (flush_at 6) (write_index_packet index length w)
               else Some w) with
        | None => None
        | Some w' => index_loop columns (x + 1) indexes' next 0 w'
        end
  end.

(** One row: [index = *indexes; length = 255;], the loop, and the packet
    stored behind it (no test of the line length follows that one). *)
Definition index_row (indexes : list Z) (w : TextWriter) : option TextWriter :=
  match indexes with
  | [] => None
  | index :: _ =>
      match index_loop (Z.of_nat (length indexes)) 0 indexes index 255 w with
      | None => None
      | Some (index', length', w') => write_index_packet index' length' w'
      end
  end.

Fixpoint index_rows (rows : list (list Z)) (w : TextWriter)
    : option TextWriter :=
  match rows with
  | [] => Some w
  | indexes :: rows' =>
      match index_row indexes w with
      | None => None
      | Some w' => index_rows rows' w'
      end
  end.

(** What the run-length encoded PseudoClass branch writes after the
    colormap: the rows, the rest of the buffer and the newline of
    [WriteBlobByte]. *)
Definition WritePS_index_runlength (rows : list (list Z)) : option (list Z) :=
  option_map (fun w => finish w ++ [10]) (index_rows rows (mkWriter [] [])).

(** The values [ProfileInteger] gives until it returns [EOF], as the loop
    that reads the ICC profile stores them. *)
Fixpoint profile_values (fuel : nat) (blob : list Z) : list Z :=
  match fuel with
  | O => []
  | S fuel' =>
      let '(c, blob') := ProfileInteger blob in
      if c =? -1 then [] else c :: profile_values fuel' blob'
  end.

End PS.

(** The pixels that a stream of DirectClass packets (red, green, blue and
    the length of the run less one) stands for, as the procedure
    DirectClassPacket of the prolog expands them. *)
Fixpoint expand_packets (values : list Z) : list (Z * Z * Z) :=
  match values with
  | r :: g :: b :: n :: values' =>
      replicate (Z.to_nat (n + 1)) (r, g, b) ++ expand_packets values'
  | _ => []
  end.

(** The indexes that a stream of PseudoClass packets (index and the length
    of the run less one) stands for. *)
Fixpoint expand_index_packets (values : list Z) : list Z :=
  match values with
  | index :: n :: values' =>
      replicate (Z.to_nat (n + 1)) index ++ expand_index_packets values'
  | _ => []
  end.

(** The two characters of a byte in the table of the writer. *)
Definition hex_pair (v : Z) : list Z := default [] (PS.PopHexPixel v).

(** A stream of pieces, with a newline after the pieces whose tag is
    set. *)
Definition pieces_stream (pieces : list (list Z)) (tags : list bool)
    : list Z :=
  concat (zip_with
            (fun (piece : list Z) (newline : bool) =>
               piece ++ (if newline then [10] else []))
            pieces tags).

(** The invariant of a line buffer: what has been written and what the
    buffer holds is the stream of the pieces, what has been written are
    lines of at most [bound] characters, and the buffer holds at most [m]
    characters, none a newline. *)
Definition buffer_invariant (bound m : nat) (w : PNMPlain.TextWriter)
    (pieces : list (list Z)) (tags : list bool) (lines : list (list Z))
    : Prop :=
  PNMPlain.written w ++ PNMPlain.line w = pieces_stream pieces tags /\
  length tags = length pieces /\
  PNMPlain.lines_of (PNMPlain.written w) lines /\
  Forall (fun l => (length l <= bound)%nat) lines /\
  (10 ∉ PNMPlain.line w) /\
  (length (PNMPlain.line w) <= m)%nat.

(** The characters of a list of bytes in the table of the writer. *)
Definition hex_piece (values : list Z) : list Z :=
  concat (map hex_pair values).

(** The values [ProfileInteger] gives on a blob until it returns [EOF]. *)
Definition profile_data (blob : list Z) : list Z :=
  PS.profile_values (S (length blob)) blob.

(** Bytes that [ProfileInteger] passes over: neither hexadecimal digits nor
    percent signs. *)
Definition is_filler (c : Z) : Prop :=
  PS.isxdigit (Z.land c 255) = false /\ c <> 37.

(** The pixels of a list of runs: the pixel of the run and the length of
    the run less one. *)
Definition unpack {A : Type} (packets : list (A * Z)) : list A :=
  concat (map (fun '(pixel, n) => replicate (Z.to_nat (n + 1)) pixel) packets).

(** The four bytes of a DirectClass packet. *)
Definition packet_values (ScaleQuantumToChar : Z -> Z)
    (packet : PNM.PixelPacket * Z) : list Z :=
  let '(pixel, n) := packet in
  [ScaleQuantumToChar (PNM.red pixel); ScaleQuantumToChar (PNM.green pixel);
   ScaleQuantumToChar (PNM.blue pixel); n].

(** The two bytes of a PseudoClass packet. *)
Definition index_packet_values (packet : Z * Z) : list Z :=
  let '(index, n) := packet in [index; n].

(** The colour bytes of a packet: those of the pixel, or 255 three times
    for a transparent one. *)
Definition packet_colour (ScaleQuantumToChar : Z -> Z) (transparent : bool)
    (pixel : PNM.PixelPacket) : list Z :=
  if transparent then [255; 255; 255]
  else [ScaleQuantumToChar (PNM.red pixel);
        ScaleQuantumToChar (PNM.green pixel);
        ScaleQuantumToChar (PNM.blue pixel)].


(** ** coders/tiff.c: the writer's alpha tags, the palette depth, the read
    method and the tiles *)

Module TIFFIO.
Import Quantum TIFF.

(** More constants of libtiff's tiff.h. *)
Definition PHOTOMETRIC_MINISWHITE : Z := 0.
Definition PHOTOMETRIC_MINISBLACK : Z := 1.
Definition PHOTOMETRIC_PALETTE : Z := 3.
Definition PHOTOMETRIC_SEPARATED : Z := 5.
Definition PHOTOMETRIC_CIELAB : Z := 8.
Definition PLANARCONFIG_CONTIG : Z := 1.
Definition PLANARCONFIG_SEPARATE : Z := 2.

(** The tags [WriteTIFFImage] sets for the matte channel: SAMPLESPERPIXEL,
    EXTRASAMPLES ([None] when the tag is not set) and the alpha type of
    [quantum_info]. *)
Record AlphaTags : Type := mkTags {
  tag_samples_per_pixel : Z;
  tag_extra_samples : option (Z * list Z);
  tag_alpha_type : QuantumAlphaType
}.

Section WriterAlpha.

(** [LocaleCompare(option,"associated") == 0] of magick/locale.c. *)
Variable is_associated : string -> bool.

(** [if (image->matte != MagickFalse) { ... }] of [WriteTIFFImage]:
    [property] is the image property "tiff:alpha", [samples_per_pixel] the
    value of the tag SAMPLESPERPIXEL set before. *)
Definition WriteTIFF_alpha (matte : bool) (property : option string)
    (samples_per_pixel : Z) (alpha_type0 : QuantumAlphaType) : AlphaTags :=
  if matte
  then
    let extra_samples := 1 in
    let sample_info0 := EXTRASAMPLE_UNASSALPHA in
    let sample_info0 :=
      match property with
      | Some option =>
          if is_associated option then EXTRASAMPLE_ASSOCALPHA
          else sample_info0
      | None => sample_info0
      end in
    mkTags (samples_per_pixel + 1) (Some (extra_samples, [sample_info0]))
      (if sample_info0 =? EXTRASAMPLE_ASSOCALPHA
       then AssociatedQuantumAlpha else alpha_type0)
  else mkTags samples_per_pixel None alpha_type0.

End WriterAlpha.

(** What [TIFFGetFieldDefaulted] delivers for the tag EXTRASAMPLES of a file
    written with the tags [tags], together with the image option
    "tiff:alpha" of the reading side. *)
Definition signal_of_tags (tags : AlphaTags) (option_tiff_alpha : option string)
    : AlphaSignal :=
  match tag_extra_samples tags with
  | Some (extra_samples, sample_info) =>
      mkSignal extra_samples sample_info option_tiff_alpha
  | None => mkSignal 0 [] option_tiff_alpha
  end.

(** The colormapped raster of [WriteTIFFImage]:
    [depth=1; while ((GetQuantumRange(depth)+1) < image->colors) depth<<=1;]
    on [unsigned long]. *)
Fixpoint palette_depth_loop (fuel : nat) (depth colors : Z) : Z :=
  match fuel with
  | O => depth
  | S fuel' =>
      if to_ulong (GetQuantumRange depth + 1) <? colors
      then palette_depth_loop fuel' (to_ulong (Z.shiftl depth 1)) colors
      else depth
  end.

Definition palette_depth (colors : Z) : Z := palette_depth_loop 7 1 colors.

(** The read methods of [ReadTIFFImage]. *)
Inductive TIFFMethod : Type :=
  | ReadSingleSampleMethod
  | ReadRGBAMethod
  | ReadCMYKAMethod
  | ReadStripMethod
  | ReadTileMethod
  | ReadGenericMethod.

(** From [method=ReadGenericMethod;] to the test of [TIFFIsTiled]: every
    test that holds overwrites the method chosen before.  [rows_per_strip]
    tells whether the tag ROWSPERSTRIP is set, [pseudo_class] whether the
    storage class of the image is PseudoClass. *)
Definition read_method (rows_per_strip : bool)
    (samples_per_pixel interlace photometric : Z)
    (pseudo_class tiled : bool) : TIFFMethod :=
  let method := ReadGenericMethod in
  let method := if rows_per_strip then ReadStripMethod else method in
  let method :=
    if (samples_per_pixel >=? 2) && (interlace =? PLANARCONFIG_CONTIG)
    then ReadRGBAMethod else method in
  let method :=
    if (samples_per_pixel >=? 2) && (interlace =? PLANARCONFIG_SEPARATE)
    then ReadCMYKAMethod else method in
  let method :=
    if negb (photometric =? PHOTOMETRIC_RGB) &&
       negb (photometric =? PHOTOMETRIC_CIELAB) &&
       negb (photometric =? PHOTOMETRIC_SEPARATED)
    then ReadGenericMethod else method in
  let method := if pseudo_class then ReadSingleSampleMethod else method in
  let method :=
    if (photometric =? PHOTOMETRIC_MINISBLACK) ||
       (photometric =? PHOTOMETRIC_MINISWHITE)
    then ReadSingleSampleMethod else method in
  let method := if tiled then ReadTileMethod else method in
  method.

(** [TIFFWritePixels] for a tiled file, the columns: the tiles of a row of
    tiles in the order of the loop over [i], each with its column origin
    [i*tile_geometry.width] (the argument of [TIFFWriteTile]) and
    [tile_width].  This is the layout of the loop; where it ends is
    [write_tiles] below. *)
Definition to_uint32 (x : Z) : Z := x mod 2 ^ 32.

Definition number_tiles (columns width : Z) : Z :=
  to_ulong (columns + width) / width.

Definition tile_width (columns width i : Z) : Z :=
  if i =? to_long (number_tiles columns width - 1)
  then to_ulong (columns - i * width)
  else width.

Definition tile_columns (columns width : Z) : list (Z * Z) :=
  map (fun i : nat =>
         (to_uint32 (to_ulong (Z.of_nat i * width)),
          tile_width columns width (Z.of_nat i)))
    (seq 0 (Z.to_nat (to_long (number_tiles columns width)))).

(** The tiles of one row of tiles as they reach libtiff: the row origin
    [(row/height)*height], the scanlines the copy loops read, and the column
    origins of the calls of [TIFFWriteTile] that were made, in their
    order. *)
Record TileBand (A : Type) : Type := mkBand {
  band_origin : Z;
  band_rows : list A;
  band_columns : list Z
}.
Arguments mkBand {A} _ _ _.
Arguments band_origin {A} _.
Arguments band_rows {A} _.
Arguments band_columns {A} _.

Section TileRows.

Context {A : Type}.

(** [TIFFWriteTile] of libtiff: the status it returns for the tile with the
    column origin [x] and the row origin [y].  A run writes the tile of an
    origin once, so a function of the origin stands for every behaviour of
    the library. *)
Variable TIFFWriteTile : Z -> Z -> Z.
(** [GetVirtualPixels] at a row: [false] is [NULL]. *)
Variable delivers : Z -> bool.
(** [None] when the image is not the first of its list; otherwise the
    answer of [SetImageProgress] at a row. *)
Variable progress_monitor : option (Z -> bool).

(** [TIFFWritePixels], the loop over the tiles from [status=0]: a negative
    status ends it.  The result is the column origins of the calls made and
    the status that is returned. *)
Fixpoint write_tiles (y : Z) (tiles : list (Z * Z)) (status : Z) : list Z * Z :=
  match tiles with
  | [] => ([], status)
  | (x, _) :: tiles' =>
      let status := TIFFWriteTile x y in
      if status <? 0 then ([x], status)
      else
        let '(written, status) := write_tiles y tiles' status in
        (x :: written, status)
  end.

(** [TIFFWritePixels] for a tiled file.  The scanline of row [row] is copied
    to the slot [row % tile_geometry.height] of [tiff_info->scanlines];
    unless this is the last slot or the last row of the image, the function
    returns 0.  Otherwise the tiles are written: the copy loops read the
    slots [j < (row % height)+1], and the row origin of the tiles is
    [(row/height)*height].  The result is the buffer, the status returned
    and the tiles written, if any. *)
Definition TIFFWritePixels (columns width rows height row : Z) (scanline : A)
    (scanlines : list A) : list A * Z * option (TileBand A) :=
  let slot := to_ulong row mod height in
  let scanlines := <[Z.to_nat slot := scanline]> scanlines in
  if negb (slot =? to_ulong (height - 1)) && negb (row =? to_long (rows - 1))
  then (scanlines, 0, None)
  else
    let y := to_uint32 (to_ulong (to_ulong row / height * height)) in
    let '(written, status) := write_tiles y (tile_columns columns width) 0 in
    (scanlines, status,
     Some (mkBand y (take (Z.to_nat (to_long (slot + 1))) scanlines) written)).

(** The loop over the rows of the image that calls [TIFFWritePixels]:
    [image] holds the exported scanlines from row [row] on; the result is
    what has been written, in its order.  The loop ends at a row the pixel
    cache does not deliver, when [TIFFWritePixels] returns -1 and when the
    progress monitor says so. *)
Fixpoint write_tile_rows (columns width rows height row : Z) (image : list A)
    (scanlines : list A) : list (TileBand A) :=
  match image with
  | [] => []
  | scanline :: image' =>
      if negb (delivers row) then []
      else
        let '(scanlines', status, band) :=
          TIFFWritePixels columns width rows height row scanline scanlines in
        let written :=
          match band with
          | None => []
          | Some band => [band]
          end in
        if status =? -1 then written
        else
          let proceed :=
            match progress_monitor with
            | Some proceed => proceed row
            | None => true
            end in
          if negb proceed then written
          else
            written ++
            write_tile_rows columns width rows height (row + 1) image'
              scanlines'
  end.

End TileRows.

End TIFFIO.

(** A band of tiles holds the rows of the image from its row origin on, at
    most [height] of them, and the origin is a multiple of [height]. *)
Definition band_of_image {A : Type} (height : Z) (image : list A)
    (band : TIFFIO.TileBand A) : Prop :=
  TIFFIO.band_rows band <> [] /\
  Z.of_nat (length (TIFFIO.band_rows band)) <= height /\
  TIFFIO.band_origin band mod height = 0 /\
  TIFFIO.band_rows band =
    take (length (TIFFIO.band_rows band))
      (drop (Z.to_nat (TIFFIO.band_origin band)) image).

(** Nothing ends the loops of the tiled writer before their time: the pixel
    cache delivers every row, libtiff returns no negative status, and the
    progress monitor lets the writer proceed. *)
Definition tile_writes_succeed (TIFFWriteTile : Z -> Z -> Z)
    (delivers : Z -> bool) (progress_monitor : option (Z -> bool)) : Prop :=
  (forall x y, 0 <= TIFFWriteTile x y) /\
  (forall y, delivers y = true) /\
  match progress_monitor with
  | Some proceed => forall y, proceed y = true
  | None => True
  end.

(** The read method as a list of priorities. *)
Definition method_by_priority (rows_per_strip : bool)
    (samples_per_pixel interlace photometric : Z)
    (pseudo_class tiled : bool) : TIFFIO.TIFFMethod :=
  if tiled then TIFFIO.ReadTileMethod
  else if pseudo_class || (photometric =? TIFFIO.PHOTOMETRIC_MINISBLACK) ||
          (photometric =? TIFFIO.PHOTOMETRIC_MINISWHITE)
  then TIFFIO.ReadSingleSampleMethod
  else if negb ((photometric =? TIFF.PHOTOMETRIC_RGB) ||
                (photometric =? TIFFIO.PHOTOMETRIC_CIELAB) ||
                (photometric =? TIFFIO.PHOTOMETRIC_SEPARATED))
  then TIFFIO.ReadGenericMethod
  else if (samples_per_pixel >=? 2) &&
          (interlace =? TIFFIO.PLANARCONFIG_SEPARATE)
  then TIFFIO.ReadCMYKAMethod
  else if (samples_per_pixel >=? 2) &&
          (interlace =? TIFFIO.PLANARCONFIG_CONTIG)
  then TIFFIO.ReadRGBAMethod
  else if rows_per_strip then TIFFIO.ReadStripMethod
  else TIFFIO.ReadGenericMethod.


(** ** coders/pnm.c, the PAM format (case '7'): reading *)

Module PAM.
Import Quantum PNM.

(** [OpaqueOpacity] of magick/image.h. *)
Definition OpaqueOpacity : Z := 0.

(** Case '7' of the reader, the default of the switch on the quantum type
    (RGB and RGB_ALPHA): the loops over [x] for depths other than 8 and
    16. *)
Fixpoint import_rgb_alpha (QuantumRange depth : Z) (matte : bool) (p : list Z)
    (q : list PixelPacket) : list PixelPacket :=
  match q with
  | [] => []
  | _ :: q' =>
      let range := GetQuantumRange depth in
      let '(pixel, p1) := push_sample depth p in
      let r := ScaleAnyToQuantum QuantumRange pixel range in
      let '(pixel, p2) := push_sample depth p1 in
      let g := ScaleAnyToQuantum QuantumRange pixel range in
      let '(pixel, p3) := push_sample depth p2 in
      let b := ScaleAnyToQuantum QuantumRange pixel range in
      let opacity := OpaqueOpacity in
      let '(opacity, p4) :=
        if matte
        then
          let '(pixel, p4) := push_sample depth p3 in
          (ScaleAnyToQuantum QuantumRange pixel range, p4)
        else (opacity, p3) in
      mkPixel r g b opacity :: import_rgb_alpha QuantumRange depth matte p4 q'
  end.

End PAM.


(** ** coders/pnm.c, the PAM format (case '7'): the header *)

Module PAMHeader.
Import Quantum PNM PNMHeader PNMFile.

(** The bytes of a string constant. *)
Fixpoint string_bytes (s : string) : list Z :=
  match s with
  | EmptyString => []
  | String a s' => Z.of_N (N_of_ascii a) :: string_bytes s'
  end.

(** [isspace] and [isalnum] of <ctype.h> in the C locale. *)
Definition isspace (c : Z) : bool := (c =? 32) || ((9 <=? c) && (c <=? 13)).

Definition isalnum (c : Z) : bool :=
  isdigit c || ((65 <=? c) && (c <=? 90)) || ((97 <=? c) && (c <=? 122)).

(** [MaxTextExtent] of magick/method-attribute.h. *)
Definition MaxTextExtent : Z := 4096.

(** [atol] of <stdlib.h> on a string of letters, digits and underscores (no
    white space and no sign come before the digits): the number of the
    leading digits, at most [LONG_MAX]. *)
Fixpoint atol_digits (value : Z) (s : list Z) : Z :=
  match s with
  | [] => value
  | c :: s' =>
      if isdigit c then atol_digits (value * 10 + (c - 48)) s' else value
  end.

Definition atol (s : list Z) : Z :=
  let value := atol_digits 0 s in
  if value >? 2 ^ 63 - 1 then 2 ^ 63 - 1 else value.

(** The writer: the PAM header, from ["WIDTH %lu\nHEIGHT %lu\n"] to
    ["TUPLTYPE %s\nENDHDR\n"].  [quantum_type] is the answer of
    [GetQuantumType]. *)
Definition PAM_type (quantum_type : QuantumType) (matte : bool) : list Z :=
  let type :=
    match quantum_type with
    | CMYKQuantum | CMYKAQuantum => string_bytes "CMYK"
    | GrayQuantum | GrayAlphaQuantum => string_bytes "GRAYSCALE"
    | _ => string_bytes "RGB"
    end in
  if matte then type ++ string_bytes "_ALPHA" else type.

Definition PAM_packet_size (quantum_type : QuantumType) (matte : bool) : Z :=
  let packet_size :=
    match quantum_type with
    | CMYKQuantum | CMYKAQuantum => 4
    | GrayQuantum | GrayAlphaQuantum => 1
    | _ => 3
    end in
  if matte then to_ulong (packet_size + 1) else packet_size.

Definition write_PAM_header (columns rows depth : Z)
    (quantum_type : QuantumType) (matte : bool) : list Z :=
  let depth := if depth >? 16 then 16 else depth in
  string_bytes "WIDTH " ++ format_lu columns ++ [10] ++
  string_bytes "HEIGHT " ++ format_lu rows ++ [10] ++
  string_bytes "DEPTH " ++ format_lu (PAM_packet_size quantum_type matte) ++
  [10] ++
  string_bytes "MAXVAL " ++ format_lu (GetQuantumRange depth) ++ [10] ++
  string_bytes "TUPLTYPE " ++ PAM_type quantum_type matte ++ [10] ++
  string_bytes "ENDHDR" ++ [10].

(** What the PAM header sets in the reader. *)
Record PAMState : Type := mkPAM {
  packet_size : Z;
  pam_rows : Z;
  pam_columns : Z;
  pam_max_value : Z;
  quantum_type : QuantumType;
  pam_matte : bool;
  cmyk : bool
}.

(** [while (isspace((int) ((unsigned char) c)) != 0) c=ReadBlobByte(image);]
    on the character [c] and the blob behind it. *)
Fixpoint skip_space (c : Z) (blob : list Z) : Z * list Z :=
  match blob with
  | [] => if isspace (to_uchar c) then (-1, []) else (c, [])
  | c' :: blob' =>
      if isspace (to_uchar c) then skip_space c' blob' else (c, blob)
  end.

(** [if ((size_t) (p-keyword) < (MaxTextExtent-1)) *p++=c;] *)
Definition store_char (p : list Z) (c : Z) : list Z :=
  if Z.of_nat (length p) <? MaxTextExtent - 1 then p ++ [to_uchar c] else p.

(** [do { ...; c=ReadBlobByte(image); } while (isalnum(c));] *)
Fixpoint read_keyword (c : Z) (p : list Z) (blob : list Z)
    : list Z * Z * list Z :=
  let p := store_char p c in
  match blob with
  | [] => (p, -1, [])
  | c' :: blob' =>
      if isalnum c' then read_keyword c' p blob' else (p, c', blob')
  end.

(** [while (isalnum(c) || (c == '_')) { ...; c=ReadBlobByte(image); }] *)
Fixpoint read_value (c : Z) (p : list Z) (blob : list Z)
    : list Z * Z * list Z :=
  match blob with
  | [] =>
      if isalnum c || (c =? 95) then (store_char p c, -1, []) else (p, c, [])
  | c' :: blob' =>
      if isalnum c || (c =? 95) then read_value c' (store_char p c) blob'
      else (p, c, blob)
  end.

Section Reader.

(** [LocaleCompare(p,q) == 0] of magick/locale.c. *)
Variable LocaleCompare : list Z -> list Z -> bool.

(** The tests of the value of TUPLTYPE, one after the other, on
    [quantum_type], [image->matte] and [image->colorspace]. *)
Definition assign_type (value : list Z) (st : PAMState) : PAMState :=
  let quantum_type := quantum_type st in
  let matte := pam_matte st in
  let cmyk := cmyk st in
  let quantum_type :=
    if LocaleCompare value (string_bytes "BLACKANDWHITE")
    then GrayQuantum else quantum_type in
  let black_and_white_alpha :=
    LocaleCompare value (string_bytes "BLACKANDWHITE_ALPHA") in
  let quantum_type :=
    if black_and_white_alpha then GrayAlphaQuantum else quantum_type in
  let matte := if black_and_white_alpha then true else matte in
  let quantum_type :=
    if LocaleCompare value (string_bytes "GRAYSCALE")
    then GrayQuantum else quantum_type in
  let grayscale_alpha :=
    LocaleCompare value (string_bytes "GRAYSCALE_ALPHA") in
  let quantum_type :=
    if grayscale_alpha then GrayAlphaQuantum else quantum_type in
  let matte := if grayscale_alpha then true else matte in
  let rgb_alpha := LocaleCompare value (string_bytes "RGB_ALPHA") in
  let quantum_type := if rgb_alpha then RGBAQuantum else quantum_type in
  let matte := if rgb_alpha then true else matte in
  let is_cmyk := LocaleCompare value (string_bytes "CMYK") in
  let quantum_type := if is_cmyk then CMYKQuantum else quantum_type in
  let cmyk := if is_cmyk then true else cmyk in
  let cmyk_alpha := LocaleCompare value (string_bytes "CMYK_ALPHA") in
  let quantum_type := if cmyk_alpha then CMYKAQuantum else quantum_type in
  let cmyk := if cmyk_alpha then true else cmyk in
  let matte := if cmyk_alpha then true else matte in
  mkPAM (packet_size st) (pam_rows st) (pam_columns st) (pam_max_value st)
    quantum_type matte cmyk.

(** "Assign a value to the specified keyword." *)
Definition assign (keyword value : list Z) (st : PAMState) : PAMState :=
  let st :=
    if LocaleCompare keyword (string_bytes "depth")
    then mkPAM (to_ulong (atol value)) (pam_rows st) (pam_columns st)
           (pam_max_value st) (quantum_type st) (pam_matte st) (cmyk st)
    else st in
  let st :=
    if LocaleCompare keyword (string_bytes "height")
    then mkPAM (packet_size st) (to_ulong (atol value)) (pam_columns st)
           (pam_max_value st) (quantum_type st) (pam_matte st) (cmyk st)
    else st in
  let st :=
    if LocaleCompare keyword (string_bytes "maxval")
    then mkPAM (packet_size st) (pam_rows st) (pam_columns st)
           (to_ulong (atol value)) (quantum_type st) (pam_matte st) (cmyk st)
    else st in
  let st :=
    if LocaleCompare keyword (string_bytes "TUPLTYPE")
    then assign_type value st
    else st in
  let st :=
    if LocaleCompare keyword (string_bytes "width")
    then mkPAM (packet_size st) (pam_rows st) (to_ulong (atol value))
           (pam_max_value st) (quantum_type st) (pam_matte st) (cmyk st)
    else st in
  st.

(** [for (c=ReadBlobByte(image); c != EOF; c=ReadBlobByte(image)) { ... }]:
    the result is the state and the blob behind the header. *)
Fixpoint PAM_header_loop (fuel : nat) (c : Z) (blob : list Z) (st : PAMState)
    : PAMState * list Z :=
  match fuel with
  | O => (st, blob)
  | S fuel' =>
      if c =? -1 then (st, blob)
      else
        let '(c, blob) := skip_space c blob in
        let '(keyword, c, blob) := read_keyword c [] blob in
        if LocaleCompare keyword (string_bytes "endhdr") then (st, blob)
        else
          let '(c, blob) := skip_space c blob in
          let '(value, c, blob) := read_value c [] blob in
          let st := assign keyword value st in
          let '(c, blob) := ReadBlobByte blob in
          PAM_header_loop fuel' c blob st
  end.

(** The PAM branch of the header of the reader, on the blob behind the
    format character: every turn of the loop takes a byte, so the length of
    the blob is fuel enough.  [st] holds [max_value=1],
    [quantum_type=RGBQuantum] and what the image has on entry. *)
Definition read_PAM_header (blob : list Z) (st : PAMState)
    : PAMState * list Z :=
  let '(c, blob') := ReadBlobByte blob in
  PAM_header_loop (S (length blob)) c blob' st.

End Reader.

End PAMHeader.

(** Comparison of two strings that ignores the case of the letters. *)
Definition toupper (c : Z) : Z :=
  if (97 <=? c) && (c <=? 122) then c - 32 else c.

Fixpoint caseless_eq (p q : list Z) : bool :=
  match p, q with
  | [], [] => true
  | c :: p', d :: q' => (toupper c =? toupper d) && caseless_eq p' q'
  | _, _ => false
  end.

(** The quantum type the PAM header of the writer stands for. *)
Definition PAM_quantum_type (quantum_type : PNM.QuantumType) (matte : bool)
    : PNM.QuantumType :=
  match quantum_type with
  | PNM.CMYKQuantum | PNM.CMYKAQuantum =>
      if matte then PNM.CMYKAQuantum else PNM.CMYKQuantum
  | PNM.GrayQuantum | PNM.GrayAlphaQuantum =>
      if matte then PNM.GrayAlphaQuantum else PNM.GrayQuantum
  | _ => if matte then PNM.RGBAQuantum else PNM.RGBQuantum
  end.


(** The number of the read whose bytes an iteration of the parallel loop
    holds between its critical section and its import. *)
Definition held_read (p : Parallel.Phase) : option nat :=
  match p with
  | Parallel.HasRead k _ _ _ => Some k
  | Parallel.Counted k _ _ => Some k
  | _ => None
  end.

(** The reads of the parallel loop are handed out once: the read an
    iteration holds is one that was executed, no other iteration holds it
    and it is not imported yet; the imports are of reads that were executed,
    each at most once. *)
Definition reads_invariant (c : Parallel.Config) : Prop :=
  let sh := fst c in
  (forall y p k,
     snd c !! y = Some p -> held_read p = Some k ->
     (k < Parallel.nreads sh)%nat /\
     k ∉ map Parallel.read_number (Parallel.imports sh)) /\
  (forall y1 y2 p1 p2 k,
     snd c !! y1 = Some p1 -> held_read p1 = Some k ->
     snd c !! y2 = Some p2 -> held_read p2 = Some k -> y1 = y2) /\
  (forall i, i ∈ Parallel.imports sh ->
     (Parallel.read_number i < Parallel.nreads sh)%nat) /\
  NoDup (map Parallel.read_number (Parallel.imports sh)).


(** ** coders/ps.c: the bitmap of a monochrome image *)

Module PSBitmap.
Import Quantum PNM PNMPlain PS.

(** "Dump image as bitmap": the loop over [x], from the pixels [row] at the
    cursor on.  A pixel is given by its [PixelIntensityToQuantum]; [bit] and
    [byte] are [unsigned long]. *)
Fixpoint bitmap_loop (QuantumRange : Z) (row : list Z) (bit byte : Z)
    (w : TextWriter) : option (Z * Z * TextWriter) :=
  match row with
  | [] => Some (bit, byte, w)
  | pixel :: row' =>
      let byte := to_ulong (Z.shiftl byte 1) in
      let byte :=
        if pixel >=? to_Quantum QuantumRange (QuantumRange / 2)
        then Z.lor byte 1 else byte in
      let bit := to_ulong (bit + 1) in
      if bit =? 8
      then
        match store (PopHexPixel byte) w with
        | None => None
        | Some w' => bitmap_loop QuantumRange row' 0 0 (flush_at 2 w')
        end
      else bitmap_loop QuantumRange row' bit byte w
  end.

(** One row: [bit=0; byte=0;], the loop, and the byte of the pixels that
    are left, [byte<<=(8-bit)]. *)
Definition bitmap_row (QuantumRange : Z) (row : list Z) (w : TextWriter)
    : option TextWriter :=
  match bitmap_loop QuantumRange row 0 0 w with
  | None => None
  | Some (bit, byte, w') =>
      if negb (bit =? 0)
      then option_map (flush_at 2)
             (store (PopHexPixel (to_ulong (Z.shiftl byte (8 - bit)))) w')
      else Some w'
  end.

Fixpoint bitmap_rows (QuantumRange : Z) (rows : list (list Z))
    (w : TextWriter) : option TextWriter :=
  match rows with
  | [] => Some w
  | row :: rows' =>
      match bitmap_row QuantumRange row w with
      | None => None
      | Some w' => bitmap_rows QuantumRange rows' w'
      end
  end.

(** What the bitmap branch writes after its header line. *)
Definition WritePS_bitmap (QuantumRange : Z) (rows : list (list Z))
    : option (list Z) :=
  option_map finish (bitmap_rows QuantumRange rows (mkWriter [] [])).

End PSBitmap.

(** The number of a run of bits, the first bit the most significant. *)
Definition bits_value (bits : list bool) : Z :=
  fold_left (fun v (b : bool) => 2 * v + (if b then 1 else 0)) bits 0.

(** The byte of at most eight pixels: the first pixel is the most
    significant bit, the bits that are left are zero. *)
Definition bits_byte (bits : list bool) : Z :=
  bits_value bits * 2 ^ (8 - Z.of_nat (length bits)).

(** The bytes of a row of bits, eight to a byte. *)
Fixpoint pack_bits (bits : list bool) : list Z :=
  match bits with
  | [] => []
  | b0 :: b1 :: b2 :: b3 :: b4 :: b5 :: b6 :: b7 :: bits' =>
      bits_byte [b0; b1; b2; b3; b4; b5; b6; b7] :: pack_bits bits'
  | _ => [bits_byte bits]
  end.


(** ** coders/tiff.c: the strips of [ReadStripMethod] *)

Module TIFFStrip.
Import Quantum PNM.

(** [MagickMin] of this coder, on [long]. *)
Definition MagickMin (x y : Z) : Z := if x <? y then x else y.

(** The macros of libtiff's tiffio.h that take the channels out of a packed
    pixel of the raster. *)
Definition TIFFGetR (abgr : Z) : Z := Z.land abgr 255.
Definition TIFFGetG (abgr : Z) : Z := Z.land (Z.shiftr abgr 8) 255.
Definition TIFFGetB (abgr : Z) : Z := Z.land (Z.shiftr abgr 16) 255.
Definition TIFFGetA (abgr : Z) : Z := Z.land (Z.shiftr abgr 24) 255.

Section Strip.

(** [ScaleCharToQuantum] of magick/quantum.h. *)
Variable ScaleCharToQuantum : Z -> Z.
(** [image->matte]. *)
Variable matte : bool.
(** [QueueAuthenticPixels] at a row: [None] is [NULL]. *)
Variable queue : Z -> option (list PixelPacket).
(** [TIFFReadRGBAStrip] at a row: [None] is the return value 0; otherwise
    the bytes it leaves in [pixels], the raster of the strip. *)
Variable TIFFReadRGBAStrip : Z -> option (list Z).
(** [SyncAuthenticPixels] at a row. *)
Variable sync : Z -> bool.
(** [None] when the image is not the first of its list; otherwise the
    answer of [SetImageProgress] at a row. *)
Variable progress_monitor : option (Z -> bool).

(** The loop over [x].  The cursor [p] is an [unsigned char *]: [*p] is one
    byte of the buffer, and [p++] moves on by one byte.  [p] holds the bytes
    of the buffer from the cursor on; the result is [None] when the cursor
    leaves the buffer. *)
Fixpoint strip_pixels (p : list Z) (q : list PixelPacket)
    : option (list PixelPacket) :=
  match q with
  | [] => Some []
  | q0 :: q' =>
      match p with
      | [] => None
      | byte :: p' =>
          let byte := to_uchar byte in
          let pixel :=
            mkPixel (ScaleCharToQuantum (to_uchar (TIFFGetR byte)))
              (ScaleCharToQuantum (to_uchar (TIFFGetG byte)))
              (ScaleCharToQuantum (to_uchar (TIFFGetB byte)))
              (if matte
               then ScaleCharToQuantum (to_uchar (TIFFGetA byte))
               else opacity q0) in
          match strip_pixels p' q' with
          | None => None
          | Some row => Some (pixel :: row)
          end
      end
  end.

(** [case ReadStripMethod]: the loop over the rows from row [y] on, with
    the counter [i] and the buffer [pixels]; [fuel] is the number of rows
    that are left.  The result is the rows that were synced to the pixel
    cache, in their order. *)
Fixpoint strip_rows (fuel : nat) (columns rows rows_per_strip y i : Z)
    (pixels : list Z) : option (list (Z * list PixelPacket)) :=
  match fuel with
  | O => Some []
  | S fuel' =>
      match queue y with
      | None => Some []
      | Some q =>
          let read := i =? 0 in
          match (if read then TIFFReadRGBAStrip (TIFFIO.to_uint32 y)
                 else Some pixels) with
          | None => Some []
          | Some pixels =>
              let i :=
                if read
                then to_long (MagickMin (to_long rows_per_strip)
                                (to_long rows - y))
                else i in
              let i := i - 1 in
              let offset := to_ulong (columns * to_ulong i) in
              match strip_pixels (drop (Z.to_nat offset) pixels) q with
              | None => None
              | Some row =>
                  if negb (sync y) then Some []
                  else
                    let proceed :=
                      match progress_monitor with
                      | Some proceed => proceed y
                      | None => true
                      end in
                    if negb proceed then Some [(y, row)]
                    else
                      match strip_rows fuel' columns rows rows_per_strip
                              (y + 1) i pixels with
                      | None => None
                      | Some synced => Some ((y, row) :: synced)
                      end
              end
          end
      end
  end.

(** From [i=0] and row 0, with the buffer of [GetQuantumPixels]. *)
Definition ReadStripMethod (columns rows rows_per_strip : Z) (pixels : list Z)
    : option (list (Z * list PixelPacket)) :=
  strip_rows (Z.to_nat (to_long rows)) columns rows rows_per_strip 0 0 pixels.

End Strip.

End TIFFStrip.

(** The pixel the strip method makes of one byte of the raster: the byte
    is the red channel; green, blue and, with a matte channel, the opacity
    are what [ScaleCharToQuantum] gives for 0. *)
Definition strip_byte_pixel (ScaleCharToQuantum : Z -> Z) (matte : bool)
    (byte : Z) (q : PNM.PixelPacket) : PNM.PixelPacket :=
  PNM.mkPixel (ScaleCharToQuantum (Quantum.to_uchar byte))
    (ScaleCharToQuantum 0) (ScaleCharToQuantum 0)
    (if matte then ScaleCharToQuantum 0 else PNM.opacity q).

(** Nothing ends the loop of the strip method before its time: the pixel
    cache queues and syncs every row, with [columns] pixels each, libtiff
    delivers every strip, with at least [columns] bytes for each of its
    rows, and the progress monitor lets the reader proceed. *)
Definition strip_reads_succeed (columns rows rows_per_strip : Z)
    (queue : Z -> option (list PNM.PixelPacket))
    (TIFFReadRGBAStrip : Z -> option (list Z)) (sync : Z -> bool)
    (progress_monitor : option (Z -> bool)) : Prop :=
  (forall y, 0 <= y < rows ->
     exists q, queue y = Some q /\ Z.of_nat (length q) = columns) /\
  (forall start, 0 <= start < rows -> start mod rows_per_strip = 0 ->
     exists raster,
       TIFFReadRGBAStrip start = Some raster /\
       columns * Z.min rows_per_strip (rows - start) <=
       Z.of_nat (length raster)) /\
  (forall y, sync y = true) /\
  match progress_monitor with
  | Some proceed => forall y, proceed y = true
  | None => True
  end.

(** * Properties *)

(** ** Arithmetic of the rescale *)

Section Rescale.
Import Quantum.

Lemma round_half_up_div_rounds (a b : Z) :
  0 < b -> rounds_half_up a b (round_half_up_div a b).
Proof.
  intros Hb. unfold rounds_half_up, round_half_up_div.
  pose proof (Z.div_mod (2 * a + b) (2 * b) ltac:(lia)) as Hdm.
  pose proof (Z.mod_pos_bound (2 * a + b) (2 * b) ltac:(lia)) as Hm.
  lia.
Qed.

Lemma rounds_half_up_unique (a b v w : Z) :
  0 < b -> rounds_half_up a b v -> rounds_half_up a b w -> v = w.
Proof. unfold rounds_half_up. intros Hb Hv Hw. nia. Qed.

Lemma round_half_up_div_range (QuantumRange range s : Z) :
  0 <= QuantumRange -> 0 < range -> 0 <= s <= range ->
  0 <= round_half_up_div (QuantumRange * s) range <= QuantumRange.
Proof.
  intros HQ Hr Hs. unfold round_half_up_div. split.
  - apply Z.div_pos; nia.
  - enough (HH : (2 * (QuantumRange * s) + range) / (2 * range) < QuantumRange + 1)
      by lia.
    apply Z.div_lt_upper_bound; nia.
Qed.

Lemma to_Quantum_small (QuantumRange x : Z) :
  0 <= x <= QuantumRange -> to_Quantum QuantumRange x = x.
Proof. intros H. unfold to_Quantum. apply Z.mod_small. lia. Qed.

Lemma to_long_small (x : Z) : 0 <= x < 2 ^ 63 -> to_long x = x.
Proof.
  intros H. unfold to_long.
  rewrite Z.mod_small by lia.
  destruct (Z.ltb_spec x (2 ^ 63)); lia.
Qed.

Lemma ScaleAnyToQuantum_rounds (QuantumRange range s : Z) :
  0 <= QuantumRange -> 0 < range -> 0 <= s <= range ->
  rounds_half_up (QuantumRange * s) range (ScaleAnyToQuantum QuantumRange s range).
Proof.
  intros HQ Hr Hs. unfold ScaleAnyToQuantum.
  rewrite to_Quantum_small by (apply round_half_up_div_range; lia).
  apply round_half_up_div_rounds; lia.
Qed.


Lemma round_half_up_div_same (b x : Z) :
  0 < b -> round_half_up_div (b * x) b = x.
Proof.
  intros Hb. unfold round_half_up_div.
  replace (2 * (b * x) + b) with (x * (2 * b) + b) by lia.
  rewrite Z.div_add_l by lia. rewrite Z.div_small by lia. lia.
Qed.

End Rescale.

(** ** The scale table *)

Section ScaleTable.
Import Quantum PNM.

Lemma scale_table_lookup (QuantumRange max_value : Z) (table : list Z) (i : Z) :
  scale_table QuantumRange max_value = Some table ->
  0 <= i <= max_value ->
  table_get table i = Some (scale_entry QuantumRange max_value i).
Proof.
  unfold scale_table, table_get. intros Ht Hi.
  destruct (max_value =? QuantumRange); [discriminate|].
  injection Ht as <-.
  destruct (Z.ltb_spec i 0) as [?|_]; [lia|].
  rewrite list_lookup_fmap, lookup_seq_lt by lia.
  simpl. f_equal. f_equal. lia.
Qed.

Lemma scale_table_length (QuantumRange max_value : Z) (table : list Z) :
  scale_table QuantumRange max_value = Some table ->
  length table = Z.to_nat (max_value + 1).
Proof.
  unfold scale_table. intros Ht.
  destruct (max_value =? QuantumRange); [discriminate|].
  injection Ht as <-. by rewrite length_map, length_seq.
Qed.

Lemma table_get_Some (table : list Z) (i : Z) :
  0 <= i < Z.of_nat (length table) -> is_Some (table_get table i).
Proof.
  intros Hi. unfold table_get.
  destruct (Z.ltb_spec i 0) as [?|_]; [lia|].
  apply lookup_lt_is_Some. lia.
Qed.

End ScaleTable.

(** ** The TIFF colormap *)

Section Colormap.
Import Quantum TIFF.



End Colormap.




(** C4. Scaling identity fast path: with [max_value == QuantumRange] the
    decoder allocates no scale table and stores the sample it read
    unchanged, for every sample in [0, QuantumRange]; the rescale itself is
    the identity at that maximum. *)
Theorem scaling_identity_fast_path (QuantumRange x : Z) :
  0 < QuantumRange -> 0 <= x <= QuantumRange ->
  PNM.scale_table QuantumRange QuantumRange = None /\
  (forall q st blob',
     PNM.PNMInteger 10 (PNM.text_blob st) = (x, blob') ->
     PNM.PGM_pixel QuantumRange QuantumRange
       (PNM.scale_table QuantumRange QuantumRange) q st =
     Some (PNM.mkPixel x x x (PNM.opacity q),
           PNM.mkText blob' (PNM.text_exceptions st))) /\
  Quantum.ScaleAnyToQuantum QuantumRange x QuantumRange = x.
Proof.
  intros HQ Hx.
  assert (PNM.scale_table QuantumRange QuantumRange = None) as Hnone.
  { unfold PNM.scale_table. by rewrite Z.eqb_refl. }
  split; [exact Hnone|split].
  - intros q st blob' Hint. unfold PNM.PGM_pixel.
    rewrite Hint, Hnone. by rewrite to_Quantum_small.
  - unfold Quantum.ScaleAnyToQuantum.
    rewrite round_half_up_div_same by lia. by apply to_Quantum_small.
Qed.

Lemma scaling_identity_fast_path_witness :
  (0 < 255 /\ 0 <= 200 <= 255) /\
  PNM.PGM_pixel 255 255 (PNM.scale_table 255 255) (PNM.mkPixel 0 0 0 7)
    (PNM.mkText [50; 48; 48; 10] []) =
  Some (PNM.mkPixel 200 200 200 7, PNM.mkText [] []).
Proof.
  split; [lia|].
  apply (scaling_identity_fast_path 255 200 ltac:(lia) ltac:(lia)).
  reflexivity.
Defined.

(** ** The table index of the plain decoders *)

Section TableIndex.
Import Quantum PNM.

Lemma ConstrainPixel_range (offset extent : Z) :
  0 <= extent < 2 ^ 63 -> 0 <= fst (ConstrainPixel offset extent) <= extent.
Proof.
  intros He. unfold ConstrainPixel. rewrite to_long_small by lia.
  destruct (Z.ltb_spec offset 0), (Z.gtb_spec offset extent); simpl; lia.
Qed.

Lemma ConstrainPixel_outside (offset extent : Z) :
  0 <= extent < 2 ^ 63 -> offset < 0 \/ extent < offset ->
  ConstrainPixel offset extent =
  (0, [ThrowMagickException CorruptImageError "InvalidPixel"]).
Proof.
  intros He Ho. unfold ConstrainPixel. rewrite to_long_small by lia.
  destruct (Z.ltb_spec offset 0), (Z.gtb_spec offset extent); simpl;
    try reflexivity; lia.
Qed.

Lemma ConstrainPixel_inside (offset extent : Z) :
  0 <= extent < 2 ^ 63 -> 0 <= offset <= extent ->
  ConstrainPixel offset extent = (offset, []).
Proof.
  intros He Ho. unfold ConstrainPixel. rewrite to_long_small by lia.
  destruct (Z.ltb_spec offset 0), (Z.gtb_spec offset extent); simpl;
    try reflexivity; lia.
Qed.

(** The access [scale[ConstrainPixel(...,max_value)]] is within the table
    the decoder built, whatever the offset. *)
Lemma constrained_access (QuantumRange max_value offset : Z) (table : list Z) :
  0 <= max_value < 2 ^ 63 ->
  scale_table QuantumRange max_value = Some table ->
  is_Some (table_get table (fst (ConstrainPixel offset max_value))).
Proof.
  intros Hm Ht. apply table_get_Some.
  rewrite (scale_table_length _ _ _ Ht).
  pose proof (ConstrainPixel_range offset max_value Hm). lia.
Qed.

Lemma PGM_pixel_safe (QuantumRange max_value : Z) q st :
  0 <= max_value < 2 ^ 63 ->
  is_Some (PGM_pixel QuantumRange max_value
             (scale_table QuantumRange max_value) q st).
Proof.
  intros Hm. unfold PGM_pixel.
  destruct (PNMInteger 10 (text_blob st)) as [intensity blob'].
  destruct (scale_table QuantumRange max_value) as [table|] eqn:Ht; [|by eexists].
  pose proof (constrained_access QuantumRange max_value (to_long intensity)
                table Hm Ht) as [v Hv].
  destruct (ConstrainPixel (to_long intensity) max_value) as [i e].
  simpl in Hv. rewrite Hv. by eexists.
Qed.

Lemma PPM_sample_safe (long_of_real quantum_of_real : Z -> Z)
    (QuantumRange max_value v : Z) :
  0 <= max_value < 2 ^ 63 ->
  is_Some (PPM_sample long_of_real quantum_of_real max_value
             (scale_table QuantumRange max_value) v).
Proof.
  intros Hm. unfold PPM_sample.
  destruct (scale_table QuantumRange max_value) as [table|] eqn:Ht; [|by eexists].
  pose proof (constrained_access QuantumRange max_value (long_of_real v)
                table Hm Ht) as [s Hs].
  destruct (ConstrainPixel (long_of_real v) max_value) as [i e].
  simpl in Hs. rewrite Hs. by eexists.
Qed.

Lemma PPM_pixel_safe (long_of_real quantum_of_real : Z -> Z)
    (QuantumRange max_value : Z) q st :
  0 <= max_value < 2 ^ 63 ->
  is_Some (PPM_pixel long_of_real quantum_of_real max_value
             (scale_table QuantumRange max_value) q st).
Proof.
  intros Hm. unfold PPM_pixel.
  destruct (PNMInteger 10 (text_blob st)) as [r blob1].
  destruct (PNMInteger 10 blob1) as [g blob2].
  destruct (PNMInteger 10 blob2) as [b blob3].
  destruct (PPM_sample_safe long_of_real quantum_of_real QuantumRange
              max_value r Hm) as [[r' er] ->].
  destruct (PPM_sample_safe long_of_real quantum_of_real QuantumRange
              max_value g Hm) as [[g' eg] ->].
  destruct (PPM_sample_safe long_of_real quantum_of_real QuantumRange
              max_value b Hm) as [[b' eb] ->].
  by eexists.
Qed.

Lemma text_row_safe pixel (queue : list PixelPacket) :
  (forall q st, is_Some (pixel q st)) ->
  forall st, is_Some (text_row pixel queue st).
Proof.
  intros Hp. induction queue as [|q queue IH]; intros st; simpl.
  - by eexists.
  - destruct (Hp q st) as [[p st1] ->].
    destruct (IH st1) as [[ps st2] ->]. by eexists.
Qed.

End TableIndex.

(** C9. Scale-table lookup safety: the reader accepts [max_value < 65536];
    the index [ConstrainPixel] returns lies in [0, max_value], it is 0
    together with an InvalidPixel corrupt-image exception for a sample
    outside that range, and so every access to the scale table of
    [max_value+1] entries that the plain PGM and PPM row loops make is in
    bounds, for every byte stream. *)
Theorem scale_table_lookup_safe (QuantumRange max_value : Z) :
  0 <= max_value < 65536 ->
  (forall table, PNM.scale_table QuantumRange max_value = Some table ->
     length table = Z.to_nat (max_value + 1)) /\
  (forall offset,
     0 <= fst (PNM.ConstrainPixel offset max_value) <= max_value /\
     (offset < 0 \/ max_value < offset ->
      PNM.ConstrainPixel offset max_value =
      (0, [ThrowMagickException CorruptImageError "InvalidPixel"])) /\
     (0 <= offset <= max_value ->
      PNM.ConstrainPixel offset max_value = (offset, []))) /\
  (forall queue st, is_Some (PNM.PGM_row QuantumRange max_value queue st)) /\
  (forall long_of_real quantum_of_real queue st,
     is_Some (PNM.PPM_row long_of_real quantum_of_real QuantumRange max_value
                queue st)).
Proof.
  intros Hm. assert (0 <= max_value < 2 ^ 63) as Hm' by lia.
  repeat split.
  - apply scale_table_length.
  - apply ConstrainPixel_range; lia.
  - apply ConstrainPixel_range; lia.
  - intros Ho. apply ConstrainPixel_outside; lia.
  - intros Ho. apply ConstrainPixel_inside; lia.
  - intros queue st. apply text_row_safe. intros q st'.
    by apply PGM_pixel_safe.
  - intros long_of_real quantum_of_real queue st. apply text_row_safe.
    intros q st'. by apply PPM_pixel_safe.
Qed.

Lemma scale_table_lookup_safe_witness :
  (0 <= 15 < 65536) /\
  is_Some (PNM.PGM_row 255 15 [PNM.mkPixel 0 0 0 0; PNM.mkPixel 0 0 0 0]
             (PNM.mkText [57; 57; 32; 49; 53] [])).
Proof.
  split; [lia|].
  apply (scale_table_lookup_safe 255 15); lia.
Defined.

(** ** Bilevel decoding *)

Section Bilevel.
Import Quantum PNM.

Lemma ScaleAnyToQuantum_bit (QuantumRange bit : Z) :
  0 <= QuantumRange -> bit = 0 \/ bit = 1 ->
  ScaleAnyToQuantum QuantumRange bit 1 = if bit =? 1 then QuantumRange else 0.
Proof.
  intros HQ [-> | ->]; unfold ScaleAnyToQuantum, round_half_up_div; simpl.
  - rewrite Z.mul_0_r. simpl. apply to_Quantum_small. lia.
  - replace (2 * (QuantumRange * 1) + 1) with (QuantumRange * 2 + 1) by lia.
    rewrite Z.div_add_l by lia. rewrite Z.add_0_r.
    apply to_Quantum_small. lia.
Qed.

Lemma ExtractBit_MSB_bit (pixels : list Z) (x : nat) :
  ExtractBit_MSB pixels x = 0 \/ ExtractBit_MSB pixels x = 1.
Proof.
  unfold ExtractBit_MSB. destruct (pixels !! _); [|by left].
  destruct (Z.testbit _ _); auto.
Qed.

Lemma PBM_pixel_red (QuantumRange : Z) q st bit blob' :
  0 <= QuantumRange ->
  PNMInteger 2 (text_blob st) = (bit, blob') ->
  PBM_pixel QuantumRange q st =
  (let v := if bit =? 0 then QuantumRange else 0 in
   mkPixel v v v (opacity q), mkText blob' (text_exceptions st)).
Proof.
  intros HQ Hint. unfold PBM_pixel. rewrite Hint. simpl.
  rewrite to_Quantum_small; [reflexivity|].
  destruct (bit =? 0); lia.
Qed.

Lemma import_P4_pixel (QuantumRange : Z) (pixels : list Z)
    (queue : list PixelPacket) (x : nat) (q0 : PixelPacket) :
  0 <= QuantumRange -> queue !! x = Some q0 ->
  fst (import_P4 QuantumRange pixels queue) !! x =
  Some (let v := if ExtractBit_MSB pixels x =? 1 then 0 else QuantumRange in
        mkPixel v v v (opacity q0)).
Proof.
  intros HQ Hq. unfold import_P4, ImportQuantumPixels_Gray1. simpl.
  rewrite list_lookup_imap, Hq. simpl. f_equal.
  rewrite ScaleAnyToQuantum_bit by (done || apply ExtractBit_MSB_bit).
  destruct (ExtractBit_MSB pixels x =? 1); simpl; f_equal; lia.
Qed.

End Bilevel.

(** C5. Min-is-white bilevel decode: a depth-1 gray (PBM) sample is
    inverted, sample bit 1 gives canonical 0 (black) and sample bit 0 gives
    [QuantumRange] (white), in the plain decoder (case '1') and, with
    min-is-white set, in the raw decoder (case '4'); a 2x1 image with input
    bits 1, 0 decodes to the pixels [0, QuantumRange]. *)
Theorem min_is_white_bilevel_decode (QuantumRange : Z) :
  0 <= QuantumRange ->
  (forall q st bit blob',
     PNM.PNMInteger 2 (PNM.text_blob st) = (bit, blob') ->
     PNM.PBM_pixel QuantumRange q st =
     (let v := if bit =? 0 then QuantumRange else 0 in
      PNM.mkPixel v v v (PNM.opacity q),
      PNM.mkText blob' (PNM.text_exceptions st))) /\
  (forall pixels queue x q0,
     queue !! x = Some q0 ->
     fst (PNM.import_P4 QuantumRange pixels queue) !! x =
     Some (let v := if PNM.ExtractBit_MSB pixels x =? 1 then 0
                    else QuantumRange in
           PNM.mkPixel v v v (PNM.opacity q0))) /\
  (forall q0 q1,
     fst <$> PNM.PBM_row QuantumRange [q0; q1] (PNM.mkText [49; 32; 48] []) =
     Some [PNM.mkPixel 0 0 0 (PNM.opacity q0);
           PNM.mkPixel QuantumRange QuantumRange QuantumRange (PNM.opacity q1)]) /\
  (forall q0 q1,
     PNM.import_P4 QuantumRange [128] [q0; q1] =
     ([PNM.mkPixel 0 0 0 (PNM.opacity q0);
       PNM.mkPixel QuantumRange QuantumRange QuantumRange (PNM.opacity q1)],
      true)).
Proof.
  intros HQ. split; [|split; [|split]].
  - intros q st bit blob' Hint. by apply PBM_pixel_red.
  - intros pixels queue x q0 Hq. by apply import_P4_pixel.
  - intros q0 q1. unfold PNM.PBM_row. cbn [PNM.text_row].
    rewrite (PBM_pixel_red QuantumRange q0 (PNM.mkText [49; 32; 48] []) 1
               [32; 48] HQ eq_refl).
    cbn -[PNM.PBM_pixel].
    rewrite (PBM_pixel_red QuantumRange q1 (PNM.mkText [32; 48] []) 0 []
               HQ eq_refl). reflexivity.
  - intros q0 q1. unfold PNM.import_P4, PNM.ImportQuantumPixels_Gray1.
    simpl imap. unfold PNM.ExtractBit_MSB. simpl.
    rewrite !ScaleAnyToQuantum_bit by (done || auto). simpl.
    repeat f_equal; lia.
Qed.

Lemma min_is_white_bilevel_decode_witness :
  0 <= 65535 /\
  PNM.import_P4 65535 [128] [PNM.mkPixel 9 9 9 0; PNM.mkPixel 9 9 9 0] =
  ([PNM.mkPixel 0 0 0 0; PNM.mkPixel 65535 65535 65535 0], true).
Proof.
  split; [lia|].
  apply (min_is_white_bilevel_decode 65535); lia.
Defined.

(** ** The alpha sample of the PAM writer *)

(** C6. Exporter alpha sign convention, evaluated on the code.  The RGB and
    CMYK loops of the PAM writer (and the loop of case '6') write, as the
    alpha sample, [QuantumRange - opacity] rescaled to the sample range; the
    gray loop writes the rescaled [opacity] itself, cut to one byte.  For an
    opaque white pixel at depth 4 on the 16 bit build the gray loop writes
    the alpha sample 0, where the RGB loop writes 15. *)
Theorem PAM_gray_alpha_is_not_inverted :
  (forall QuantumRange depth p q,
     PNM.write_rgb_pixel QuantumRange depth true p q =
     PNM.pop_sample depth
       (Quantum.ScaleQuantumToAny QuantumRange
          (Quantum.to_Quantum QuantumRange (QuantumRange - PNM.opacity p))
          (Quantum.GetQuantumRange depth))
       (PNM.write_rgb_pixel QuantumRange depth false p q)) /\
  (forall QuantumRange depth p index q,
     PNM.write_cmyk_pixel QuantumRange depth true p index q =
     PNM.pop_sample depth
       (Quantum.ScaleQuantumToAny QuantumRange
          (Quantum.to_Quantum QuantumRange (QuantumRange - PNM.opacity p))
          (Quantum.GetQuantumRange depth))
       (PNM.write_cmyk_pixel QuantumRange depth false p index q)) /\
  (forall intensity QuantumRange depth p q,
     PNM.write_gray_pixel intensity QuantumRange depth true p q =
     PNM.pop_sample depth
       (Quantum.to_uchar
          (Quantum.ScaleQuantumToAny QuantumRange (PNM.opacity p)
             (Quantum.GetQuantumRange depth)))
       (PNM.write_gray_pixel intensity QuantumRange depth false p q)) /\
  (forall intensity,
     PNM.last_sample 4
       (PNM.write_row_PAM intensity 65535 4 PNM.GrayAlphaQuantum true
          [(PNM.mkPixel 65535 65535 65535 0, 0)]) = 0) /\
  PNM.last_sample 4
    (PNM.write_row_PAM PNM.red 65535 4 PNM.RGBAQuantum true
       [(PNM.mkPixel 65535 65535 65535 0, 0)]) = 15 /\
  Quantum.ScaleQuantumToAny 65535 (65535 - 0) (Quantum.GetQuantumRange 4) = 15.
Proof.
  do 3 (split; [intros; reflexivity|]).
  split; [intros intensity; vm_compute; reflexivity|].
  split; vm_compute; reflexivity.
Qed.

(** ** The alpha set-up of the TIFF reader *)

Section TiffAlpha.
Import TIFF.

Variable is_associated : string -> bool.

(** [associated_alpha] and the alpha type as functions of the signals
    alone. *)
Lemma alpha_setup_signals matte0 alpha_type0 sig samples_per_pixel photometric :
  let tag_associated :=
    negb (extra_samples sig =? 0) &&
    (List.nth 0 (sample_info sig) 0 =? EXTRASAMPLE_ASSOCALPHA) in
  let a := alpha_setup is_associated matte0 alpha_type0 sig samples_per_pixel
             photometric in
  associated_alpha a =
    match option_tiff_alpha sig with
    | Some option => is_associated option
    | None => tag_associated
    end /\
  alpha_type a =
    (if tag_associated then DisassociatedQuantumAlpha else alpha_type0) /\
  tiff_alpha a =
    (if matte a
     then Some (if associated_alpha a then "associated" else "unassociated")%string
     else None).
Proof.
  unfold alpha_setup.
  destruct (extra_samples sig =? 0), (option_tiff_alpha sig);
    destruct (samples_per_pixel =? 4), (photometric =? PHOTOMETRIC_RGB),
      (samples_per_pixel >? 3),
      (List.nth 0 (sample_info sig) 0 =? EXTRASAMPLE_UNASSALPHA),
      (List.nth 0 (sample_info sig) 0 =? EXTRASAMPLE_ASSOCALPHA);
    simpl; auto.
Qed.

(** [image->matte] after the set-up. *)
Lemma alpha_setup_matte matte0 alpha_type0 sig samples_per_pixel photometric :
  matte (alpha_setup is_associated matte0 alpha_type0 sig samples_per_pixel
           photometric) =
  (if extra_samples sig =? 0
   then (samples_per_pixel =? 4) && (photometric =? PHOTOMETRIC_RGB) || matte0
   else (samples_per_pixel >? 3)
        || (List.nth 0 (sample_info sig) 0 =? EXTRASAMPLE_UNASSALPHA)
        || (List.nth 0 (sample_info sig) 0 =? EXTRASAMPLE_ASSOCALPHA)
        || matte0).
Proof.
  unfold alpha_setup.
  destruct (extra_samples sig =? 0), (option_tiff_alpha sig);
    destruct (samples_per_pixel =? 4), (photometric =? PHOTOMETRIC_RGB),
      (samples_per_pixel >? 3),
      (List.nth 0 (sample_info sig) 0 =? EXTRASAMPLE_UNASSALPHA),
      (List.nth 0 (sample_info sig) 0 =? EXTRASAMPLE_ASSOCALPHA), matte0;
    reflexivity.
Qed.

(** Whether there is an alpha channel at all does follow the sample count:
    without an EXTRASAMPLES tag, four samples of RGB have one and three do
    not. *)
Lemma matte_follows_sample_count :
  let sig := mkSignal 0 [] None in
  matte (alpha_setup is_associated false UndefinedQuantumAlpha sig 4
           PHOTOMETRIC_RGB) = true /\
  matte (alpha_setup is_associated false UndefinedQuantumAlpha sig 3
           PHOTOMETRIC_RGB) = false.
Proof. split; reflexivity. Qed.

End TiffAlpha.

(** C7, as the code has it.  Whether the alpha of a file is treated as
    associated is controlled by the explicit signals: the flag
    [associated_alpha] and the alpha type handed to the importer are
    functions of the EXTRASAMPLES tag and of the caller's "tiff:alpha"
    option alone, so two files with the same signals receive the same values
    whatever their samples per pixel and photometric layouts.  Whether there
    is an alpha channel at all ([image->matte]) does follow the sample
    count: without the tag an RGB file of four samples has one, with the tag
    every file of more than three samples has one; the property "tiff:alpha"
    is recorded exactly for the images with an alpha channel.  Two files
    with the same signals that agree on the alpha channel receive the same
    treatment. *)
Theorem associated_alpha_is_flag_controlled
    (is_associated : string -> bool) (matte0 : bool)
    (alpha_type0 : TIFF.QuantumAlphaType) (sig : TIFF.AlphaSignal)
    (samples_per_pixel photometric samples_per_pixel' photometric' : Z) :
  let a := TIFF.alpha_setup is_associated matte0 alpha_type0 sig
             samples_per_pixel photometric in
  let b := TIFF.alpha_setup is_associated matte0 alpha_type0 sig
             samples_per_pixel' photometric' in
  TIFF.associated_alpha a = TIFF.associated_alpha b /\
  TIFF.alpha_type a = TIFF.alpha_type b /\
  (TIFF.matte a = TIFF.matte b -> TIFF.tiff_alpha a = TIFF.tiff_alpha b) /\
  TIFF.associated_alpha a =
    match TIFF.option_tiff_alpha sig with
    | Some option => is_associated option
    | None =>
        negb (TIFF.extra_samples sig =? 0) &&
        (List.nth 0 (TIFF.sample_info sig) 0 =? TIFF.EXTRASAMPLE_ASSOCALPHA)
    end /\
  TIFF.matte a =
    (if TIFF.extra_samples sig =? 0
     then (samples_per_pixel =? 4) && (photometric =? TIFF.PHOTOMETRIC_RGB)
          || matte0
     else (samples_per_pixel >? 3)
          || (List.nth 0 (TIFF.sample_info sig) 0 =? TIFF.EXTRASAMPLE_UNASSALPHA)
          || (List.nth 0 (TIFF.sample_info sig) 0 =? TIFF.EXTRASAMPLE_ASSOCALPHA)
          || matte0) /\
  TIFF.tiff_alpha a =
    (if TIFF.matte a
     then Some (if TIFF.associated_alpha a
                then "associated" else "unassociated")%string
     else None) /\
  (TIFF.matte a = TIFF.matte b -> same_alpha_treatment a b).
Proof.
  intros a b.
  destruct (alpha_setup_signals is_associated matte0 alpha_type0 sig
              samples_per_pixel photometric) as (Ha1 & Ha2 & Ha3).
  destruct (alpha_setup_signals is_associated matte0 alpha_type0 sig
              samples_per_pixel' photometric') as (Hb1 & Hb2 & Hb3).
  fold a in Ha1, Ha2, Ha3. fold b in Hb1, Hb2, Hb3.
  assert (TIFF.matte a = TIFF.matte b -> TIFF.tiff_alpha a = TIFF.tiff_alpha b)
    as Hsame.
  { intros Hm. rewrite Ha3, Hb3, Hm. rewrite Ha1, Hb1. reflexivity. }
  split; [congruence|]. split; [congruence|]. split; [exact Hsame|].
  split; [exact Ha1|]. split; [|split; [exact Ha3|]].
  - apply alpha_setup_matte.
  - intros Hm. unfold same_alpha_treatment.
    split; [exact Hm|]. split; [congruence|]. split; [congruence|].
    by apply Hsame.
Qed.

Lemma associated_alpha_is_flag_controlled_witness :
  let sig := TIFF.mkSignal 1 [1] None in
  let a := TIFF.alpha_setup (String.eqb "associated") false
             TIFF.UndefinedQuantumAlpha sig 4 2 in
  let b := TIFF.alpha_setup (String.eqb "associated") false
             TIFF.UndefinedQuantumAlpha sig 2 1 in
  TIFF.matte a = TIFF.matte b /\ same_alpha_treatment a b.
Proof.
  intros sig a b. split; [reflexivity|].
  apply (associated_alpha_is_flag_controlled (String.eqb "associated") false
           TIFF.UndefinedQuantumAlpha sig 4 2 2 1).
  reflexivity.
Defined.

(** C7 as stated fails: two RGB files without an EXTRASAMPLES tag and
    without the "tiff:alpha" option, one of four samples per pixel and one
    of three, do not receive the same alpha treatment.  The first gets an
    alpha channel, recorded as "unassociated"; the second gets none. *)
Lemma sample_count_decides_alpha_channel :
  let sig := TIFF.mkSignal 0 [] None in
  let a := TIFF.alpha_setup (String.eqb "associated") false
             TIFF.UndefinedQuantumAlpha sig 4 TIFF.PHOTOMETRIC_RGB in
  let b := TIFF.alpha_setup (String.eqb "associated") false
             TIFF.UndefinedQuantumAlpha sig 3 TIFF.PHOTOMETRIC_RGB in
  ~ same_alpha_treatment a b /\
  TIFF.matte a = true /\ TIFF.tiff_alpha a = Some "unassociated"%string /\
  TIFF.matte b = false /\ TIFF.tiff_alpha b = None.
Proof.
  intros sig a b. split; [|repeat split].
  intros (Hmatte & _). discriminate Hmatte.
Qed.

(** ** The row assignment of the parallel loops *)

Section RowAssignment.
Import PNM Parallel.

Variable extent : Z.
Variable target : Z -> Z.
Variable blob0 : list Z.

Lemma lookup_insert_phase (ph : list Phase) (y y' : nat) (p p' : Phase) :
  <[y := p]> ph !! y' = Some p' ->
  (y = y' /\ p = p') \/ ph !! y' = Some p'.
Proof.
  intros H. destruct (decide (y = y')) as [->|Hne].
  - destruct (decide (y' < length ph)%nat) as [Hlt|Hge].
    + rewrite list_lookup_insert_eq in H by done. left. split; congruence.
    + rewrite list_insert_ge in H by lia. by right.
  - rewrite list_lookup_insert_ne in H by done. by right.
Qed.

Lemma ReadBlob_fresh (blob : list Z) count pixels blob' :
  ReadBlob extent [] blob = (count, pixels, blob') ->
  pixels = take (Z.to_nat extent) blob /\ blob' = drop (Z.to_nat extent) blob.
Proof.
  unfold ReadBlob. intros H. injection H as _ <- <-.
  by rewrite drop_nil, app_nil_r.
Qed.

Lemma row_invariant_init (rows : nat) :
  row_invariant extent target blob0 (init blob0 rows).
Proof.
  unfold row_invariant, init. simpl.
  split; [done|]. split; [done|]. split; [|split].
  - intros y k count offset pixels H.
    apply lookup_replicate in H as [? _]. done.
  - intros y k offset pixels H.
    apply lookup_replicate in H as [? _]. done.
  - intros i H. by apply not_elem_of_nil in H.
Qed.

(** A phase that the step did not produce was there before it. *)
Local Ltac unchanged_phase :=
  intros; match goal with
          | H : <[_ := _]> _ !! _ = Some _ |- _ =>
              apply lookup_insert_phase in H as [[_ ?]|H]; [done|eauto]
          end.

Lemma row_invariant_step (c c' : Config) :
  row_invariant extent target blob0 c -> step extent target c c' ->
  row_invariant extent target blob0 c'.
Proof.
  intros (Hrow & Hblob & Hread & Hcount & Himp) Hstep.
  destruct Hstep as
    [sh ph y Hy Hs | sh ph y Hy Hs
    | sh ph y proceed count pixels blob' Hy Hrb
    | sh ph y k count offset pixels Hy
    | sh ph y k offset pixels Hy
    | sh ph y k offset pixels sync Hy];
    simpl in *; unfold row_invariant; simpl.
  - (* skip *)
    repeat apply conj; try done.
    + unchanged_phase.
    + unchanged_phase.
  - (* enter *)
    repeat apply conj; try done.
    + unchanged_phase.
    + unchanged_phase.
  - (* the critical section *)
    apply ReadBlob_fresh in Hrb as [-> ->].
    repeat apply conj; try done.
    + lia.
    + rewrite Hblob, drop_drop. f_equal. lia.
    + intros y' k count' offset pixels H.
      apply lookup_insert_phase in H as [[_ Heq]|H]; [|eauto].
      injection Heq as <- _ <- <-. split; [done|].
      unfold chunk. by rewrite Hblob.
    + unchanged_phase.
  - (* the test of count *)
    repeat apply conj; try done.
    + unchanged_phase.
    + intros y' k' offset' pixels' H.
      apply lookup_insert_phase in H as [[_ Heq]|H]; [|eauto].
      injection Heq as <- <- <-. eauto.
  - (* no row from the cache *)
    repeat apply conj; try done.
    + unchanged_phase.
    + unchanged_phase.
  - (* the import *)
    repeat apply conj; try done.
    + unchanged_phase.
    + unchanged_phase.
    + intros i Hi. apply elem_of_app in Hi as [Hi|Hi]; [eauto|].
      apply list_elem_of_singleton in Hi as ->. simpl.
      destruct (Hcount _ _ _ _ Hy) as [-> ->]. done.
Qed.

Lemma row_invariant_reachable (rows : nat) (c : Config) :
  reachable extent target blob0 rows c -> row_invariant extent target blob0 c.
Proof.
  unfold reachable. intros Hr.
  apply (rtc_ind_r (R := step extent target)
           (fun c => row_invariant extent target blob0 c)
           (init blob0 rows)); [apply row_invariant_init| |exact Hr].
  intros c1 c2 _ Hstep IH. by eapply row_invariant_step.
Qed.

End RowAssignment.

Lemma PFM_two_rows_reachable :
  Parallel.reachable 1 (PNM.PFM_target 2) [7; 9] 2
    PFM_two_rows_after_first_import.
Proof.
  unfold Parallel.reachable, Parallel.init.
  eapply rtc_l.
  { apply (Parallel.step_enter 1 (PNM.PFM_target 2) _ _ 0%nat); reflexivity. }
  eapply rtc_l.
  { apply (Parallel.step_critical 1 (PNM.PFM_target 2) _ _ 0%nat true);
      reflexivity. }
  eapply rtc_l.
  { eapply (Parallel.step_count 1 (PNM.PFM_target 2) _ _ 0%nat); reflexivity. }
  eapply rtc_l.
  { eapply (Parallel.step_import 1 (PNM.PFM_target 2) _ _ 0%nat _ _ _ true);
      reflexivity. }
  apply rtc_refl.
Qed.

(** C8, as the code has it.  Serialized row assignment: the shared counter
    [row] changes only in the critical section that reads the stream, so in
    every interleaving of the workers [row] is the number of reads executed,
    and the bytes of the read numbered [k], the [k]-th block of the stream,
    are imported into the row the loop derives from [k]: row [k] in the
    loops of cases '4', '5', '6' and '7', row [rows-1-k] in the PFM loop. *)
Theorem parallel_row_assignment (extent : Z) (blob : list Z) (rows : nat) :
  (forall target c,
     Parallel.reachable extent target blob rows c ->
     Parallel.row (fst c) = Z.of_nat (Parallel.nreads (fst c)) /\
     forall i, i ∈ Parallel.imports (fst c) ->
       Parallel.cache_row i = target (Z.of_nat (Parallel.read_number i)) /\
       Parallel.imported i =
         Parallel.chunk extent blob (Parallel.read_number i)) /\
  reads_land_in_row_k extent (fun offset => offset) blob rows /\
  (forall c,
     Parallel.reachable extent (PNM.PFM_target (Z.of_nat rows)) blob rows c ->
     forall i, i ∈ Parallel.imports (fst c) ->
       Parallel.cache_row i =
         Z.of_nat rows - 1 - Z.of_nat (Parallel.read_number i)).
Proof.
  split; [|split].
  - intros target c Hc.
    destruct (row_invariant_reachable extent target blob rows c Hc)
      as (Hrow & _ & _ & _ & Himp).
    split; [exact Hrow|exact Himp].
  - intros c Hc i Hi.
    destruct (row_invariant_reachable extent _ blob rows c Hc)
      as (_ & _ & _ & _ & Himp).
    by destruct (Himp i Hi).
  - intros c Hc i Hi.
    destruct (row_invariant_reachable extent _ blob rows c Hc)
      as (_ & _ & _ & _ & Himp).
    destruct (Himp i Hi) as [-> _]. unfold PNM.PFM_target. lia.
Qed.

Lemma parallel_row_assignment_witness :
  Parallel.reachable 1 (PNM.PFM_target 2) [7; 9] 2
    PFM_two_rows_after_first_import /\
  Parallel.row (fst PFM_two_rows_after_first_import) =
  Z.of_nat (Parallel.nreads (fst PFM_two_rows_after_first_import)).
Proof.
  split; [apply PFM_two_rows_reachable|].
  exact (proj1 (proj1 (parallel_row_assignment 1 [7; 9] 2)
                  (PNM.PFM_target 2) _ PFM_two_rows_reachable)).
Defined.

(** C8 as stated fails on the PFM loop: the read numbered 0 is imported
    into row 1 of a two-row image. *)
Lemma PFM_read_0_lands_in_row_1 :
  ~ reads_land_in_row_k 1 (PNM.PFM_target 2) [7; 9] 2.
Proof.
  intros Hclaim.
  specialize (Hclaim _ PFM_two_rows_reachable (Parallel.mkImport 0 1 [7])).
  simpl in Hclaim. discriminate Hclaim. apply list_elem_of_singleton. reflexivity.
Qed.

(** ** A stream that ends before the last row *)

Section ShortStream.
Import PNM.

Variable extent : Z.
Variable progress_monitor : option (Z -> bool).
Variable queue : Z -> option (list PixelPacket).
Variable sync : Z -> bool.
Variable target : Z -> Z.
Variable import : list Z -> list PixelPacket -> list PixelPacket * bool.

Local Abbreviation body := (raw_row_body extent progress_monitor queue sync target import).
Local Abbreviation loop := (raw_rows extent progress_monitor queue sync target import).

(** Once [status] is [MagickFalse] every iteration is skipped: nothing more
    is read or imported. *)
Lemma raw_rows_skips (n : nat) (st : RawState) :
  raw_status st = false -> loop n st = st.
Proof.
  intros Hs. induction n as [|n IH]; simpl; [done|].
  unfold raw_row_body at 1. rewrite Hs. simpl. exact IH.
Qed.

(** The bytes an iteration leaves unread. *)
Lemma raw_row_body_blob (st : RawState) :
  raw_status st = true ->
  raw_blob (body st) = drop (Z.to_nat extent) (raw_blob st).
Proof.
  intros Hs. unfold raw_row_body, critical_section, ReadBlob. rewrite Hs. simpl.
  destruct (queue _); [|done].
  destruct (import _ _) as [r ok]. by destruct (sync _).
Qed.

(** A short read sets [status] to [MagickFalse]. *)
Lemma raw_row_body_short (st : RawState) :
  raw_status st = true ->
  Z.of_nat (length (raw_blob st)) < extent ->
  raw_status (body st) = false.
Proof.
  intros Hs Hlen. unfold raw_row_body, critical_section, ReadBlob. rewrite Hs.
  simpl. rewrite length_take.
  destruct (Z.eqb_spec (Z.of_nat (Z.to_nat extent `min` length (raw_blob st)))
              extent) as [Heq|_]; [lia|].
  destruct (queue _); [|done].
  destruct (import _ _) as [r ok]. destruct ok, (sync _); done.
Qed.

Lemma raw_rows_short (n : nat) (st : RawState) :
  Z.of_nat (length (raw_blob st)) < Z.of_nat n * extent ->
  raw_status (loop n st) = false.
Proof.
  revert st. induction n as [|n IH]; intros st Hlen; [simpl in Hlen; lia|].
  simpl. destruct (raw_status st) eqn:Hs.
  - destruct (Z.ltb_spec (Z.of_nat (length (raw_blob st))) extent) as [Hlt|Hge].
    + rewrite raw_rows_skips; by apply raw_row_body_short.
    + apply IH. rewrite raw_row_body_blob by done.
      rewrite length_drop. lia.
  - unfold raw_row_body at 1. rewrite Hs. simpl. by rewrite raw_rows_skips.
Qed.

End ShortStream.

(** ** [status] in the parallel loops *)

Section ParallelStatus.
Import PNM Parallel.

Variable extent : Z.
Variable target : Z -> Z.
Variable blob0 : list Z.
Variable rows : nat.

Lemma started_count_insert (ph : list Phase) (y : nat) (p p' : Phase) :
  ph !! y = Some p ->
  started_count (<[y := p']> ph) = started_count ph - started p + started p'.
Proof.
  unfold started_count. revert y.
  induction ph as [|p0 ph IH]; intros y Hy; [done|].
  destruct y as [|y]; cbn [lookup list_lookup] in Hy.
  - injection Hy as ->. cbn. lia.
  - change (<[S y := p']> (p0 :: ph)) with (p0 :: <[y := p']> ph).
    cbn [foldr]. rewrite (IH y Hy). lia.
Qed.

Lemma started_count_init (n : nat) : started_count (replicate n AtTop) = 0.
Proof.
  unfold started_count. induction n as [|n IH]; [done|].
  cbn [replicate foldr started]. by rewrite IH.
Qed.

Lemma started_count_done (ph : list Phase) :
  Forall (fun p => p = Finished) ph ->
  started_count ph = Z.of_nat (length ph).
Proof.
  unfold started_count.
  induction 1 as [|p ph -> _ IH]; [done|]. cbn [foldr length].
  rewrite IH. cbn [started]. lia.
Qed.

(** A phase of another kind than the one a step replaces stays where it
    is. *)
Lemma lookup_insert_other (ph : list Phase) (y y' : nat) (p p' q : Phase) :
  ph !! y = Some p -> ph !! y' = Some p' -> p <> p' ->
  <[y := q]> ph !! y' = Some p'.
Proof.
  intros Hy Hy' Hne. rewrite list_lookup_insert_ne; [done|].
  intros ->. congruence.
Qed.

Lemma chunk_length (k : nat) :
  Z.of_nat (length (chunk extent blob0 k)) =
  Z.min (Z.of_nat (Z.to_nat extent))
    (Z.of_nat (length blob0 - k * Z.to_nat extent)).
Proof. unfold chunk. rewrite length_take, length_drop. lia. Qed.

Lemma status_invariant_init :
  status_invariant extent blob0 rows (init blob0 rows).
Proof.
  unfold status_invariant, init. cbn [fst snd blob nreads status].
  split; [by rewrite length_replicate|]. split; [done|]. split.
  - intros y k count offset pixels H.
    apply lookup_replicate in H as [? _]. done.
  - intros _. split.
    + cbn [Z.of_nat]. symmetry. apply started_count_init.
    + intros k Hk. lia.
Qed.

Lemma status_invariant_step (c c' : Config) :
  status_invariant extent blob0 rows c -> step extent target c c' ->
  status_invariant extent blob0 rows c'.
Proof.
  intros (Hlen & Hblob & Hcount & Htrue) Hstep.
  destruct Hstep as
    [sh ph y Hy Hs | sh ph y Hy Hs
    | sh ph y proceed count pixels blob' Hy Hrb
    | sh ph y k count offset pixels Hy
    | sh ph y k offset pixels Hy
    | sh ph y k offset pixels sync Hy];
    cbn [fst snd blob nreads status] in *; unfold status_invariant;
    cbn [fst snd blob nreads status].
  - (* skip *)
    split; [by rewrite length_insert|]. split; [done|]. split.
    + intros y' k count offset pixels H.
      apply lookup_insert_phase in H as [[_ ?]|H]; [done|eauto].
    + intros Hs'. congruence.
  - (* enter *)
    split; [by rewrite length_insert|]. split; [done|]. split.
    + intros y' k count offset pixels H.
      apply lookup_insert_phase in H as [[_ ?]|H]; [done|eauto].
    + intros Hs'. destruct (Htrue Hs') as [Hn Hshort]. split.
      * rewrite (started_count_insert _ _ _ _ Hy). cbn [started]. lia.
      * intros k Hk Hsh.
        destruct (Hshort k Hk Hsh) as (y' & count & offset & pixels & Hy').
        exists y', count, offset, pixels.
        by eapply lookup_insert_other.
  - (* the critical section *)
    assert (count = Z.of_nat (length (chunk extent blob0 (nreads sh)))) as Hc.
    { unfold ReadBlob in Hrb. injection Hrb as <- _ _.
      unfold chunk. by rewrite Hblob. }
    apply ReadBlob_fresh in Hrb as [-> ->].
    split; [by rewrite length_insert|]. split; [|split].
    + rewrite Hblob, drop_drop. f_equal. lia.
    + intros y' k count' offset pixels H.
      apply lookup_insert_phase in H as [[_ Heq]|H]; [|eauto].
      by injection Heq as <- <- _ _.
    + intros Hs'.
      assert (status sh = true) as Hs by (by destruct proceed).
      destruct (Htrue Hs) as [Hn Hshort]. split.
      * rewrite (started_count_insert _ _ _ _ Hy). cbn [started]. lia.
      * intros k Hk Hsh.
        destruct (decide (k = nreads sh)) as [->|Hne].
        -- exists y. eexists _, _, _. apply list_lookup_insert_eq.
           by eapply lookup_lt_Some.
        -- destruct (Hshort k ltac:(lia) Hsh)
             as (y' & count' & offset & pixels & Hy').
           exists y', count', offset, pixels.
           by eapply lookup_insert_other.
  - (* the test of count *)
    split; [by rewrite length_insert|]. split; [done|]. split.
    + intros y' k' count' offset' pixels' H.
      apply lookup_insert_phase in H as [[_ ?]|H]; [done|eauto].
    + intros Hs'.
      destruct (Z.eqb_spec count extent) as [Hfull|]; [|done].
      destruct (Htrue Hs') as [Hn Hshort]. split.
      * rewrite (started_count_insert _ _ _ _ Hy). cbn [started]. lia.
      * intros k' Hk Hsh.
        destruct (Hshort k' Hk Hsh) as (y' & count' & offset' & pixels' & Hy').
        exists y', count', offset', pixels'.
        rewrite list_lookup_insert_ne; [done|].
        intros ->. rewrite Hy in Hy'. injection Hy' as <- <- <- <-.
        apply Hsh. rewrite <- (Hcount _ _ _ _ _ Hy). done.
  - (* no row from the cache *)
    split; [by rewrite length_insert|]. split; [done|]. split.
    + intros y' k' count' offset' pixels' H.
      apply lookup_insert_phase in H as [[_ ?]|H]; [done|eauto].
    + intros Hs'. done.
  - (* the import *)
    split; [by rewrite length_insert|]. split; [done|]. split.
    + intros y' k' count' offset' pixels' H.
      apply lookup_insert_phase in H as [[_ ?]|H]; [done|eauto].
    + intros Hs'.
      assert (status sh = true) as Hs by (by destruct sync).
      destruct (Htrue Hs) as [Hn Hshort]. split.
      * rewrite (started_count_insert _ _ _ _ Hy). cbn [started]. lia.
      * intros k' Hk Hsh.
        destruct (Hshort k' Hk Hsh) as (y' & count' & offset' & pixels' & Hy').
        exists y', count', offset', pixels'.
        by eapply lookup_insert_other.
Qed.

Lemma status_invariant_reachable (c : Config) :
  reachable extent target blob0 rows c -> status_invariant extent blob0 rows c.
Proof.
  unfold reachable. intros Hr.
  apply (rtc_ind_r (R := step extent target)
           (fun c => status_invariant extent blob0 rows c)
           (init blob0 rows)); [apply status_invariant_init| |exact Hr].
  intros c1 c2 _ Hstep IH. by eapply status_invariant_step.
Qed.

(** When every iteration has finished over a stream that is too short for
    the rows, [status] is [MagickFalse]. *)
Lemma short_stream_status (c : Config) :
  Z.of_nat (length blob0) < Z.of_nat rows * extent ->
  reachable extent target blob0 rows c -> loop_done c ->
  status (fst c) = false.
Proof.
  intros Hshort Hreach Hdone.
  destruct (status_invariant_reachable c Hreach) as (Hlen & _ & _ & Htrue).
  destruct (status (fst c)) eqn:Hs; [exfalso|done].
  destruct (Htrue eq_refl) as [Hn Hreads].
  unfold loop_done in Hdone.
  rewrite (started_count_done _ Hdone), Hlen in Hn.
  assert (0 < rows)%nat as Hrows by (destruct rows; [simpl in Hshort|]; lia).
  destruct (Hreads (rows - 1)%nat ltac:(lia)) as (y & count & offset & pixels & Hy).
  - unfold short_read. rewrite chunk_length. nia.
  - rewrite Forall_forall in Hdone.
    specialize (Hdone _ (list_elem_of_lookup_2 _ _ _ Hy)). done.
Qed.

(** [status] never goes back to [MagickTrue], and an iteration that finds it
    [MagickFalse] at its top finishes without a read and without an
    import. *)
Lemma step_status_false (c c' : Config) :
  step extent target c c' -> status (fst c) = false ->
  status (fst c') = false /\
  forall y, snd c !! y = Some AtTop -> snd c' !! y <> Some AtTop ->
    fst c' = fst c /\ snd c' = <[y := Finished]> (snd c).
Proof.
  intros Hstep Hfalse.
  destruct Hstep as
    [sh ph y Hy Hs | sh ph y Hy Hs
    | sh ph y proceed count pixels blob' Hy Hrb
    | sh ph y k count offset pixels Hy
    | sh ph y k offset pixels Hy
    | sh ph y k offset pixels sync Hy];
    cbn [fst snd status] in *.
  - split; [done|]. intros y' Hy' Hnot.
    destruct (decide (y = y')) as [->|Hne]; [done|].
    by rewrite list_lookup_insert_ne in Hnot.
  - congruence.
  - split; [by destruct proceed|]. intros y' Hy' Hnot. exfalso. apply Hnot.
    by eapply lookup_insert_other.
  - split; [by destruct (count =? extent)|].
    intros y' Hy' Hnot. exfalso. apply Hnot.
    by eapply lookup_insert_other.
  - split; [done|]. intros y' Hy' Hnot. exfalso. apply Hnot.
    by eapply lookup_insert_other.
  - split; [by destruct sync|]. intros y' Hy' Hnot. exfalso. apply Hnot.
    by eapply lookup_insert_other.
Qed.

(** An iteration that has not finished can take its next step. *)
Lemma step_progress (c : Config) (y : nat) (p : Phase) :
  snd c !! y = Some p -> p <> Finished -> exists c', step extent target c c'.
Proof.
  destruct c as [sh ph]. cbn [snd]. intros Hy Hp.
  destruct p as [| |k count offset pixels|k offset pixels|].
  - destruct (status sh) eqn:Hs.
    + eexists. by eapply step_enter.
    + eexists. by eapply step_skip.
  - destruct (ReadBlob extent [] (blob sh)) as [[count pixels] blob'] eqn:Hrb.
    eexists. by eapply (step_critical _ _ _ _ _ true).
  - eexists. by eapply step_count.
  - eexists. by eapply (step_import _ _ _ _ _ _ _ _ true).
  - done.
Qed.

End ParallelStatus.

(** C2, as the code has it.  When the stream holds fewer bytes than the
    rows of the image need, so that some row read delivers fewer bytes than
    the extent of a row, the raw row loop ends with [status] [MagickFalse]
    and the reader leaves through
    [ThrowReaderException(CorruptImageError,"UnableToReadImageData")]: no
    image is returned.  This holds for the loop run row after row and, with
    OpenMP, for every interleaving of the workers.  [status] never goes
    back to [MagickTrue], and an iteration that tests it after it became
    [MagickFalse] is skipped, without a read and without an import: run row
    after row, that is every later row.  Every iteration that has not
    finished can take its next step: no interleaving gets stuck.  A short
    read leaves the bytes of the row buffer beyond it as they were: nothing
    fills them with zeros. *)
Theorem short_stream_is_fatal (extent : Z) (progress_monitor : option (Z -> bool))
    (queue : Z -> option (list PNM.PixelPacket)) (sync : Z -> bool)
    (target : Z -> Z)
    (import : list Z -> list PNM.PixelPacket -> list PNM.PixelPacket * bool)
    (rows : nat) (blob pixels : list Z) :
  Z.of_nat (length blob) < Z.of_nat rows * extent ->
  PNM.ReadRawRows extent progress_monitor queue sync target import rows
    (PNM.raw_init blob pixels) =
  PNM.Thrown (ThrowMagickException CorruptImageError "UnableToReadImageData") /\
  (forall n st, PNM.raw_status st = false ->
     PNM.raw_rows extent progress_monitor queue sync target import n st = st) /\
  (forall buffer short, Z.of_nat (length short) < extent ->
     PNM.ReadBlob extent buffer short =
     (Z.of_nat (length short), short ++ drop (length short) buffer, [])) /\
  (forall c, Parallel.reachable extent target blob rows c -> loop_done c ->
     parallel_result c =
     PNM.Thrown (ThrowMagickException CorruptImageError
                   "UnableToReadImageData")) /\
  (forall c c',
     Parallel.step extent target c c' -> Parallel.status (fst c) = false ->
     Parallel.status (fst c') = false /\
     forall y, snd c !! y = Some Parallel.AtTop ->
       snd c' !! y <> Some Parallel.AtTop ->
       fst c' = fst c /\ snd c' = <[y := Parallel.Finished]> (snd c)) /\
  (forall c y p, snd c !! y = Some p -> p <> Parallel.Finished ->
     exists c', Parallel.step extent target c c').
Proof.
  intros Hlen. split; [|split; [|split; [|split; [|split]]]].
  - unfold PNM.ReadRawRows.
    rewrite raw_rows_short by exact Hlen. reflexivity.
  - intros n st Hs. by apply raw_rows_skips.
  - intros buffer short Hshort. unfold PNM.ReadBlob.
    rewrite (take_ge short), (drop_ge short) by lia. reflexivity.
  - intros c Hreach Hdone. unfold parallel_result.
    by rewrite (short_stream_status extent target blob rows c Hlen Hreach Hdone).
  - intros c c'. apply step_status_false.
  - intros c y p. apply step_progress.
Qed.

Lemma short_stream_is_fatal_witness :
  Z.of_nat (length truncated_P6_blob) < Z.of_nat 3 * PNM.extent_P6 4 1 /\
  truncated_P6_read =
  PNM.Thrown (ThrowMagickException CorruptImageError "UnableToReadImageData").
Proof.
  split; [vm_compute; reflexivity|].
  apply (short_stream_is_fatal (PNM.extent_P6 4 1) None
           (fun _ => Some [PNM.mkPixel 0 0 0 0]) (fun _ => true)
           (fun offset => offset) (PNM.import_P6 255 4) 3
           truncated_P6_blob [0; 0; 0]).
  vm_compute. reflexivity.
Defined.

(** C2 as stated fails: on the truncated PPM stream the reader returns no
    image; run row after row, row 1 is imported from a buffer whose last
    byte is still the byte of row 0 (its blue sample is 255, not 0), and
    row 2 is not imported. *)
Lemma truncated_P6_is_not_recovered :
  ~ recovers_truncated_rows truncated_P6_read /\
  truncated_P6_read =
  PNM.Thrown (ThrowMagickException CorruptImageError "UnableToReadImageData") /\
  PNM.raw_pixels truncated_P6_loop = [15; 15; 15] /\
  PNM.raw_cache truncated_P6_loop !! 1 = Some [PNM.mkPixel 255 255 255 0] /\
  PNM.raw_cache truncated_P6_loop !! 2 = None.
Proof.
  assert (truncated_P6_read =
          PNM.Thrown (ThrowMagickException CorruptImageError
                        "UnableToReadImageData")) as Hthrown
    by (vm_compute; reflexivity).
  split; [|split; [exact Hthrown|]].
  - intros [image Himage]. rewrite Hthrown in Himage. discriminate.
  - repeat split; vm_compute; reflexivity.
Qed.

(** ** The PPM round trip *)

Section RoundTrip.
Import Quantum PNM.

Lemma ScaleQuantumToAny_range (QuantumRange range c : Z) :
  0 < QuantumRange -> 0 <= range -> 0 <= c <= QuantumRange ->
  0 <= ScaleQuantumToAny QuantumRange c range <= range.
Proof.
  intros HQ Hr Hc. unfold ScaleQuantumToAny, round_half_up_div. split.
  - apply Z.div_pos; nia.
  - enough (HH : (2 * (range * c) + QuantumRange) / (2 * QuantumRange) < range + 1)
      by lia.
    apply Z.div_lt_upper_bound; nia.
Qed.

(** One channel through [ScaleQuantumToAny] and back through
    [ScaleAnyToQuantum]. *)
Lemma rescale_roundtrip (QuantumRange range c : Z) :
  0 < QuantumRange -> 0 < range -> 0 <= c <= QuantumRange ->
  let c' := ScaleAnyToQuantum QuantumRange
              (ScaleQuantumToAny QuantumRange c range) range in
  2 * range * Z.abs (c' - c) <= QuantumRange + range /\
  (QuantumRange <= range -> c' = c).
Proof.
  intros HQ Hr Hc.
  pose proof (ScaleQuantumToAny_range QuantumRange range c HQ ltac:(lia) Hc) as Hs.
  pose proof (round_half_up_div_rounds (range * c) QuantumRange HQ) as Hs'.
  fold (ScaleQuantumToAny QuantumRange c range) in Hs'.
  set (s := ScaleQuantumToAny QuantumRange c range) in *.
  pose proof (ScaleAnyToQuantum_rounds QuantumRange range s ltac:(lia) Hr Hs)
    as Hc'.
  set (c' := ScaleAnyToQuantum QuantumRange s range) in *. simpl.
  unfold rounds_half_up in Hs', Hc'.
  assert (2 * range * (c' - c) <= QuantumRange + range) as Hup by lia.
  assert (2 * range * (c - c') <= QuantumRange + range) as Hdown by lia.
  split.
  - destruct (Z.abs_spec (c' - c)) as [[_ ->]|[_ ->]]; lia.
  - intros Hle. destruct (Z.eq_dec QuantumRange range) as [Heq|Hne].
    + subst c' s. rewrite <- Heq. unfold ScaleQuantumToAny.
      rewrite round_half_up_div_same by lia.
      unfold ScaleAnyToQuantum. rewrite round_half_up_div_same by lia.
      by apply to_Quantum_small.
    + nia.
Qed.

(** The byte cursors. *)
Lemma pop_sample_app (depth v : Z) (q : list Z) :
  pop_sample depth v q = q ++ pop_sample depth v [].
Proof.
  unfold pop_sample, PopCharPixel, PopShortPixel_MSB.
  by destruct (depth <=? 8).
Qed.

Lemma GetQuantumRange_le (depth bits : Z) :
  0 <= depth <= bits -> GetQuantumRange depth <= 2 ^ bits - 1.
Proof.
  intros H. unfold GetQuantumRange.
  pose proof (Z.pow_le_mono_r 2 depth bits ltac:(lia) ltac:(lia)). lia.
Qed.

Lemma push_pop_sample (depth v : Z) (rest : list Z) :
  1 <= depth <= 16 -> 0 <= v <= GetQuantumRange depth ->
  push_sample depth (pop_sample depth v [] ++ rest) = (v, rest).
Proof.
  intros Hd Hv. unfold push_sample, pop_sample.
  destruct (Z.leb_spec depth 8) as [Hle|Hgt].
  - pose proof (GetQuantumRange_le depth 8 ltac:(lia)).
    unfold PopCharPixel, to_uchar. simpl.
    rewrite Z.mod_small by lia. reflexivity.
  - pose proof (GetQuantumRange_le depth 16 ltac:(lia)).
    unfold PopShortPixel_MSB, PushShortPixel_MSB, to_ushort. simpl.
    rewrite Z.mod_small by lia. f_equal.
    pose proof (Z.div_mod v 256 ltac:(lia)). lia.
Qed.

Lemma write_rgb_pixel_app (QuantumRange depth : Z) (p : PixelPacket) (q : list Z) :
  write_rgb_pixel QuantumRange depth false p q =
  q ++ (pop_sample depth
          (ScaleQuantumToAny QuantumRange (red p) (GetQuantumRange depth)) [] ++
        pop_sample depth
          (ScaleQuantumToAny QuantumRange (green p) (GetQuantumRange depth)) [] ++
        pop_sample depth
          (ScaleQuantumToAny QuantumRange (blue p) (GetQuantumRange depth)) []).
Proof.
  unfold write_rgb_pixel.
  rewrite (pop_sample_app depth _ (pop_sample _ _ _)).
  rewrite (pop_sample_app depth _ (pop_sample _ _ _)).
  rewrite (pop_sample_app depth _ q).
  by rewrite <- !app_assoc.
Qed.

Lemma write_rgb_pixel_append (QuantumRange depth : Z) (p : PixelPacket)
    (q : list Z) :
  write_rgb_pixel QuantumRange depth false p q =
  q ++ write_rgb_pixel QuantumRange depth false p [].
Proof.
  rewrite (write_rgb_pixel_app _ _ _ []), (write_rgb_pixel_app _ _ _ q).
  reflexivity.
Qed.

Lemma write_row_app {A : Type} (pixel : A -> list Z -> list Z) (row : list A)
    (q : list Z) :
  (forall p q, pixel p q = q ++ pixel p []) ->
  fold_left (fun q p => pixel p q) row q = q ++ write_row pixel row.
Proof.
  intros Happ. unfold write_row. revert q.
  induction row as [|p row IH]; intros q; simpl.
  - by rewrite app_nil_r.
  - rewrite IH, (IH (pixel p [])), (Happ p q). by rewrite app_assoc.
Qed.

Lemma write_row_cons {A : Type} (pixel : A -> list Z -> list Z) (p : A)
    (row : list A) :
  (forall p q, pixel p q = q ++ pixel p []) ->
  write_row pixel (p :: row) = pixel p [] ++ write_row pixel row.
Proof.
  intros Happ. unfold write_row at 1. simpl. by apply write_row_app.
Qed.

(** A row written by the RGB loop and read back by the RGB loop. *)
Lemma import_rgb_write_row (QuantumRange depth : Z)
    (row queue : list PixelPacket) (rest : list Z) :
  0 < QuantumRange -> 1 <= depth <= 16 ->
  Forall (canonical_pixel QuantumRange) row -> length queue = length row ->
  let row' :=
    import_rgb QuantumRange depth
      (write_row (write_rgb_pixel QuantumRange depth false) row ++ rest) queue in
  Forall2 (channels_close QuantumRange (GetQuantumRange depth)) row row' /\
  (QuantumRange <= GetQuantumRange depth ->
   Forall2 (channels_within 0) row row').
Proof.
  intros HQ Hd Hrow. revert queue.
  assert (0 < GetQuantumRange depth) as Hrange.
  { unfold GetQuantumRange.
    pose proof (Z.pow_le_mono_r 2 1 depth ltac:(lia) ltac:(lia)). lia. }
  induction Hrow as [|p row Hp Hrow IH]; intros [|q0 queue] Hlen;
    try discriminate; simpl.
  - split; intros; constructor.
  - destruct Hp as (Hr & Hg & Hb).
    pose proof (ScaleQuantumToAny_range QuantumRange (GetQuantumRange depth)
                  (red p) HQ ltac:(lia) Hr) as Hsr.
    pose proof (ScaleQuantumToAny_range QuantumRange (GetQuantumRange depth)
                  (green p) HQ ltac:(lia) Hg) as Hsg.
    pose proof (ScaleQuantumToAny_range QuantumRange (GetQuantumRange depth)
                  (blue p) HQ ltac:(lia) Hb) as Hsb.
    rewrite write_row_cons by (intros; apply write_rgb_pixel_append).
    rewrite write_rgb_pixel_app. simpl.
    rewrite <- !app_assoc.
    rewrite push_pop_sample by done.
    rewrite push_pop_sample by done.
    rewrite push_pop_sample by done.
    destruct (IH queue ltac:(simpl in Hlen; lia)) as [IHclose IHexact].
    destruct (rescale_roundtrip QuantumRange (GetQuantumRange depth) (red p)
                HQ Hrange Hr) as [Hr1 Hr2].
    destruct (rescale_roundtrip QuantumRange (GetQuantumRange depth) (green p)
                HQ Hrange Hg) as [Hg1 Hg2].
    destruct (rescale_roundtrip QuantumRange (GetQuantumRange depth) (blue p)
                HQ Hrange Hb) as [Hb1 Hb2].
    split.
    + constructor; [|exact IHclose]. unfold channels_close. simpl. auto.
    + intros Hle. constructor; [|by apply IHexact].
      unfold channels_within. simpl.
      rewrite (Hr2 Hle), (Hg2 Hle), (Hb2 Hle). lia.
Qed.

Lemma image_depth_max_value_P6 (depth : Z) :
  1 <= depth -> image_depth (max_value_P6 depth) = depth_P6 depth.
Proof.
  intros Hd. unfold max_value_P6, depth_P6.
  destruct (Z.gtb_spec depth 8) as [Hgt|Hle]; [reflexivity|].
  assert (depth = 1 \/ depth = 2 \/ depth = 3 \/ depth = 4 \/ depth = 5 \/
          depth = 6 \/ depth = 7 \/ depth = 8) as Hcases by lia.
  repeat (destruct Hcases as [-> | Hcases]; [reflexivity|]).
  subst depth. reflexivity.
Qed.

End RoundTrip.

(** C1, as the code has it.  Export-then-import round trip of a raw PPM
    row without alpha samples: at every depth the writer supports, with
    [range] the maximum sample written in the header, the reader derives
    the depth of the writer from the header, accepts the row, and
    reproduces every colour channel with an error [e] that satisfies
    [2 * range * e <= QuantumRange + range]; the row is reproduced exactly
    when [range >= QuantumRange], in particular when the depth is the
    quantum depth. *)
Theorem P6_roundtrip_error (QuantumRange depth : Z) (matte : bool)
    (row queue : list PNM.PixelPacket) :
  0 < QuantumRange -> 1 <= depth ->
  Forall (canonical_pixel QuantumRange) row -> length queue = length row ->
  matte = false \/ 8 <= depth ->
  let range := PNM.max_value_P6 depth in
  PNM.image_depth range = PNM.depth_P6 depth /\
  exists row',
    P6_roundtrip QuantumRange depth matte row queue = (row', true) /\
    Forall2 (channels_close QuantumRange range) row row' /\
    (QuantumRange <= range -> Forall2 (channels_within 0) row row').
Proof.
  intros HQ Hd Hrow Hlen Hmatte range.
  pose proof (image_depth_max_value_P6 depth Hd) as Hdepth.
  split; [exact Hdepth|].
  unfold P6_roundtrip. rewrite Hdepth.
  assert (1 <= PNM.depth_P6 depth <= 16) as Hd'.
  { unfold PNM.depth_P6. destruct (Z.gtb_spec depth 8); lia. }
  assert (PNM.write_row_P6 QuantumRange depth matte row =
          PNM.write_row
            (PNM.write_rgb_pixel QuantumRange (PNM.depth_P6 depth) false) row)
    as Hwrite.
  { unfold PNM.write_row_P6, PNM.ExportQuantumPixels_RGB.
    destruct ((PNM.depth_P6 depth =? 8) || (PNM.depth_P6 depth =? 16)) eqn:E;
      [reflexivity|].
    destruct Hmatte as [->|Hge]; [reflexivity|].
    exfalso. unfold PNM.depth_P6 in E.
    destruct (Z.gtb_spec depth 8) as [Hgt|Hle]; [discriminate|].
    assert (depth = 8) as -> by lia. discriminate. }
  rewrite Hwrite.
  pose proof (import_rgb_write_row QuantumRange (PNM.depth_P6 depth) row queue
                [] HQ Hd' Hrow Hlen) as Hrt.
  rewrite app_nil_r in Hrt. simpl in Hrt.
  unfold PNM.import_P6, PNM.ImportQuantumPixels_RGB.
  destruct ((PNM.depth_P6 depth =? 8) || (PNM.depth_P6 depth =? 16)).
  - eexists. split; [|exact Hrt].
    f_equal. unfold PNM.extent_P6. apply Z.eqb_refl.
  - eexists. split; [reflexivity|exact Hrt].
Qed.

Lemma P6_roundtrip_error_witness :
  (0 < 65535 /\ 1 <= 16 /\
   Forall (canonical_pixel 65535) [PNM.mkPixel 65535 32896 1 0] /\
   length [PNM.mkPixel 0 0 0 0] = length [PNM.mkPixel 65535 32896 1 0]) /\
  exists row',
    P6_roundtrip 65535 16 true [PNM.mkPixel 65535 32896 1 0]
      [PNM.mkPixel 0 0 0 0] = (row', true) /\
    Forall2 (channels_close 65535 (PNM.max_value_P6 16))
      [PNM.mkPixel 65535 32896 1 0] row' /\
    (65535 <= PNM.max_value_P6 16 ->
     Forall2 (channels_within 0) [PNM.mkPixel 65535 32896 1 0] row').
Proof.
  assert (Forall (canonical_pixel 65535) [PNM.mkPixel 65535 32896 1 0]) as Hrow.
  { constructor; [|constructor]. unfold canonical_pixel. simpl. lia. }
  split; [repeat split; try lia; exact Hrow|].
  apply (P6_roundtrip_error 65535 16 true [PNM.mkPixel 65535 32896 1 0]
           [PNM.mkPixel 0 0 0 0]); try lia; [exact Hrow|reflexivity].
Defined.

(** C1 as stated fails at depth 8 on the 16 bit build: the channel 128 is
    written as the sample 0 and read back as 0. *)
Lemma P6_depth_8_loses_more_than_one :
  P6_roundtrip 65535 8 false [PNM.mkPixel 128 0 0 0] [PNM.mkPixel 0 0 0 0] =
  ([PNM.mkPixel 0 0 0 0], true) /\
  ~ roundtrip_within_one 65535 8 false [PNM.mkPixel 128 0 0 0]
      [PNM.mkPixel 0 0 0 0].
Proof.
  assert (P6_roundtrip 65535 8 false [PNM.mkPixel 128 0 0 0]
            [PNM.mkPixel 0 0 0 0] = ([PNM.mkPixel 0 0 0 0], true)) as Hrt
    by (vm_compute; reflexivity).
  split; [exact Hrt|].
  intros (row' & Heq & Hclose). rewrite Hrt in Heq. injection Heq as <-.
  apply Forall2_cons_1 in Hclose as [(Hred & _) _]. simpl in Hred. lia.
Qed.

(** ** A stream that holds every row *)

Section FullStream.
Import PNM.

Variable extent : Z.
Variable target : Z -> Z.
Variable import : list Z -> list PixelPacket -> list PixelPacket * bool.
Variable queued : Z -> list PixelPacket.

Hypothesis target_injective : forall a b, target a = target b -> a = b.

Local Abbreviation full_loop :=
  (raw_rows extent None (fun r => Some (queued r)) (fun _ => true) target import).

(** The loop over a stream that starts with the blocks [chunks], one per
    row: every block is imported into the row of its number, and the other
    rows of the cache are left as they are. *)
Lemma raw_rows_full (chunks : list (list Z)) :
  forall (rest : list Z) (st : RawState),
  raw_status st = true ->
  (length (raw_pixels st) <= Z.to_nat extent)%nat ->
  Forall (fun c => Z.of_nat (length c) = extent /\
                   forall q, snd (import c q) = true) chunks ->
  raw_blob st = concat chunks ++ rest ->
  let st' := full_loop (length chunks) st in
  raw_status st' = true /\
  raw_blob st' = rest /\
  (forall (i : nat) c, chunks !! i = Some c ->
     raw_cache st' !! target (raw_row st + Z.of_nat i) =
     Some (fst (import c (queued (target (raw_row st + Z.of_nat i)))))) /\
  (forall key, (forall i : nat, (i < length chunks)%nat ->
                  key <> target (raw_row st + Z.of_nat i)) ->
     raw_cache st' !! key = raw_cache st !! key).
Proof.
  induction chunks as [|c chunks IH]; intros rest st Hs Hbuf Hall Hblob; simpl.
  - repeat split; try done.
  - apply Forall_cons in Hall as [[Hlen Hok] Hall].
    assert (raw_row_body extent None (fun r => Some (queued r)) (fun _ => true)
              target import st =
            mkRaw (concat chunks ++ rest) (raw_row st + 1) true c
              (<[target (raw_row st) :=
                   fst (import c (queued (target (raw_row st))))]>
                 (raw_cache st))) as Hbody.
    { unfold raw_row_body, critical_section, ReadBlob.
      rewrite Hs, Hblob. simpl.
      rewrite <- app_assoc.
      assert (Z.to_nat extent = length c) as -> by lia.
      rewrite take_app_length, drop_app_length.
      rewrite drop_ge by lia. rewrite app_nil_r.
      rewrite Hlen, Z.eqb_refl.
      specialize (Hok (queued (target (raw_row st)))).
      destruct (import c (queued (target (raw_row st)))) as [r ok].
      simpl in Hok. subst ok. reflexivity. }
    rewrite Hbody.
    destruct (IH rest
                (mkRaw (concat chunks ++ rest) (raw_row st + 1) true c
                   (<[target (raw_row st) :=
                        fst (import c (queued (target (raw_row st))))]>
                      (raw_cache st)))
                eq_refl ltac:(simpl; lia) Hall eq_refl)
      as (IHs & IHb & IHrows & IHother).
    simpl in IHrows, IHother.
    split; [exact IHs|]. split; [exact IHb|]. split.
    + intros [|i] c' Hi; simpl in Hi.
      * injection Hi as <-. rewrite Z.add_0_r.
        rewrite IHother.
        { by rewrite lookup_insert_eq. }
        intros i _ Heq. apply target_injective in Heq. lia.
      * replace (raw_row st + Z.of_nat (S i)) with (raw_row st + 1 + Z.of_nat i)
          by lia.
        exact (IHrows i c' Hi).
    + intros key Hkey. rewrite IHother.
      * rewrite lookup_insert_ne; [done|].
        specialize (Hkey 0%nat ltac:(lia)). rewrite Z.add_0_r in Hkey. done.
      * intros i Hi. specialize (Hkey (S i) ltac:(lia)).
        replace (raw_row st + 1 + Z.of_nat i) with (raw_row st + Z.of_nat (S i))
          by lia. done.
Qed.

End FullStream.

(** ** The PFM format *)

Section PFM.
Import PNM.

Lemma PFM_endian_LSB (quantum_scale : Double) :
  PFM_endian quantum_scale = LSBEndian <->
  match quantum_scale with
  | Finite q => (q < 0)%Q
  | Infinite negative => negative = true
  | NaN => False
  end.
Proof.
  unfold PFM_endian, lt_zero. destruct quantum_scale as [q|negative|].
  - destruct (Qle_bool 0 q) eqn:E; cbn [negb].
    + apply Qle_bool_iff in E. split; [discriminate|].
      intros Hlt. exfalso. by apply (Qlt_not_le _ _ Hlt).
    + split; [intros _|done].
      apply Qnot_le_lt. intros Hle. apply Qle_bool_iff in Hle. congruence.
  - by destruct negative.
  - done.
Qed.

Lemma PFM_scale_line_LSB (endian : EndianType) :
  PFM_scale_line endian = ("-1.0" ++ newline)%string <-> endian = LSBEndian.
Proof. destruct endian; split; (discriminate || reflexivity). Qed.

Lemma PFM_write_rows_take {Row : Type} (export : Row -> list Z)
    (rows : list Row) (y : nat) :
  (y <= length rows)%nat ->
  PFM_write_rows export rows y = map export (reverse (take y rows)).
Proof.
  induction y as [|y IH]; intros Hy; simpl.
  - reflexivity.
  - destruct (lookup_lt_is_Some_2 rows y ltac:(lia)) as [p Hp].
    rewrite Hp, (take_S_r _ _ _ Hp), reverse_snoc. simpl.
    f_equal. apply IH. lia.
Qed.

Lemma PFM_write_rows_reverse {Row : Type} (export : Row -> list Z)
    (rows : list Row) :
  PFM_write_rows export rows (length rows) = map export (reverse rows).
Proof. rewrite PFM_write_rows_take by lia. by rewrite take_ge by lia. Qed.

(** The loop of case 'F' over a stream that holds every scanline. *)
Lemma PFM_read_rows_full (extent : Z)
    (import : list Z -> list PixelPacket -> list PixelPacket * Z)
    (queued : Z -> list PixelPacket) (chunks : list (list Z)) (pixels : list Z) :
  (length pixels <= Z.to_nat extent)%nat ->
  Forall (fun c => Z.of_nat (length c) = extent /\
                   forall q, snd (import c q) = extent) chunks ->
  exists st,
    PFM_read_rows extent import (fun r => Some (queued r)) (length chunks)
      (concat chunks) pixels = Returned st /\
    forall (i : nat) c, chunks !! i = Some c ->
      let y := Z.of_nat (length chunks) - 1 - Z.of_nat i in
      raw_cache st !! y = Some (fst (import c (queued y))).
Proof.
  intros Hbuf Hall. unfold PFM_read_rows, ReadRawRows.
  set (import' := fun p q => let '(r, length) := import p q in
                             (r, length =? extent)).
  set (target := PFM_target (Z.of_nat (length chunks))).
  assert (forall a b, target a = target b -> a = b) as Hinj
    by (unfold target, PFM_target; intros; lia).
  assert (Forall (fun c => Z.of_nat (length c) = extent /\
                           forall q, snd (import' c q) = true) chunks) as Hall'.
  { eapply Forall_impl; [exact Hall|]. intros c [Hlen Hok]. split; [done|].
    intros q. unfold import'. specialize (Hok q).
    destruct (import c q) as [r len]. simpl in *. subst len.
    apply Z.eqb_refl. }
  destruct (raw_rows_full extent target import' queued Hinj chunks []
              (raw_init (concat chunks) pixels) eq_refl Hbuf Hall'
              ltac:(simpl; by rewrite app_nil_r))
    as (Hs & _ & Hrows & _).
  rewrite Hs. eexists. split; [reflexivity|].
  intros i c Hi. set (y := Z.of_nat (length chunks) - 1 - Z.of_nat i).
  specialize (Hrows i c Hi).
  change (raw_row (raw_init (concat chunks) pixels)) with 0 in Hrows.
  assert (target (0 + Z.of_nat i) = y) as Hy
    by (unfold target, PFM_target, y; lia).
  rewrite Hy in Hrows. rewrite Hrows. unfold import'.
  by destruct (import c (queued y)).
Qed.

End PFM.

(** C10, as the code has it.  PFM orientation and endianness: the decoder
    stores scanline [i] of the file into row [rows-1-i] and sets the
    endianness to LSB exactly when the scale of the header is negative; the
    encoder emits the scanlines from the last row to the first and writes
    the scale "-1.0" exactly when the endianness of the image is LSB.  So an
    image that is written and read back has each row in its place, and the
    endianness read back is LSB exactly when the image written was LSB: an
    endianness of LSB or MSB is preserved, and an image of undefined
    endianness, which is written with the scale "1.0", reads back as MSB.
    [atof] skips white space before the scale. *)
Theorem PFM_orientation_and_endianness :
  (forall extent import queued chunks pixels,
     (length pixels <= Z.to_nat extent)%nat ->
     Forall (fun c => Z.of_nat (length c) = extent /\
                      forall q, snd (import c q) = extent) chunks ->
     exists st,
       PNM.PFM_read_rows extent import (fun r => Some (queued r))
         (length chunks) (concat chunks) pixels = PNM.Returned st /\
       forall (i : nat) c, chunks !! i = Some c ->
         let y := Z.of_nat (length chunks) - 1 - Z.of_nat i in
         PNM.raw_cache st !! y = Some (fst (import c (queued y)))) /\
  (forall quantum_scale,
     PNM.PFM_endian quantum_scale = PNM.LSBEndian <->
     match quantum_scale with
     | PNM.Finite q => (q < 0)%Q
     | PNM.Infinite negative => negative = true
     | PNM.NaN => False
     end) /\
  (forall (export : list PNM.PixelPacket -> list Z) rows,
     PNM.PFM_write_rows export rows (length rows) =
     map export (reverse rows)) /\
  (forall endian,
     PNM.PFM_scale_line endian = ("-1.0" ++ PNM.newline)%string <->
     endian = PNM.LSBEndian) /\
  (forall endian,
     let endian' := PNM.PFM_endian (PNM.atof (PNM.PFM_scale_line endian)) in
     (endian' = PNM.LSBEndian <-> endian = PNM.LSBEndian) /\
     (endian <> PNM.UndefinedEndian -> endian' = endian) /\
     (endian = PNM.UndefinedEndian -> endian' = PNM.MSBEndian)) /\
  (forall c scale,
     PNM.isspace_ascii c = true ->
     PNM.atof (String c scale) = PNM.atof scale) /\
  (forall extent export import queued endian
          (rows : list (list PNM.PixelPacket)) pixels,
     (length pixels <= Z.to_nat extent)%nat ->
     Forall (fun p => Z.of_nat (length (export p)) = extent /\
                      forall q, snd (import (export p) q) = extent) rows ->
     exists st,
       PNM.PFM_read_rows extent import (fun r => Some (queued r))
         (length rows) (snd (PNM.PFM_write export endian rows)) pixels =
       PNM.Returned st /\
       forall (y : nat) p, rows !! y = Some p ->
         PNM.raw_cache st !! Z.of_nat y =
         Some (fst (import (export p) (queued (Z.of_nat y))))).
Proof.
  split; [|split; [|split; [|split; [|split; [|split]]]]].
  - intros extent import queued chunks pixels. apply PFM_read_rows_full.
  - apply PFM_endian_LSB.
  - intros export rows. apply PFM_write_rows_reverse.
  - apply PFM_scale_line_LSB.
  - intros []; vm_compute; (split; [split|split]); done.
  - intros c scale Hc. unfold PNM.atof. cbn [PNM.skip_white]. by rewrite Hc.
  - intros extent export import queued endian rows pixels Hbuf Hall.
    unfold PNM.PFM_write. simpl. rewrite PFM_write_rows_reverse.
    assert (length (map export (reverse rows)) = length rows) as Hlen
      by (by rewrite length_map, length_reverse).
    assert (Forall (fun c => Z.of_nat (length c) = extent /\
                             forall q, snd (import c q) = extent)
              (map export (reverse rows))) as Hall'.
    { apply Forall_forall. intros c Hc.
      apply list_elem_of_fmap in Hc as (p & -> & Hp).
      rewrite elem_of_reverse in Hp.
      rewrite Forall_forall in Hall. by apply Hall. }
    destruct (PFM_read_rows_full extent import queued
                (map export (reverse rows)) pixels Hbuf Hall')
      as (st & Hst & Hrows).
    rewrite Hlen in Hst. exists st. split; [exact Hst|].
    intros y p Hy.
    pose proof (lookup_lt_Some _ _ _ Hy) as Hylt.
    specialize (Hrows (length rows - S y)%nat (export p)).
    rewrite Hlen in Hrows.
    replace (Z.of_nat (length rows) - 1 - Z.of_nat (length rows - S y))
      with (Z.of_nat y) in Hrows by lia.
    apply Hrows.
    rewrite list_lookup_fmap, reverse_lookup by lia.
    replace (length rows - S (length rows - S y))%nat with y by lia.
    by rewrite Hy.
Qed.

Lemma PFM_orientation_and_endianness_witness :
  let export := fun p : list PNM.PixelPacket => map PNM.red p in
  let import := fun (c : list Z) (q : list PNM.PixelPacket) =>
                  (map (fun v => PNM.mkPixel v v v 0) c, Z.of_nat (length c)) in
  let rows := [[PNM.mkPixel 1 1 1 0]; [PNM.mkPixel 2 2 2 0]] in
  ((length [0] <= Z.to_nat 1)%nat /\
   Forall (fun p => Z.of_nat (length (export p)) = 1 /\
                    forall q, snd (import (export p) q) = 1) rows) /\
  exists st,
    PNM.PFM_read_rows 1 import (fun r => Some []) (length rows)
      (snd (PNM.PFM_write export PNM.LSBEndian rows)) [0] = PNM.Returned st /\
    forall (y : nat) p, rows !! y = Some p ->
      PNM.raw_cache st !! Z.of_nat y = Some (fst (import (export p) [])).
Proof.
  intros export import rows.
  assert (Forall (fun p => Z.of_nat (length (export p)) = 1 /\
                           forall q, snd (import (export p) q) = 1) rows)
    as Hall.
  { repeat constructor. }
  split; [split; [simpl; lia|exact Hall]|].
  apply (proj2 (proj2 (proj2 (proj2 (proj2 (proj2
           PFM_orientation_and_endianness)))))
           1 export import (fun _ => []) PNM.LSBEndian rows [0]).
  - simpl. lia.
  - exact Hall.
Defined.

(** C10 as stated fails on the endianness of an image that has none set:
    the writer gives it the scale "1.0", and the reader sets MSB. *)
Lemma undefined_endian_reads_back_MSB :
  ~ PFM_preserves_endianness PNM.UndefinedEndian /\
  PNM.PFM_scale_line PNM.UndefinedEndian = ("1.0" ++ PNM.newline)%string /\
  PFM_endian_roundtrip PNM.UndefinedEndian = PNM.MSBEndian.
Proof.
  split; [|split; vm_compute; reflexivity].
  unfold PFM_preserves_endianness.
  assert (PFM_endian_roundtrip PNM.UndefinedEndian = PNM.MSBEndian) as ->
    by (vm_compute; reflexivity).
  discriminate.
Qed.

(** * Further properties of the coders *)

(** ** [PNMInteger] *)

Section PNMIntegerParse.
Import Quantum PNM PNMHeader.

Lemma isdigit_digit_char (d : Z) : is_decimal_digit d -> isdigit (d + 48) = true.
Proof. unfold is_decimal_digit, isdigit. intros H. lia. Qed.

Lemma to_ulong_step (v d : Z) :
  to_ulong (to_ulong v * 10 + d) = to_ulong (v * 10 + d).
Proof.
  unfold to_ulong.
  rewrite Z.add_mod, Z.mul_mod_idemp_l, <- Z.add_mod by lia. reflexivity.
Qed.

(** The wrapped accumulation of the source is the plain one, reduced. *)
Lemma PNMDigits_digits (digits : list Z) (v c : Z) (rest : list Z) :
  Forall is_decimal_digit digits -> isdigit c = false ->
  PNMDigits (to_ulong v) (digit_chars digits ++ c :: rest) =
  (to_ulong (fold_left (fun v d => v * 10 + d) digits v), rest).
Proof.
  intros Hd Hc. revert v.
  induction Hd as [|d digits Hd0 Hd IH]; intros v; simpl.
  - by rewrite Hc.
  - rewrite isdigit_digit_char by done.
    replace (d + 48 - 48) with d by lia.
    rewrite to_ulong_step. apply IH.
Qed.

Lemma PNMDigits_digits_eof (digits : list Z) (v : Z) :
  Forall is_decimal_digit digits ->
  PNMDigits (to_ulong v) (digit_chars digits) =
  (to_ulong (fold_left (fun v d => v * 10 + d) digits v), []).
Proof.
  intros Hd. revert v.
  induction Hd as [|d digits Hd0 Hd IH]; intros v; simpl; [done|].
  rewrite isdigit_digit_char by done.
  replace (d + 48 - 48) with d by lia.
  rewrite to_ulong_step. apply IH.
Qed.

Lemma PNMSkip_separators (junk blob : list Z) :
  Forall is_separator junk ->
  PNMSkip false (junk ++ blob) = PNMSkip false blob.
Proof.
  induction 1 as [|c junk [Hc1 Hc2] _ IH]; simpl; [done|].
  destruct (Z.eqb_spec c 35); [done|]. by rewrite Hc1.
Qed.

Lemma PNMSkip_comment (text blob : list Z) :
  10 ∉ text ->
  PNMSkip true (text ++ 10 :: blob) = PNMSkip false blob.
Proof.
  induction text as [|c text IH]; intros Hnl; simpl.
  - reflexivity.
  - apply not_elem_of_cons in Hnl as [Hc Hnl].
    destruct (Z.eqb_spec c 10); [congruence|]. simpl. by apply IH.
Qed.

End PNMIntegerParse.

(** X1. [PNMInteger] in base 10 reads a run of decimal digits as the number
    they denote, reduced modulo 2^64 (the accumulator is an
    [unsigned long]); separators before the number are passed over and the
    one character that ends the number is consumed with it.  At the end of
    the stream the digits read so far are the value. *)
Theorem PNMInteger_reads_decimal (junk digits : list Z) (c : Z) (rest : list Z) :
  Forall PNMHeader.is_separator junk ->
  Forall PNMHeader.is_decimal_digit digits -> digits <> [] ->
  PNM.isdigit c = false ->
  PNM.PNMInteger 10 (junk ++ PNMHeader.digit_chars digits ++ c :: rest) =
    (PNMHeader.decimal_value digits mod 2 ^ 64, rest) /\
  PNM.PNMInteger 10 (junk ++ PNMHeader.digit_chars digits) =
    (PNMHeader.decimal_value digits mod 2 ^ 64, []).
Proof.
  intros Hjunk Hd Hne Hc.
  destruct digits as [|d digits]; [done|].
  apply Forall_cons in Hd as [Hd0 Hd].
  assert (forall tail,
            PNM.PNMInteger 10 (junk ++ (d + 48) :: tail) =
            PNM.PNMDigits (Quantum.to_ulong d) tail) as Hfirst.
  { intros tail. unfold PNM.PNMInteger. rewrite PNMSkip_separators by done.
    simpl. destruct (Z.eqb_spec (d + 48) 35) as [He|_].
    { unfold PNMHeader.is_decimal_digit in Hd0. lia. }
    rewrite isdigit_digit_char by done. simpl.
    by replace (d + 48 - 48) with d by lia. }
  split.
  - simpl. rewrite Hfirst. exact (PNMDigits_digits digits d c rest Hd Hc).
  - simpl. rewrite Hfirst. exact (PNMDigits_digits_eof digits d Hd).
Qed.

Lemma PNMInteger_reads_decimal_witness :
  PNM.PNMInteger 10 ([32; 10] ++ PNMHeader.digit_chars [6; 4; 0] ++ 32 :: [52]) =
  (PNMHeader.decimal_value [6; 4; 0] mod 2 ^ 64, [52]).
Proof.
  apply (PNMInteger_reads_decimal [32; 10] [6; 4; 0] 32 [52]).
  - repeat constructor; done.
  - repeat constructor; unfold PNMHeader.is_decimal_digit; lia.
  - done.
  - reflexivity.
Defined.

(** ** The comment block and the format character of the writer *)

Section CommentBlock.
Import Quantum PNM PNMHeader.

(** Inside a comment, the text the writer emits for a comment, followed by
    the closing newline, brings [PNMInteger] back to where it looks for a
    number. *)
Lemma PNMSkip_write_comment_text (p blob : list Z) :
  PNMSkip true (write_comment_text p ++ [10] ++ blob) = PNMSkip false blob.
Proof.
  induction p as [|c p IH]; [reflexivity|].
  cbn [write_comment_text]. rewrite <- !app_assoc.
  cbn [app PNMSkip].
  destruct p as [|c' p'].
  - (* the last character of the text *)
    rewrite !andb_false_r. cbn [app write_comment_text PNMSkip].
    destruct (Z.eqb_spec c 10) as [->|_]; reflexivity.
  - rewrite !andb_true_r.
    destruct (Z.eqb_spec c 13) as [->|Hcr].
    + (* a carriage return: the [#] is one more character of the comment *)
      cbn [Z.eqb Pos.eqb negb app PNMSkip]. exact IH.
    + destruct (Z.eqb_spec c 10) as [->|Hnl].
      * (* a newline ends the comment and the [#] opens the next one *)
        cbn [Z.eqb Pos.eqb negb app PNMSkip]. exact IH.
      * cbn [negb app]. exact IH.
Qed.

End CommentBlock.

(** X2. The comment block [WritePNMImage] puts after the magic number is
    invisible to [PNMInteger]: whatever the text of the comment (carriage
    returns, newlines, a trailing newline, digits), reading a number from
    the block followed by a stream gives what reading from the stream
    gives.  The same holds for separators and for a comment line. *)
Theorem written_comment_is_skipped (base : Z) (value : option (list Z))
    (blob : list Z) :
  PNM.PNMInteger base (PNMHeader.write_comment value ++ blob) =
    PNM.PNMInteger base blob /\
  (forall junk, Forall PNMHeader.is_separator junk ->
     PNM.PNMInteger base (junk ++ blob) = PNM.PNMInteger base blob) /\
  (forall text, 10 ∉ text ->
     PNM.PNMInteger base ([35] ++ text ++ [10] ++ blob) =
     PNM.PNMInteger base blob).
Proof.
  unfold PNM.PNMInteger. split; [|split].
  - destruct value as [p|]; [|reflexivity].
    unfold PNMHeader.write_comment. rewrite <- !app_assoc.
    rewrite <- (PNMSkip_write_comment_text p blob). reflexivity.
  - intros junk Hjunk. by rewrite PNMSkip_separators.
  - intros text Htext.
    rewrite <- (PNMSkip_comment text blob Htext). reflexivity.
Qed.

Lemma written_comment_is_skipped_witness :
  Forall PNMHeader.is_separator [32; 9; 10] /\
  PNM.PNMInteger 10 ([32; 9; 10] ++ [49; 50; 32]) = PNM.PNMInteger 10 [49; 50; 32].
Proof.
  assert (Forall PNMHeader.is_separator [32; 9; 10]) as H
    by (repeat constructor; done).
  split; [exact H|].
  exact (proj1 (proj2 (written_comment_is_skipped 10 None [49; 50; 32]))
           [32; 9; 10] H).
Defined.

(** X3. [PNMInteger] only moves forward and stays in range: the stream it
    leaves is a suffix of the stream it was given, the value is below 2^64,
    and at the end of the stream (or when only separators and comments are
    left) it returns 0 with nothing left. *)
Theorem PNMInteger_moves_forward (base : Z) (blob : list Z) :
  suffix (snd (PNM.PNMInteger base blob)) blob /\
  (base <> 2 -> 0 <= fst (PNM.PNMInteger base blob) < 2 ^ 64) /\
  (base = 2 -> 0 <= fst (PNM.PNMInteger base blob) <= 9) /\
  PNM.PNMInteger base [] = (0, []) /\
  (PNM.PNMSkip false blob = None -> PNM.PNMInteger base blob = (0, [])).
Proof.
  assert (forall in_comment l c l',
            PNM.PNMSkip in_comment l = Some (c, l') ->
            suffix l' l /\ PNM.isdigit c = true) as Hskip.
  { intros in_comment l. revert in_comment.
    induction l as [|x l IH]; intros in_comment c l' H; [discriminate|].
    simpl in H. destruct in_comment.
    - destruct (IH _ _ _ H). split; [by apply suffix_cons_r|done].
    - destruct (x =? 35).
      + destruct (IH _ _ _ H). split; [by apply suffix_cons_r|done].
      + destruct (PNM.isdigit x) eqn:E.
        * injection H as <- <-. split; [by apply suffix_cons_r|done].
        * destruct (IH _ _ _ H). split; [by apply suffix_cons_r|done]. }
  assert (forall l v, 0 <= v < 2 ^ 64 ->
            suffix (snd (PNM.PNMDigits v l)) l /\
            0 <= fst (PNM.PNMDigits v l) < 2 ^ 64) as Hdigits.
  { induction l as [|x l IH]; intros v Hv; simpl.
    - split; [done|exact Hv].
    - destruct (PNM.isdigit x).
      + destruct (IH (Quantum.to_ulong (v * 10 + (x - 48)))) as [Hs Hr].
        { unfold Quantum.to_ulong. apply Z.mod_pos_bound. lia. }
        split; [by apply suffix_cons_r|exact Hr].
      + split; [by apply suffix_cons_r|exact Hv]. }
  unfold PNM.PNMInteger.
  destruct (PNM.PNMSkip false blob) as [[c blob']|] eqn:E.
  - destruct (Hskip _ _ _ _ E) as [Hsuf Hc].
    assert (0 <= c - 48 <= 9) as Hc' by (unfold PNM.isdigit in Hc; lia).
    destruct (Hdigits blob' (Quantum.to_ulong (0 * 10 + (c - 48)))) as [Hs Hr].
    { unfold Quantum.to_ulong. apply Z.mod_pos_bound. lia. }
    destruct (Z.eqb_spec base 2) as [Hb|Hb]; simpl.
    + split; [exact Hsuf|]. split; [done|]. split; [intros _; lia|].
      split; [reflexivity|discriminate].
    + split; [by etrans|]. split; [intros _; exact Hr|].
      split; [done|]. split; [reflexivity|discriminate].
  - simpl. split; [apply suffix_nil|]. split; [intros; lia|].
    split; [intros; lia|]. split; reflexivity || done.
Qed.

Lemma PNMInteger_moves_forward_witness :
  10 <> 2 /\ 0 <= fst (PNM.PNMInteger 10 [35; 55; 10; 52; 50]) < 2 ^ 64.
Proof.
  split; [lia|].
  exact (proj1 (proj2 (PNMInteger_moves_forward 10 [35; 55; 10; 52; 50]))
           ltac:(lia)).
Defined.

(** ** The depth of an image and the scale table *)

Section DepthLoop.
Import Quantum PNM.

Lemma GetQuantumRange_mono (d d' : Z) :
  0 <= d <= d' -> GetQuantumRange d <= GetQuantumRange d'.
Proof.
  intros H. unfold GetQuantumRange.
  pose proof (Z.pow_le_mono_r 2 d d' ltac:(lia) ltac:(lia)). lia.
Qed.

(** The loop stops at the first depth whose range reaches [max_value], or
    when it has made [fuel] steps. *)
Lemma depth_loop_first (fuel : nat) (depth max_value : Z) :
  let r := depth_loop fuel depth max_value in
  depth <= r <= depth + Z.of_nat fuel /\
  (forall d, depth <= d < r -> GetQuantumRange d < max_value) /\
  (r < depth + Z.of_nat fuel -> max_value <= GetQuantumRange r).
Proof.
  revert depth. induction fuel as [|fuel IH]; intros depth; simpl.
  - split; [lia|]. split; intros; lia.
  - destruct (Z.ltb_spec (GetQuantumRange depth) max_value) as [Hlt|Hge].
    + destruct (IH (depth + 1)) as (Hr & Hbelow & Hstop).
      split; [lia|]. split.
      * intros d Hd. destruct (Z.eq_dec d depth) as [->|]; [done|].
        apply Hbelow. lia.
      * intros Hlt'. apply Hstop. lia.
    + split; [lia|]. split; intros; lia.
Qed.

End DepthLoop.

(** X4. The depth the reader derives from the maximum sample of the header
    (which it has checked to be below 65536) is the least depth, between 1
    and 16, whose range [2^depth - 1] reaches that maximum. *)
Theorem image_depth_is_least (max_value : Z) :
  0 <= max_value < 65536 ->
  let depth := PNM.image_depth max_value in
  1 <= depth <= 16 /\
  max_value <= Quantum.GetQuantumRange depth /\
  (forall d, 1 <= d < depth -> Quantum.GetQuantumRange d < max_value).
Proof.
  intros Hm. unfold PNM.image_depth.
  pose proof (depth_loop_first 16 1 max_value) as H. cbv zeta in H.
  change (1 + Z.of_nat 16) with 17 in H.
  destruct H as (Hr & Hbelow & Hstop). cbv zeta.
  set (r := PNM.depth_loop 16 1 max_value) in *.
  assert (r <= 16) as Hle.
  { destruct (Z.le_gt_cases r 16) as [|Hgt]; [done|].
    specialize (Hbelow 16 ltac:(lia)).
    change (Quantum.GetQuantumRange 16) with 65535 in Hbelow. lia. }
  split; [lia|]. split; [apply Hstop; lia|exact Hbelow].
Qed.

Lemma image_depth_is_least_witness :
  0 <= 1000 < 65536 /\
  1000 <= Quantum.GetQuantumRange (PNM.image_depth 1000).
Proof.
  split; [lia|].
  apply (image_depth_is_least 1000). lia.
Defined.

(** X5. The pixel scaling table of the plain decoders maps the sample range
    onto the quantum range in order: it has [max_value+1] entries, entry 0
    is 0, entry [max_value] is [QuantumRange], every entry lies in
    [0, QuantumRange], and the entries never decrease. *)
Theorem scale_table_is_monotone (QuantumRange max_value : Z) (table : list Z) :
  0 <= QuantumRange -> 0 < max_value ->
  PNM.scale_table QuantumRange max_value = Some table ->
  PNM.table_get table 0 = Some 0 /\
  PNM.table_get table max_value = Some QuantumRange /\
  (forall i v, PNM.table_get table i = Some v -> 0 <= v <= QuantumRange) /\
  (forall i j v w, i <= j ->
     PNM.table_get table i = Some v -> PNM.table_get table j = Some w ->
     v <= w).
Proof.
  intros HQ Hmax Ht.
  assert (forall i v, PNM.table_get table i = Some v ->
            0 <= i <= max_value /\
            v = Quantum.round_half_up_div (QuantumRange * i) max_value /\
            0 <= v <= QuantumRange) as Hentry.
  { intros i v Hi.
    assert (0 <= i <= max_value) as Hrange.
    { unfold PNM.table_get in Hi.
      destruct (Z.ltb_spec i 0) as [|Hi0]; [discriminate|].
      apply lookup_lt_Some in Hi.
      rewrite (scale_table_length _ _ _ Ht) in Hi. lia. }
    rewrite (scale_table_lookup _ _ _ _ Ht Hrange) in Hi.
    injection Hi as <-. unfold PNM.scale_entry.
    pose proof (round_half_up_div_range QuantumRange max_value i HQ Hmax Hrange).
    rewrite to_Quantum_small by done. done. }
  split; [|split; [|split]].
  - rewrite (scale_table_lookup _ _ _ _ Ht) by lia.
    unfold PNM.scale_entry, Quantum.round_half_up_div.
    rewrite Z.mul_0_r, Z.add_0_l, Z.div_small by lia.
    by rewrite to_Quantum_small by lia.
  - rewrite (scale_table_lookup _ _ _ _ Ht) by lia.
    unfold PNM.scale_entry.
    rewrite (Z.mul_comm QuantumRange), round_half_up_div_same by lia.
    by rewrite to_Quantum_small by lia.
  - intros i v Hi. by destruct (Hentry i v Hi) as (_ & _ & ?).
  - intros i j v w Hij Hi Hj.
    destruct (Hentry i v Hi) as (Hir & -> & _).
    destruct (Hentry j w Hj) as (Hjr & -> & _).
    unfold Quantum.round_half_up_div. apply Z.div_le_mono; nia.
Qed.

Lemma scale_table_is_monotone_witness :
  (0 <= 65535 /\ 0 < 255) /\
  exists table, PNM.scale_table 65535 255 = Some table /\
                PNM.table_get table 255 = Some 65535.
Proof.
  split; [lia|].
  destruct (PNM.scale_table 65535 255) as [table|] eqn:E;
    [|vm_compute in E; discriminate].
  exists table. split; [reflexivity|].
  apply (scale_table_is_monotone 65535 255 table); [lia|lia|exact E].
Defined.

(** ** Magic numbers *)

(** X6. No file is taken for two of the three formats: of [IsPNM], [IsTIFF]
    and [IsPS] at most one accepts a given start of a file.  [IsPNM] needs
    two bytes, [IsTIFF] and [IsPS] need four: a shorter buffer is never
    accepted, even when it holds a complete magic number. *)
Theorem magic_numbers_are_disjoint (big : bool) (magick : list Z) :
  (PNMHeader.IsPNM magick = true -> Magic.IsTIFF big magick = false /\
                                    Magic.IsPS magick = false) /\
  (Magic.IsTIFF big magick = true -> Magic.IsPS magick = false) /\
  ((length magick < 2)%nat -> PNMHeader.IsPNM magick = false) /\
  ((length magick < 4)%nat -> Magic.IsTIFF big magick = false /\
                              Magic.IsPS magick = false).
Proof.
  assert (forall a b l, Magic.starts_with (a :: l) (b :: magick) = true -> a = b)
    as Hhead.
  { intros a b l H. simpl in H. apply andb_true_iff in H as [H _]. lia. }
  split; [|split; [|split]].
  - destruct magick as [|m0 [|m1 rest]]; try discriminate.
    unfold PNMHeader.IsPNM. intros H. apply andb_true_iff in H as [H0 _].
    apply Z.eqb_eq in H0 as ->.
    unfold Magic.IsTIFF, Magic.IsPS. cbn [Magic.starts_with].
    change (77 =? 80) with false. change (73 =? 80) with false.
    change (37 =? 80) with false. change (4 =? 80) with false.
    cbn [andb]. split.
    + destruct (_ <? 4); [done|]. destruct big; [|done].
      by destruct (_ <? 8).
    + by destruct (_ <? 4).
  - unfold Magic.IsTIFF, Magic.IsPS. destruct (_ <? 4); [done|].
    destruct magick as [|m0 rest]; [done|]. cbn [Magic.starts_with].
    destruct (Z.eqb_spec 77 m0) as [<-|H77]; [done|].
    destruct (Z.eqb_spec 73 m0) as [<-|H73]; [done|].
    cbn [andb]. destruct big; [|done]. by destruct (_ <? 8).
  - destruct magick as [|m0 [|m1 rest]]; simpl; (done || lia).
  - intros Hlen. unfold Magic.IsTIFF, Magic.IsPS.
    destruct (Z.ltb_spec (Z.of_nat (length magick)) 4); [done|lia].
Qed.

Lemma magic_numbers_are_disjoint_witness :
  PNMHeader.IsPNM [80; 54; 10; 50] = true /\
  Magic.IsTIFF true [80; 54; 10; 50] = false /\
  Magic.IsPS [80; 54; 10; 50] = false.
Proof.
  split; [reflexivity|].
  exact (proj1 (magic_numbers_are_disjoint true [80; 54; 10; 50]) eq_refl).
Defined.

(** X7. Whatever the format name, the compression, the type and the
    contents of the image, the format character [WritePNMImage] writes
    after [P] is one the reader has a case for, and the two bytes are a
    magic number [IsPNM] accepts: the writer never produces a file its own
    reader rejects as ImproperImageHeader on the format character. *)
Theorem writer_format_is_readable (magick1 : Z)
    (no_compression true_color gray monochrome : bool) (rest : list Z) :
  let format := PNMHeader.writer_format magick1 no_compression true_color gray
                  monochrome in
  PNMHeader.reader_handles format = true /\
  PNMHeader.IsPNM (80 :: format :: rest) = true.
Proof.
  unfold PNMHeader.writer_format.
  repeat match goal with
         | |- context [if ?b then _ else _] => destruct b
         end; split; reflexivity.
Qed.

(** ** The raw row loops: what stops them and what they touch *)

Section RawLoopEdges.
Import PNM.

Variable extent : Z.
Variable progress_monitor : option (Z -> bool).
Variable queue : Z -> option (list PixelPacket).
Variable sync : Z -> bool.
Variable target : Z -> Z.
Variable import : list Z -> list PixelPacket -> list PixelPacket * bool.

Local Abbreviation body :=
  (raw_row_body extent progress_monitor queue sync target import).
Local Abbreviation loop :=
  (raw_rows extent progress_monitor queue sync target import).

(** An iteration that is not skipped takes the next row number. *)
Lemma raw_row_body_row (st : RawState) :
  raw_status st = true -> raw_row (body st) = raw_row st + 1.
Proof.
  intros Hs. unfold raw_row_body, critical_section, ReadBlob. rewrite Hs. simpl.
  destruct (queue _); [|done].
  destruct (import _ _) as [r ok]. by destruct (sync _).
Qed.

Lemma raw_row_body_stops (st : RawState) :
  raw_status st = true ->
  stops_at progress_monitor queue sync target (raw_row st) ->
  raw_status (body st) = false.
Proof.
  intros Hs Hstop. unfold raw_row_body, critical_section, ReadBlob.
  rewrite Hs. simpl.
  destruct Hstop as [(proceed & -> & Hp)|[Hq|Hy]].
  - rewrite Hp. destruct (queue _); [|done].
    destruct (import _ _) as [r ok].
    destruct (_ =? _), ok, (sync _); done.
  - by rewrite Hq.
  - destruct (queue _); [|done].
    destruct (import _ _) as [r ok]. by rewrite Hy.
Qed.

Lemma raw_rows_stops (n : nat) (st : RawState) (offset : Z) :
  raw_row st <= offset < raw_row st + Z.of_nat n ->
  stops_at progress_monitor queue sync target offset ->
  raw_status (loop n st) = false.
Proof.
  revert st. induction n as [|n IH]; intros st Ho Hstop; [lia|].
  simpl. destruct (raw_status st) eqn:Hs.
  - destruct (Z.eq_dec offset (raw_row st)) as [->|Hne].
    + rewrite raw_rows_skips; by apply raw_row_body_stops.
    + apply IH; [|done]. rewrite raw_row_body_row by done. lia.
  - unfold raw_row_body at 1. rewrite Hs. simpl. by rewrite raw_rows_skips.
Qed.

Lemma raw_loop_bounds_body (blob : list Z) (n : nat) (st : RawState) :
  raw_loop_bounds extent target blob n st ->
  raw_loop_bounds extent target blob (S n)
    (if raw_status st then body st else st).
Proof.
  intros (Hrow & Hsuf & Hlen & Hkeys).
  destruct (raw_status st) eqn:Hs.
  - assert (raw_blob (body st) = drop (Z.to_nat extent) (raw_blob st)) as Hb
      by (by apply raw_row_body_blob).
    pose proof (raw_row_body_row st Hs) as Hr.
    unfold raw_loop_bounds. rewrite Hb, Hr.
    split; [lia|]. split.
    { etrans; [apply suffix_drop|exact Hsuf]. }
    split.
    { rewrite length_drop. lia. }
    intros key Hkey.
    assert (is_Some (raw_cache st !! key) \/ key = target (raw_row st)) as [H|H].
    { revert Hkey. unfold raw_row_body, critical_section, ReadBlob.
      rewrite Hs. simpl. destruct (queue _); [|by left].
      destruct (import _ _) as [r ok]. destruct (sync _); simpl; [|by left].
      destruct (decide (key = target (raw_row st))) as [->|Hne]; [by right|].
      rewrite lookup_insert_ne by done. by left. }
    + destruct (Hkeys key H) as (offset & Ho & ->). exists offset. split; [lia|done].
    + exists (raw_row st). split; [lia|done].
  - unfold raw_loop_bounds. split; [lia|]. split; [done|]. split; [done|].
    exact Hkeys.
Qed.

Lemma raw_loop_bounds_rows (blob : list Z) (n m : nat) (st : RawState) :
  raw_loop_bounds extent target blob m st ->
  raw_loop_bounds extent target blob (m + n) (loop n st).
Proof.
  revert m st. induction n as [|n IH]; intros m st Hst; simpl.
  - by rewrite Nat.add_0_r.
  - replace (m + S n)%nat with (S m + n)%nat by lia. apply IH.
    pose proof (raw_loop_bounds_body blob m st Hst) as Hb.
    destruct (raw_status st) eqn:Hs; [exact Hb|].
    unfold raw_row_body. rewrite Hs. exact Hb.
Qed.

End RawLoopEdges.

(** X8. A collaborator that stops a raw row loop makes the reader fail: if
    at some row of the image the progress monitor answers no, the pixel
    cache delivers no row, or the sync fails, the loop ends with [status]
    [MagickFalse] and the reader leaves through
    [ThrowReaderException(CorruptImageError,"UnableToReadImageData")], also
    when the stream holds every byte of the image. *)
Theorem stopped_loop_throws (extent : Z) (progress_monitor : option (Z -> bool))
    (queue : Z -> option (list PNM.PixelPacket)) (sync : Z -> bool)
    (target : Z -> Z)
    (import : list Z -> list PNM.PixelPacket -> list PNM.PixelPacket * bool)
    (rows : nat) (blob pixels : list Z) (offset : Z) :
  0 <= offset < Z.of_nat rows ->
  stops_at progress_monitor queue sync target offset ->
  PNM.ReadRawRows extent progress_monitor queue sync target import rows
    (PNM.raw_init blob pixels) =
  PNM.Thrown (ThrowMagickException CorruptImageError "UnableToReadImageData").
Proof.
  intros Ho Hstop. unfold PNM.ReadRawRows.
  rewrite (raw_rows_stops extent progress_monitor queue sync target import
             rows (PNM.raw_init blob pixels) offset); [reflexivity| |exact Hstop].
  simpl. lia.
Qed.

Lemma stopped_loop_throws_witness :
  let monitor := Some (fun row : Z => negb (row =? 1)) in
  let queue := fun _ : Z => Some [PNM.mkPixel 0 0 0 0] in
  (0 <= 1 < Z.of_nat 2 /\
   stops_at monitor queue (fun _ => true) (fun offset => offset) 1) /\
  PNM.ReadRawRows 3 monitor queue (fun _ => true) (fun offset => offset)
    (PNM.import_P6 255 4) 2 (PNM.raw_init [1; 2; 3; 4; 5; 6] [0; 0; 0]) =
  PNM.Thrown (ThrowMagickException CorruptImageError "UnableToReadImageData").
Proof.
  intros monitor queue.
  assert (stops_at monitor queue (fun _ => true) (fun offset => offset) 1)
    as Hstop.
  { left. eexists. split; reflexivity. }
  split; [split; [lia|exact Hstop]|].
  apply (stopped_loop_throws 3 monitor queue (fun _ => true)
           (fun offset => offset) (PNM.import_P6 255 4) 2
           [1; 2; 3; 4; 5; 6] [0; 0; 0] 1); [lia|exact Hstop].
Defined.

(** X9. Whatever the stream and the collaborators, a raw row loop over
    [rows] rows takes at most [rows] times the extent of a row from the
    front of the stream (it never reads into what follows the image), makes
    at most [rows] reads, and writes no row of the pixel cache other than
    the rows of the reads it made. *)
Theorem raw_loop_stays_in_bounds (extent : Z)
    (progress_monitor : option (Z -> bool))
    (queue : Z -> option (list PNM.PixelPacket)) (sync : Z -> bool)
    (target : Z -> Z)
    (import : list Z -> list PNM.PixelPacket -> list PNM.PixelPacket * bool)
    (rows : nat) (blob pixels : list Z) :
  raw_loop_bounds extent target blob rows
    (PNM.raw_rows extent progress_monitor queue sync target import rows
       (PNM.raw_init blob pixels)).
Proof.
  apply (raw_loop_bounds_rows extent progress_monitor queue sync target import
           blob rows 0 (PNM.raw_init blob pixels)).
  unfold raw_loop_bounds, PNM.raw_init. simpl.
  split; [lia|]. split; [done|]. split; [lia|].
  intros key [r Hr]. by rewrite lookup_empty in Hr.
Qed.

(** ** The header of a file *)

Section Header.
Import Quantum PNM PNMHeader PNMFile.

Lemma decimal_digits_digits (fuel : nat) (n : Z) (acc : list Z) :
  Forall is_decimal_digit acc ->
  Forall is_decimal_digit (decimal_digits fuel n acc).
Proof.
  revert n acc. induction fuel as [|fuel IH]; intros n acc Hacc; simpl; [done|].
  assert (Forall is_decimal_digit (n mod 10 :: acc)) as Hacc'.
  { constructor; [|done]. unfold is_decimal_digit.
    pose proof (Z.mod_pos_bound n 10 ltac:(lia)). lia. }
  destruct (n / 10 =? 0); [done|]. by apply IH.
Qed.

Lemma decimal_digits_nonempty (fuel : nat) (n : Z) (acc : list Z) :
  (0 < fuel)%nat -> decimal_digits fuel n acc <> [].
Proof.
  assert (forall fuel n acc, acc <> [] -> decimal_digits fuel n acc <> [])
    as Hkeep.
  { clear. induction fuel as [|fuel IH]; intros n acc Hacc; simpl; [done|].
    destruct (n / 10 =? 0); [done|]. by apply IH. }
  destruct fuel as [|fuel]; [lia|]. intros _. simpl.
  destruct (n / 10 =? 0); [done|]. by apply Hkeep.
Qed.

Lemma decimal_digits_value (fuel : nat) (n : Z) (acc : list Z) :
  0 <= n < 10 ^ Z.of_nat fuel ->
  fold_left (fun v d => v * 10 + d) (decimal_digits fuel n acc) 0 =
  fold_left (fun v d => v * 10 + d) acc n.
Proof.
  revert n acc. induction fuel as [|fuel IH]; intros n acc Hn.
  - simpl in Hn. assert (n = 0) as -> by lia. reflexivity.
  - simpl decimal_digits.
    pose proof (Z.div_mod n 10 ltac:(lia)) as Hdm.
    pose proof (Z.mod_pos_bound n 10 ltac:(lia)) as Hmod.
    destruct (Z.eqb_spec (n / 10) 0) as [Hq|Hq].
    + simpl. f_equal. lia.
    + rewrite IH.
      * simpl. f_equal. lia.
      * replace (Z.of_nat (S fuel)) with (Z.of_nat fuel + 1) in Hn by lia.
        rewrite Z.pow_add_r in Hn by lia.
        split; [apply Z.div_pos; lia|].
        apply Z.div_lt_upper_bound; lia.
Qed.

(** What the reader reads back from a number the writer formatted. *)
Lemma PNMInteger_format_lu (junk : list Z) (n c : Z) (rest : list Z) :
  Forall is_separator junk -> 0 <= n < 2 ^ 64 -> isdigit c = false ->
  PNMInteger 10 (junk ++ format_lu n ++ c :: rest) = (n, rest).
Proof.
  intros Hjunk Hn Hc. unfold format_lu.
  assert (forall tail d ds,
            is_decimal_digit d ->
            PNMInteger 10 (junk ++ digit_chars (d :: ds) ++ tail) =
            PNMDigits (to_ulong d) (digit_chars ds ++ tail)) as Hfirst.
  { intros tail d ds Hd. unfold PNMInteger. rewrite PNMSkip_separators by done.
    simpl. destruct (Z.eqb_spec (d + 48) 35) as [He|_].
    { unfold is_decimal_digit in Hd. lia. }
    rewrite isdigit_digit_char by done. simpl.
    by replace (d + 48 - 48) with d by lia. }
  pose proof (decimal_digits_digits 20 n [] ltac:(constructor)) as Hds.
  pose proof (decimal_digits_nonempty 20 n [] ltac:(lia)) as Hne.
  pose proof (decimal_digits_value 20 n [] ltac:(simpl; lia)) as Hval.
  destruct (decimal_digits 20 n []) as [|d ds]; [done|].
  apply Forall_cons in Hds as [Hd Hds].
  rewrite Hfirst by done.
  rewrite (PNMDigits_digits ds d c rest Hds Hc).
  change (fold_left (fun v d => v * 10 + d) ds d = n) in Hval.
  rewrite Hval. unfold to_ulong. by rewrite Z.mod_small by lia.
Qed.

Lemma PNMInteger_format_lu_next (n c : Z) (rest : list Z) :
  0 <= n < 2 ^ 64 -> isdigit c = false ->
  PNMInteger 10 (format_lu n ++ c :: rest) = (n, rest).
Proof. intros. by apply (PNMInteger_format_lu []). Qed.

Lemma PNMInteger_after_comment (comment : option (list Z)) (n c : Z)
    (rest : list Z) :
  0 <= n < 2 ^ 64 -> isdigit c = false ->
  PNMInteger 10 ([10] ++ write_comment comment ++ format_lu n ++ c :: rest) =
  (n, rest).
Proof.
  intros Hn Hc.
  assert (PNMSkip false ([10] ++ write_comment comment ++ format_lu n ++ c :: rest)
          = PNMSkip false (format_lu n ++ c :: rest)) as Hskip.
  { cbn [app PNMSkip]. cbn [Z.eqb Pos.eqb isdigit Z.leb Z.compare Pos.compare
                              Pos.compare_cont andb].
    destruct comment as [p|]; [|reflexivity].
    unfold write_comment. rewrite <- !app_assoc.
    rewrite <- (PNMSkip_write_comment_text p (format_lu n ++ c :: rest)).
    reflexivity. }
  pose proof (PNMInteger_format_lu [] n c rest ltac:(constructor) Hn Hc) as Hint.
  unfold PNMInteger in *. rewrite Hskip. exact Hint.
Qed.

End Header.

Section HeaderRoundTrip.
Import Quantum PNM PNMHeader PNMFile.

Lemma PNMInteger_bounds (base : Z) (blob : list Z) :
  base <> 2 ->
  0 <= fst (PNMInteger base blob) < 2 ^ 64 /\
  suffix (snd (PNMInteger base blob)) blob.
Proof.
  intros Hbase.
  assert (forall in_comment l c l',
            PNMSkip in_comment l = Some (c, l') -> suffix l' l) as Hskip.
  { intros in_comment l. revert in_comment.
    induction l as [|x l IH]; intros in_comment c l' H; [discriminate|].
    simpl in H. destruct in_comment.
    - apply suffix_cons_r. eauto.
    - destruct (x =? 35); [apply suffix_cons_r; eauto|].
      destruct (isdigit x).
      + injection H as <- <-. by apply suffix_cons_r.
      + apply suffix_cons_r. eauto. }
  assert (forall l v, 0 <= v < 2 ^ 64 ->
            suffix (snd (PNMDigits v l)) l /\
            0 <= fst (PNMDigits v l) < 2 ^ 64) as Hdigits.
  { induction l as [|x l IH]; intros v Hv; simpl.
    - split; [done|exact Hv].
    - destruct (isdigit x).
      + destruct (IH (to_ulong (v * 10 + (x - 48)))) as [Hs Hr].
        { unfold to_ulong. apply Z.mod_pos_bound. lia. }
        split; [by apply suffix_cons_r|exact Hr].
      + split; [by apply suffix_cons_r|exact Hv]. }
  unfold PNMInteger.
  destruct (PNMSkip false blob) as [[c blob']|] eqn:E.
  - destruct (Z.eqb_spec base 2); [done|].
    destruct (Hdigits blob' (to_ulong (0 * 10 + (c - 48)))) as [Hs Hr].
    { unfold to_ulong. apply Z.mod_pos_bound. lia. }
    split; [exact Hr|]. etrans; [exact Hs|]. eauto.
  - simpl. split; [lia|apply suffix_nil].
Qed.

Lemma max_value_P6_bounds (depth : Z) :
  1 <= depth -> 1 <= max_value_P6 depth < 65536.
Proof.
  intros Hd. unfold max_value_P6, depth_P6.
  destruct (Z.gtb_spec depth 8) as [Hgt|Hle]; [done|].
  pose proof (GetQuantumRange_le depth 8 ltac:(lia)).
  pose proof (GetQuantumRange_mono 1 depth ltac:(lia)).
  change (GetQuantumRange 1) with 1 in *. lia.
Qed.

Lemma write_header_shape (format : Z) (comment : option (list Z))
    (columns rows depth : Z) (data : list Z) :
  write_header format comment columns rows depth ++ data =
  80 :: format ::
    ([10] ++ write_comment comment ++ format_lu columns ++
     32 :: (format_lu rows ++ 10 :: (write_max_line format depth ++ data))).
Proof. unfold write_header. rewrite <- !app_assoc. reflexivity. Qed.

End HeaderRoundTrip.

(** X10. The header round trip of the formats '1' to '6': from the header
    [WritePNMImage] writes (magic number, optional comment, size, maximum
    sample) followed by any data, the reader recovers the format, the
    columns, the rows, the maximum sample the writer chose and the depth
    that goes with it, and is left exactly at the first byte of the data. *)
Theorem header_roundtrip (format : Z) (comment : option (list Z))
    (columns rows depth : Z) (data : list Z) :
  49 <= format <= 54 ->
  0 < columns < 2 ^ 64 -> 0 < rows < 2 ^ 64 -> 1 <= depth ->
  let max_value :=
    if (format =? 49) || (format =? 52) then 1
    else if (format =? 50) || (format =? 51)
    then (if depth <=? 8 then 255 else 65535)
    else PNM.max_value_P6 depth in
  PNMFile.read_header
    (PNMFile.write_header format comment columns rows depth ++ data) =
  Some (PNM.Returned
          (PNMFile.mkHeader format columns rows max_value
             (PNM.image_depth max_value), data)).
Proof.
  intros Hf Hc Hr Hd max_value.
  rewrite write_header_shape. unfold PNMFile.read_header.
  cbn [negb Z.eqb Pos.eqb PNMFile.ReadBlobByte].
  assert ((format =? 55) || (format =? 70) || (format =? 102) = false) as ->
    by lia.
  rewrite (PNMInteger_after_comment comment columns 32) by (done || lia).
  rewrite (PNMInteger_format_lu_next rows 10) by (done || lia).
  assert ((columns =? 0) || (rows =? 0) = false) as Hsize by lia.
  unfold PNMFile.write_max_line. subst max_value.
  destruct ((format =? 49) || (format =? 52)) eqn:Hbit.
  - assert ((format =? 50) || (format =? 51) = false) as -> by lia.
    assert ((format =? 53) || (format =? 54) = false) as -> by lia.
    cbn [app]. rewrite Hsize. reflexivity.
  - destruct ((format =? 50) || (format =? 51)) eqn:Hplain.
    + destruct (depth <=? 8); rewrite <- app_assoc; cbn [app].
      * rewrite (PNMInteger_format_lu_next 255 10) by (done || lia).
        rewrite Hsize. reflexivity.
      * rewrite (PNMInteger_format_lu_next 65535 10) by (done || lia).
        rewrite Hsize. reflexivity.
    + assert ((format =? 53) || (format =? 54) = true) as -> by lia.
      pose proof (max_value_P6_bounds depth Hd) as Hmax.
      rewrite <- app_assoc. cbn [app].
      rewrite (PNMInteger_format_lu_next (PNM.max_value_P6 depth) 10)
        by (done || lia).
      rewrite Hsize.
      destruct (Z.geb_spec (PNM.max_value_P6 depth) 65536); [lia|reflexivity].
Qed.

Lemma header_roundtrip_witness :
  PNMFile.read_header
    (PNMFile.write_header 54 (Some [104; 105; 10; 50]) 640 480 12 ++ [1; 2; 3]) =
  Some (PNM.Returned (PNMFile.mkHeader 54 640 480 65535 16, [1; 2; 3])).
Proof.
  apply (header_roundtrip 54 (Some [104; 105; 10; 50]) 640 480 12 [1; 2; 3]);
    lia.
Defined.

(** X11. What the header reader accepts and rejects.  An empty file and a
    file that does not start with [P] are rejected as ImproperImageHeader;
    a header whose size cannot be read (the file ends, or holds no digit
    outside comments) is rejected as NegativeOrZeroImageSize, because
    [PNMInteger] returns 0 at the end of the file.  Every header it accepts
    has at least one column and one row, a maximum sample below 65536
    (a maximum of 0 is accepted) and a depth between 1 and 16 whose range
    reaches the maximum, and the data it leaves is a suffix of the file. *)
Theorem header_reader_edges :
  PNMFile.read_header [] =
    Some (PNM.Thrown (ThrowMagickException CorruptImageError
                        "ImproperImageHeader")) /\
  (forall c blob, c <> 80 ->
     PNMFile.read_header (c :: blob) =
     Some (PNM.Thrown (ThrowMagickException CorruptImageError
                         "ImproperImageHeader"))) /\
  (forall format blob,
     49 <= format <= 54 -> PNM.PNMSkip false blob = None ->
     PNMFile.read_header (80 :: format :: blob) =
     Some (PNM.Thrown (ThrowMagickException CorruptImageError
                         "NegativeOrZeroImageSize"))) /\
  (forall blob h data,
     PNMFile.read_header blob = Some (PNM.Returned (h, data)) ->
     1 <= PNMFile.columns h < 2 ^ 64 /\ 1 <= PNMFile.rows h < 2 ^ 64 /\
     0 <= PNMFile.max_value h < 65536 /\
     1 <= PNMFile.depth h <= 16 /\
     PNMFile.max_value h <= Quantum.GetQuantumRange (PNMFile.depth h) /\
     suffix data blob) /\
  PNMFile.read_header [80; 53; 10; 49; 32; 49; 10; 48; 10; 7] =
    Some (PNM.Returned (PNMFile.mkHeader 53 1 1 0 1, [7])).
Proof.
  split; [reflexivity|]. split; [|split; [|split; [|reflexivity]]].
  - intros c blob Hc. unfold PNMFile.read_header.
    destruct (Z.eqb_spec c 80); [done|reflexivity].
  - intros format blob Hf Hnone. unfold PNMFile.read_header.
    cbn [negb Z.eqb Pos.eqb PNMFile.ReadBlobByte].
    assert ((format =? 55) || (format =? 70) || (format =? 102) = false) as ->
      by lia.
    unfold PNM.PNMInteger at 1. rewrite Hnone.
    destruct (PNM.PNMInteger 10 []) as [rows blob4].
    destruct (if (format =? 49) || (format =? 52) then (1, blob4)
              else PNM.PNMInteger 10 blob4) as [max_value blob5].
    reflexivity.
  - intros blob h data Hread. unfold PNMFile.read_header in Hread.
    destruct blob as [|p blob1]; [discriminate|].
    destruct (negb (p =? 80)); [discriminate|].
    destruct (PNMFile.ReadBlobByte blob1) as [format blob2] eqn:Hbyte.
    destruct ((format =? 55) || (format =? 70) || (format =? 102));
      [discriminate|].
    pose proof (PNMInteger_bounds 10 blob2 ltac:(lia)) as [Hc Hs3].
    destruct (PNM.PNMInteger 10 blob2) as [columns blob3].
    pose proof (PNMInteger_bounds 10 blob3 ltac:(lia)) as [Hr Hs4].
    destruct (PNM.PNMInteger 10 blob3) as [rows blob4].
    assert (exists max_value blob5,
              (if (format =? 49) || (format =? 52) then (1, blob4)
               else PNM.PNMInteger 10 blob4) = (max_value, blob5) /\
              0 <= max_value < 2 ^ 64 /\ suffix blob5 blob4)
      as (max_value & blob5 & Hmax & Hm & Hs5).
    { destruct ((format =? 49) || (format =? 52)).
      - exists 1, blob4. split; [done|]. split; [lia|done].
      - pose proof (PNMInteger_bounds 10 blob4 ltac:(lia)) as [Hm Hs5].
        destruct (PNM.PNMInteger 10 blob4) as [m b]. by exists m, b. }
    rewrite Hmax in Hread. simpl in Hc, Hr, Hs3, Hs4.
    destruct ((columns =? 0) || (rows =? 0)) eqn:Hsize; [discriminate|].
    destruct (Z.geb_spec max_value 65536) as [|Hlt]; [discriminate|].
    injection Hread as <- <-. simpl.
    pose proof (depth_loop_first 16 1 max_value) as Hdepth.
    cbv zeta in Hdepth. change (1 + Z.of_nat 16) with 17 in Hdepth.
    destruct Hdepth as (Hd & Hbelow & Hstop).
    fold (PNM.image_depth max_value) in Hd, Hbelow, Hstop.
    assert (PNM.image_depth max_value <= 16) as Hle.
    { destruct (Z.le_gt_cases (PNM.image_depth max_value) 16) as [|Hgt];
        [done|].
      specialize (Hbelow 16 ltac:(lia)).
      change (Quantum.GetQuantumRange 16) with 65535 in Hbelow. lia. }
    split; [lia|]. split; [lia|]. split; [lia|]. split; [lia|].
    split; [apply Hstop; lia|].
    assert (suffix blob2 blob1) as Hs2.
    { destruct blob1; simpl in Hbyte; injection Hbyte as <- <-;
        [done|by apply suffix_cons_r]. }
    apply suffix_cons_r.
    etrans; [exact Hs5|]. etrans; [exact Hs4|]. etrans; [exact Hs3|]. done.
Qed.

Lemma header_reader_edges_witness :
  PNMFile.read_header [80; 54; 10; 50; 32; 51; 10; 49; 53; 10; 9; 9] =
    Some (PNM.Returned (PNMFile.mkHeader 54 2 3 15 4, [9; 9])) /\
  1 <= PNMFile.depth (PNMFile.mkHeader 54 2 3 15 4) <= 16.
Proof.
  assert (PNMFile.read_header [80; 54; 10; 50; 32; 51; 10; 49; 53; 10; 9; 9] =
          Some (PNM.Returned (PNMFile.mkHeader 54 2 3 15 4, [9; 9]))) as H
    by reflexivity.
  split; [exact H|].
  apply (proj1 (proj2 (proj2 (proj2 header_reader_edges))) _ _ _ H).
Defined.

(** ** A whole raw PPM image *)

Section P6Image.
Import Quantum PNM PNMHeader PNMFile.

Lemma pop_sample_length (depth v : Z) :
  Z.of_nat (length (pop_sample depth v [])) = if depth <=? 8 then 1 else 2.
Proof. unfold pop_sample. by destruct (depth <=? 8). Qed.

Lemma write_row_rgb_length (QuantumRange depth : Z) (row : list PixelPacket) :
  Z.of_nat (length (write_row (write_rgb_pixel QuantumRange depth false) row)) =
  extent_P6 depth (Z.of_nat (length row)).
Proof.
  unfold extent_P6. induction row as [|p row IH]; [simpl; lia|].
  rewrite write_row_cons by (intros; apply write_rgb_pixel_append).
  rewrite (write_rgb_pixel_app _ _ _ []). cbn [app].
  rewrite !length_app, !Nat2Z.inj_add, !pop_sample_length, IH.
  cbn [length]. destruct (depth <=? 8); lia.
Qed.

Lemma write_row_P6_rgb (QuantumRange depth : Z) (matte : bool)
    (row : list PixelPacket) :
  matte = false \/ 8 <= depth ->
  write_row_P6 QuantumRange depth matte row =
  write_row (write_rgb_pixel QuantumRange (depth_P6 depth) false) row.
Proof.
  intros Hmatte. unfold write_row_P6, ExportQuantumPixels_RGB.
  destruct ((depth_P6 depth =? 8) || (depth_P6 depth =? 16)) eqn:E;
    [reflexivity|].
  destruct Hmatte as [->|Hge]; [reflexivity|].
  exfalso. unfold depth_P6 in E.
  destruct (Z.gtb_spec depth 8) as [Hgt|Hle]; [discriminate|].
  assert (depth = 8) as -> by lia. discriminate.
Qed.

Lemma import_P6_rgb (QuantumRange depth : Z) (pixels : list Z)
    (q : list PixelPacket) :
  import_P6 QuantumRange depth pixels q =
  (import_rgb QuantumRange depth pixels q, true).
Proof.
  unfold import_P6, ImportQuantumPixels_RGB.
  destruct ((depth =? 8) || (depth =? 16)); [|reflexivity].
  f_equal. unfold extent_P6. apply Z.eqb_refl.
Qed.

End P6Image.

(** X12. A whole raw PPM image without alpha samples, written row after row
    and read back by the row loop under the header the writer wrote: the
    reader succeeds, consumes exactly the bytes of the image (what follows
    in the stream is left for the next image), and every row [y] of the
    pixel cache holds row [y] of the image with the rounding error of the
    depth, exactly when the range of the depth reaches [QuantumRange]. *)
Theorem P6_image_roundtrip (QuantumRange depth : Z) (matte : bool)
    (image : list (list PNM.PixelPacket)) (columns : nat)
    (queued : Z -> list PNM.PixelPacket) (pixels rest : list Z) :
  0 < QuantumRange -> 1 <= depth -> matte = false \/ 8 <= depth ->
  Forall (fun row => length row = columns /\
                     Forall (canonical_pixel QuantumRange) row) image ->
  (forall r, length (queued r) = columns) ->
  let h := PNMFile.mkHeader 54 (Z.of_nat columns) (Z.of_nat (length image))
             (PNM.max_value_P6 depth)
             (PNM.image_depth (PNM.max_value_P6 depth)) in
  (Z.of_nat (length pixels) <=
   PNM.extent_P6 (PNMFile.depth h) (PNMFile.columns h)) ->
  exists st,
    PNMFile.read_rows_P6 QuantumRange h queued
      (PNMFile.write_rows_P6 QuantumRange depth matte image ++ rest) pixels =
    PNM.Returned st /\
    PNM.raw_blob st = rest /\
    forall (y : nat) row, image !! y = Some row ->
      exists row',
        PNM.raw_cache st !! Z.of_nat y = Some row' /\
        Forall2 (channels_close QuantumRange (PNMFile.max_value h)) row row' /\
        (QuantumRange <= PNMFile.max_value h ->
         Forall2 (channels_within 0) row row').
Proof.
  intros HQ Hd Hmatte Himage Hqueued h Hbuf.
  unfold PNMFile.read_rows_P6, PNMFile.write_rows_P6, PNM.ReadRawRows.
  subst h. cbn [PNMFile.depth PNMFile.columns PNMFile.rows PNMFile.max_value]
    in *.
  rewrite image_depth_max_value_P6 in * by done.
  assert (1 <= PNM.depth_P6 depth <= 16) as Hd'.
  { unfold PNM.depth_P6. destruct (Z.gtb_spec depth 8); lia. }
  set (d := PNM.depth_P6 depth) in *.
  set (extent := PNM.extent_P6 d (Z.of_nat columns)) in *.
  set (chunks := map (PNM.write_row_P6 QuantumRange depth matte) image).
  assert (Forall (fun c => Z.of_nat (length c) = extent /\
                           forall q, snd (PNM.import_P6 QuantumRange d c q) = true)
            chunks) as Hchunks.
  { apply Forall_forall. intros c Hc.
    apply list_elem_of_fmap in Hc as (row & -> & Hrow).
    rewrite Forall_forall in Himage. destruct (Himage row Hrow) as [Hlen _].
    split.
    - rewrite write_row_P6_rgb by done. rewrite write_row_rgb_length.
      by rewrite Hlen.
    - intros q. by rewrite import_P6_rgb. }
  rewrite Nat2Z.id.
  replace (length image) with (length chunks) by (unfold chunks; apply length_map).
  destruct (raw_rows_full extent (fun offset => offset)
              (PNM.import_P6 QuantumRange d) queued ltac:(done) chunks rest
              (PNM.raw_init (concat chunks ++ rest) pixels) eq_refl
              ltac:(simpl; lia) Hchunks eq_refl)
    as (Hs & Hb & Hrows & _).
  rewrite Hs. eexists. split; [reflexivity|]. split; [exact Hb|].
  intros y row Hy.
  assert (chunks !! y = Some (PNM.write_row_P6 QuantumRange depth matte row))
    as Hc by (unfold chunks; by rewrite list_lookup_fmap, Hy).
  specialize (Hrows y _ Hc). simpl in Hrows. rewrite Z.add_0_l in Hrows.
  rewrite Hrows.
  eexists. split; [reflexivity|].
  rewrite import_P6_rgb, write_row_P6_rgb by done. simpl.
  rewrite Forall_forall in Himage.
  destruct (Himage row (list_elem_of_lookup_2 _ _ _ Hy)) as [Hlen Hcanon].
  pose proof (import_rgb_write_row QuantumRange d row (queued (Z.of_nat y)) []
                HQ Hd' Hcanon ltac:(by rewrite Hqueued, Hlen)) as Hrt.
  rewrite app_nil_r in Hrt. exact Hrt.
Qed.

Lemma P6_image_roundtrip_witness :
  let image := [[PNM.mkPixel 255 0 128 0]; [PNM.mkPixel 1 2 3 0]] in
  exists st,
    PNMFile.read_rows_P6 255
      (PNMFile.mkHeader 54 1 2 (PNM.max_value_P6 8)
         (PNM.image_depth (PNM.max_value_P6 8)))
      (fun _ => [PNM.mkPixel 0 0 0 0])
      (PNMFile.write_rows_P6 255 8 false image ++ [80]) [] = PNM.Returned st /\
    PNM.raw_blob st = [80].
Proof.
  intros image.
  destruct (P6_image_roundtrip 255 8 false image 1
              (fun _ => [PNM.mkPixel 0 0 0 0]) [] [80]) as (st & Hst & Hb & _).
  - lia.
  - lia.
  - by left.
  - repeat constructor; simpl; lia.
  - reflexivity.
  - vm_compute. discriminate.
  - exists st. split; [exact Hst|exact Hb].
Defined.

(** ** The plain PBM writer and reader *)

Section PlainPBM.
Import Quantum PNM PNMHeader PNMFile PNMPlain.

Variable QuantumRange : Z.
Hypothesis QuantumRange_nonneg : 0 <= QuantumRange.

Lemma P1_char_digit (pixel : Z) :
  P1_char QuantumRange pixel = 48 \/ P1_char QuantumRange pixel = 49.
Proof. unfold P1_char. destruct (_ >=? _); auto. Qed.

Lemma P1_invariant_pixel (w : TextWriter) (pixels : list Z) (tags : list bool)
    (lines : list (list Z)) (k : nat) (pixel : Z) :
  P1_invariant QuantumRange w pixels tags lines k ->
  exists tags' lines' k',
    P1_invariant QuantumRange (write_P1_pixel QuantumRange pixel w)
      (pixels ++ [pixel]) tags' lines' k'.
Proof.
  intros (Hstream & Hlen & [Hw Hnl] & Hbound & Hline & Hk & Hk38).
  unfold write_P1_pixel, flush_at. cbn [line written].
  fold (P1_char QuantumRange pixel).
  rewrite length_app, Hk. cbn [length].
  assert (10 ∉ line w ++ [P1_char QuantumRange pixel; 32]) as Hline'.
  { rewrite elem_of_app, !elem_of_cons, elem_of_nil.
    destruct (P1_char_digit pixel) as [-> | ->]; intros [?|[?|[?|?]]];
      done || lia. }
  destruct (Z.geb_spec (Z.of_nat (2 * k + 2) + 2) 80) as [Hflush|Hkeep].
  - (* the line is full: it is written with its newline *)
    exists (tags ++ [true]),
           (lines ++ [line w ++ [P1_char QuantumRange pixel; 32]]), 0%nat.
    unfold P1_invariant. cbn [line written].
    split; [|split; [|split; [|split; [|split; [|split]]]]].
    + unfold P1_stream. rewrite zip_with_app by done. rewrite concat_app.
      fold (P1_stream QuantumRange pixels tags). rewrite <- Hstream.
      cbn. unfold number_piece. cbn.
      rewrite app_nil_r, <- !app_assoc. reflexivity.
    + rewrite !length_app. simpl. lia.
    + split.
      * rewrite map_app, concat_app, <- Hw. cbn.
        rewrite app_nil_r, <- !app_assoc. reflexivity.
      * apply Forall_app. split; [done|]. by constructor.
    + apply Forall_app. split; [done|]. constructor; [|done].
      rewrite length_app, Hk. simpl. lia.
    + apply not_elem_of_nil.
    + reflexivity.
    + lia.
  - (* the line goes on *)
    exists (tags ++ [false]), lines, (S k).
    unfold P1_invariant. cbn [line written].
    split; [|split; [|split; [|split; [|split; [|split]]]]].
    + unfold P1_stream. rewrite zip_with_app by done. rewrite concat_app.
      fold (P1_stream QuantumRange pixels tags). rewrite <- Hstream.
      cbn. unfold number_piece. cbn.
      rewrite <- !app_assoc. reflexivity.
    + rewrite !length_app. simpl. lia.
    + done.
    + done.
    + done.
    + rewrite length_app, Hk. simpl. lia.
    + lia.
Qed.

Lemma P1_invariant_pixels (pixels : list Z) :
  forall (w : TextWriter) (before : list Z) (tags : list bool)
         (lines : list (list Z)) (k : nat),
  P1_invariant QuantumRange w before tags lines k ->
  exists tags' lines' k',
    P1_invariant QuantumRange
      (fold_left (fun w pixel => write_P1_pixel QuantumRange pixel w) pixels w)
      (before ++ pixels) tags' lines' k'.
Proof.
  induction pixels as [|pixel pixels IH]; intros w before tags lines k Hinv.
  - exists tags, lines, k. by rewrite app_nil_r.
  - destruct (P1_invariant_pixel w before tags lines k pixel Hinv)
      as (tags1 & lines1 & k1 & Hinv1).
    destruct (IH _ _ _ _ _ Hinv1) as (tags2 & lines2 & k2 & Hinv2).
    exists tags2, lines2, k2. simpl. by rewrite <- app_assoc in Hinv2.
Qed.

(** What the writer has produced when it is done. *)
Lemma write_P1_shape (pixels : list Z) :
  exists tags tail lines,
    write_P1 QuantumRange pixels = P1_stream QuantumRange pixels tags ++ tail /\
    length tags = length pixels /\ (tail = [] \/ tail = [10]) /\
    lines_of (write_P1 QuantumRange pixels) lines /\
    Forall (fun l => (length l <= 78)%nat) lines.
Proof.
  destruct (P1_invariant_pixels pixels (mkWriter [] []) [] [] [] 0%nat)
    as (tags & lines & k & Hstream & Hlen & [Hw Hnl] & Hbound & Hline & Hk & Hk38).
  { unfold P1_invariant, lines_of. simpl. repeat split; try done.
    - apply not_elem_of_nil.
    - lia. }
  simpl in Hstream, Hlen. unfold write_P1, finish.
  set (w := fold_left _ pixels _) in *.
  destruct (line w) as [|c l] eqn:El.
  - exists tags, [], lines. rewrite app_nil_r in *.
    split; [done|]. split; [done|]. split; [by left|]. split; [by split|done].
  - exists tags, [10], (lines ++ [c :: l]).
    split; [by rewrite <- Hstream, <- app_assoc|].
    split; [done|]. split; [by right|]. split; [split|].
    + rewrite map_app, concat_app, <- Hw. cbn.
      by rewrite app_nil_r.
    + apply Forall_app. split; [done|]. by constructor.
    + apply Forall_app. split; [done|]. constructor; [|done]. lia.
Qed.

(** The reader on a stream of the writer. *)
Lemma PBM_row_P1_stream (pixels : list Z) :
  forall (tags : list bool) (queue : list PixelPacket) (junk rest : list Z)
         (exceptions : list ExceptionInfo),
  length tags = length pixels -> length queue = length pixels ->
  Forall is_separator junk ->
  exists st',
    PBM_row QuantumRange queue
      (mkText (junk ++ P1_stream QuantumRange pixels tags ++ rest) exceptions) =
    Some (zip_with (fun q pixel =>
                      let v := P1_quantum QuantumRange pixel in
                      mkPixel v v v (opacity q)) queue pixels, st').
Proof.
  induction pixels as [|pixel pixels IH];
    intros [|tag tags] [|q queue] junk rest exceptions Ht Hq Hjunk;
    try discriminate.
  - eexists. reflexivity.
  - unfold PBM_row. cbn [text_row].
    assert (exists junk',
              P1_stream QuantumRange (pixel :: pixels) (tag :: tags) ++ rest =
              P1_char QuantumRange pixel ::
                (junk' ++ P1_stream QuantumRange pixels tags ++ rest) /\
              Forall is_separator junk') as (junk' & -> & Hjunk').
    { exists ([32] ++ (if tag then [10] else [])). split.
      - unfold P1_stream. cbn. unfold number_piece. cbn.
        by rewrite <- !app_assoc.
      - destruct tag; repeat constructor; done. }
    set (tail := junk' ++ P1_stream QuantumRange pixels tags ++ rest).
    assert (PNMInteger 2 (junk ++ P1_char QuantumRange pixel :: tail) =
            (P1_char QuantumRange pixel - 48, tail)) as Hint.
    { unfold PNMInteger. rewrite PNMSkip_separators by done.
      destruct (P1_char_digit pixel) as [-> | ->]; reflexivity. }
    rewrite (PBM_pixel_red QuantumRange q
               (mkText (junk ++ P1_char QuantumRange pixel :: tail) exceptions)
               _ _ QuantumRange_nonneg Hint).
    cbv zeta. cbn [text_exceptions].
    destruct (IH tags queue junk' rest exceptions) as [st' Hst'];
      [simpl in *; lia|simpl in *; lia|done|].
    unfold PBM_row in Hst'. fold tail in Hst'. rewrite Hst'.
    eexists. cbn [zip_with]. do 3 f_equal.
    unfold P1_char, P1_quantum.
    destruct (pixel >=? _); reflexivity.
Qed.

End PlainPBM.

(** X13. The plain PBM writer and reader.  The stream the writer of case
    '1' produces ends with a newline and has no line of more than 78
    characters (39 pixels); read back by the loop of case '1', every pixel
    is [QuantumRange] where the intensity written was at least
    [QuantumRange/2] and 0 elsewhere: a black-and-white image is reproduced
    exactly. *)
Theorem plain_PBM_roundtrip (QuantumRange : Z) (pixels : list Z) :
  0 <= QuantumRange ->
  (exists lines,
     PNMPlain.lines_of (PNMPlain.write_P1 QuantumRange pixels) lines /\
     Forall (fun l => (length l <= 78)%nat) lines) /\
  (forall (queue : list PNM.PixelPacket) (rest : list Z) exceptions,
     length queue = length pixels ->
     exists st',
       PNM.PBM_row QuantumRange queue
         (PNM.mkText (PNMPlain.write_P1 QuantumRange pixels ++ rest) exceptions) =
       Some (zip_with (fun q pixel =>
                         let v := P1_quantum QuantumRange pixel in
                         PNM.mkPixel v v v (PNM.opacity q)) queue pixels, st')).
Proof.
  intros HQ.
  destruct (write_P1_shape QuantumRange pixels)
    as (tags & tail & lines & Hshape & Hlen & Htail & Hlines & Hbound).
  split; [by exists lines|].
  intros queue rest exceptions Hq. rewrite Hshape, <- app_assoc.
  exact (PBM_row_P1_stream QuantumRange HQ pixels tags queue [] (tail ++ rest)
           exceptions Hlen Hq ltac:(constructor)).
Qed.

Lemma plain_PBM_roundtrip_witness :
  0 <= 255 /\
  exists st',
    PNM.PBM_row 255 [PNM.mkPixel 9 9 9 0; PNM.mkPixel 9 9 9 0]
      (PNM.mkText (PNMPlain.write_P1 255 [255; 0] ++ [80]) []) =
    Some ([PNM.mkPixel 255 255 255 0; PNM.mkPixel 0 0 0 0], st').
Proof.
  split; [lia|].
  exact (proj2 (plain_PBM_roundtrip 255 [255; 0] ltac:(lia))
           [PNM.mkPixel 9 9 9 0; PNM.mkPixel 9 9 9 0] [80] [] eq_refl).
Defined.

(** ** The plain PGM and PPM writers and readers *)

Section PlainNumbers.
Import Quantum PNM PNMHeader PNMFile PNMPlain.

Lemma format_lu_no_newline (n : Z) : (10 ∉ format_lu n) /\ (32 ∉ format_lu n).
Proof.
  unfold format_lu, digit_chars.
  pose proof (decimal_digits_digits 20 n [] ltac:(constructor)) as Hd.
  induction Hd as [|d ds Hd0 Hd IH]; simpl.
  - split; apply not_elem_of_nil.
  - destruct IH as [IH1 IH2]. unfold is_decimal_digit in Hd0.
    split; rewrite not_elem_of_cons; (split; [lia|done]).
Qed.

(** The first number of a stream of the writers, and what is left. *)
Lemma PNMInteger_numbers_stream (sample : Z) (samples : list Z) (tag : bool)
    (tags : list bool) (junk rest : list Z) :
  0 <= sample < 2 ^ 64 -> Forall is_separator junk ->
  exists junk',
    PNMInteger 10 (junk ++ numbers_stream (sample :: samples) (tag :: tags) ++ rest) =
    (sample, junk' ++ numbers_stream samples tags ++ rest) /\
    Forall is_separator junk'.
Proof.
  intros Hs Hjunk. exists (if tag then [10] else []). split.
  - unfold numbers_stream at 1. cbn [zip_with concat]. unfold number_piece.
    fold (numbers_stream samples tags). rewrite <- !app_assoc. cbn [app].
    by rewrite PNMInteger_format_lu.
  - destruct tag; repeat constructor; done.
Qed.

(** The writers keep the stream of the numbers written so far. *)
Lemma write_P2_pixels (samples : list Z) :
  forall (w : TextWriter) (before : list Z) (tags : list bool),
  written w ++ line w = numbers_stream before tags ->
  length tags = length before ->
  exists tags',
    let w' := fold_left (fun w sample => write_P2_pixel sample w) samples w in
    written w' ++ line w' = numbers_stream (before ++ samples) tags' /\
    length tags' = length (before ++ samples).
Proof.
  induction samples as [|sample samples IH]; intros w before tags Hstream Hlen.
  - exists tags. by rewrite app_nil_r.
  - cbn [fold_left].
    assert (exists tag,
              let w1 := write_P2_pixel sample w in
              written w1 ++ line w1 =
              numbers_stream (before ++ [sample]) (tags ++ [tag]))
      as [tag Hstep].
    { unfold write_P2_pixel, flush_at. cbn [line written].
      destruct (_ >=? 80).
      - exists true. cbn [line written]. unfold numbers_stream.
        rewrite zip_with_app by done. rewrite concat_app.
        fold (numbers_stream before tags). rewrite <- Hstream.
        cbn [zip_with concat]. unfold number_piece.
        repeat first [rewrite <- app_assoc | rewrite app_nil_r | progress cbn [app]].
        reflexivity.
      - exists false. cbn [line written]. unfold numbers_stream.
        rewrite zip_with_app by done. rewrite concat_app.
        fold (numbers_stream before tags). rewrite <- Hstream.
        cbn [zip_with concat]. unfold number_piece.
        repeat first [rewrite <- app_assoc | rewrite app_nil_r | progress cbn [app]].
        reflexivity. }
    destruct (IH _ (before ++ [sample]) (tags ++ [tag]) Hstep
                ltac:(rewrite !length_app; simpl; lia)) as [tags' Htags'].
    exists tags'. by rewrite <- app_assoc in Htags'.
Qed.

Lemma write_P2_shape (samples : list Z) :
  exists tags tail,
    write_P2 samples = numbers_stream samples tags ++ tail /\
    length tags = length samples /\ (tail = [] \/ tail = [10]).
Proof.
  destruct (write_P2_pixels samples (mkWriter [] []) [] [] eq_refl eq_refl)
    as (tags & Hstream & Hlen).
  simpl in Hstream, Hlen. unfold write_P2, finish.
  set (w := fold_left _ samples _) in *.
  destruct (line w) as [|c l] eqn:El.
  - exists tags, []. rewrite app_nil_r in *. by auto.
  - exists tags, [10]. rewrite app_assoc, Hstream. by auto.
Qed.

Lemma write_P3_pixels (samples : list (Z * Z * Z)) :
  forall (w : TextWriter) (before : list Z) (tags : list bool),
  written w ++ line w = numbers_stream before tags ->
  length tags = length before ->
  exists tags',
    let w' := fold_left (fun w sample => write_P3_pixel sample w) samples w in
    written w' ++ line w' =
      numbers_stream (before ++ flatten_samples samples) tags' /\
    length tags' = length (before ++ flatten_samples samples).
Proof.
  induction samples as [|[[r g] b] samples IH];
    intros w before tags Hstream Hlen.
  - exists tags. unfold flatten_samples. simpl. by rewrite app_nil_r.
  - cbn [fold_left].
    assert (exists tag,
              let w1 := write_P3_pixel (r, g, b) w in
              written w1 ++ line w1 =
              numbers_stream (before ++ [r; g; b])
                (tags ++ [false; false; tag]))
      as [tag Hstep].
    { unfold write_P3_pixel, flush_at. cbn [line written].
      destruct (_ >=? 80).
      - exists true. cbn [line written]. unfold numbers_stream.
        rewrite zip_with_app by done. rewrite concat_app.
        fold (numbers_stream before tags). rewrite <- Hstream.
        cbn [zip_with concat]. unfold number_piece.
        repeat first [rewrite <- app_assoc | rewrite app_nil_r | progress cbn [app]].
        reflexivity.
      - exists false. cbn [line written]. unfold numbers_stream.
        rewrite zip_with_app by done. rewrite concat_app.
        fold (numbers_stream before tags). rewrite <- Hstream.
        cbn [zip_with concat]. unfold number_piece.
        repeat first [rewrite <- app_assoc | rewrite app_nil_r | progress cbn [app]].
        reflexivity. }
    destruct (IH _ (before ++ [r; g; b]) (tags ++ [false; false; tag]) Hstep
                ltac:(rewrite !length_app; simpl; lia)) as [tags' Htags'].
    exists tags'. unfold flatten_samples in *. cbn [map concat].
    by rewrite <- app_assoc in Htags'.
Qed.

Lemma write_P3_shape (samples : list (Z * Z * Z)) :
  exists tags tail,
    write_P3 samples = numbers_stream (flatten_samples samples) tags ++ tail /\
    length tags = length (flatten_samples samples) /\
    (tail = [] \/ tail = [10]).
Proof.
  destruct (write_P3_pixels samples (mkWriter [] []) [] [] eq_refl eq_refl)
    as (tags & Hstream & Hlen).
  simpl in Hstream, Hlen. unfold write_P3, finish.
  set (w := fold_left _ samples _) in *.
  destruct (line w) as [|c l] eqn:El.
  - exists tags, []. rewrite app_nil_r in *. by auto.
  - exists tags, [10]. rewrite app_assoc, Hstream. by auto.
Qed.

End PlainNumbers.


Section PlainReaders.
Import Quantum PNM PNMHeader PNMFile PNMPlain.

Variable QuantumRange max_value : Z.
Hypothesis QuantumRange_range : 0 < QuantumRange < 2 ^ 64.
Hypothesis max_value_range : 0 < max_value < 2 ^ 63.

Lemma scale_entry_range (i : Z) :
  0 <= scale_entry QuantumRange max_value i <= QuantumRange.
Proof.
  unfold scale_entry, to_Quantum.
  pose proof (Z.mod_pos_bound
                (round_half_up_div (QuantumRange * i) max_value)
                (QuantumRange + 1) ltac:(lia)).
  lia.
Qed.

Lemma scale_entry_same (i : Z) :
  0 <= i <= QuantumRange -> scale_entry QuantumRange QuantumRange i = i.
Proof.
  intros Hi. unfold scale_entry.
  rewrite round_half_up_div_same by lia. by apply to_Quantum_small.
Qed.

(** One PGM pixel whose number lies within the maximum value. *)
Lemma PGM_pixel_inside (q : PixelPacket) (blob blob' : list Z)
    (exceptions : list ExceptionInfo) (v : Z) :
  PNMInteger 10 blob = (v, blob') -> 0 <= v <= max_value ->
  PGM_pixel QuantumRange max_value (scale_table QuantumRange max_value) q
    (mkText blob exceptions) =
  Some (let e := scale_entry QuantumRange max_value v in
        mkPixel e e e (opacity q), mkText blob' exceptions).
Proof.
  intros Hint Hv. unfold PGM_pixel. cbn [text_blob text_exceptions].
  rewrite Hint.
  destruct (scale_table QuantumRange max_value) as [table|] eqn:Ht.
  - rewrite to_long_small by lia.
    rewrite ConstrainPixel_inside by lia.
    rewrite (scale_table_lookup _ _ _ v Ht) by lia.
    pose proof (scale_entry_range v) as He.
    unfold to_ulong. rewrite Z.mod_small by lia.
    rewrite to_Quantum_small by lia. by rewrite app_nil_r.
  - unfold scale_table in Ht.
    destruct (Z.eqb_spec max_value QuantumRange) as [->|]; [|discriminate].
    rewrite scale_entry_same by lia.
    by rewrite to_Quantum_small by lia.
Qed.

Lemma PGM_row_numbers_stream (samples : list Z) :
  forall (tags : list bool) (queue : list PixelPacket) (junk rest : list Z)
         (exceptions : list ExceptionInfo),
  Forall (fun s => 0 <= s <= max_value) samples ->
  length tags = length samples -> length queue = length samples ->
  Forall is_separator junk ->
  exists blob',
    PGM_row QuantumRange max_value queue
      (mkText (junk ++ numbers_stream samples tags ++ rest) exceptions) =
    Some (zip_with (fun q s =>
                      let e := scale_entry QuantumRange max_value s in
                      mkPixel e e e (opacity q)) queue samples,
          mkText blob' exceptions).
Proof.
  induction samples as [|sample samples IH];
    intros [|tag tags] [|q queue] junk rest exceptions Hs Ht Hq Hjunk;
    try discriminate.
  - eexists. reflexivity.
  - apply Forall_cons in Hs as [Hs0 Hs].
    destruct (PNMInteger_numbers_stream sample samples tag tags junk rest
                ltac:(lia) Hjunk) as (junk' & Hint & Hjunk').
    unfold PGM_row. cbn [text_row].
    rewrite (PGM_pixel_inside q _ _ exceptions sample Hint Hs0).
    destruct (IH tags queue junk' rest exceptions Hs) as [blob' Hblob'];
      [simpl in *; lia|simpl in *; lia|done|].
    unfold PGM_row in Hblob'. rewrite Hblob'. by eexists.
Qed.

Section Casts.

Variable long_of_real quantum_of_real : Z -> Z.
Hypothesis long_of_real_exact :
  forall v, 0 <= v <= max_value -> long_of_real v = v.
Hypothesis quantum_of_real_exact :
  forall v, 0 <= v <= QuantumRange -> quantum_of_real v = v.

Lemma PPM_sample_inside (v : Z) :
  0 <= v <= max_value ->
  PPM_sample long_of_real quantum_of_real max_value
    (scale_table QuantumRange max_value) v =
  Some (scale_entry QuantumRange max_value v, []).
Proof.
  intros Hv. unfold PPM_sample.
  destruct (scale_table QuantumRange max_value) as [table|] eqn:Ht.
  - rewrite long_of_real_exact by lia.
    rewrite ConstrainPixel_inside by lia.
    rewrite (scale_table_lookup _ _ _ v Ht) by lia.
    by rewrite quantum_of_real_exact by apply scale_entry_range.
  - unfold scale_table in Ht.
    destruct (Z.eqb_spec max_value QuantumRange) as [->|]; [|discriminate].
    rewrite scale_entry_same by lia.
    by rewrite quantum_of_real_exact by lia.
Qed.

Lemma PPM_row_numbers_stream (samples : list (Z * Z * Z)) :
  forall (tags : list bool) (queue : list PixelPacket) (junk rest : list Z)
         (exceptions : list ExceptionInfo),
  Forall (fun s => 0 <= s <= max_value) (flatten_samples samples) ->
  length tags = length (flatten_samples samples) ->
  length queue = length samples ->
  Forall is_separator junk ->
  exists blob',
    PPM_row long_of_real quantum_of_real QuantumRange max_value queue
      (mkText (junk ++ numbers_stream (flatten_samples samples) tags ++ rest)
         exceptions) =
    Some (zip_with (fun q '(r, g, b) =>
                      mkPixel (scale_entry QuantumRange max_value r)
                        (scale_entry QuantumRange max_value g)
                        (scale_entry QuantumRange max_value b) (opacity q))
            queue samples,
          mkText blob' exceptions).
Proof.
  induction samples as [|[[r g] b] samples IH];
    intros tags [|q queue] junk rest exceptions Hs Ht Hq Hjunk;
    try discriminate.
  - eexists. reflexivity.
  - unfold flatten_samples in Hs, Ht. cbn [map concat app] in Hs, Ht.
    fold (flatten_samples samples) in Hs, Ht.
    destruct tags as [|t1 [|t2 [|t3 tags]]]; try discriminate.
    apply Forall_cons in Hs as [Hr Hs].
    apply Forall_cons in Hs as [Hg Hs].
    apply Forall_cons in Hs as [Hb Hs].
    change (flatten_samples ((r, g, b) :: samples))
      with (r :: g :: b :: flatten_samples samples).
    destruct (PNMInteger_numbers_stream r (g :: b :: flatten_samples samples)
                t1 (t2 :: t3 :: tags) junk rest ltac:(lia) Hjunk)
      as (junk1 & Hint1 & Hjunk1).
    destruct (PNMInteger_numbers_stream g (b :: flatten_samples samples)
                t2 (t3 :: tags) junk1 rest ltac:(lia) Hjunk1)
      as (junk2 & Hint2 & Hjunk2).
    destruct (PNMInteger_numbers_stream b (flatten_samples samples)
                t3 tags junk2 rest ltac:(lia) Hjunk2)
      as (junk3 & Hint3 & Hjunk3).
    unfold PPM_row. cbn [text_row]. unfold PPM_pixel at 1.
    cbn [text_blob text_exceptions].
    rewrite Hint1, Hint2, Hint3.
    rewrite !PPM_sample_inside by done.
    destruct (IH tags queue junk3 rest exceptions Hs) as [blob' Hblob'];
      [simpl in *; lia|simpl in *; lia|done|].
    unfold PPM_row in Hblob'. cbn [app]. rewrite app_nil_r.
    rewrite Hblob'. by eexists.
Qed.

End Casts.

End PlainReaders.

(** X14. The plain PGM writer and reader.  The numbers the writer of case
    '2' lays out, with its line breaks, are read by the loop of case '2' one
    per pixel and in order: when every number is within the maximum value,
    each pixel gets the table entry of its number in all three channels,
    keeps its opacity, and no exception is recorded. *)
Theorem plain_PGM_roundtrip (QuantumRange max_value : Z) (samples : list Z)
    (queue : list PNM.PixelPacket) (rest : list Z)
    (exceptions : list ExceptionInfo) :
  0 < QuantumRange < 2 ^ 64 -> 0 < max_value < 2 ^ 63 ->
  Forall (fun s => 0 <= s <= max_value) samples ->
  length queue = length samples ->
  exists blob',
    PNM.PGM_row QuantumRange max_value queue
      (PNM.mkText (PNMPlain.write_P2 samples ++ rest) exceptions) =
    Some (zip_with (fun q s =>
                      let e := PNM.scale_entry QuantumRange max_value s in
                      PNM.mkPixel e e e (PNM.opacity q)) queue samples,
          PNM.mkText blob' exceptions).
Proof.
  intros HQ Hm Hs Hq.
  destruct (write_P2_shape samples) as (tags & tail & -> & Hlen & _).
  rewrite <- app_assoc.
  exact (PGM_row_numbers_stream QuantumRange max_value HQ Hm samples tags
           queue [] (tail ++ rest) exceptions Hs Hlen Hq ltac:(constructor)).
Qed.

Lemma plain_PGM_roundtrip_witness :
  exists blob',
    PNM.PGM_row 65535 255
      [PNM.mkPixel 0 0 0 0; PNM.mkPixel 0 0 0 0]
      (PNM.mkText (PNMPlain.write_P2 [0; 255] ++ []) []) =
    Some ([PNM.mkPixel 0 0 0 0; PNM.mkPixel 65535 65535 65535 0],
          PNM.mkText blob' []).
Proof.
  apply (plain_PGM_roundtrip 65535 255 [0; 255]
           [PNM.mkPixel 0 0 0 0; PNM.mkPixel 0 0 0 0] [] []).
  - lia.
  - lia.
  - repeat constructor; lia.
  - reflexivity.
Defined.

(** X15. The plain PPM writer and reader.  The three numbers per pixel the
    writer of case '3' lays out are read by the loop of case '3' in the
    order red, green, blue: when every number is within the maximum value
    and the floating type holds the values up to the maximum value and
    QuantumRange exactly, each channel gets the table entry of its number
    and no exception is recorded. *)
Theorem plain_PPM_roundtrip (long_of_real quantum_of_real : Z -> Z)
    (QuantumRange max_value : Z) (samples : list (Z * Z * Z))
    (queue : list PNM.PixelPacket) (rest : list Z)
    (exceptions : list ExceptionInfo) :
  0 < QuantumRange < 2 ^ 64 -> 0 < max_value < 2 ^ 63 ->
  (forall v, 0 <= v <= max_value -> long_of_real v = v) ->
  (forall v, 0 <= v <= QuantumRange -> quantum_of_real v = v) ->
  Forall (fun s => 0 <= s <= max_value) (flatten_samples samples) ->
  length queue = length samples ->
  exists blob',
    PNM.PPM_row long_of_real quantum_of_real QuantumRange max_value queue
      (PNM.mkText (PNMPlain.write_P3 samples ++ rest) exceptions) =
    Some (zip_with (fun q '(r, g, b) =>
                      PNM.mkPixel (PNM.scale_entry QuantumRange max_value r)
                        (PNM.scale_entry QuantumRange max_value g)
                        (PNM.scale_entry QuantumRange max_value b)
                        (PNM.opacity q))
            queue samples,
          PNM.mkText blob' exceptions).
Proof.
  intros HQ Hm Hlong Hquantum Hs Hq.
  destruct (write_P3_shape samples) as (tags & tail & -> & Hlen & _).
  rewrite <- app_assoc.
  exact (PPM_row_numbers_stream QuantumRange max_value HQ Hm
           long_of_real quantum_of_real Hlong Hquantum samples tags
           queue [] (tail ++ rest) exceptions Hs Hlen Hq ltac:(constructor)).
Qed.

Lemma plain_PPM_roundtrip_witness :
  exists blob',
    PNM.PPM_row (fun v => v) (fun v => v) 255 255
      [PNM.mkPixel 0 0 0 0; PNM.mkPixel 0 0 0 0]
      (PNM.mkText (PNMPlain.write_P3 [(1, 2, 3); (255, 0, 17)] ++ []) []) =
    Some ([PNM.mkPixel 1 2 3 0; PNM.mkPixel 255 0 17 0],
          PNM.mkText blob' []).
Proof.
  apply (plain_PPM_roundtrip (fun v => v) (fun v => v) 255 255
           [(1, 2, 3); (255, 0, 17)]
           [PNM.mkPixel 0 0 0 0; PNM.mkPixel 0 0 0 0] [] []).
  - lia.
  - lia.
  - reflexivity.
  - reflexivity.
  - repeat constructor; lia.
  - reflexivity.
Defined.


(** ** coders/ps.c: hexadecimal data *)

Section PSHex.
Import Quantum PNM PNMPlain PS.

Local Abbreviation digit c := (default 0 (ReadPS_hex_digits !! Z.to_nat c)).

Lemma xdigit_table :
  forallb (fun c => implb (isxdigit c)
                      ((Z.land c 255 =? c) && (0 <=? digit c) &&
                       (digit c <=? 15)))
    (map Z.of_nat (seq 0 128)) = true.
Proof. vm_compute. reflexivity. Qed.

Lemma isxdigit_range (c : Z) :
  isxdigit c = true -> 48 <= c <= 57 \/ 65 <= c <= 70 \/ 97 <= c <= 102.
Proof.
  unfold isxdigit.
  rewrite !orb_true_iff, !andb_true_iff, !Z.leb_le. tauto.
Qed.

Lemma isxdigit_digit (c : Z) :
  isxdigit c = true ->
  Z.land c 255 = c /\ 0 <= digit c <= 15 /\ c <> 37 /\ c <> 10.
Proof.
  intros Hc. pose proof (isxdigit_range c Hc) as Hrange.
  pose proof xdigit_table as Ht. rewrite forallb_forall in Ht.
  specialize (Ht c). rewrite Hc in Ht. simpl in Ht.
  assert (In c (map Z.of_nat (seq 0 128))) as Hin.
  { apply in_map_iff. exists (Z.to_nat c). split; [lia|].
    apply in_seq. lia. }
  specialize (Ht Hin).
  rewrite !andb_true_iff, Z.eqb_eq, !Z.leb_le in Ht.
  split; [tauto|]. split; [tauto|]. lia.
Qed.

Lemma hex_table :
  forallb (fun v => match PopHexPixel v with
                    | Some [a; b] =>
                        isxdigit a && isxdigit b &&
                        (16 * digit a + digit b =? v)
                    | _ => false
                    end)
    (map Z.of_nat (seq 0 256)) = true.
Proof. vm_compute. reflexivity. Qed.

Lemma PopHexPixel_digits (v : Z) :
  0 <= v < 256 ->
  exists a b, PopHexPixel v = Some [a; b] /\
    isxdigit a = true /\ isxdigit b = true /\ 16 * digit a + digit b = v.
Proof.
  intros Hv. pose proof hex_table as Ht. rewrite forallb_forall in Ht.
  specialize (Ht v).
  assert (In v (map Z.of_nat (seq 0 256))) as Hin.
  { apply in_map_iff. exists (Z.to_nat v). split; [lia|].
    apply in_seq. lia. }
  specialize (Ht Hin).
  destruct (PopHexPixel v) as [[|a [|b [|? ?]]]|]; try discriminate.
  rewrite !andb_true_iff, Z.eqb_eq in Ht.
  exists a, b. split; [done|]. tauto.
Qed.

Lemma shift_digit (d : Z) :
  0 <= d <= 15 -> to_int (to_ulong (Z.shiftl (to_ulong d) 4)) = 16 * d.
Proof.
  intros Hd. unfold to_ulong, to_int.
  rewrite (Z.mod_small d) by lia.
  rewrite Z.shiftl_mul_pow2 by lia.
  rewrite (Z.mod_small (d * 2 ^ 4) (2 ^ 64)) by lia.
  rewrite (Z.mod_small (d * 2 ^ 4) (2 ^ 32)) by lia.
  destruct (Z.ltb_spec (d * 2 ^ 4) (2 ^ 31)); lia.
Qed.

(** Bytes that are neither hexadecimal digits nor percent signs. *)
Lemma ProfileInteger_loop_skip (junk : list Z) :
  forall (i l value : Z) (c : Z) (blob : list Z),
  Forall (fun c => isxdigit (Z.land c 255) = false /\ c <> 37) junk ->
  c <> 37 ->
  exists l', ProfileInteger_loop i l value (junk ++ c :: blob) =
             ProfileInteger_loop i l' value (c :: blob).
Proof.
  induction junk as [|j junk IH]; intros i l value c blob Hjunk Hc.
  - by exists l.
  - apply Forall_cons in Hjunk as [[Hj Hj37] Hjunk].
    cbn [app ProfileInteger_loop].
    destruct (Z.eqb_spec j 37) as [?|_]; [done|]. cbn [andb].
    rewrite Hj. cbn [negb]. by apply IH.
Qed.

Lemma ProfileInteger_loop_eof (junk : list Z) :
  forall (i l value : Z),
  Forall (fun c => isxdigit (Z.land c 255) = false /\ c <> 37) junk ->
  ProfileInteger_loop i l value junk = (-1, []).
Proof.
  induction junk as [|j junk IH]; intros i l value Hjunk; [done|].
  apply Forall_cons in Hjunk as [[Hj Hj37] Hjunk].
  cbn [ProfileInteger_loop].
  destruct (Z.eqb_spec j 37) as [?|_]; [done|]. cbn [andb].
  rewrite Hj. cbn [negb]. by apply IH.
Qed.

Lemma ProfileInteger_loop_digit (i l value c : Z) (blob : list Z) :
  isxdigit c = true ->
  ProfileInteger_loop i l value (c :: blob) =
  let value' :=
    to_int (to_ulong (Z.shiftl (to_ulong value) 4)) + digit c in
  if i + 1 <? 2 then ProfileInteger_loop (i + 1) c value' blob
  else (value', blob).
Proof.
  intros Hc. destruct (isxdigit_digit c Hc) as (Hland & _ & H37 & _).
  cbn [ProfileInteger_loop].
  destruct (Z.eqb_spec c 37) as [?|_]; [done|]. cbn [andb].
  rewrite Hland, Hc. reflexivity.
Qed.

Lemma ProfileInteger_pair (junk : list Z) (a b : Z) (rest : list Z) :
  Forall (fun c => isxdigit (Z.land c 255) = false /\ c <> 37) junk ->
  isxdigit a = true -> isxdigit b = true ->
  ProfileInteger (junk ++ a :: b :: rest) = (16 * digit a + digit b, rest).
Proof.
  intros Hjunk Ha Hb. unfold ProfileInteger.
  destruct (isxdigit_digit a Ha) as (_ & Hda & Ha37 & _).
  destruct (ProfileInteger_loop_skip junk 0 0 0 a (b :: rest) Hjunk Ha37)
    as [l' ->].
  rewrite ProfileInteger_loop_digit by done. cbv zeta.
  change (0 + 1 <? 2) with true. cbv iota.
  rewrite ProfileInteger_loop_digit by done. cbv zeta.
  change (0 + 1 + 1 <? 2) with false. cbv iota.
  change (to_int (to_ulong (Z.shiftl (to_ulong 0) 4))) with 0.
  rewrite Z.add_0_l, shift_digit by done. reflexivity.
Qed.

Lemma ProfileInteger_odd (junk : list Z) (a : Z) :
  Forall (fun c => isxdigit (Z.land c 255) = false /\ c <> 37) junk ->
  isxdigit a = true ->
  ProfileInteger (junk ++ [a]) = (-1, []).
Proof.
  intros Hjunk Ha. unfold ProfileInteger.
  destruct (isxdigit_digit a Ha) as (_ & Hda & Ha37 & _).
  destruct (ProfileInteger_loop_skip junk 0 0 0 a [] Hjunk Ha37) as [l' ->].
  rewrite ProfileInteger_loop_digit by done. reflexivity.
Qed.

End PSHex.

(** X16. Hexadecimal data of the PostScript coder.  The two characters
    [PopHexPixel] stores for a byte are read back as that byte by
    [ProfileInteger], which first skips what is neither a hexadecimal digit
    nor a percent sign; when the data ends before the second digit, or holds
    no digit at all, [ProfileInteger] returns -1 ([EOF]). *)
Theorem hex_pixel_roundtrip (pixel : Z) (junk rest : list Z) :
  0 <= pixel < 256 ->
  Forall (fun c => PS.isxdigit (Z.land c 255) = false /\ c <> 37) junk ->
  exists a b,
    PS.PopHexPixel pixel = Some [a; b] /\
    PS.ProfileInteger (junk ++ a :: b :: rest) = (pixel, rest) /\
    PS.ProfileInteger (junk ++ [a]) = (-1, []) /\
    PS.ProfileInteger junk = (-1, []).
Proof.
  intros Hpixel Hjunk.
  destruct (PopHexPixel_digits pixel Hpixel) as (a & b & Hpop & Ha & Hb & Hv).
  exists a, b. split; [done|]. split; [|split].
  - rewrite ProfileInteger_pair by done. by rewrite Hv.
  - by apply ProfileInteger_odd.
  - by apply ProfileInteger_loop_eof.
Qed.

Lemma hex_pixel_roundtrip_witness :
  exists a b,
    PS.PopHexPixel 171 = Some [a; b] /\
    PS.ProfileInteger ([32; 10] ++ a :: b :: [55]) = (171, [55]) /\
    PS.ProfileInteger ([32; 10] ++ [a]) = (-1, []) /\
    PS.ProfileInteger [32; 10] = (-1, []).
Proof.
  apply (hex_pixel_roundtrip 171 [32; 10] [55]).
  - lia.
  - repeat constructor; vm_compute; congruence.
Defined.


(** ** Line buffers *)

Section LineBuffer.
Import Quantum PNM PNMPlain PS.

Lemma pieces_stream_snoc (pieces : list (list Z)) (tags : list bool)
    (piece : list Z) (tag : bool) :
  length tags = length pieces ->
  pieces_stream (pieces ++ [piece]) (tags ++ [tag]) =
  pieces_stream pieces tags ++ piece ++ (if tag then [10] else []).
Proof.
  intros Hlen. unfold pieces_stream.
  rewrite zip_with_app by done. rewrite concat_app. cbn [zip_with concat].
  by rewrite app_nil_r.
Qed.

Lemma buffer_invariant_init (bound : nat) :
  buffer_invariant bound 0 (mkWriter [] []) [] [] [].
Proof.
  unfold buffer_invariant, lines_of. cbn.
  split; [done|]. split; [done|]. split; [by split|].
  split; [done|]. split; [apply not_elem_of_nil|lia].
Qed.

Lemma buffer_invariant_weaken (bound m m' : nat) w pieces tags lines :
  (m <= m')%nat ->
  buffer_invariant bound m w pieces tags lines ->
  buffer_invariant bound m' w pieces tags lines.
Proof.
  intros Hm (H1 & H2 & H3 & H4 & H5 & H6).
  unfold buffer_invariant. repeat (split; [done|]). lia.
Qed.

(** Bytes stored in the buffer, with no test of its length. *)
Lemma buffer_invariant_store (bound m : nat) w pieces tags lines
    (piece : list Z) :
  buffer_invariant bound m w pieces tags lines ->
  10 ∉ piece ->
  buffer_invariant bound (m + length piece)
    (mkWriter (line w ++ piece) (written w))
    (pieces ++ [piece]) (tags ++ [false]) lines.
Proof.
  intros (Hstream & Hlen & Hlines & Hbound & Hline & Hm) Hpiece.
  unfold buffer_invariant. cbn [line written].
  split; [|split; [|split; [|split; [|split]]]].
  - rewrite pieces_stream_snoc by done.
    by rewrite app_nil_r, app_assoc, Hstream.
  - rewrite !length_app. simpl. lia.
  - done.
  - done.
  - rewrite elem_of_app. tauto.
  - rewrite length_app. lia.
Qed.

(** Bytes stored in the buffer, and the test of its length after them. *)
Lemma buffer_invariant_store_flush (bound m : nat) w pieces tags lines
    (piece : list Z) (reserve : Z) :
  buffer_invariant bound m w pieces tags lines ->
  10 ∉ piece -> (m + length piece <= bound)%nat -> 0 <= reserve <= 79 ->
  exists tag lines',
    buffer_invariant bound (Z.to_nat (79 - reserve))
      (flush_at reserve (mkWriter (line w ++ piece) (written w)))
      (pieces ++ [piece]) (tags ++ [tag]) lines'.
Proof.
  intros (Hstream & Hlen & [Hw Hnl] & Hbound & Hline & Hm) Hpiece Hfit Hr.
  unfold flush_at. cbn [line written].
  assert (10 ∉ line w ++ piece) as Hline'
    by (rewrite elem_of_app; tauto).
  destruct (Z.geb_spec (Z.of_nat (length (line w ++ piece)) + reserve) 80)
    as [Hflush|Hkeep].
  - exists true, (lines ++ [line w ++ piece]).
    unfold buffer_invariant. cbn [line written].
    split; [|split; [|split; [|split; [|split]]]].
    + rewrite pieces_stream_snoc by done.
      by rewrite app_nil_r, <- Hstream, <- !app_assoc.
    + rewrite !length_app. simpl. lia.
    + split.
      * rewrite map_app, concat_app, <- Hw. cbn.
        by rewrite app_nil_r.
      * apply Forall_app. split; [done|]. by constructor.
    + apply Forall_app. split; [done|]. constructor; [|done].
      rewrite length_app. lia.
    + apply not_elem_of_nil.
    + simpl. lia.
  - exists false, lines.
    unfold buffer_invariant. cbn [line written].
    split; [|split; [|split; [|split; [|split]]]].
    + rewrite pieces_stream_snoc by done.
      by rewrite app_nil_r, app_assoc, Hstream.
    + rewrite !length_app. simpl. lia.
    + by split.
    + done.
    + done.
    + lia.
Qed.

(** The rest of the buffer, written when the rows are done. *)
Lemma buffer_invariant_finish (bound m : nat) w pieces tags lines :
  buffer_invariant bound m w pieces tags lines -> (m <= bound)%nat ->
  exists tail lines',
    finish w = pieces_stream pieces tags ++ tail /\
    (tail = [] \/ tail = [10]) /\
    lines_of (finish w) lines' /\
    Forall (fun l => (length l <= bound)%nat) lines'.
Proof.
  intros (Hstream & Hlen & [Hw Hnl] & Hbound & Hline & Hm) Hfit.
  unfold finish. destruct (line w) as [|c l] eqn:El.
  - exists [], lines. rewrite app_nil_r in *.
    split; [done|]. split; [by left|]. split; [by split|done].
  - exists [10], (lines ++ [c :: l]).
    split; [by rewrite <- Hstream, <- app_assoc|].
    split; [by right|]. split; [split|].
    + rewrite map_app, concat_app, <- Hw. cbn. by rewrite app_nil_r.
    + apply Forall_app. split; [done|]. by constructor.
    + apply Forall_app. split; [done|]. constructor; [|done]. lia.
Qed.

End LineBuffer.

(** ** Reading hexadecimal data back *)

Section HexStream.
Import Quantum PNM PNMPlain PS.

Lemma hex_pair_digits (v : Z) :
  0 <= v < 256 ->
  exists a b, hex_pair v = [a; b] /\ PopHexPixel v = Some [a; b] /\
    isxdigit a = true /\ isxdigit b = true /\
    16 * default 0 (ReadPS_hex_digits !! Z.to_nat a) +
      default 0 (ReadPS_hex_digits !! Z.to_nat b) = v.
Proof.
  intros Hv.
  destruct (PopHexPixel_digits v Hv) as (a & b & Hpop & Ha & Hb & Hval).
  exists a, b. unfold hex_pair. rewrite Hpop. by auto.
Qed.

Lemma hex_pair_no_newline (v : Z) :
  0 <= v < 256 -> (10 ∉ hex_pair v) /\ length (hex_pair v) = 2%nat.
Proof.
  intros Hv. destruct (hex_pair_digits v Hv) as (a & b & -> & _ & Ha & Hb & _).
  destruct (isxdigit_digit a Ha) as (_ & _ & _ & Ha10).
  destruct (isxdigit_digit b Hb) as (_ & _ & _ & Hb10).
  split; [|done]. rewrite !not_elem_of_cons. split; [done|].
  split; [done|]. apply not_elem_of_nil.
Qed.

Lemma hex_piece_no_newline (values : list Z) :
  Forall (fun v => 0 <= v < 256) values ->
  (10 ∉ hex_piece values) /\
  length (hex_piece values) = (2 * length values)%nat.
Proof.
  induction 1 as [|v values Hv _ [IH1 IH2]]; unfold hex_piece in *.
  - split; [apply not_elem_of_nil|done].
  - destruct (hex_pair_no_newline v Hv) as [H1 H2]. cbn [map concat].
    split.
    + rewrite elem_of_app. tauto.
    + rewrite length_app, H2, IH2. simpl. lia.
Qed.

Lemma pop_pixels_hex_piece (values : list Z) :
  Forall (fun v => 0 <= v < 256) values ->
  pop_pixels values = Some (hex_piece values).
Proof.
  induction 1 as [|v values Hv _ IH]; [done|].
  destruct (hex_pair_digits v Hv) as (a & b & Hpair & Hpop & _).
  unfold hex_piece in *. cbn [pop_pixels fold_right map concat].
  unfold pop_pixels in IH. rewrite IH, Hpop, Hpair. reflexivity.
Qed.

Lemma pieces_stream_cons (piece : list Z) (pieces : list (list Z))
    (tag : bool) (tags : list bool) :
  pieces_stream (piece :: pieces) (tag :: tags) =
  (piece ++ (if tag then [10] else [])) ++ pieces_stream pieces tags.
Proof. reflexivity. Qed.

(** A piece of several bytes is a stream of single bytes. *)
Lemma hex_piece_stream (values : list Z) (tag : bool) :
  values <> [] ->
  exists tags,
    length tags = length values /\
    hex_piece values ++ (if tag then [10] else []) =
    pieces_stream (map hex_pair values) tags.
Proof.
  induction values as [|v values IH]; intros Hne; [done|].
  destruct values as [|v' values].
  - exists [tag]. split; [done|]. unfold hex_piece, pieces_stream. cbn.
    by rewrite !app_nil_r.
  - destruct (IH ltac:(done)) as (tags & Hlen & Hstream).
    set (rest := v' :: values) in *.
    exists (false :: tags). split; [simpl in *; lia|].
    cbn [map]. rewrite pieces_stream_cons, <- Hstream.
    unfold hex_piece. cbn [map concat].
    by rewrite app_nil_r, <- !app_assoc.
Qed.

Lemma pieces_stream_app (pieces1 pieces2 : list (list Z))
    (tags1 tags2 : list bool) :
  length tags1 = length pieces1 ->
  pieces_stream (pieces1 ++ pieces2) (tags1 ++ tags2) =
  pieces_stream pieces1 tags1 ++ pieces_stream pieces2 tags2.
Proof.
  intros Hlen. unfold pieces_stream.
  rewrite zip_with_app by done. by rewrite concat_app.
Qed.

Lemma hex_pieces_stream (packets : list (list Z)) :
  forall tags : list bool,
  Forall (fun values => values <> []) packets ->
  length tags = length packets ->
  exists tags',
    length tags' = length (concat packets) /\
    pieces_stream (map hex_piece packets) tags =
    pieces_stream (map hex_pair (concat packets)) tags'.
Proof.
  induction packets as [|values packets IH]; intros [|tag tags] Hne Hlen;
    try discriminate.
  - by exists [].
  - apply Forall_cons in Hne as [Hne0 Hne].
    destruct (IH tags Hne ltac:(simpl in *; lia)) as (tags2 & Hlen2 & Hs2).
    destruct (hex_piece_stream values tag Hne0) as (tags1 & Hlen1 & Hs1).
    exists (tags1 ++ tags2). split.
    + cbn [concat]. rewrite !length_app. lia.
    + cbn [concat]. rewrite map_app.
      rewrite pieces_stream_app by (by rewrite length_map).
      rewrite <- Hs1, <- Hs2. unfold pieces_stream at 1.
      cbn [map zip_with concat]. reflexivity.
Qed.

Lemma pieces_stream_length (values : list Z) :
  forall tags : list bool,
  Forall (fun v => 0 <= v < 256) values -> length tags = length values ->
  (2 * length values <= length (pieces_stream (map hex_pair values) tags))%nat.
Proof.
  induction values as [|v values IH]; intros [|tag tags] Hv Hlen;
    try discriminate; [simpl; lia|].
  apply Forall_cons in Hv as [Hv0 Hv].
  specialize (IH tags Hv ltac:(simpl in *; lia)).
  destruct (hex_pair_no_newline v Hv0) as [_ H2].
  unfold pieces_stream in *. cbn [map zip_with concat length].
  rewrite !length_app, H2. simpl. lia.
Qed.

(** [ProfileInteger] on the stream of a writer: the bytes come back. *)
Lemma profile_values_stream (values : list Z) :
  forall (tags : list bool) (junk tail : list Z) (fuel : nat),
  Forall (fun v => 0 <= v < 256) values -> length tags = length values ->
  Forall is_filler junk -> Forall is_filler tail ->
  (length values < fuel)%nat ->
  profile_values fuel
    (junk ++ pieces_stream (map hex_pair values) tags ++ tail) = values.
Proof.
  induction values as [|v values IH];
    intros [|tag tags] junk tail fuel Hv Hlen Hjunk Htail Hfuel;
    try discriminate.
  - destruct fuel as [|fuel]; [simpl in Hfuel; lia|].
    cbn [map pieces_stream zip_with concat app profile_values].
    unfold ProfileInteger.
    rewrite ProfileInteger_loop_eof by (by apply Forall_app).
    reflexivity.
  - destruct fuel as [|fuel]; [simpl in Hfuel; lia|].
    apply Forall_cons in Hv as [Hv0 Hv].
    destruct (hex_pair_digits v Hv0) as (a & b & Hpair & _ & Ha & Hb & Hval).
    unfold pieces_stream. cbn [map zip_with concat].
    fold (pieces_stream (map hex_pair values) tags).
    rewrite Hpair, <- !app_assoc. cbn [app profile_values].
    rewrite ProfileInteger_pair by done. rewrite Hval.
    destruct (Z.eqb_spec v (-1)) as [?|_]; [lia|].
    f_equal. apply IH; try done.
    + simpl in *. lia.
    + destruct tag; repeat constructor; vm_compute; congruence.
    + simpl in *. lia.
Qed.

Lemma profile_data_stream (values : list Z) (tags : list bool)
    (tail : list Z) :
  Forall (fun v => 0 <= v < 256) values -> length tags = length values ->
  Forall is_filler tail ->
  profile_data (pieces_stream (map hex_pair values) tags ++ tail) = values.
Proof.
  intros Hv Hlen Htail. unfold profile_data.
  apply (profile_values_stream values tags [] tail); try done.
  pose proof (pieces_stream_length values tags Hv Hlen).
  rewrite length_app. lia.
Qed.

End HexStream.


(** ** coders/ps.c: run-length encoded DirectClass rows *)

Section RunLength.
Import Quantum PNM PNMPlain PS.

Variable ScaleQuantumToChar : Z -> Z.
Variable QuantumRange : Z.
Hypothesis ScaleQuantumToChar_range :
  forall q, 0 <= ScaleQuantumToChar q < 256.

Local Abbreviation piece :=
  (fun packet => hex_piece (packet_values ScaleQuantumToChar packet)).

Lemma same_pixel_eq (p pixel : PixelPacket) :
  same_pixel p pixel = true -> p = pixel.
Proof.
  destruct p, pixel. unfold same_pixel. cbn [red green blue opacity].
  rewrite !andb_true_iff, !Z.eqb_eq. intros [[[-> ->] ->] ->]. reflexivity.
Qed.

Lemma packet_values_range (pixel : PixelPacket) (n : Z) :
  0 <= n <= 255 ->
  Forall (fun v => 0 <= v < 256) (packet_values ScaleQuantumToChar (pixel, n)).
Proof.
  intros Hn. unfold packet_values.
  repeat (constructor; [first [apply ScaleQuantumToChar_range | lia]|]).
  constructor.
Qed.

Lemma unpack_snoc {A : Type} (packets : list (A * Z)) (pixel : A) (n : Z) :
  unpack (packets ++ [(pixel, n)]) =
  unpack packets ++ replicate (Z.to_nat (n + 1)) pixel.
Proof.
  unfold unpack. rewrite map_app, concat_app. cbn [map concat].
  by rewrite app_nil_r.
Qed.

Lemma MagickMin_small (n : Z) : 0 <= n <= 255 -> MagickMin n 255 = n.
Proof. intros Hn. unfold MagickMin. destruct (Z.ltb_spec n 255); lia. Qed.

(** A packet of an image without matte channel. *)
Lemma write_packet_invariant w packets tags lines pixel n p :
  buffer_invariant 77 69 w (map piece packets) tags lines ->
  0 <= n <= 255 ->
  exists w' tags' lines',
    write_packet ScaleQuantumToChar QuantumRange false pixel n p w = Some w' /\
    buffer_invariant 77 69 w' (map piece (packets ++ [(pixel, n)]))
      tags' lines'.
Proof.
  intros Hinv Hn. unfold write_packet, WriteRunlengthPacket.
  rewrite MagickMin_small by done.
  pose proof (packet_values_range pixel n Hn) as Hrange.
  unfold packet_values in Hrange.
  rewrite (pop_pixels_hex_piece _ Hrange). cbn [store option_map].
  destruct (hex_piece_no_newline _ Hrange) as [Hnl Hlen].
  destruct (buffer_invariant_store_flush 77 69 w _ tags lines _ 10 Hinv Hnl
              ltac:(rewrite Hlen; simpl; lia) ltac:(lia))
    as (tag & lines' & Hinv').
  eexists _, (tags ++ [tag]), lines'. split; [reflexivity|].
  rewrite map_app. exact Hinv'.
Qed.

Lemma runlength_loop_invariant (row : list PixelPacket) :
  forall (columns x : Z) (pixel : PixelPacket) (n : Z) (w : TextWriter)
         (seen : list PixelPacket) (packets : list (PixelPacket * Z))
         (tags : list bool) (lines : list (list Z)),
  1 <= x -> 0 <= n <= 255 ->
  unpack packets ++ replicate (Z.to_nat (n + 1)) pixel = seen ->
  Forall (fun packet => 0 <= packet.2 <= 255) packets ->
  buffer_invariant 77 69 w (map piece packets) tags lines ->
  exists pixel' n' w' packets' tags' lines',
    runlength_loop ScaleQuantumToChar QuantumRange false columns x row
      pixel n w = Some (pixel', n', w') /\
    0 <= n' <= 255 /\
    unpack packets' ++ replicate (Z.to_nat (n' + 1)) pixel' = seen ++ row /\
    Forall (fun packet => 0 <= packet.2 <= 255) packets' /\
    buffer_invariant 77 69 w' (map piece packets') tags' lines'.
Proof.
  induction row as [|p row IH];
    intros columns x pixel n w seen packets tags lines Hx Hn Hseen Hlen Hinv.
  - exists pixel, n, w, packets, tags, lines. by rewrite app_nil_r.
  - cbn [runlength_loop].
    destruct (same_pixel p pixel && (n <? 255) && (x <? columns - 1)) eqn:E.
    + rewrite !andb_true_iff in E. destruct E as [[Hsame Hlt] _].
      apply same_pixel_eq in Hsame as ->. apply Z.ltb_lt in Hlt.
      destruct (IH columns (x + 1) pixel (n + 1) w (seen ++ [pixel])
                  packets tags lines ltac:(lia) ltac:(lia)) as
        (pixel' & n' & w' & packets' & tags' & lines' & Hloop & Hn' & Hrow
         & Hlen' & Hinv');
        [|done|done|].
      { replace (Z.to_nat (n + 1 + 1)) with (S (Z.to_nat (n + 1))) by lia.
        by rewrite replicate_S_end, app_assoc, Hseen. }
      exists pixel', n', w', packets', tags', lines'.
      by rewrite <- app_assoc in Hrow.
    + destruct (Z.gtb_spec x 0) as [_|?]; [|lia].
      destruct (write_packet_invariant w packets tags lines pixel n (Some p)
                  Hinv Hn) as (w1 & tags1 & lines1 & -> & Hinv1).
      destruct (IH columns (x + 1) p 0 w1 (seen ++ [p])
                  (packets ++ [(pixel, n)]) tags1 lines1
                  ltac:(lia) ltac:(lia)) as
        (pixel' & n' & w' & packets' & tags' & lines' & Hloop & Hn' & Hrow
         & Hlen' & Hinv');
        [| |done|].
      { by rewrite unpack_snoc, Hseen. }
      { apply Forall_app. split; [done|]. by constructor. }
      exists pixel', n', w', packets', tags', lines'.
      by rewrite <- app_assoc in Hrow.
Qed.

Lemma runlength_row_invariant (row : list PixelPacket)
    (beyond : option PixelPacket) (w : TextWriter)
    (packets : list (PixelPacket * Z)) (tags : list bool)
    (lines : list (list Z)) :
  row <> [] ->
  Forall (fun packet => 0 <= packet.2 <= 255) packets ->
  buffer_invariant 77 69 w (map piece packets) tags lines ->
  exists w' packets' tags' lines',
    runlength_row ScaleQuantumToChar QuantumRange false row beyond w =
      Some w' /\
    unpack packets' = unpack packets ++ row /\
    Forall (fun packet => 0 <= packet.2 <= 255) packets' /\
    buffer_invariant 77 69 w' (map piece packets') tags' lines'.
Proof.
  intros Hrow Hlen Hinv. destruct row as [|p row]; [done|].
  unfold runlength_row. cbn [runlength_loop].
  change (255 <? 255) with false. rewrite andb_false_r. cbn [andb].
  change (0 >? 0) with false. cbv iota.
  destruct (runlength_loop_invariant row (Z.of_nat (length (p :: row)))
              (0 + 1) p 0 w (unpack packets ++ [p]) packets tags lines
              ltac:(lia) ltac:(lia) eq_refl Hlen Hinv) as
    (pixel' & n' & w1 & packets1 & tags1 & lines1 & -> & Hn' & Hseen
     & Hlen1 & Hinv1).
  destruct (write_packet_invariant w1 packets1 tags1 lines1 pixel' n' beyond
              Hinv1 Hn') as (w' & tags' & lines' & Hw' & Hinv').
  exists w', (packets1 ++ [(pixel', n')]), tags', lines'.
  split; [done|]. split; [|split; [|done]].
  - by rewrite unpack_snoc, Hseen, <- app_assoc.
  - apply Forall_app. split; [done|]. by constructor.
Qed.

Lemma runlength_rows_invariant
    (rows : list (list PixelPacket * option PixelPacket)) :
  forall (w : TextWriter) (packets : list (PixelPacket * Z))
         (tags : list bool) (lines : list (list Z)),
  Forall (fun row => row.1 <> []) rows ->
  Forall (fun packet => 0 <= packet.2 <= 255) packets ->
  buffer_invariant 77 69 w (map piece packets) tags lines ->
  exists w' packets' tags' lines',
    runlength_rows ScaleQuantumToChar QuantumRange false rows w = Some w' /\
    unpack packets' = unpack packets ++ concat (map fst rows) /\
    Forall (fun packet => 0 <= packet.2 <= 255) packets' /\
    buffer_invariant 77 69 w' (map piece packets') tags' lines'.
Proof.
  induction rows as [|[row beyond] rows IH];
    intros w packets tags lines Hrows Hlen Hinv.
  - exists w, packets, tags, lines. by rewrite app_nil_r.
  - apply Forall_cons in Hrows as [Hrow Hrows]. cbn [runlength_rows].
    destruct (runlength_row_invariant row beyond w packets tags lines
                Hrow Hlen Hinv)
      as (w1 & packets1 & tags1 & lines1 & -> & Hp1 & Hlen1 & Hinv1).
    destruct (IH w1 packets1 tags1 lines1 Hrows Hlen1 Hinv1)
      as (w' & packets' & tags' & lines' & Hw' & Hp' & Hlen' & Hinv').
    exists w', packets', tags', lines'. split; [done|]. split; [|done].
    rewrite Hp', Hp1. cbn [map concat fst]. by rewrite <- app_assoc.
Qed.

(** The pixels that the bytes of a list of packets stand for. *)
Lemma expand_packets_values (packets : list (PixelPacket * Z)) :
  expand_packets (concat (map (packet_values ScaleQuantumToChar) packets)) =
  map (fun p => (ScaleQuantumToChar (red p), ScaleQuantumToChar (green p),
                 ScaleQuantumToChar (blue p)))
    (unpack packets).
Proof.
  induction packets as [|[pixel n] packets IH]; [done|].
  cbn [map concat packet_values app expand_packets].
  rewrite IH. unfold unpack. cbn [map concat].
  rewrite map_app. f_equal.
  induction (Z.to_nat (n + 1)) as [|k IHk]; [done|].
  cbn [replicate map]. by rewrite IHk.
Qed.

Lemma packets_values_range (packets : list (PixelPacket * Z)) :
  Forall (fun packet => 0 <= packet.2 <= 255) packets ->
  Forall (fun v => 0 <= v < 256)
    (concat (map (packet_values ScaleQuantumToChar) packets)).
Proof.
  induction 1 as [|[pixel n] packets Hn _ IH]; [constructor|].
  cbn [map concat]. apply Forall_app. split; [|done].
  by apply packet_values_range.
Qed.

End RunLength.

Lemma lines_of_newline (blob : list Z) (lines : list (list Z)) :
  PNMPlain.lines_of blob lines -> PNMPlain.lines_of (blob ++ [10]) (lines ++ [[]]).
Proof.
  intros [Hblob Hnl]. split.
  - by rewrite map_app, concat_app, <- Hblob.
  - apply Forall_app. split; [done|]. constructor; [|done].
    apply not_elem_of_nil.
Qed.

Lemma is_filler_newline : is_filler 10.
Proof. split; [reflexivity|discriminate]. Qed.

(** X17. Run-length encoded DirectClass rows of the PostScript writer.
    For an image without matte channel and with no empty row, the writer
    produces lines of at most 77 characters (the buffer of 2048 bytes is
    never exceeded), and the bytes that [ProfileInteger] reads from them are
    packets of red, green, blue and a run length of at most 255 whose
    expansion is the pixels of the rows in their order, every channel scaled
    by [ScaleQuantumToChar]. *)
Theorem PS_runlength_roundtrip (ScaleQuantumToChar : Z -> Z)
    (QuantumRange : Z)
    (rows : list (list PNM.PixelPacket * option PNM.PixelPacket)) :
  (forall q, 0 <= ScaleQuantumToChar q < 256) ->
  Forall (fun row => row.1 <> []) rows ->
  exists out lines,
    PS.WritePS_runlength ScaleQuantumToChar QuantumRange false rows =
      Some out /\
    PNMPlain.lines_of out lines /\
    Forall (fun l => (length l <= 77)%nat) lines /\
    Forall (fun v => 0 <= v < 256) (profile_data out) /\
    expand_packets (profile_data out) =
    map (fun p => (ScaleQuantumToChar (PNM.red p),
                   ScaleQuantumToChar (PNM.green p),
                   ScaleQuantumToChar (PNM.blue p)))
      (concat (map fst rows)).
Proof.
  intros Hscale Hrows.
  destruct (runlength_rows_invariant ScaleQuantumToChar QuantumRange Hscale
              rows (PNMPlain.mkWriter [] []) [] [] [] Hrows
              ltac:(constructor)
              (buffer_invariant_weaken 77 0 69 _ _ _ _ ltac:(lia)
                 (buffer_invariant_init 77)))
    as (w & packets & tags & lines & Hw & Hpixels & Hlen & Hinv).
  destruct (buffer_invariant_finish 77 69 w _ tags lines Hinv ltac:(lia))
    as (tail & lines' & Hfinish & Htail & Hlines & Hbound).
  exists (PNMPlain.finish w ++ [10]), (lines' ++ [[]]).
  split; [by unfold PS.WritePS_runlength; rewrite Hw|].
  split; [by apply lines_of_newline|].
  split; [apply Forall_app; split; [done|]; constructor; [simpl; lia|done]|].
  destruct Hinv as (_ & Htags & _).
  rewrite <- (map_map (packet_values ScaleQuantumToChar) hex_piece) in Hfinish, Htags.
  destruct (hex_pieces_stream (map (packet_values ScaleQuantumToChar) packets)
              tags) as (tags' & Htags' & Hstream).
  { apply Forall_map, Forall_forall. by intros [pixel n] _. }
  { rewrite !length_map in Htags. by rewrite length_map. }
  rewrite Hfinish, Hstream, <- app_assoc.
  rewrite profile_data_stream.
  - split; [by apply packets_values_range|].
    rewrite expand_packets_values. by rewrite Hpixels.
  - by apply packets_values_range.
  - done.
  - apply Forall_app. split; [|repeat constructor; apply is_filler_newline].
    destruct Htail as [-> | ->]; repeat constructor; apply is_filler_newline.
Qed.

Lemma PS_runlength_roundtrip_witness :
  exists out lines,
    PS.WritePS_runlength (fun q => q mod 256) 255 false
      [([PNM.mkPixel 1 2 3 0; PNM.mkPixel 1 2 3 0; PNM.mkPixel 1 2 3 0;
         PNM.mkPixel 9 9 9 0], None)] = Some out /\
    PNMPlain.lines_of out lines /\
    Forall (fun l => (length l <= 77)%nat) lines /\
    Forall (fun v => 0 <= v < 256) (profile_data out) /\
    expand_packets (profile_data out) =
    [(1, 2, 3); (1, 2, 3); (1, 2, 3); (9, 9, 9)].
Proof.
  apply (PS_runlength_roundtrip (fun q => q mod 256) 255
           [([PNM.mkPixel 1 2 3 0; PNM.mkPixel 1 2 3 0; PNM.mkPixel 1 2 3 0;
              PNM.mkPixel 9 9 9 0], None)]).
  - intros q. apply Z.mod_pos_bound. lia.
  - repeat constructor. discriminate.
Defined.


(** ** coders/ps.c: run-length encoded PseudoClass rows *)

Section IndexRunLength.
Import Quantum PNM PNMPlain PS.

Local Abbreviation piece :=
  (fun packet => hex_piece (index_packet_values packet)).
Local Abbreviation packets_ok :=
  (Forall (fun packet : Z * Z =>
             0 <= packet.1 < 256 /\ 0 <= packet.2 <= 255)).

Lemma index_packet_values_range (index n : Z) :
  0 <= index < 256 -> 0 <= n <= 255 ->
  Forall (fun v => 0 <= v < 256) (index_packet_values (index, n)).
Proof.
  intros Hi Hn. unfold index_packet_values.
  repeat (constructor; [lia|]). constructor.
Qed.

Lemma write_index_packet_store (index n : Z) (w : TextWriter) :
  0 <= index < 256 -> 0 <= n <= 255 ->
  write_index_packet index n w =
  Some (mkWriter (line w ++ piece (index, n)) (written w)).
Proof.
  intros Hi Hn. unfold write_index_packet.
  rewrite MagickMin_small by done.
  pose proof (index_packet_values_range index n Hi Hn) as Hrange.
  unfold index_packet_values in Hrange.
  by rewrite (pop_pixels_hex_piece _ Hrange).
Qed.

Lemma index_loop_invariant (row : list Z) :
  forall (columns x index n : Z) (w : TextWriter) (seen : list Z)
         (packets : list (Z * Z)) (tags : list bool) (lines : list (list Z))
         (m : nat),
  1 <= x -> columns = x + Z.of_nat (length row) ->
  0 <= n <= 255 -> 0 <= index < 256 ->
  Forall (fun i => 0 <= i < 256) row -> (m <= 77)%nat ->
  unpack packets ++ replicate (Z.to_nat (n + 1)) index = seen ->
  packets_ok packets ->
  buffer_invariant 81 m w (map piece packets) tags lines ->
  exists index' n' w' packets' tags' lines',
    index_loop columns x row index n w = Some (index', n', w') /\
    0 <= n' <= 255 /\ 0 <= index' < 256 /\
    unpack packets' ++ replicate (Z.to_nat (n' + 1)) index' = seen ++ row /\
    packets_ok packets' /\
    buffer_invariant 81 (match row with [] => m | _ => 73%nat end) w'
      (map piece packets') tags' lines'.
Proof.
  induction row as [|next row IH];
    intros columns x index n w seen packets tags lines m
           Hx Hcolumns Hn Hindex Hrow Hm Hseen Hok Hinv.
  - exists index, n, w, packets, tags, lines. by rewrite app_nil_r.
  - apply Forall_cons in Hrow as [Hnext Hrow]. cbn [index_loop].
    destruct ((index =? next) && (n <? 255) && (x <? columns - 1)) eqn:E.
    + rewrite !andb_true_iff in E. destruct E as [[Hsame Hlt] Hlast].
      apply Z.eqb_eq in Hsame as <-. apply Z.ltb_lt in Hlt.
      apply Z.ltb_lt in Hlast.
      destruct (IH columns (x + 1) index (n + 1) w (seen ++ [index])
                  packets tags lines m ltac:(lia)
                  ltac:(cbn [length] in Hcolumns; lia) ltac:(lia) Hindex
                  Hrow Hm) as
        (index' & n' & w' & packets' & tags' & lines' & Hloop & Hn' & Hi'
         & Hseen' & Hok' & Hinv');
        [|done|done|].
      { replace (Z.to_nat (n + 1 + 1)) with (S (Z.to_nat (n + 1))) by lia.
        by rewrite replicate_S_end, app_assoc, Hseen. }
      exists index', n', w', packets', tags', lines'.
      rewrite <- app_assoc in Hseen'.
      destruct row as [|? row]; [cbn [length] in Hcolumns; lia|done].
    + destruct (Z.gtb_spec x 0) as [_|?]; [|lia].
      rewrite write_index_packet_store by done. cbn [option_map].
      pose proof (index_packet_values_range index n Hindex Hn) as Hrange.
      destruct (hex_piece_no_newline _ Hrange) as [Hnl Hlen].
      destruct (buffer_invariant_store_flush 81 m w _ tags lines _ 6 Hinv Hnl
                  ltac:(rewrite Hlen; simpl; lia) ltac:(lia))
        as (tag & lines1 & Hinv1).
      change (Z.to_nat (79 - 6)) with 73%nat in Hinv1.
      assert (map piece packets ++ [hex_piece (index_packet_values (index, n))]
              = map piece (packets ++ [(index, n)])) as Heq
        by (by rewrite map_app).
      rewrite Heq in Hinv1.
      set (w1 := flush_at 6 _) in Hinv1 |- *.
      destruct (IH columns (x + 1) next 0 w1 (seen ++ [next])
                  (packets ++ [(index, n)]) (tags ++ [tag]) lines1 73%nat
                  ltac:(lia) ltac:(cbn [length] in Hcolumns; lia)
                  ltac:(lia) Hnext Hrow ltac:(lia)) as
        (index' & n' & w' & packets' & tags' & lines' & Hloop & Hn' & Hi'
         & Hseen' & Hok' & Hinv');
        [| |done|].
      { by rewrite unpack_snoc, Hseen. }
      { apply Forall_app. split; [done|]. by constructor. }
      exists index', n', w', packets', tags', lines'.
      rewrite <- app_assoc in Hseen'.
      split; [done|]. split; [done|]. split; [done|]. split; [done|].
      split; [done|]. by destruct row.
Qed.

(** A row of at least two columns. *)
Lemma index_row_invariant (row : list Z) (w : TextWriter)
    (packets : list (Z * Z)) (tags : list bool) (lines : list (list Z)) :
  (2 <= length row)%nat -> Forall (fun i => 0 <= i < 256) row ->
  packets_ok packets ->
  buffer_invariant 81 77 w (map piece packets) tags lines ->
  exists w' packets' tags' lines',
    index_row row w = Some w' /\
    unpack packets' = unpack packets ++ row /\
    packets_ok packets' /\
    buffer_invariant 81 77 w' (map piece packets') tags' lines'.
Proof.
  intros Hlen Hrow Hok Hinv.
  destruct row as [|index row]; [simpl in Hlen; lia|].
  apply Forall_cons in Hrow as [Hindex Hrow].
  unfold index_row. cbn [index_loop].
  change (255 <? 255) with false. rewrite andb_false_r. cbn [andb].
  change (0 >? 0) with false. cbv iota.
  destruct (index_loop_invariant row
              (Z.of_nat (length (index :: row))) (0 + 1) index 0 w
              (unpack packets ++ [index]) packets tags lines 77
              ltac:(lia) ltac:(cbn [length]; lia) ltac:(lia) Hindex Hrow
              ltac:(lia) eq_refl Hok Hinv) as
    (index' & n' & w1 & packets1 & tags1 & lines1 & -> & Hn' & Hi' & Hseen
     & Hok1 & Hinv1).
  assert (buffer_invariant 81 73 w1 (map piece packets1) tags1 lines1)
    as Hinv73 by (destruct row; [simpl in Hlen; lia|done]).
  clear Hinv1. rename Hinv73 into Hinv1.
  rewrite write_index_packet_store by done.
  pose proof (index_packet_values_range index' n' Hi' Hn') as Hrange.
  destruct (hex_piece_no_newline _ Hrange) as [Hnl Hlen'].
  pose proof (buffer_invariant_store 81 73 w1 _ tags1 lines1 _ Hinv1 Hnl)
    as Hinv'.
  rewrite Hlen' in Hinv'. change (73 + 2 * 2)%nat with 77%nat in Hinv'.
  assert (map piece packets1 ++ [hex_piece (index_packet_values (index', n'))]
          = map piece (packets1 ++ [(index', n')])) as Heq
    by (by rewrite map_app).
  rewrite Heq in Hinv'.
  eexists _, (packets1 ++ [(index', n')]), _, lines1.
  split; [reflexivity|]. split; [|split; [|exact Hinv']].
  - by rewrite unpack_snoc, Hseen, <- app_assoc.
  - apply Forall_app. split; [done|]. by constructor.
Qed.

Lemma index_rows_invariant (rows : list (list Z)) :
  forall (w : TextWriter) (packets : list (Z * Z)) (tags : list bool)
         (lines : list (list Z)),
  Forall (fun row => (2 <= length row)%nat /\
                     Forall (fun i => 0 <= i < 256) row) rows ->
  packets_ok packets ->
  buffer_invariant 81 77 w (map piece packets) tags lines ->
  exists w' packets' tags' lines',
    index_rows rows w = Some w' /\
    unpack packets' = unpack packets ++ concat rows /\
    packets_ok packets' /\
    buffer_invariant 81 77 w' (map piece packets') tags' lines'.
Proof.
  induction rows as [|row rows IH]; intros w packets tags lines Hrows Hok Hinv.
  - exists w, packets, tags, lines. by rewrite app_nil_r.
  - apply Forall_cons in Hrows as [[Hlen Hrow] Hrows]. cbn [index_rows].
    destruct (index_row_invariant row w packets tags lines Hlen Hrow Hok Hinv)
      as (w1 & packets1 & tags1 & lines1 & -> & Hp1 & Hok1 & Hinv1).
    destruct (IH w1 packets1 tags1 lines1 Hrows Hok1 Hinv1)
      as (w' & packets' & tags' & lines' & Hw' & Hp' & Hok' & Hinv').
    exists w', packets', tags', lines'. split; [done|]. split; [|done].
    rewrite Hp', Hp1. cbn [concat]. by rewrite <- app_assoc.
Qed.

Lemma expand_index_packets_values (packets : list (Z * Z)) :
  expand_index_packets (concat (map index_packet_values packets)) =
  unpack packets.
Proof.
  induction packets as [|[index n] packets IH]; [done|].
  cbn [map concat index_packet_values app expand_index_packets].
  rewrite IH. reflexivity.
Qed.

Lemma index_packets_values_range (packets : list (Z * Z)) :
  packets_ok packets ->
  Forall (fun v => 0 <= v < 256) (concat (map index_packet_values packets)).
Proof.
  induction 1 as [|[index n] packets [Hi Hn] _ IH]; [constructor|].
  cbn [map concat]. apply Forall_app. split; [|done].
  by apply index_packet_values_range.
Qed.

(** Rows of one column: every row stores its packet and nothing tests the
    length of the line. *)
Lemma index_rows_one_column (indexes : list Z) :
  forall w : TextWriter,
  Forall (fun i => 0 <= i < 256) indexes ->
  index_rows (map (fun i => [i]) indexes) w =
  Some (mkWriter
          (line w ++ hex_piece (concat (map (fun i => [i; 0]) indexes)))
          (written w)).
Proof.
  induction indexes as [|index indexes IH]; intros w Hindexes.
  - cbn. rewrite app_nil_r. by destruct w.
  - apply Forall_cons in Hindexes as [Hindex Hindexes].
    cbn [map index_rows]. unfold index_row. cbn [index_loop length].
    change (255 <? 255) with false. rewrite andb_false_r. cbn [andb].
    change (0 >? 0) with false. cbv iota.
    rewrite write_index_packet_store by (done || lia).
    rewrite IH by done. cbn [line written concat].
    unfold hex_piece. rewrite map_app, concat_app, <- app_assoc.
    reflexivity.
Qed.

End IndexRunLength.

(** X18. Run-length encoded PseudoClass rows of the PostScript writer.
    For rows of at least two columns whose colormap indexes are below 256,
    the writer produces lines of at most 81 characters, and the bytes that
    [ProfileInteger] reads from them are packets of an index and a run
    length of at most 255 whose expansion is the indexes of the rows in
    their order. *)
Theorem PS_index_runlength_roundtrip (rows : list (list Z)) :
  Forall (fun row => (2 <= length row)%nat /\
                     Forall (fun i => 0 <= i < 256) row) rows ->
  exists out lines,
    PS.WritePS_index_runlength rows = Some out /\
    PNMPlain.lines_of out lines /\
    Forall (fun l => (length l <= 81)%nat) lines /\
    Forall (fun v => 0 <= v < 256) (profile_data out) /\
    expand_index_packets (profile_data out) = concat rows.
Proof.
  intros Hrows.
  destruct (index_rows_invariant rows (PNMPlain.mkWriter [] []) [] [] []
              Hrows ltac:(constructor)
              (buffer_invariant_weaken 81 0 77 _ _ _ _ ltac:(lia)
                 (buffer_invariant_init 81)))
    as (w & packets & tags & lines & Hw & Hpixels & Hok & Hinv).
  destruct (buffer_invariant_finish 81 77 w _ tags lines Hinv ltac:(lia))
    as (tail & lines' & Hfinish & Htail & Hlines & Hbound).
  exists (PNMPlain.finish w ++ [10]), (lines' ++ [[]]).
  split; [by unfold PS.WritePS_index_runlength; rewrite Hw|].
  split; [by apply lines_of_newline|].
  split; [apply Forall_app; split; [done|]; constructor; [simpl; lia|done]|].
  destruct Hinv as (_ & Htags & _).
  rewrite <- (map_map index_packet_values hex_piece) in Hfinish, Htags.
  destruct (hex_pieces_stream (map index_packet_values packets) tags)
    as (tags' & Htags' & Hstream).
  { apply Forall_map, Forall_forall. by intros [index n] _. }
  { rewrite !length_map in Htags. by rewrite length_map. }
  rewrite Hfinish, Hstream, <- app_assoc.
  rewrite profile_data_stream.
  - split; [by apply index_packets_values_range|].
    rewrite expand_index_packets_values. by rewrite Hpixels.
  - by apply index_packets_values_range.
  - done.
  - apply Forall_app. split; [|repeat constructor; apply is_filler_newline].
    destruct Htail as [-> | ->]; repeat constructor; apply is_filler_newline.
Qed.

Lemma PS_index_runlength_roundtrip_witness :
  exists out lines,
    PS.WritePS_index_runlength [[7; 7; 7; 200]; [0; 1]] = Some out /\
    PNMPlain.lines_of out lines /\
    Forall (fun l => (length l <= 81)%nat) lines /\
    Forall (fun v => 0 <= v < 256) (profile_data out) /\
    expand_index_packets (profile_data out) = [7; 7; 7; 200; 0; 1].
Proof.
  apply (PS_index_runlength_roundtrip [[7; 7; 7; 200]; [0; 1]]).
  repeat constructor; simpl; lia.
Defined.

(** X19. PseudoClass images of one column.  The packet stored behind the
    loop of a row is not followed by a test of the line length, and a row of
    one column stores no other packet: for such an image nothing is written
    before the last row, and the buffer (declared with 2048 bytes) holds
    four characters for every row, more than 2048 from 513 rows on. *)
Theorem PS_index_runlength_one_column (indexes : list Z) :
  Forall (fun i => 0 <= i < 256) indexes ->
  exists w,
    PS.index_rows (map (fun i => [i]) indexes) (PNMPlain.mkWriter [] []) =
      Some w /\
    PNMPlain.written w = [] /\
    PNMPlain.line w = hex_piece (concat (map (fun i => [i; 0]) indexes)) /\
    length (PNMPlain.line w) = (4 * length indexes)%nat /\
    ((512 < length indexes)%nat -> (2048 < length (PNMPlain.line w))%nat).
Proof.
  intros Hindexes. eexists. split.
  - apply (index_rows_one_column indexes _ Hindexes).
  - cbn [PNMPlain.written PNMPlain.line app].
    assert (length (hex_piece (concat (map (fun i => [i; 0]) indexes))) =
            (4 * length indexes)%nat) as Hlen.
    { destruct (hex_piece_no_newline
                  (concat (map (fun i => [i; 0]) indexes))) as [_ ->].
      - induction Hindexes as [|i indexes Hi _ IH]; [constructor|].
        cbn [map concat app]. constructor; [done|]. constructor; [lia|done].
      - clear Hindexes. induction indexes as [|i indexes IH]; [done|].
        cbn [map concat length app]. lia. }
    split; [done|]. split; [done|]. split; [done|]. lia.
Qed.

Lemma PS_index_runlength_one_column_witness :
  exists w,
    PS.index_rows (map (fun i => [i]) [3; 3; 4]) (PNMPlain.mkWriter [] []) =
      Some w /\
    PNMPlain.written w = [] /\
    PNMPlain.line w = hex_piece (concat (map (fun i => [i; 0]) [3; 3; 4])) /\
    length (PNMPlain.line w) = (4 * length [3; 3; 4])%nat /\
    ((512 < length [3; 3; 4])%nat -> (2048 < length (PNMPlain.line w))%nat).
Proof.
  apply (PS_index_runlength_one_column [3; 3; 4]).
  repeat constructor; lia.
Defined.


(** ** coders/ps.c: run-length packets of images with a matte channel *)

Section MattePackets.
Import Quantum PNM PNMPlain PS.

Variable ScaleQuantumToChar : Z -> Z.
Variable QuantumRange : Z.
Hypothesis ScaleQuantumToChar_range :
  forall q, 0 <= ScaleQuantumToChar q < 256.

Lemma same_pixel_refl (p : PixelPacket) : same_pixel p p = true.
Proof. unfold same_pixel. by rewrite !Z.eqb_refl. Qed.

Lemma packet_colour_range (transparent : bool) (pixel : PixelPacket) (n : Z) :
  0 <= n <= 255 ->
  Forall (fun v => 0 <= v < 256)
    (packet_colour ScaleQuantumToChar transparent pixel ++ [n]).
Proof.
  intros Hn. unfold packet_colour. destruct transparent; cbn [app];
    repeat (constructor; [first [apply ScaleQuantumToChar_range | lia]|]);
    constructor.
Qed.

Lemma WriteRunlengthPacket_matte (pixel p : PixelPacket) (n : Z) :
  0 <= n <= 255 ->
  WriteRunlengthPacket ScaleQuantumToChar QuantumRange true pixel n (Some p) =
  Some (hex_piece
          (packet_colour ScaleQuantumToChar
             (opacity p =? to_Quantum QuantumRange QuantumRange) pixel ++ [n])).
Proof.
  intros Hn. unfold WriteRunlengthPacket. rewrite MagickMin_small by done.
  pose proof (packet_colour_range
                (opacity p =? to_Quantum QuantumRange QuantumRange) pixel n Hn)
    as Hrange.
  unfold packet_colour in *.
  destruct (opacity p =? to_Quantum QuantumRange QuantumRange);
    cbn [app] in *; by rewrite (pop_pixels_hex_piece _ Hrange).
Qed.

(** The loop over a run of equal pixels that does not end the row. *)
Lemma runlength_loop_run (j : nat) :
  forall (columns x n : Z) (a : PixelPacket) (row : list PixelPacket)
         (w : TextWriter),
  n + Z.of_nat j <= 255 -> x + Z.of_nat j < columns ->
  runlength_loop ScaleQuantumToChar QuantumRange true columns x
    (replicate j a ++ row) a n w =
  runlength_loop ScaleQuantumToChar QuantumRange true columns
    (x + Z.of_nat j) row a (n + Z.of_nat j) w.
Proof.
  induction j as [|j IH]; intros columns x n a row w Hn Hx.
  - cbn [replicate app]. by rewrite !Z.add_0_r.
  - cbn [replicate app runlength_loop]. rewrite same_pixel_refl.
    destruct (Z.ltb_spec n 255) as [_|?]; [|lia].
    destruct (Z.ltb_spec x (columns - 1)) as [_|?]; [|lia].
    cbn [andb]. rewrite IH by lia. f_equal; lia.
Qed.

End MattePackets.

Lemma flush_at_short (reserve : Z) (w : PNMPlain.TextWriter) :
  Z.of_nat (length (PNMPlain.line w)) + reserve < 80 ->
  PNMPlain.flush_at reserve w = w.
Proof.
  intros Hshort. unfold PNMPlain.flush_at.
  destruct (Z.geb_spec (Z.of_nat (length (PNMPlain.line w)) + reserve) 80);
    [lia|done].
Qed.

(** X20. Run-length packets of an image with a matte channel.  The macro
    [WriteRunlengthPacket] tests the opacity of the pixel at the cursor, not
    that of the run it writes: in a row that is a run of [k+1] pixels [a]
    and a last pixel [b], the packet of the run is written as transparent
    (FF FF FF) exactly when [b] is transparent, whatever the opacity of [a],
    and the packet of [b] exactly when the pixel behind the row is. *)
Theorem PS_runlength_matte_packets (ScaleQuantumToChar : Z -> Z)
    (QuantumRange k : Z) (a b beyond : PNM.PixelPacket) :
  (forall q, 0 <= ScaleQuantumToChar q < 256) ->
  0 <= k <= 255 ->
  let transparent p :=
    PNM.opacity p =? Quantum.to_Quantum QuantumRange QuantumRange in
  PS.runlength_row ScaleQuantumToChar QuantumRange true
    (replicate (Z.to_nat (k + 1)) a ++ [b]) (Some beyond)
    (PNMPlain.mkWriter [] []) =
  Some (PNMPlain.mkWriter
          (hex_piece
             (packet_colour ScaleQuantumToChar (transparent b) a ++ [k]) ++
           hex_piece
             (packet_colour ScaleQuantumToChar (transparent beyond) b ++ [0]))
          []).
Proof.
  intros Hscale Hk transparent.
  replace (Z.to_nat (k + 1)) with (S (Z.to_nat k)) by lia.
  unfold PS.runlength_row. cbn [replicate app].
  set (columns := Z.of_nat (length _)).
  assert (columns = k + 2) as Hcolumns.
  { unfold columns. cbn [length].
    rewrite length_app, length_replicate. simpl. lia. }
  cbn [PS.runlength_loop].
  change (255 <? 255) with false. rewrite andb_false_r. cbn [andb].
  change (0 >? 0) with false. cbv iota.
  rewrite runlength_loop_run by lia.
  cbn [PS.runlength_loop].
  destruct (Z.ltb_spec (0 + 1 + Z.of_nat (Z.to_nat k)) (columns - 1))
    as [?|_]; [lia|].
  rewrite andb_false_r.
  destruct (Z.gtb_spec (0 + 1 + Z.of_nat (Z.to_nat k)) 0) as [_|?]; [|lia].
  replace (0 + Z.of_nat (Z.to_nat k)) with k by lia.
  unfold PS.write_packet.
  rewrite (WriteRunlengthPacket_matte ScaleQuantumToChar QuantumRange Hscale)
    by lia.
  cbn [PS.store option_map PNMPlain.line PNMPlain.written app].
  fold (transparent b).
  pose proof (packet_colour_range ScaleQuantumToChar Hscale (transparent b) a k
                ltac:(lia)) as Hrange1.
  destruct (hex_piece_no_newline _ Hrange1) as [_ Hlen1].
  assert (length (packet_colour ScaleQuantumToChar (transparent b) a ++ [k])
          = 4%nat) as Hfour1
    by (unfold packet_colour; by destruct (transparent b)).
  rewrite Hfour1 in Hlen1.
  rewrite flush_at_short by (cbn [PNMPlain.line]; lia).
  rewrite (WriteRunlengthPacket_matte ScaleQuantumToChar QuantumRange Hscale)
    by lia.
  cbn [PS.store option_map PNMPlain.line PNMPlain.written].
  fold (transparent beyond).
  pose proof (packet_colour_range ScaleQuantumToChar Hscale
                (transparent beyond) b 0 ltac:(lia)) as Hrange2.
  destruct (hex_piece_no_newline _ Hrange2) as [_ Hlen2].
  assert (length (packet_colour ScaleQuantumToChar (transparent beyond) b
                    ++ [0]) = 4%nat) as Hfour2
    by (unfold packet_colour; by destruct (transparent beyond)).
  rewrite Hfour2 in Hlen2.
  rewrite flush_at_short
    by (cbn [PNMPlain.line]; rewrite length_app; lia).
  reflexivity.
Qed.

Lemma PS_runlength_matte_packets_witness :
  PS.runlength_row (fun q => q mod 256) 255 true
    (replicate (Z.to_nat (1 + 1)) (PNM.mkPixel 1 2 3 0) ++
       [PNM.mkPixel 7 8 9 255])
    (Some (PNM.mkPixel 0 0 0 0)) (PNMPlain.mkWriter [] []) =
  Some (PNMPlain.mkWriter
          (hex_piece [255; 255; 255; 1] ++ hex_piece [7; 8; 9; 0]) []).
Proof.
  apply (PS_runlength_matte_packets (fun q => q mod 256) 255 1
           (PNM.mkPixel 1 2 3 0) (PNM.mkPixel 7 8 9 255) (PNM.mkPixel 0 0 0 0)).
  - intros q. apply Z.mod_pos_bound. lia.
  - lia.
Defined.


(** ** coders/tiff.c: the alpha tags, written and read back *)

(** X21. The alpha tags of the TIFF coder, written and read back.  For an
    image with a matte channel the writer sets one extra sample, and the
    reader that finds these tags (and no option "tiff:alpha") sets the
    matte channel and the property "tiff:alpha" to "associated" exactly when
    the property of the written image compared equal to "associated", to
    "unassociated" otherwise; the alpha type of the reader is then
    disassociated where the writer's was associated.  For an image without
    matte channel no extra sample is written and the reader leaves the matte
    channel as it is unless it finds four samples of RGB. *)
Theorem TIFF_alpha_roundtrip (is_associated : string -> bool)
    (property : option string) (samples_per_pixel photometric : Z)
    (matte0 : bool) (writer_type reader_type : TIFF.QuantumAlphaType) :
  let associated :=
    match property with Some option => is_associated option | None => false end in
  let written :=
    TIFFIO.WriteTIFF_alpha is_associated true property samples_per_pixel
      writer_type in
  let read :=
    TIFF.alpha_setup is_associated matte0 reader_type
      (TIFFIO.signal_of_tags written None)
      (TIFFIO.tag_samples_per_pixel written) photometric in
  let plain :=
    TIFFIO.WriteTIFF_alpha is_associated false property samples_per_pixel
      writer_type in
  (TIFF.matte read = true /\
   TIFF.associated_alpha read = associated /\
   TIFF.tiff_alpha read =
     Some (if associated then "associated" else "unassociated")%string /\
   TIFF.alpha_type read =
     (if associated then TIFF.DisassociatedQuantumAlpha else reader_type) /\
   TIFFIO.tag_alpha_type written =
     (if associated then TIFF.AssociatedQuantumAlpha else writer_type)) /\
  (TIFFIO.tag_extra_samples plain = None /\
   TIFF.matte
     (TIFF.alpha_setup is_associated matte0 reader_type
        (TIFFIO.signal_of_tags plain None)
        (TIFFIO.tag_samples_per_pixel plain) photometric) =
   (if (samples_per_pixel =? 4) && (photometric =? TIFF.PHOTOMETRIC_RGB)
    then true else matte0)).
Proof.
  cbv zeta. split.
  - unfold TIFFIO.WriteTIFF_alpha, TIFFIO.signal_of_tags, TIFF.alpha_setup.
    cbn [TIFFIO.tag_extra_samples TIFFIO.tag_samples_per_pixel
         TIFFIO.tag_alpha_type TIFF.extra_samples TIFF.sample_info
         TIFF.option_tiff_alpha List.nth].
    change (1 =? 0) with false. cbv iota.
    destruct property as [option|]; [destruct (is_associated option)|];
      destruct (samples_per_pixel + 1 >? 3); cbn; by repeat split.
  - unfold TIFFIO.WriteTIFF_alpha, TIFFIO.signal_of_tags, TIFF.alpha_setup.
    cbn [TIFFIO.tag_extra_samples TIFFIO.tag_samples_per_pixel
         TIFF.extra_samples TIFF.sample_info TIFF.option_tiff_alpha].
    split; [done|]. change (0 =? 0) with true. cbv iota.
    by destruct ((samples_per_pixel =? 4) && (photometric =? TIFF.PHOTOMETRIC_RGB)).
Qed.

(** ** coders/tiff.c: the depth of a colormapped raster *)

(** X22. The depth of a colormapped TIFF raster.  For an image of at most
    2^32 colors the loop of the writer ends with a depth of 1, 2, 4, 8, 16
    or 32 bits; [GetQuantumRange(depth)+1], the number of colormap entries
    the reader acquires for that depth, is at least the number of colors,
    and half the depth would not be enough. *)
Theorem palette_depth_is_least (colors : Z) :
  0 <= colors <= 2 ^ 32 ->
  let depth := TIFFIO.palette_depth colors in
  In depth [1; 2; 4; 8; 16; 32] /\
  colors <= Quantum.GetQuantumRange depth + 1 /\
  (depth = 1 \/ Quantum.GetQuantumRange (depth / 2) + 1 < colors).
Proof.
  intros Hcolors. cbv zeta.
  unfold TIFFIO.palette_depth, TIFFIO.palette_depth_loop.
  change (Quantum.to_ulong (Quantum.GetQuantumRange 1 + 1)) with 2.
  change (Quantum.to_ulong (Z.shiftl 1 1)) with 2.
  change (Quantum.to_ulong (Quantum.GetQuantumRange 2 + 1)) with 4.
  change (Quantum.to_ulong (Z.shiftl 2 1)) with 4.
  change (Quantum.to_ulong (Quantum.GetQuantumRange 4 + 1)) with 16.
  change (Quantum.to_ulong (Z.shiftl 4 1)) with 8.
  change (Quantum.to_ulong (Quantum.GetQuantumRange 8 + 1)) with 256.
  change (Quantum.to_ulong (Z.shiftl 8 1)) with 16.
  change (Quantum.to_ulong (Quantum.GetQuantumRange 16 + 1)) with 65536.
  change (Quantum.to_ulong (Z.shiftl 16 1)) with 32.
  change (Quantum.to_ulong (Quantum.GetQuantumRange 32 + 1)) with 4294967296.
  change (2 ^ 32) with 4294967296 in Hcolors.
  destruct (Z.ltb_spec 2 colors);
    [|change (Quantum.GetQuantumRange 1 + 1) with 2;
      split; [cbn; tauto|split; [lia|by left]]].
  destruct (Z.ltb_spec 4 colors);
    [|change (Quantum.GetQuantumRange 2 + 1) with 4;
      change (Quantum.GetQuantumRange (2 / 2) + 1) with 2;
      split; [cbn; tauto|split; [lia|right; lia]]].
  destruct (Z.ltb_spec 16 colors);
    [|change (Quantum.GetQuantumRange 4 + 1) with 16;
      change (Quantum.GetQuantumRange (4 / 2) + 1) with 4;
      split; [cbn; tauto|split; [lia|right; lia]]].
  destruct (Z.ltb_spec 256 colors);
    [|change (Quantum.GetQuantumRange 8 + 1) with 256;
      change (Quantum.GetQuantumRange (8 / 2) + 1) with 16;
      split; [cbn; tauto|split; [lia|right; lia]]].
  destruct (Z.ltb_spec 65536 colors);
    [|change (Quantum.GetQuantumRange 16 + 1) with 65536;
      change (Quantum.GetQuantumRange (16 / 2) + 1) with 256;
      split; [cbn; tauto|split; [lia|right; lia]]].
  destruct (Z.ltb_spec 4294967296 colors); [lia|].
  change (Quantum.GetQuantumRange 32 + 1) with 4294967296.
  change (Quantum.GetQuantumRange (32 / 2) + 1) with 65536.
  split; [cbn; tauto|split; [lia|right; lia]].
Qed.

Lemma palette_depth_is_least_witness :
  let depth := TIFFIO.palette_depth 17 in
  In depth [1; 2; 4; 8; 16; 32] /\
  17 <= Quantum.GetQuantumRange depth + 1 /\
  (depth = 1 \/ Quantum.GetQuantumRange (depth / 2) + 1 < 17).
Proof. apply (palette_depth_is_least 17). lia. Defined.

(** ** coders/tiff.c: the read method *)

(** X23. The read method of the TIFF reader.  The tests of [ReadTIFFImage]
    overwrite one another, so the last one that holds decides: a tiled file
    is read by tiles; otherwise a PseudoClass or gray (min-is-black or
    min-is-white) image sample by sample; otherwise every photometric
    interpretation but RGB, CIELAB and separated by the generic method;
    otherwise two or more samples per pixel by the CMYKA method when the
    planes are separate and by the RGBA method when they are contiguous; the
    strip method is left for the rest when ROWSPERSTRIP is set. *)
Theorem read_method_priority (rows_per_strip : bool)
    (samples_per_pixel interlace photometric : Z)
    (pseudo_class tiled : bool) :
  TIFFIO.read_method rows_per_strip samples_per_pixel interlace photometric
    pseudo_class tiled =
  method_by_priority rows_per_strip samples_per_pixel interlace photometric
    pseudo_class tiled.
Proof.
  unfold TIFFIO.read_method, method_by_priority,
    TIFFIO.PLANARCONFIG_CONTIG, TIFFIO.PLANARCONFIG_SEPARATE,
    TIFF.PHOTOMETRIC_RGB, TIFFIO.PHOTOMETRIC_CIELAB,
    TIFFIO.PHOTOMETRIC_SEPARATED, TIFFIO.PHOTOMETRIC_MINISBLACK,
    TIFFIO.PHOTOMETRIC_MINISWHITE.
  destruct tiled; [reflexivity|].
  destruct (Z.eqb_spec photometric 1) as [->|H1];
    [by destruct pseudo_class|].
  destruct (Z.eqb_spec photometric 0) as [->|H0];
    [by destruct pseudo_class|].
  destruct pseudo_class; [reflexivity|]. cbn [orb].
  destruct (Z.eqb_spec photometric 2) as [->|H2];
    [|destruct (Z.eqb_spec photometric 8) as [->|H8];
      [|destruct (Z.eqb_spec photometric 5) as [->|H5]]];
    cbn [negb andb orb]; try reflexivity;
    destruct (samples_per_pixel >=? 2); cbn [andb];
    destruct (Z.eqb_spec interlace 2) as [->|?]; try reflexivity;
    destruct (Z.eqb_spec interlace 1) as [->|?]; try reflexivity.
Qed.


(** ** coders/tiff.c: the tiles of [TIFFWritePixels] *)

Section Tiles.
Import Quantum TIFFIO.

Lemma to_ulong_small (x : Z) : 0 <= x < 2 ^ 64 -> to_ulong x = x.
Proof. intros Hx. unfold to_ulong. by rewrite Z.mod_small. Qed.

Lemma to_uint32_small (x : Z) : 0 <= x < 2 ^ 32 -> to_uint32 x = x.
Proof. intros Hx. unfold to_uint32. by rewrite Z.mod_small. Qed.

Lemma number_tiles_value (columns width : Z) :
  0 < width -> 0 <= columns -> columns + width < 2 ^ 32 ->
  number_tiles columns width = columns / width + 1.
Proof.
  intros Hw Hc Hsum. unfold number_tiles.
  rewrite to_ulong_small by lia.
  replace (columns + width) with (columns + 1 * width) by lia.
  by rewrite Z.div_add by lia.
Qed.

End Tiles.

(** X24. The tiles of a row of tiles.  [TIFFWritePixels] writes
    [columns/width + 1] tiles: the first [columns/width] have the full
    width, and the last one starts at column [(columns/width)*width] with
    the [columns mod width] columns that are left.  When the width of the
    tiles divides the number of columns, that last tile starts at column
    [columns], outside the image, and has no column. *)
Theorem tile_columns_layout (columns width : Z) :
  0 < width -> 0 <= columns -> columns + width < 2 ^ 32 ->
  TIFFIO.tile_columns columns width =
    map (fun i : nat => (Z.of_nat i * width, width))
      (seq 0 (Z.to_nat (columns / width))) ++
    [(columns / width * width, columns mod width)] /\
  (columns mod width = 0 ->
   last (TIFFIO.tile_columns columns width) = Some (columns, 0)).
Proof.
  intros Hw Hc Hsum.
  pose proof (Z.div_pos columns width Hc Hw) as Hdiv.
  pose proof (Z.div_mod columns width ltac:(lia)) as Hdm.
  pose proof (Z.mod_pos_bound columns width Hw) as Hmod.
  assert (columns / width * width <= columns) as Hle by lia.
  assert (TIFFIO.tile_columns columns width =
          map (fun i : nat => (Z.of_nat i * width, width))
            (seq 0 (Z.to_nat (columns / width))) ++
          [(columns / width * width, columns mod width)]) as Hlayout.
  { unfold TIFFIO.tile_columns.
    rewrite number_tiles_value by done.
    rewrite to_long_small by lia.
    replace (Z.to_nat (columns / width + 1))
      with (S (Z.to_nat (columns / width))) by lia.
    rewrite seq_S, map_app. cbn [map Nat.add]. f_equal.
    - apply map_ext_in. intros i Hi. apply in_seq in Hi.
      assert (Z.of_nat i * width < columns / width * width) by nia.
      unfold TIFFIO.tile_width.
      rewrite number_tiles_value by done.
      rewrite to_long_small by lia.
      destruct (Z.eqb_spec (Z.of_nat i) (columns / width + 1 - 1)); [lia|].
      rewrite to_ulong_small, to_uint32_small by lia. reflexivity.
    - rewrite Z2Nat.id by lia.
      unfold TIFFIO.tile_width.
      rewrite number_tiles_value by done.
      rewrite to_long_small by lia.
      destruct (Z.eqb_spec (columns / width) (columns / width + 1 - 1));
        [|lia].
      rewrite !to_ulong_small, to_uint32_small by lia.
      do 2 f_equal. lia. }
  split; [done|].
  intros Hzero. rewrite Hlayout, last_snoc. do 2 f_equal; lia.
Qed.

Lemma tile_columns_layout_witness :
  TIFFIO.tile_columns 512 256 = [(0, 256); (256, 256); (512, 0)] /\
  (512 mod 256 = 0 ->
   last (TIFFIO.tile_columns 512 256) = Some (512, 0)).
Proof. apply (tile_columns_layout 512 256); lia. Defined.

Section TileRowsProof.
Import Quantum TIFFIO.

Context {A : Type}.
Variable TIFFWriteTile : Z -> Z -> Z.
Variable delivers : Z -> bool.
Variable progress_monitor : option (Z -> bool).
Variable columns width rows height : Z.
Variable image : list A.
Hypothesis height_range : 0 < height < 2 ^ 32.
Hypothesis rows_image : rows = Z.of_nat (length image).
Hypothesis rows_range : rows < 2 ^ 32.

Local Abbreviation succeed :=
  (tile_writes_succeed TIFFWriteTile delivers progress_monitor).
Local Abbreviation layout := (map fst (tile_columns columns width)).

(** The calls of [TIFFWriteTile] for a band follow the layout, as far as
    they go; they are all made when no status is negative, and the status
    returned is -1 only when a call returned it. *)
Lemma write_tiles_prefix (y : Z) (tiles : list (Z * Z)) (status : Z) :
  (write_tiles TIFFWriteTile y tiles status).1 `prefix_of` map fst tiles /\
  ((forall x, 0 <= TIFFWriteTile x y) -> 0 <= status ->
   (write_tiles TIFFWriteTile y tiles status).1 = map fst tiles /\
   0 <= (write_tiles TIFFWriteTile y tiles status).2).
Proof.
  revert status. induction tiles as [|[x w] tiles IH]; intros status.
  - cbn. split; [done|]. intros _ Hs. done.
  - cbn [write_tiles map fst].
    destruct (Z.ltb_spec (TIFFWriteTile x y) 0) as [Hneg|Hok].
    + cbn [fst snd]. split.
      * apply prefix_cons, prefix_nil.
      * intros Hall _. specialize (Hall x). lia.
    + destruct (IH (TIFFWriteTile x y)) as [Hpre Hfull].
      destruct (write_tiles TIFFWriteTile y tiles (TIFFWriteTile x y))
        as [written status'].
      cbn [fst snd] in *. split.
      * by apply prefix_cons.
      * intros Hall _. destruct (Hfull Hall Hok) as [-> Hs]. done.
Qed.

Local Abbreviation loop :=
  (write_tile_rows TIFFWriteTile delivers progress_monitor columns width rows
     height).

Lemma write_tile_rows_invariant (rest : list A) :
  forall (done scanlines : list A),
  done ++ rest = image ->
  length scanlines = Z.to_nat height ->
  let row := Z.of_nat (length done) in
  let slot := row mod height in
  take (Z.to_nat slot) scanlines = drop (Z.to_nat (row - slot)) done ->
  rest <> [] \/ slot = 0 ->
  let written := loop row rest scanlines in
  Forall (band_of_image height image) written /\
  Forall (fun band => band_columns band `prefix_of` layout) written /\
  concat (map band_rows written) `prefix_of`
    (drop (Z.to_nat (row - slot)) done ++ rest) /\
  (succeed ->
   concat (map band_rows written) = drop (Z.to_nat (row - slot)) done ++ rest /\
   Forall (fun band => band_columns band = layout) written).
Proof.
  induction rest as [|scanline rest IH];
    intros done scanlines Himage Hlen row slot Hbuffer Hstate written.
  - destruct Hstate as [?|Hslot]; [done|]. subst written. cbn.
    split; [constructor|]. split; [constructor|]. split; [apply prefix_nil|].
    intros _. split; [|constructor].
    rewrite Hslot, Z.sub_0_r, app_nil_r.
    subst row. by rewrite Nat2Z.id, drop_all.
  - assert (0 <= row < rows - 0) as Hrow.
    { subst row. rewrite rows_image, <- Himage, length_app. simpl. lia. }
    pose proof (Z.mod_pos_bound row height ltac:(lia)) as Hslot.
    pose proof (Z.div_mod row height ltac:(lia)) as Hdm.
    pose proof (Z.div_pos row height ltac:(lia) ltac:(lia)) as Hdiv.
    fold slot in Hslot, Hdm.
    assert (rows = row + 1 + Z.of_nat (length rest)) as Hrows.
    { subst row. rewrite rows_image, <- Himage, length_app. simpl. lia. }
    assert (take (S (Z.to_nat slot)) (<[Z.to_nat slot := scanline]> scanlines)
            = drop (Z.to_nat (row - slot)) done ++ [scanline]) as Htake.
    { rewrite (take_S_r _ _ scanline)
        by (apply list_lookup_insert_eq; lia).
      by rewrite take_insert_ge, Hbuffer by lia. }
    assert (drop (Z.to_nat (row - slot)) (done ++ [scanline]) =
            drop (Z.to_nat (row - slot)) done ++ [scanline]) as Hdrop.
    { apply drop_app_le. subst row. lia. }
    assert (Z.of_nat (length (done ++ [scanline])) = row + 1) as Hnext
      by (rewrite length_app; subst row; simpl; lia).
    set (pending := drop (Z.to_nat (row - slot)) done) in *.
    (* what is left to show when the loop ends at this row *)
    assert (forall here : list (TileBand A),
              Forall (band_of_image height image) here ->
              Forall (fun band => band_columns band `prefix_of` layout) here ->
              concat (map band_rows here) `prefix_of`
                (pending ++ scanline :: rest) ->
              ~ succeed ->
              Forall (band_of_image height image) here /\
              Forall (fun band => band_columns band `prefix_of` layout) here /\
              concat (map band_rows here) `prefix_of`
                (pending ++ scanline :: rest) /\
              (succeed ->
               concat (map band_rows here) = pending ++ scanline :: rest /\
               Forall (fun band => band_columns band = layout) here))
      as Hstop by (intros; done).
    subst written. cbn [write_tile_rows].
    destruct (delivers row) eqn:Hdelivers; cbn [negb].
    2:{ apply Hstop; [constructor|constructor|apply prefix_nil|].
        intros (_ & Hd & _). specialize (Hd row). congruence. }
    unfold TIFFWritePixels.
    rewrite (to_ulong_small row) by lia. fold slot.
    rewrite (to_ulong_small (height - 1)) by lia.
    rewrite (to_long_small (rows - 1)) by lia.
    rewrite (to_long_small (slot + 1)) by lia.
    replace (Z.to_nat (slot + 1)) with (S (Z.to_nat slot)) by lia.
    rewrite Htake.
    replace (row / height * height) with (row - slot) by lia.
    rewrite (to_ulong_small (row - slot)), (to_uint32_small (row - slot))
      by lia.
    (* the answer of the progress monitor at this row *)
    set (proceed := match progress_monitor with
                    | Some proceed => proceed row
                    | None => true
                    end).
    assert (succeed -> proceed = true) as Hproceed.
    { intros (_ & _ & Hp). subst proceed.
      destruct progress_monitor; [apply Hp|done]. }
    destruct (Z.eqb_spec slot (height - 1)) as [Hlast|Hinner];
      [|destruct (Z.eqb_spec row (rows - 1)) as [Hend|Hmore]];
      cbn [negb andb].
    3:{ (* a row inside a band: nothing is written *)
        change (0 =? -1) with false. cbv iota.
        destruct proceed eqn:Hp; cbn [negb].
        2:{ apply Hstop; [constructor|constructor|apply prefix_nil|].
            intros Hs. specialize (Hproceed Hs). congruence. }
        cbn [app].
        assert ((row + 1) mod height = slot + 1) as Hmod.
        { symmetry. apply (Z.mod_unique_pos _ _ (row / height)); lia. }
        destruct (IH (done ++ [scanline])
                    (<[Z.to_nat slot := scanline]> scanlines))
          as (Hall & Hcols & Hpre & Hfull).
        - by rewrite <- app_assoc.
        - by rewrite length_insert.
        - rewrite Hnext, Hmod.
          replace (Z.to_nat (slot + 1)) with (S (Z.to_nat slot)) by lia.
          replace (row + 1 - (slot + 1)) with (row - slot) by lia.
          by rewrite Htake, Hdrop.
        - left. destruct rest; [simpl in Hrows; lia|done].
        - rewrite Hnext, Hmod in Hpre, Hfull.
          replace (row + 1 - (slot + 1)) with (row - slot) in Hpre, Hfull
            by lia.
          rewrite Hdrop, <- app_assoc in Hpre, Hfull.
          rewrite Hnext in Hall, Hcols. done. }
    all: (* the tiles of a band are written *)
      pose proof (write_tiles_prefix (row - slot) (tile_columns columns width) 0)
        as [Hlayout Hlayout_full];
      destruct (write_tiles TIFFWriteTile (row - slot)
                  (tile_columns columns width) 0) as [cols status] eqn:Hw;
      cbn [fst snd] in Hlayout, Hlayout_full;
      set (band := mkBand (row - slot) (pending ++ [scanline]) cols);
      assert (band_of_image height image band) as Hband
        by (unfold band_of_image, band; cbn [band_rows band_origin];
            split; [by destruct pending|]; split; [|split];
            [ rewrite length_app; subst pending; rewrite length_drop;
              subst row; simpl; lia
            | replace (row - slot) with (height * (row / height)) by lia;
              by rewrite Z.mul_comm, Z.mod_mul by lia
            | rewrite <- Himage; subst pending;
              rewrite drop_app_le by (subst row; lia);
              replace (scanline :: rest) with ([scanline] ++ rest) by done;
              rewrite app_assoc; by rewrite take_app_length ]);
      assert (concat (map band_rows [band]) `prefix_of`
                (pending ++ scanline :: rest)) as Hhere
        by (cbn [map concat band_rows band]; rewrite app_nil_r;
            replace (scanline :: rest) with ([scanline] ++ rest) by done;
            rewrite app_assoc; by apply prefix_app_r);
      assert (succeed -> cols = layout /\ 0 <= status) as Hcols
        by (intros (Hok & _); apply Hlayout_full; [intros x; apply Hok|lia]).
    + (* the last slot: the buffer starts anew *)
      destruct (Z.eqb_spec status (-1)) as [Hfail|_].
      { apply Hstop; [by constructor|by constructor|done|].
        intros Hs. destruct (Hcols Hs). lia. }
      destruct proceed eqn:Hp; cbn [negb].
      2:{ apply Hstop; [by constructor|by constructor|done|].
          intros Hs. specialize (Hproceed Hs). congruence. }
      assert ((row + 1) mod height = 0) as Hzero.
      { replace (row + 1) with (height * (row / height + 1)) by lia.
        by rewrite Z.mul_comm, Z.mod_mul by lia. }
      destruct (IH (done ++ [scanline])
                  (<[Z.to_nat slot := scanline]> scanlines))
        as (Hall & Hcs & Hpre & Hfull).
      * by rewrite <- app_assoc.
      * by rewrite length_insert.
      * rewrite Hnext, Hzero. cbn [Z.to_nat take]. rewrite Z.sub_0_r.
        replace (Z.to_nat (row + 1)) with (length (done ++ [scanline]))
          by lia.
        by rewrite drop_all.
      * right. by rewrite Hnext.
      * rewrite Hnext in Hall, Hcs, Hpre, Hfull.
        rewrite Hzero, Z.sub_0_r in Hpre, Hfull.
        replace (Z.to_nat (row + 1)) with (length (done ++ [scanline]))
          in Hpre, Hfull by lia.
        rewrite drop_all in Hpre, Hfull. cbn [app] in Hpre, Hfull.
        split; [by constructor|]. split; [by constructor|].
        assert (forall l, concat (map band_rows ([band] ++ l)) =
                          pending ++ [scanline] ++ concat (map band_rows l))
          as Hcat by (intros l; cbn [app map concat band_rows band];
                      by rewrite <- app_assoc).
        rewrite Hcat. split.
        -- apply prefix_app. by apply prefix_cons.
        -- intros Hs. destruct (Hfull Hs) as [-> Hlay]. split; [done|].
           constructor; [|done]. cbn [band_columns band].
           by destruct (Hcols Hs).
    + (* the last row of the image *)
      assert (rest = []) as -> by (destruct rest; [done|simpl in Hrows; lia]).
      assert (Forall (band_of_image height image) [band] /\
              Forall (fun band => band_columns band `prefix_of` layout) [band] /\
              concat (map band_rows [band]) `prefix_of` (pending ++ [scanline]) /\
              (succeed ->
               concat (map band_rows [band]) = pending ++ [scanline] /\
               Forall (fun band => band_columns band = layout) [band]))
        as Hone.
      { split; [by constructor|]. split; [by constructor|]. split; [done|].
        intros Hs. split.
        - cbn [map concat band_rows band]. by rewrite app_nil_r.
        - constructor; [|done]. cbn [band_columns band].
          by destruct (Hcols Hs). }
      destruct (status =? -1); [exact Hone|].
      destruct (negb proceed); [exact Hone|].
      cbn [write_tile_rows]. rewrite app_nil_r. exact Hone.
Qed.

End TileRowsProof.

(** X25. The rows of a tiled TIFF file.  [TIFFWritePixels] keeps the
    scanlines in a buffer of [height] slots and writes the tiles when the
    last slot is filled or the last row of the image has come.  Whatever
    libtiff, the pixel cache and the progress monitor answer, every band of
    tiles that is written holds the rows of the image from its row origin
    on, at most [height] of them, the origin is a multiple of [height], the
    calls of [TIFFWriteTile] for it follow the layout of the tiles as far as
    they go, and the bands together are the first rows of the image in their
    order: no scanline is repeated or written to another row.  When nothing
    ends the loops before their time (libtiff returns no negative status,
    the cache delivers every row and the monitor lets the writer proceed),
    the bands are all the rows of the image and every tile of the layout is
    written for every band. *)
Theorem tile_rows_cover_image {A : Type} (TIFFWriteTile : Z -> Z -> Z)
    (delivers : Z -> bool) (progress_monitor : option (Z -> bool))
    (columns width height : Z) (image scanlines : list A) :
  0 < height < 2 ^ 32 -> Z.of_nat (length image) < 2 ^ 32 ->
  length scanlines = Z.to_nat height ->
  let written :=
    TIFFIO.write_tile_rows TIFFWriteTile delivers progress_monitor columns width
      (Z.of_nat (length image)) height 0 image scanlines in
  let layout := map fst (TIFFIO.tile_columns columns width) in
  Forall (band_of_image height image) written /\
  Forall (fun band => TIFFIO.band_columns band `prefix_of` layout) written /\
  concat (map TIFFIO.band_rows written) `prefix_of` image /\
  (tile_writes_succeed TIFFWriteTile delivers progress_monitor ->
   concat (map TIFFIO.band_rows written) = image /\
   Forall (fun band => TIFFIO.band_columns band = layout) written).
Proof.
  intros Hheight Hrows Hlen.
  exact (write_tile_rows_invariant TIFFWriteTile delivers progress_monitor
           columns width (Z.of_nat (length image)) height image
           Hheight eq_refl Hrows image [] scanlines eq_refl Hlen
           eq_refl (or_intror eq_refl)).
Qed.

Lemma tile_rows_cover_image_witness :
  let written :=
    TIFFIO.write_tile_rows (fun _ _ => 0) (fun _ => true) None 5 2
      (Z.of_nat (length [10; 11; 12; 13; 14])) 2 0
      [10; 11; 12; 13; 14] [0; 0] in
  tile_writes_succeed (fun _ _ => 0) (fun _ => true) None /\
  concat (map TIFFIO.band_rows written) = [10; 11; 12; 13; 14] /\
  Forall (fun band => TIFFIO.band_columns band =
                      map fst (TIFFIO.tile_columns 5 2)) written.
Proof.
  assert (tile_writes_succeed (fun _ _ => 0) (fun _ => true) None) as Hs
    by (split; [intros; lia|split; [done|exact I]]).
  split; [exact Hs|].
  apply (tile_rows_cover_image (fun _ _ => 0) (fun _ => true) None 5 2 2
           [10; 11; 12; 13; 14] [0; 0]).
  - lia.
  - simpl. lia.
  - reflexivity.
  - exact Hs.
Defined.


(** ** coders/pnm.c: the alpha channel of a PAM image *)

Section PAMAlpha.
Import Quantum PNM PAM.

Variable QuantumRange depth : Z.
Hypothesis QuantumRange_pos : 0 < QuantumRange.
Hypothesis depth_range : 1 <= depth <= 16.

Lemma GetQuantumRange_pos : 0 < GetQuantumRange depth.
Proof.
  unfold GetQuantumRange.
  pose proof (Z.pow_le_mono_r 2 1 depth ltac:(lia) ltac:(lia)). lia.
Qed.

Lemma write_rgb_pixel_matte_app (p : PixelPacket) (q : list Z) :
  write_rgb_pixel QuantumRange depth true p q =
  q ++ (pop_sample depth
          (ScaleQuantumToAny QuantumRange (red p) (GetQuantumRange depth)) [] ++
        pop_sample depth
          (ScaleQuantumToAny QuantumRange (green p) (GetQuantumRange depth)) [] ++
        pop_sample depth
          (ScaleQuantumToAny QuantumRange (blue p) (GetQuantumRange depth)) [] ++
        pop_sample depth
          (ScaleQuantumToAny QuantumRange
             (to_Quantum QuantumRange (QuantumRange - opacity p))
             (GetQuantumRange depth)) []).
Proof.
  unfold write_rgb_pixel.
  rewrite (pop_sample_app depth _ (pop_sample _ _ _)).
  rewrite (pop_sample_app depth _ (pop_sample _ _ _)).
  rewrite (pop_sample_app depth _ (pop_sample _ _ _)).
  rewrite (pop_sample_app depth _ q).
  by rewrite <- !app_assoc.
Qed.

Lemma write_rgb_pixel_matte_append (p : PixelPacket) (q : list Z) :
  write_rgb_pixel QuantumRange depth true p q =
  q ++ write_rgb_pixel QuantumRange depth true p [].
Proof.
  rewrite (write_rgb_pixel_matte_app p q), (write_rgb_pixel_matte_app p []).
  reflexivity.
Qed.

(** The two ends of the scale survive the rescale. *)
Lemma rescale_ends :
  ScaleAnyToQuantum QuantumRange
    (ScaleQuantumToAny QuantumRange QuantumRange (GetQuantumRange depth))
    (GetQuantumRange depth) = QuantumRange /\
  ScaleAnyToQuantum QuantumRange
    (ScaleQuantumToAny QuantumRange 0 (GetQuantumRange depth))
    (GetQuantumRange depth) = 0.
Proof.
  pose proof GetQuantumRange_pos as Hrange.
  unfold ScaleAnyToQuantum, ScaleQuantumToAny. split.
  - rewrite (Z.mul_comm (GetQuantumRange depth) QuantumRange).
    rewrite round_half_up_div_same by done.
    rewrite (Z.mul_comm QuantumRange (GetQuantumRange depth)).
    rewrite round_half_up_div_same by done.
    apply to_Quantum_small. lia.
  - rewrite Z.mul_0_r.
    replace (round_half_up_div 0 QuantumRange) with 0.
    + rewrite Z.mul_0_r.
      replace (round_half_up_div 0 (GetQuantumRange depth)) with 0.
      * apply to_Quantum_small. lia.
      * unfold round_half_up_div. rewrite Z.div_small; lia.
    + unfold round_half_up_div. rewrite Z.div_small; lia.
Qed.

End PAMAlpha.

(** X26. The alpha channel of a PAM image at depths other than 8 and 16.
    The writer of case '7' stores, for an RGB image with matte channel,
    [QuantumRange - opacity] as the fourth sample; the loop of the reader
    stores the fourth sample, rescaled, as the opacity itself.  Written and
    read back, the colours of a row come back within the rounding error of
    the rescale, and the opacity comes back as the rescaled complement: an
    opaque pixel (opacity 0) is read as fully transparent
    ([QuantumRange]) and a fully transparent one as opaque. *)
Theorem PAM_alpha_is_read_as_opacity (QuantumRange depth : Z)
    (row queue : list PNM.PixelPacket) (rest : list Z) :
  0 < QuantumRange -> 1 <= depth <= 16 -> depth <> 8 /\ depth <> 16 ->
  Forall (fun p => canonical_pixel QuantumRange p /\
                   0 <= PNM.opacity p <= QuantumRange) row ->
  length queue = length row ->
  let range := Quantum.GetQuantumRange depth in
  let row' :=
    PAM.import_rgb_alpha QuantumRange depth true
      (PNM.write_row (PNM.write_rgb_pixel QuantumRange depth true) row ++ rest)
      queue in
  Forall2 (fun p p' =>
             channels_close QuantumRange range p p' /\
             PNM.opacity p' =
               Quantum.ScaleAnyToQuantum QuantumRange
                 (Quantum.ScaleQuantumToAny QuantumRange
                    (QuantumRange - PNM.opacity p) range) range /\
             (PNM.opacity p = 0 -> PNM.opacity p' = QuantumRange) /\
             (PNM.opacity p = QuantumRange -> PNM.opacity p' = 0))
    row row'.
Proof.
  intros HQ Hd _ Hrow. cbv zeta. revert queue rest.
  pose proof (GetQuantumRange_pos depth Hd) as Hrange.
  induction Hrow as [|p row [(Hr & Hg & Hb) Ho] Hrow IH];
    intros [|q0 queue] rest Hlen; try discriminate.
  - constructor.
  - pose proof (ScaleQuantumToAny_range QuantumRange
                  (Quantum.GetQuantumRange depth) (PNM.red p) HQ ltac:(lia) Hr)
      as Hsr.
    pose proof (ScaleQuantumToAny_range QuantumRange
                  (Quantum.GetQuantumRange depth) (PNM.green p) HQ ltac:(lia)
                  Hg) as Hsg.
    pose proof (ScaleQuantumToAny_range QuantumRange
                  (Quantum.GetQuantumRange depth) (PNM.blue p) HQ ltac:(lia)
                  Hb) as Hsb.
    pose proof (ScaleQuantumToAny_range QuantumRange
                  (Quantum.GetQuantumRange depth)
                  (QuantumRange - PNM.opacity p) HQ ltac:(lia) ltac:(lia))
      as Hso.
    rewrite write_row_cons
      by (intros; apply write_rgb_pixel_matte_append).
    rewrite write_rgb_pixel_matte_app.
    rewrite (to_Quantum_small QuantumRange (QuantumRange - PNM.opacity p))
      by lia.
    cbn [app PAM.import_rgb_alpha]. rewrite <- !app_assoc.
    rewrite push_pop_sample by done.
    rewrite push_pop_sample by done.
    rewrite push_pop_sample by done.
    rewrite push_pop_sample by done.
    destruct (rescale_roundtrip QuantumRange (Quantum.GetQuantumRange depth)
                (PNM.red p) HQ Hrange Hr) as [Hr1 _].
    destruct (rescale_roundtrip QuantumRange (Quantum.GetQuantumRange depth)
                (PNM.green p) HQ Hrange Hg) as [Hg1 _].
    destruct (rescale_roundtrip QuantumRange (Quantum.GetQuantumRange depth)
                (PNM.blue p) HQ Hrange Hb) as [Hb1 _].
    destruct (rescale_ends QuantumRange depth HQ Hd) as [Hfull Hzero].
    constructor; [|by apply IH; simpl in Hlen; lia].
    cbn [PNM.red PNM.green PNM.blue PNM.opacity].
    split; [by unfold channels_close|]. split; [done|]. split.
    + intros ->. by rewrite Z.sub_0_r.
    + intros ->. by rewrite Z.sub_diag.
Qed.

Lemma PAM_alpha_is_read_as_opacity_witness :
  Forall2 (fun p p' =>
             channels_close 255 (Quantum.GetQuantumRange 4) p p' /\
             PNM.opacity p' =
               Quantum.ScaleAnyToQuantum 255
                 (Quantum.ScaleQuantumToAny 255 (255 - PNM.opacity p)
                    (Quantum.GetQuantumRange 4))
                 (Quantum.GetQuantumRange 4) /\
             (PNM.opacity p = 0 -> PNM.opacity p' = 255) /\
             (PNM.opacity p = 255 -> PNM.opacity p' = 0))
    [PNM.mkPixel 255 0 17 0]
    (PAM.import_rgb_alpha 255 4 true
       (PNM.write_row (PNM.write_rgb_pixel 255 4 true)
          [PNM.mkPixel 255 0 17 0] ++ [])
       [PNM.mkPixel 0 0 0 0]).
Proof.
  apply (PAM_alpha_is_read_as_opacity 255 4 [PNM.mkPixel 255 0 17 0]
           [PNM.mkPixel 0 0 0 0] []).
  - lia.
  - lia.
  - split; discriminate.
  - repeat constructor; simpl; lia.
  - reflexivity.
Defined.


(** ** coders/pnm.c: the PAM header, written and read back *)

Section PAMHeaderProof.
Import Quantum PNM PNMHeader PNMFile PAMHeader.

Lemma isalnum_char (c : Z) :
  isalnum c = true ->
  to_uchar c = c /\ isspace (to_uchar c) = false /\ c <> -1.
Proof.
  unfold isalnum, isdigit. intros Hc.
  assert (48 <= c <= 122) as Hrange.
  { rewrite !orb_true_iff, !andb_true_iff, !Z.leb_le in Hc. lia. }
  assert (to_uchar c = c) as Hid
    by (unfold to_uchar; apply Z.mod_small; lia).
  rewrite Hid. split; [done|]. split; [|lia].
  unfold isspace.
  destruct (Z.eqb_spec c 32); [lia|].
  destruct (Z.leb_spec 9 c), (Z.leb_spec c 13); try reflexivity; lia.
Qed.

Lemma skip_space_stop (c : Z) (blob : list Z) :
  isspace (to_uchar c) = false -> skip_space c blob = (c, blob).
Proof. intros Hc. destruct blob; cbn; by rewrite Hc. Qed.

Lemma store_char_short (p : list Z) (c : Z) :
  Z.of_nat (length p) < 4095 -> isalnum c || (c =? 95) = true ->
  store_char p c = p ++ [c].
Proof.
  intros Hp Hc. unfold store_char, MaxTextExtent.
  destruct (Z.ltb_spec (Z.of_nat (length p)) (4096 - 1)); [|lia].
  f_equal. f_equal. apply orb_true_iff in Hc as [Hc|Hc].
  - by apply isalnum_char.
  - apply Z.eqb_eq in Hc as ->. reflexivity.
Qed.

Lemma read_keyword_run (ks : list Z) :
  forall (k0 : Z) (p : list Z) (t : Z) (rest : list Z),
  isalnum k0 = true -> forallb isalnum ks = true -> isalnum t = false ->
  Z.of_nat (length p + length ks) < 4095 ->
  read_keyword k0 p (ks ++ t :: rest) = (p ++ k0 :: ks, t, rest).
Proof.
  induction ks as [|k ks IH]; intros k0 p t rest Hk0 Hks Ht Hlen.
  - cbn [app read_keyword]. rewrite Ht.
    rewrite store_char_short by (lia || by rewrite Hk0). reflexivity.
  - cbn [forallb] in Hks. apply andb_true_iff in Hks as [Hk Hks].
    cbn [app read_keyword]. rewrite Hk.
    rewrite store_char_short by (lia || by rewrite Hk0).
    rewrite IH; try done.
    + by rewrite <- app_assoc.
    + rewrite length_app. simpl in *. lia.
Qed.

Lemma read_value_run (vs : list Z) :
  forall (v0 : Z) (p : list Z) (t : Z) (rest : list Z),
  isalnum v0 || (v0 =? 95) = true ->
  forallb (fun c => isalnum c || (c =? 95)) vs = true ->
  isalnum t || (t =? 95) = false ->
  Z.of_nat (length p + length vs) < 4095 ->
  read_value v0 p (vs ++ t :: rest) = (p ++ v0 :: vs, t, rest).
Proof.
  induction vs as [|v vs IH]; intros v0 p t rest Hv0 Hvs Ht Hlen.
  - cbn [app read_value]. rewrite Hv0.
    rewrite store_char_short by (lia || done).
    destruct rest; cbn [read_value]; by rewrite Ht.
  - cbn [forallb] in Hvs. apply andb_true_iff in Hvs as [Hv Hvs].
    cbn [app read_value]. rewrite Hv0.
    rewrite store_char_short by (lia || done).
    rewrite IH; try done.
    + by rewrite <- app_assoc.
    + rewrite length_app. simpl in *. lia.
Qed.

(** One line of the header: a keyword, a space, a value and a newline. *)
Lemma PAM_header_line (LocaleCompare : list Z -> list Z -> bool)
    (k0 : Z) (ks : list Z) (v0 : Z) (vs : list Z) (next : Z) (rest : list Z)
    (st : PAMState) (fuel : nat) :
  forallb isalnum (k0 :: ks) = true ->
  forallb (fun c => isalnum c || (c =? 95)) (v0 :: vs) = true ->
  isspace (to_uchar v0) = false ->
  Z.of_nat (length ks) < 4095 -> Z.of_nat (length vs) < 4095 ->
  LocaleCompare (k0 :: ks) (string_bytes "endhdr") = false ->
  PAM_header_loop LocaleCompare (S fuel) k0
    (ks ++ 32 :: (v0 :: vs) ++ 10 :: next :: rest) st =
  PAM_header_loop LocaleCompare fuel next rest
    (assign LocaleCompare (k0 :: ks) (v0 :: vs) st).
Proof.
  intros Hk Hv Hv0 Hklen Hvlen Hend.
  cbn [forallb] in Hk, Hv.
  apply andb_true_iff in Hk as [Hk0 Hks].
  apply andb_true_iff in Hv as [Hv0' Hvs].
  destruct (isalnum_char k0 Hk0) as (_ & Hspace & Heof).
  cbn [PAM_header_loop].
  destruct (Z.eqb_spec k0 (-1)) as [?|_]; [done|].
  rewrite skip_space_stop by done.
  rewrite read_keyword_run by (done || simpl; lia).
  cbn [app]. rewrite Hend.
  change (skip_space 32 (v0 :: vs ++ 10 :: next :: rest))
    with (skip_space v0 (vs ++ 10 :: next :: rest)).
  rewrite skip_space_stop by done.
  rewrite read_value_run by (done || simpl; lia).
  reflexivity.
Qed.

(** The white space before the first keyword. *)
Lemma PAM_header_space (LocaleCompare : list Z -> list Z -> bool)
    (k0 : Z) (blob : list Z) (st : PAMState) (fuel : nat) :
  isalnum k0 = true ->
  PAM_header_loop LocaleCompare (S fuel) 10 (k0 :: blob) st =
  PAM_header_loop LocaleCompare (S fuel) k0 blob st.
Proof.
  intros Hk0. destruct (isalnum_char k0 Hk0) as (_ & Hspace & Heof).
  cbn [PAM_header_loop].
  destruct (Z.eqb_spec k0 (-1)) as [?|_]; [done|].
  change (10 =? -1) with false. cbv iota.
  change (skip_space 10 (k0 :: blob)) with (skip_space k0 blob).
  reflexivity.
Qed.

(** The line that ends the header. *)
Lemma PAM_header_end (LocaleCompare : list Z -> list Z -> bool)
    (data : list Z) (st : PAMState) (fuel : nat) :
  LocaleCompare (string_bytes "ENDHDR") (string_bytes "endhdr") = true ->
  PAM_header_loop LocaleCompare (S fuel) 69
    ([78; 68; 72; 68; 82] ++ 10 :: data) st = (st, data).
Proof.
  intros Hend. cbn [PAM_header_loop].
  change (69 =? -1) with false. cbv iota.
  rewrite skip_space_stop by reflexivity.
  rewrite read_keyword_run by (reflexivity || simpl; lia).
  cbn [app]. change [69; 78; 68; 72; 68; 82] with (string_bytes "ENDHDR").
  by rewrite Hend.
Qed.

Lemma atol_digits_chars (digits : list Z) :
  forall value,
  Forall is_decimal_digit digits ->
  atol_digits value (digit_chars digits) =
  fold_left (fun v d => v * 10 + d) digits value.
Proof.
  induction digits as [|d digits IH]; intros value Hd; [done|].
  apply Forall_cons in Hd as [Hd0 Hd]. unfold is_decimal_digit in Hd0.
  cbn [digit_chars map atol_digits fold_left].
  unfold isdigit.
  destruct (Z.leb_spec 48 (d + 48)); [|lia].
  destruct (Z.leb_spec (d + 48) 57); [|lia].
  cbn [andb]. fold (digit_chars digits). rewrite IH by done.
  f_equal. lia.
Qed.

Lemma atol_format_lu (n : Z) :
  0 <= n < 2 ^ 63 -> to_ulong (atol (format_lu n)) = n.
Proof.
  intros Hn. unfold atol, format_lu.
  rewrite atol_digits_chars
    by (apply decimal_digits_digits; constructor).
  rewrite decimal_digits_value by (simpl; lia). cbn [fold_left].
  destruct (Z.gtb_spec n (2 ^ 63 - 1)); [lia|].
  unfold to_ulong. apply Z.mod_small. lia.
Qed.

(** The characters of a number: digits, at least one and at most twenty. *)
Lemma format_lu_chars (n : Z) :
  exists v0 vs,
    format_lu n = v0 :: vs /\
    forallb (fun c => isalnum c || (c =? 95)) (v0 :: vs) = true /\
    isspace (to_uchar v0) = false /\ Z.of_nat (length vs) < 4095.
Proof.
  unfold format_lu.
  pose proof (decimal_digits_digits 20 n [] ltac:(constructor)) as Hd.
  pose proof (decimal_digits_nonempty 20 n [] ltac:(lia)) as Hne.
  assert (length (decimal_digits 20 n []) <= 20)%nat as Hlen.
  { assert (forall fuel m acc,
              (length (decimal_digits fuel m acc) <= fuel + length acc)%nat)
      as Hgen.
    { clear. induction fuel as [|fuel IH]; intros m acc; simpl; [lia|].
      destruct (m / 10 =? 0); [simpl; lia|].
      specialize (IH (m / 10) (m mod 10 :: acc)). simpl in IH. lia. }
    specialize (Hgen 20%nat n []). cbn [length] in Hgen. lia. }
  destruct (decimal_digits 20 n []) as [|d ds]; [done|].
  exists (d + 48), (digit_chars ds). split; [done|].
  assert (forall ds', Forall is_decimal_digit ds' ->
            forallb (fun c => isalnum c || (c =? 95)) (digit_chars ds') = true)
    as Hall.
  { clear. induction 1 as [|d ds Hd _ IH]; [done|].
    cbn [digit_chars map forallb]. fold (digit_chars ds). rewrite IH.
    unfold is_decimal_digit in Hd. unfold isalnum, isdigit.
    destruct (Z.leb_spec 48 (d + 48)); [|lia].
    destruct (Z.leb_spec (d + 48) 57); [|lia]. reflexivity. }
  split; [exact (Hall (d :: ds) Hd)|].
  apply Forall_cons in Hd as [Hd0 _]. unfold is_decimal_digit in Hd0.
  split.
  - apply isalnum_char. unfold isalnum, isdigit.
    destruct (Z.leb_spec 48 (d + 48)); [|lia].
    destruct (Z.leb_spec (d + 48) 57); [|lia]. reflexivity.
  - unfold digit_chars. rewrite length_map. simpl in Hlen. lia.
Qed.

End PAMHeaderProof.


Section PAMHeaderRoundtrip.
Import Quantum PNM PNMHeader PNMFile PAMHeader.

Variable LocaleCompare : list Z -> list Z -> bool.
Hypothesis LocaleCompare_caseless :
  forall p q, LocaleCompare p q = caseless_eq p q.

Lemma assign_width (value : list Z) (st : PAMState) :
  assign LocaleCompare (string_bytes "WIDTH") value st =
  mkPAM (packet_size st) (pam_rows st) (to_ulong (atol value))
    (pam_max_value st) (quantum_type st) (pam_matte st) (cmyk st).
Proof.
  unfold assign. rewrite !LocaleCompare_caseless. by destruct st.
Qed.

Lemma assign_height (value : list Z) (st : PAMState) :
  assign LocaleCompare (string_bytes "HEIGHT") value st =
  mkPAM (packet_size st) (to_ulong (atol value)) (pam_columns st)
    (pam_max_value st) (quantum_type st) (pam_matte st) (cmyk st).
Proof.
  unfold assign. rewrite !LocaleCompare_caseless. by destruct st.
Qed.

Lemma assign_depth (value : list Z) (st : PAMState) :
  assign LocaleCompare (string_bytes "DEPTH") value st =
  mkPAM (to_ulong (atol value)) (pam_rows st) (pam_columns st)
    (pam_max_value st) (quantum_type st) (pam_matte st) (cmyk st).
Proof.
  unfold assign. rewrite !LocaleCompare_caseless. by destruct st.
Qed.

Lemma assign_maxval (value : list Z) (st : PAMState) :
  assign LocaleCompare (string_bytes "MAXVAL") value st =
  mkPAM (packet_size st) (pam_rows st) (pam_columns st)
    (to_ulong (atol value)) (quantum_type st) (pam_matte st) (cmyk st).
Proof.
  unfold assign. rewrite !LocaleCompare_caseless. by destruct st.
Qed.

Lemma assign_tupltype (quantum_type0 : QuantumType) (matte : bool)
    (st : PAMState) :
  quantum_type st = RGBQuantum -> pam_matte st = false -> cmyk st = false ->
  assign LocaleCompare (string_bytes "TUPLTYPE")
    (PAM_type quantum_type0 matte) st =
  mkPAM (packet_size st) (pam_rows st) (pam_columns st) (pam_max_value st)
    (PAM_quantum_type quantum_type0 matte) matte
    (match quantum_type0 with
     | CMYKQuantum | CMYKAQuantum => true
     | _ => false
     end).
Proof.
  intros Hqt Hmatte Hcmyk.
  unfold assign. rewrite !LocaleCompare_caseless.
  change (caseless_eq (string_bytes "TUPLTYPE") (string_bytes "depth"))
    with false.
  change (caseless_eq (string_bytes "TUPLTYPE") (string_bytes "height"))
    with false.
  change (caseless_eq (string_bytes "TUPLTYPE") (string_bytes "maxval"))
    with false.
  change (caseless_eq (string_bytes "TUPLTYPE") (string_bytes "width"))
    with false.
  change (caseless_eq (string_bytes "TUPLTYPE") (string_bytes "TUPLTYPE"))
    with true.
  cbv iota zeta.
  unfold assign_type. rewrite !LocaleCompare_caseless, Hqt, Hmatte, Hcmyk.
  destruct quantum_type0, matte; reflexivity.
Qed.

Lemma PAM_type_chars (quantum_type0 : QuantumType) (matte : bool) :
  exists t0 ts,
    PAM_type quantum_type0 matte = t0 :: ts /\
    forallb (fun c => isalnum c || (c =? 95)) (t0 :: ts) = true /\
    isspace (to_uchar t0) = false /\ Z.of_nat (length ts) < 4095.
Proof.
  destruct quantum_type0, matte; eexists _, _;
    (split; [reflexivity|]); (split; [reflexivity|]);
    (split; [reflexivity|]); simpl; lia.
Qed.

Lemma PAM_header_read_back (columns rows depth : Z)
    (quantum_type0 : QuantumType) (matte : bool) (data : list Z)
    (st : PAMState) :
  0 <= columns < 2 ^ 63 -> 0 <= rows < 2 ^ 63 -> 0 <= depth ->
  quantum_type st = RGBQuantum -> pam_matte st = false -> cmyk st = false ->
  read_PAM_header LocaleCompare
    (10 :: write_PAM_header columns rows depth quantum_type0 matte ++ data)
    st =
  (mkPAM (PAM_packet_size quantum_type0 matte) rows columns
     (GetQuantumRange (if depth >? 16 then 16 else depth))
     (PAM_quantum_type quantum_type0 matte) matte
     (match quantum_type0 with
      | CMYKQuantum | CMYKAQuantum => true
      | _ => false
      end),
   data).
Proof.
  intros Hcolumns Hrows Hdepth Hqt Hmatte Hcmyk.
  set (size := PAM_packet_size quantum_type0 matte).
  set (maxval := GetQuantumRange (if depth >? 16 then 16 else depth)).
  assert (0 <= size < 2 ^ 63) as Hsize
    by (subst size; destruct quantum_type0, matte; vm_compute;
        (split; [discriminate|reflexivity])).
  assert (0 <= maxval < 2 ^ 63) as Hmaxval.
  { subst maxval. unfold GetQuantumRange.
    destruct (Z.gtb_spec depth 16).
    - change (2 ^ 16 - 1) with 65535. lia.
    - pose proof (Z.pow_le_mono_r 2 depth 16 ltac:(lia) ltac:(lia)).
      pose proof (Z.pow_pos_nonneg 2 depth ltac:(lia) ltac:(lia)).
      change (2 ^ 16) with 65536 in *. lia. }
  destruct (format_lu_chars columns)
    as (c0 & cs & Hc & Hcall & Hcspace & Hclen).
  destruct (format_lu_chars rows) as (r0 & rs & Hr & Hrall & Hrspace & Hrlen).
  destruct (format_lu_chars size) as (s0 & ss & Hs & Hsall & Hsspace & Hslen).
  destruct (format_lu_chars maxval)
    as (m0 & ms & Hm & Hmall & Hmspace & Hmlen).
  destruct (PAM_type_chars quantum_type0 matte)
    as (t0 & ts & Ht & Htall & Htspace & Htlen).
  set (rest5 := [78; 68; 72; 68; 82] ++ 10 :: data).
  set (rest4 := [85; 80; 76; 84; 89; 80; 69] ++ 32 :: (t0 :: ts) ++
                10 :: 69 :: rest5).
  set (rest3 := [65; 88; 86; 65; 76] ++ 32 :: (m0 :: ms) ++ 10 :: 84 :: rest4).
  set (rest2 := [69; 80; 84; 72] ++ 32 :: (s0 :: ss) ++ 10 :: 77 :: rest3).
  set (rest1 := [69; 73; 71; 72; 84] ++ 32 :: (r0 :: rs) ++ 10 :: 68 :: rest2).
  set (rest0 := [73; 68; 84; 72] ++ 32 :: (c0 :: cs) ++ 10 :: 72 :: rest1).
  assert (10 :: write_PAM_header columns rows depth quantum_type0 matte ++ data
          = 10 :: 87 :: rest0) as ->.
  { unfold write_PAM_header. fold size maxval.
    rewrite Hc, Hr, Hs, Hm, Ht. rewrite <- !app_assoc. reflexivity. }
  unfold read_PAM_header. cbn [ReadBlobByte].
  assert (exists fuel,
            S (length (10 :: 87 :: rest0)) = S (S (S (S (S (S fuel))))))
    as [fuel ->] by (unfold rest0; cbn [length app]; eauto).
  assert (forall keyword,
            caseless_eq keyword (string_bytes "endhdr") = false ->
            LocaleCompare keyword (string_bytes "endhdr") = false) as Hend
    by (intros keyword Hkeyword; by rewrite LocaleCompare_caseless).
  rewrite PAM_header_space by reflexivity.
  etransitivity;
    [exact (PAM_header_line LocaleCompare 87 [73; 68; 84; 72] c0 cs 72 rest1
              st _ eq_refl Hcall Hcspace ltac:(simpl; lia) Hclen
              (Hend (87 :: [73; 68; 84; 72]) eq_refl))|].
  etransitivity;
    [exact (PAM_header_line LocaleCompare 72 [69; 73; 71; 72; 84] r0 rs 68
              rest2 _ _ eq_refl Hrall Hrspace ltac:(simpl; lia) Hrlen
              (Hend (72 :: [69; 73; 71; 72; 84]) eq_refl))|].
  etransitivity;
    [exact (PAM_header_line LocaleCompare 68 [69; 80; 84; 72] s0 ss 77
              rest3 _ _ eq_refl Hsall Hsspace ltac:(simpl; lia) Hslen
              (Hend (68 :: [69; 80; 84; 72]) eq_refl))|].
  etransitivity;
    [exact (PAM_header_line LocaleCompare 77 [65; 88; 86; 65; 76] m0 ms 84
              rest4 _ _ eq_refl Hmall Hmspace ltac:(simpl; lia) Hmlen
              (Hend (77 :: [65; 88; 86; 65; 76]) eq_refl))|].
  etransitivity;
    [exact (PAM_header_line LocaleCompare 84 [85; 80; 76; 84; 89; 80; 69]
              t0 ts 69 rest5 _ _ eq_refl Htall Htspace ltac:(simpl; lia)
              Htlen (Hend (84 :: [85; 80; 76; 84; 89; 80; 69]) eq_refl))|].
  rewrite (PAM_header_end LocaleCompare data)
    by (by rewrite LocaleCompare_caseless).
  f_equal.
  change (87 :: [73; 68; 84; 72]) with (string_bytes "WIDTH").
  change (72 :: [69; 73; 71; 72; 84]) with (string_bytes "HEIGHT").
  change (68 :: [69; 80; 84; 72]) with (string_bytes "DEPTH").
  change (77 :: [65; 88; 86; 65; 76]) with (string_bytes "MAXVAL").
  change (84 :: [85; 80; 76; 84; 89; 80; 69]) with (string_bytes "TUPLTYPE").
  rewrite <- Hc, <- Hr, <- Hs, <- Hm, <- Ht.
  rewrite assign_width, assign_height, assign_depth, assign_maxval.
  rewrite assign_tupltype by done.
  cbn [packet_size pam_rows pam_columns pam_max_value].
  by rewrite !atol_format_lu by done.
Qed.

End PAMHeaderRoundtrip.

(** X27. The PAM header, written and read back.  When [LocaleCompare]
    compares without regard to the case of the letters, the loop of the
    reader takes the header the writer produces (without a comment) keyword
    by keyword: it finds the width and the height, takes the number of
    samples of DEPTH, the maximum sample of the depth (at most 16 bits), the
    quantum type and the matte channel of TUPLTYPE, and stops behind the
    line ENDHDR, at the first byte of the pixels. *)
Theorem PAM_header_roundtrip (LocaleCompare : list Z -> list Z -> bool)
    (columns rows depth : Z) (quantum_type : PNM.QuantumType) (matte : bool)
    (data : list Z) (st : PAMHeader.PAMState) :
  (forall p q, LocaleCompare p q = caseless_eq p q) ->
  0 <= columns < 2 ^ 63 -> 0 <= rows < 2 ^ 63 -> 0 <= depth ->
  PAMHeader.quantum_type st = PNM.RGBQuantum ->
  PAMHeader.pam_matte st = false -> PAMHeader.cmyk st = false ->
  PAMHeader.read_PAM_header LocaleCompare
    (10 :: PAMHeader.write_PAM_header columns rows depth quantum_type matte
       ++ data) st =
  (PAMHeader.mkPAM (PAMHeader.PAM_packet_size quantum_type matte) rows columns
     (Quantum.GetQuantumRange (if depth >? 16 then 16 else depth))
     (PAM_quantum_type quantum_type matte) matte
     (match quantum_type with
      | PNM.CMYKQuantum | PNM.CMYKAQuantum => true
      | _ => false
      end),
   data).
Proof.
  intros HL Hcolumns Hrows Hdepth Hqt Hmatte Hcmyk.
  by apply PAM_header_read_back.
Qed.

Lemma PAM_header_roundtrip_witness :
  PAMHeader.read_PAM_header caseless_eq
    (10 :: PAMHeader.write_PAM_header 640 480 8 PNM.GrayQuantum true
       ++ [1; 2; 3])
    (PAMHeader.mkPAM 0 0 0 1 PNM.RGBQuantum false false) =
  (PAMHeader.mkPAM 2 480 640 255 PNM.GrayAlphaQuantum true false, [1; 2; 3]).
Proof.
  apply (PAM_header_roundtrip caseless_eq 640 480 8 PNM.GrayQuantum true
           [1; 2; 3] (PAMHeader.mkPAM 0 0 0 1 PNM.RGBQuantum false false)).
  - reflexivity.
  - lia.
  - lia.
  - lia.
  - reflexivity.
  - reflexivity.
  - reflexivity.
Defined.


(** ** coders/pnm.c: the rows of the parallel loops are imported once *)

Section ParallelReads.
Import Parallel.

Variable extent : Z.
Variable target : Z -> Z.

Lemma lookup_insert_held (ph : list Phase) (y y' : nat) (old p p' : Phase) :
  ph !! y = Some old ->
  <[y := p]> ph !! y' = Some p' ->
  (y = y' /\ p = p') \/ (y <> y' /\ ph !! y' = Some p').
Proof.
  intros Hold H. destruct (decide (y = y')) as [->|Hne].
  - rewrite list_lookup_insert_eq in H by (by eapply lookup_lt_Some).
    left. split; congruence.
  - rewrite list_lookup_insert_ne in H by done. by right.
Qed.

Lemma reads_invariant_init (blob : list Z) (rows : nat) :
  reads_invariant (init blob rows).
Proof.
  unfold reads_invariant, init. cbn.
  assert (forall y p k,
            replicate rows AtTop !! y = Some p -> held_read p = Some k -> False)
    as Hnone.
  { intros y p k Hp Hk. apply lookup_replicate in Hp as [-> _]. done. }
  split; [intros; exfalso; eauto|]. split; [intros; exfalso; eauto|].
  split; [intros i Hi; by apply elem_of_nil in Hi|constructor].
Qed.

(** A step that replaces a phase that holds no read by one that holds
    none, or a phase by one that holds the same read. *)
Lemma reads_invariant_same (sh sh' : Shared) (ph : list Phase) (y : nat)
    (old new : Phase) :
  ph !! y = Some old ->
  (forall k, held_read new = Some k -> held_read old = Some k) ->
  nreads sh' = nreads sh -> imports sh' = imports sh ->
  reads_invariant (sh, ph) -> reads_invariant (sh', <[y := new]> ph).
Proof.
  intros Hold Hheld Hn Hi (Hlt & Huniq & Himp & Hnodup).
  unfold reads_invariant in *. cbn [fst snd] in *. rewrite Hn, Hi.
  assert (forall y' p' k,
            <[y := new]> ph !! y' = Some p' -> held_read p' = Some k ->
            exists p, ph !! y' = Some p /\ held_read p = Some k) as Hback.
  { intros y' p' k Hp Hk.
    destruct (lookup_insert_held ph y y' old new p' Hold Hp)
      as [[ <- <- ]|[_ Hp']]; eauto. }
  split; [|split; [|by split]].
  - intros y' p' k Hp Hk.
    destruct (Hback y' p' k Hp Hk) as (p & Hp' & Hk'). eauto.
  - intros y1 y2 p1 p2 k Hp1 Hk1 Hp2 Hk2.
    destruct (Hback y1 p1 k Hp1 Hk1) as (q1 & Hq1 & Hkq1).
    destruct (Hback y2 p2 k Hp2 Hk2) as (q2 & Hq2 & Hkq2). eauto.
Qed.

Lemma reads_invariant_step (c c' : Config) :
  reads_invariant c -> step extent target c c' -> reads_invariant c'.
Proof.
  intros Hinv Hstep.
  destruct Hstep as
    [sh ph y Hy Hs | sh ph y Hy Hs
    | sh ph y proceed count pixels blob' Hy Hrb
    | sh ph y k count offset pixels Hy
    | sh ph y k offset pixels Hy
    | sh ph y k offset pixels sync Hy].
  - by apply (reads_invariant_same sh sh ph y AtTop Finished).
  - by apply (reads_invariant_same sh sh ph y AtTop Waiting).
  - (* the critical section: the read is a new one *)
    destruct Hinv as (Hlt & Huniq & Himp & Hnodup).
    unfold reads_invariant in *. cbn [fst snd nreads imports] in *.
    split; [|split; [|split; [|done]]].
    + intros y' p' k Hp Hk.
      destruct (lookup_insert_held ph y y' Waiting _ p' Hy Hp)
        as [[ <- <- ]|[_ Hp']].
      * injection Hk as <-. split; [lia|].
        intros Hin. apply list_elem_of_fmap in Hin as (i & Hi & Hin).
        specialize (Himp i Hin). lia.
      * destruct (Hlt y' p' k Hp' Hk). split; [lia|done].
    + intros y1 y2 p1 p2 k Hp1 Hk1 Hp2 Hk2.
      destruct (lookup_insert_held ph y y1 Waiting _ p1 Hy Hp1)
        as [[ <- <- ]|[Hne1 Hp1']];
        destruct (lookup_insert_held ph y y2 Waiting _ p2 Hy Hp2)
          as [[ <- <- ]|[Hne2 Hp2']]; try done.
      * injection Hk1 as <-. destruct (Hlt y2 p2 _ Hp2' Hk2). lia.
      * injection Hk2 as <-. destruct (Hlt y1 p1 _ Hp1' Hk1). lia.
      * eauto.
    + intros i Hi. specialize (Himp i Hi). lia.
  - apply (reads_invariant_same sh _ ph y (HasRead k count offset pixels)
             (Counted k offset pixels)); done.
  - apply (reads_invariant_same sh _ ph y (Counted k offset pixels) Finished);
      done.
  - (* the import: the read is given up by the iteration that held it *)
    destruct Hinv as (Hlt & Huniq & Himp & Hnodup).
    unfold reads_invariant in *. cbn [fst snd nreads imports] in *.
    destruct (Hlt y _ k Hy eq_refl) as [Hk Hfresh].
    rewrite map_app. cbn [map read_number].
    split; [|split; [|split]].
    + intros y' p' k' Hp Hk'.
      destruct (lookup_insert_held ph y y' _ _ p' Hy Hp)
        as [[ <- <- ]|[Hne Hp']]; [done|].
      destruct (Hlt y' p' k' Hp' Hk') as [Hlt' Hfresh'].
      split; [done|]. rewrite elem_of_app, list_elem_of_singleton.
      intros [?| ->]; [done|].
      by specialize (Huniq y y' _ p' k Hy eq_refl Hp' Hk').
    + intros y1 y2 p1 p2 k' Hp1 Hk1 Hp2 Hk2.
      destruct (lookup_insert_held ph y y1 _ _ p1 Hy Hp1)
        as [[ <- <- ]|[Hne1 Hp1']]; [done|].
      destruct (lookup_insert_held ph y y2 _ _ p2 Hy Hp2)
        as [[ <- <- ]|[Hne2 Hp2']]; [done|].
      eauto.
    + intros i Hi. apply elem_of_app in Hi as [Hi|Hi]; [eauto|].
      by apply list_elem_of_singleton in Hi as ->.
    + apply NoDup_app. split; [done|]. split.
      * intros k' Hin Hk'. apply list_elem_of_singleton in Hk' as ->. done.
      * apply NoDup_singleton.
Qed.

Lemma reads_invariant_reachable (blob : list Z) (rows : nat) (c : Config) :
  reachable extent target blob rows c -> reads_invariant c.
Proof.
  unfold reachable. intros Hr.
  apply (rtc_ind_r (R := step extent target)
           (fun c => reads_invariant c)
           (init blob rows)); [apply reads_invariant_init| |exact Hr].
  intros c1 c2 _ Hstep IH. by eapply reads_invariant_step.
Qed.

End ParallelReads.

(** X28. The parallel row loops import every row once.  In every
    interleaving of the workers, the reads of the stream are handed out one
    by one: no two imports into the pixel cache are of the same read, and
    when the row of the cache is an injective function of the read number
    (the row itself in the loops of cases '4' to '7', [rows-1-k] in the PFM
    loop) no row of the cache is imported twice. *)
Theorem parallel_rows_imported_once (extent : Z) (target : Z -> Z)
    (blob : list Z) (rows : nat) (c : Parallel.Config) :
  (forall a b, target a = target b -> a = b) ->
  Parallel.reachable extent target blob rows c ->
  NoDup (map Parallel.read_number (Parallel.imports (fst c))) /\
  NoDup (map Parallel.cache_row (Parallel.imports (fst c))).
Proof.
  intros Hinj Hc.
  destruct (reads_invariant_reachable extent target blob rows c Hc)
    as (_ & _ & _ & Hnodup).
  destruct (row_invariant_reachable extent target blob rows c Hc)
    as (_ & _ & _ & _ & Himp).
  split; [done|].
  assert (map Parallel.cache_row (Parallel.imports (fst c)) =
          map (fun k => target (Z.of_nat k))
            (map Parallel.read_number (Parallel.imports (fst c)))) as ->.
  { rewrite map_map. apply map_ext_in. intros i Hi.
    apply list_elem_of_In in Hi. by destruct (Himp i Hi). }
  assert (Inj eq eq (fun k : nat => target (Z.of_nat k))) as Hinj'.
  { intros a b Hab. apply Hinj in Hab. lia. }
  by apply (NoDup_fmap_2 (fun k : nat => target (Z.of_nat k))).
Qed.

Lemma parallel_rows_imported_once_witness :
  NoDup (map Parallel.read_number
           (Parallel.imports (fst PFM_two_rows_after_first_import))) /\
  NoDup (map Parallel.cache_row
           (Parallel.imports (fst PFM_two_rows_after_first_import))).
Proof.
  apply (parallel_rows_imported_once 1 (PNM.PFM_target 2) [7; 9] 2
           PFM_two_rows_after_first_import).
  - unfold PNM.PFM_target. intros a b Hab. lia.
  - apply PFM_two_rows_reachable.
Defined.


(** ** coders/ps.c: the bitmap of a monochrome image *)

Section Bitmap.
Import Quantum PNM PNMPlain PS PSBitmap.

Variable QuantumRange : Z.

Local Abbreviation white :=
  (fun pixel : Z => pixel >=? to_Quantum QuantumRange (QuantumRange / 2)).

Lemma bits_value_snoc (bits : list bool) (b : bool) :
  bits_value (bits ++ [b]) = 2 * bits_value bits + (if b then 1 else 0).
Proof. unfold bits_value. by rewrite fold_left_app. Qed.

Lemma bits_value_bound (bits : list bool) :
  0 <= bits_value bits < 2 ^ Z.of_nat (length bits).
Proof.
  induction bits as [|b bits IH] using rev_ind; [done|].
  rewrite bits_value_snoc, length_app. cbn [length].
  replace (Z.of_nat (length bits + 1)) with (Z.succ (Z.of_nat (length bits)))
    by lia.
  rewrite Z.pow_succ_r by lia. destruct b; lia.
Qed.

Lemma lor_one_table :
  forallb (fun a => Z.lor (2 * a) 1 =? 2 * a + 1) (map Z.of_nat (seq 0 128))
  = true.
Proof. vm_compute. reflexivity. Qed.

Lemma lor_one (a : Z) : 0 <= a < 128 -> Z.lor (2 * a) 1 = 2 * a + 1.
Proof.
  intros Ha. pose proof lor_one_table as Ht. rewrite forallb_forall in Ht.
  apply Z.eqb_eq, Ht, in_map_iff. exists (Z.to_nat a). split; [lia|].
  apply in_seq. lia.
Qed.

Lemma bits_byte_range (bits : list bool) :
  (length bits <= 8)%nat -> 0 <= bits_byte bits < 256.
Proof.
  intros Hlen. unfold bits_byte.
  pose proof (bits_value_bound bits) as Hv.
  set (n := Z.of_nat (length bits)) in *.
  assert (2 ^ n * 2 ^ (8 - n) = 256) as Hpow.
  { rewrite <- Z.pow_add_r by lia. by replace (n + (8 - n)) with 8 by lia. }
  pose proof (Z.pow_pos_nonneg 2 (8 - n) ltac:(lia) ltac:(lia)). nia.
Qed.

Lemma pack_bits_chunk (chunk rest : list bool) :
  length chunk = 8%nat ->
  pack_bits (chunk ++ rest) = bits_byte chunk :: pack_bits rest.
Proof.
  intros Hlen.
  do 8 (destruct chunk as [|? chunk]; [discriminate|]).
  destruct chunk; [reflexivity|discriminate].
Qed.

Lemma pack_bits_short (bits : list bool) :
  (0 < length bits < 8)%nat -> pack_bits bits = [bits_byte bits].
Proof.
  intros Hlen.
  destruct bits as [|? bits]; [simpl in Hlen; lia|].
  do 7 (destruct bits as [|? bits]; [reflexivity|]).
  simpl in Hlen. lia.
Qed.

Lemma store_hex_pair (byte : Z) (w : TextWriter) :
  0 <= byte < 256 ->
  store (PopHexPixel byte) w =
  Some (mkWriter (line w ++ hex_pair byte) (written w)).
Proof.
  intros Hbyte.
  destruct (hex_pair_digits byte Hbyte) as (a & b & Hpair & Hpop & _).
  by rewrite Hpop, Hpair.
Qed.

Lemma bitmap_loop_invariant (row : list Z) :
  forall (acc : list bool) (w : TextWriter) (pieces : list (list Z))
         (tags : list bool) (lines : list (list Z)),
  (length acc < 8)%nat ->
  buffer_invariant 79 77 w pieces tags lines ->
  exists (acc' : list bool) (emitted : list Z) w' tags' lines',
    bitmap_loop QuantumRange row (Z.of_nat (length acc)) (bits_value acc) w =
      Some (Z.of_nat (length acc'), bits_value acc', w') /\
    (length acc' < 8)%nat /\
    buffer_invariant 79 77 w' (pieces ++ map hex_pair emitted) tags' lines' /\
    Forall (fun v => 0 <= v < 256) emitted /\
    pack_bits (acc ++ map white row) = emitted ++ pack_bits acc'.
Proof.
  induction row as [|pixel row IH]; intros acc w pieces tags lines Hacc Hinv.
  - exists acc, [], w, tags, lines. cbn [map bitmap_loop].
    rewrite !app_nil_r.
    split; [done|]. split; [done|]. split; [done|]. split; [constructor|done].
  - cbn [bitmap_loop map].
    pose proof (bits_value_bound acc) as Hv.
    assert (2 ^ Z.of_nat (length acc) <= 2 ^ 7) as Hpow
      by (apply Z.pow_le_mono_r; lia).
    change (2 ^ 7) with 128 in Hpow.
    rewrite Z.shiftl_mul_pow2 by lia. change (2 ^ 1) with 2.
    rewrite (to_ulong_small (bits_value acc * 2)) by lia.
    rewrite (to_ulong_small (Z.of_nat (length acc) + 1)) by lia.
    set (next := acc ++ [white pixel]).
    assert ((if white pixel then Z.lor (bits_value acc * 2) 1
             else bits_value acc * 2) = bits_value next) as ->.
    { unfold next. rewrite bits_value_snoc.
      destruct (white pixel); [|lia].
      rewrite (Z.mul_comm (bits_value acc) 2). apply lor_one. lia. }
    assert (Z.of_nat (length acc) + 1 = Z.of_nat (length next)) as ->
      by (unfold next; rewrite length_app; simpl; lia).
    assert (acc ++ white pixel :: map white row = next ++ map white row)
      as -> by (unfold next; by rewrite <- app_assoc).
    destruct (Z.eqb_spec (Z.of_nat (length next)) 8) as [Hfull|Hmore].
    + (* the byte is full *)
      pose proof (bits_byte_range next ltac:(lia)) as Hbyte.
      assert (bits_byte next = bits_value next) as Hsame.
      { unfold bits_byte. rewrite Hfull. change (2 ^ (8 - 8)) with 1. lia. }
      rewrite Hsame in Hbyte.
      rewrite store_hex_pair by done.
      destruct (hex_pair_no_newline _ Hbyte) as [Hnl Hlen].
      destruct (buffer_invariant_store_flush 79 77 w pieces tags lines _ 2
                  Hinv Hnl ltac:(rewrite Hlen; lia) ltac:(lia))
        as (tag & lines1 & Hinv1).
      change (Z.to_nat (79 - 2)) with 77%nat in Hinv1.
      destruct (IH [] _ _ _ _ ltac:(simpl; lia) Hinv1)
        as (acc' & emitted & w' & tags' & lines' & Hloop & Hacc' & Hinv'
            & Hrange & Hpack).
      exists acc', (bits_value next :: emitted), w', tags', lines'.
      split; [exact Hloop|]. split; [done|]. split; [|split].
      * cbn [map]. by rewrite <- app_assoc in Hinv'.
      * by constructor.
      * rewrite pack_bits_chunk by lia. rewrite Hsame.
        cbn [app] in Hpack. by rewrite Hpack.
    + destruct (IH next w pieces tags lines
                  ltac:(unfold next in *; rewrite length_app in *;
                        simpl in *; lia) Hinv)
        as (acc' & emitted & w' & tags' & lines' & Hloop & Hacc' & Hinv'
            & Hrange & Hpack).
      by exists acc', emitted, w', tags', lines'.
Qed.

Lemma bitmap_row_invariant (row : list Z) (w : TextWriter)
    (pieces : list (list Z)) (tags : list bool) (lines : list (list Z)) :
  buffer_invariant 79 77 w pieces tags lines ->
  exists w' tags' lines',
    bitmap_row QuantumRange row w = Some w' /\
    buffer_invariant 79 77 w'
      (pieces ++ map hex_pair (pack_bits (map white row))) tags' lines' /\
    Forall (fun v => 0 <= v < 256) (pack_bits (map white row)).
Proof.
  intros Hinv.
  destruct (bitmap_loop_invariant row [] w pieces tags lines
              ltac:(simpl; lia) Hinv)
    as (acc' & emitted & w1 & tags1 & lines1 & Hloop & Hacc' & Hinv1
        & Hrange & Hpack).
  cbn [app length] in Hloop, Hpack. change (bits_value []) with 0 in Hloop.
  unfold bitmap_row. change (Z.of_nat 0) with 0 in Hloop. rewrite Hloop, Hpack.
  destruct (Z.eqb_spec (Z.of_nat (length acc')) 0) as [Hzero|Hsome];
    cbn [negb].
  - assert (acc' = []) as -> by (destruct acc'; [done|simpl in Hzero; lia]).
    exists w1, tags1, lines1. cbn [pack_bits]. rewrite app_nil_r.
    split; [done|]. by split.
  - pose proof (bits_byte_range acc' ltac:(lia)) as Hbyte.
    pose proof (bits_value_bound acc') as Hv.
    rewrite Z.shiftl_mul_pow2 by lia.
    fold (bits_byte acc'). rewrite (to_ulong_small (bits_byte acc')) by lia.
    rewrite store_hex_pair by done. cbn [option_map].
    destruct (hex_pair_no_newline _ Hbyte) as [Hnl Hlen].
    destruct (buffer_invariant_store_flush 79 77 w1 _ tags1 lines1 _ 2
                Hinv1 Hnl ltac:(rewrite Hlen; lia) ltac:(lia))
      as (tag & lines' & Hinv').
    change (Z.to_nat (79 - 2)) with 77%nat in Hinv'.
    rewrite pack_bits_short by lia.
    eexists _, _, lines'. split; [reflexivity|]. split.
    + by rewrite map_app, app_assoc.
    + apply Forall_app. split; [done|]. by constructor.
Qed.

Lemma bitmap_rows_invariant (rows : list (list Z)) :
  forall (w : TextWriter) (pieces : list (list Z)) (tags : list bool)
         (lines : list (list Z)),
  buffer_invariant 79 77 w pieces tags lines ->
  exists w' tags' lines',
    bitmap_rows QuantumRange rows w = Some w' /\
    buffer_invariant 79 77 w'
      (pieces ++
       map hex_pair
         (concat (map (fun row => pack_bits (map white row)) rows)))
      tags' lines' /\
    Forall (fun v => 0 <= v < 256)
      (concat (map (fun row => pack_bits (map white row)) rows)).
Proof.
  induction rows as [|row rows IH]; intros w pieces tags lines Hinv.
  - exists w, tags, lines. cbn [bitmap_rows map concat].
    rewrite app_nil_r. split; [done|]. split; [done|constructor].
  - cbn [bitmap_rows map concat].
    destruct (bitmap_row_invariant row w pieces tags lines Hinv)
      as (w1 & tags1 & lines1 & -> & Hinv1 & Hrange1).
    destruct (IH w1 _ tags1 lines1 Hinv1)
      as (w' & tags' & lines' & Hw' & Hinv' & Hrange').
    exists w', tags', lines'. split; [done|]. split.
    + by rewrite map_app, app_assoc.
    + by apply Forall_app.
Qed.

End Bitmap.

(** X29. The bitmap of a monochrome image in the PostScript writer.  The
    rows are written in lines of at most 79 characters, and the bytes that
    [ProfileInteger] reads from them are, row after row, the pixels of the
    row eight to a byte: a pixel is a 1 where its intensity is at least
    [QuantumRange/2], the first pixel of a byte is its most significant bit,
    and the last byte of a row is filled with zeros. *)
Theorem PS_bitmap_roundtrip (QuantumRange : Z) (rows : list (list Z)) :
  exists out lines,
    PSBitmap.WritePS_bitmap QuantumRange rows = Some out /\
    PNMPlain.lines_of out lines /\
    Forall (fun l => (length l <= 79)%nat) lines /\
    profile_data out =
    concat (map (fun row =>
                   pack_bits
                     (map (fun pixel =>
                             pixel >=?
                             Quantum.to_Quantum QuantumRange (QuantumRange / 2))
                        row)) rows).
Proof.
  destruct (bitmap_rows_invariant QuantumRange rows (PNMPlain.mkWriter [] [])
              [] [] []
              (buffer_invariant_weaken 79 0 77 _ _ _ _ ltac:(lia)
                 (buffer_invariant_init 79)))
    as (w & tags & lines & Hw & Hinv & Hrange).
  destruct (buffer_invariant_finish 79 77 w _ tags lines Hinv ltac:(lia))
    as (tail & lines' & Hfinish & Htail & Hlines & Hbound).
  exists (PNMPlain.finish w), lines'.
  split; [by unfold PSBitmap.WritePS_bitmap; rewrite Hw|].
  split; [done|]. split; [done|].
  destruct Hinv as (_ & Htags & _).
  cbn [app] in Hfinish, Htags. rewrite length_map in Htags.
  rewrite Hfinish. apply profile_data_stream; [done|done|].
  destruct Htail as [-> | ->]; repeat constructor; apply is_filler_newline.
Qed.


(** ** coders/tiff.c: the strips of [ReadStripMethod] *)

Section Strips.
Import Quantum PNM TIFFStrip.

Variable ScaleCharToQuantum : Z -> Z.
Variable matte : bool.
Variable queue : Z -> option (list PixelPacket).
Variable TIFFReadRGBAStrip : Z -> option (list Z).
Variable sync : Z -> bool.
Variable progress_monitor : option (Z -> bool).
Variable columns rows rows_per_strip : Z.

Hypothesis rows_range : 0 <= rows < 2 ^ 32.
Hypothesis strip_range : 0 < rows_per_strip < 2 ^ 32.
Hypothesis columns_range : 0 <= columns /\ columns * rows_per_strip < 2 ^ 64.
Hypothesis succeed :
  strip_reads_succeed columns rows rows_per_strip queue TIFFReadRGBAStrip sync
    progress_monitor.

(** One byte read through the macros: the red channel is the byte, the
    other channels are 0. *)
Lemma TIFFGet_byte (byte : Z) :
  to_uchar (TIFFGetR (to_uchar byte)) = to_uchar byte /\
  to_uchar (TIFFGetG (to_uchar byte)) = 0 /\
  to_uchar (TIFFGetB (to_uchar byte)) = 0 /\
  to_uchar (TIFFGetA (to_uchar byte)) = 0.
Proof.
  unfold TIFFGetR, TIFFGetG, TIFFGetB, TIFFGetA, to_uchar.
  pose proof (Z.mod_pos_bound byte 256 ltac:(lia)) as Hb.
  set (b := byte mod 256) in *.
  change 255 with (Z.ones 8). rewrite !Z.land_ones by lia.
  rewrite !Z.shiftr_div_pow2 by lia.
  change (2 ^ 8) with 256.
  rewrite (Z.div_small b (2 ^ 16)), (Z.div_small b (2 ^ 24)),
    (Z.div_small b 256) by lia.
  rewrite (Z.mod_small b 256) by lia.
  repeat split; try reflexivity. by rewrite Z.mod_small by lia.
Qed.

Lemma strip_pixels_bytes (q : list PixelPacket) :
  forall p : list Z,
  (length q <= length p)%nat ->
  strip_pixels ScaleCharToQuantum matte p q =
  Some (zip_with (strip_byte_pixel ScaleCharToQuantum matte) p q).
Proof.
  induction q as [|q0 q IH]; intros p Hlen.
  - by destruct p.
  - destruct p as [|byte p]; [simpl in Hlen; lia|].
    cbn [strip_pixels zip_with]. rewrite IH by (simpl in Hlen; lia).
    destruct (TIFFGet_byte byte) as (-> & -> & -> & ->).
    reflexivity.
Qed.

Local Abbreviation loop :=
  (strip_rows ScaleCharToQuantum matte queue TIFFReadRGBAStrip sync
     progress_monitor).

Lemma strip_rows_synced (fuel : nat) :
  forall (y q m i : Z) (pixels : list Z),
  y + Z.of_nat fuel = rows -> 0 <= q -> 0 <= m < rows_per_strip ->
  y = rows_per_strip * q + m ->
  i = (if m =? 0 then 0
       else Z.min rows_per_strip (rows - rows_per_strip * q) - m) ->
  (m <> 0 -> TIFFReadRGBAStrip (rows_per_strip * q) = Some pixels) ->
  exists synced,
    loop fuel columns rows rows_per_strip y i pixels = Some synced /\
    length synced = fuel /\
    forall k : nat, (k < fuel)%nat ->
      let y' := y + Z.of_nat k in
      let start := y' / rows_per_strip * rows_per_strip in
      let extent := Z.min rows_per_strip (rows - start) in
      exists qrow raster,
        queue y' = Some qrow /\ TIFFReadRGBAStrip start = Some raster /\
        synced !! k =
        Some (y', zip_with (strip_byte_pixel ScaleCharToQuantum matte)
                    (drop (Z.to_nat (columns * (extent - 1 - (y' - start))))
                       raster) qrow).
Proof.
  destruct succeed as (Hqueue & Hstrip & Hsync & Hprogress).
  induction fuel as [|fuel IH]; intros y q m i pixels Hy Hq Hm Hqm Hi Hpixels.
  - exists []. split; [done|]. split; [done|]. intros k Hk. lia.
  - cbn [strip_rows].
    destruct (Hqueue y ltac:(lia)) as (qrow & Hqy & Hqrow). rewrite Hqy.
    rewrite (to_long_small rows_per_strip), (to_long_small rows) by lia.
    assert (MagickMin rows_per_strip (rows - y) =
            Z.min rows_per_strip (rows - y)) as Hmin.
    { unfold MagickMin. destruct (Z.ltb_spec rows_per_strip (rows - y)); lia. }
    rewrite Hmin, (to_long_small (Z.min rows_per_strip (rows - y))) by lia.
    set (extent := Z.min rows_per_strip (rows - rows_per_strip * q)).
    assert (rows_per_strip * q <= y) as Hstart by lia.
    assert (0 <= rows_per_strip * q) as Hstart0 by nia.
    assert ((rows_per_strip * q) mod rows_per_strip = 0) as Hmod
      by (by rewrite Z.mul_comm, Z.mod_mul by lia).
    destruct (Hstrip (rows_per_strip * q) ltac:(lia) Hmod)
      as (raster & Hraster & Hlen).
    fold extent in Hlen.
    assert ((if i =? 0 then Z.min rows_per_strip (rows - y) else i) - 1 =
            extent - 1 - m /\ (i =? 0) = (m =? 0)) as [Hindex Hread].
    { subst i extent. destruct (Z.eqb_spec m 0) as [->|Hm0].
      - change (0 =? 0) with true. cbv iota. split; [|done].
        replace (rows - y) with (rows - rows_per_strip * q) by lia. lia.
      - destruct (Z.eqb_spec
                    (Z.min rows_per_strip (rows - rows_per_strip * q) - m) 0);
          [lia|]. split; [lia|done]. }
    rewrite Hindex, Hread.
    assert ((if m =? 0 then TIFFReadRGBAStrip (TIFFIO.to_uint32 y)
             else Some pixels) = Some raster) as ->.
    { destruct (Z.eqb_spec m 0) as [Hm0|Hm0].
      - rewrite to_uint32_small by lia. rewrite <- Hraster. f_equal. lia.
      - rewrite <- Hraster. symmetry. by apply Hpixels. }
    assert (0 <= extent - 1 - m < rows_per_strip) as Hrow by (subst extent; lia).
    assert (0 <= columns * (extent - 1 - m) /\
            columns * (extent - 1 - m) + columns <= columns * extent) as Hoff
      by nia.
    assert (columns * extent <= columns * rows_per_strip) as Hext
      by (subst extent; nia).
    rewrite (to_ulong_small (extent - 1 - m)) by lia.
    rewrite (to_ulong_small (columns * (extent - 1 - m))) by lia.
    rewrite strip_pixels_bytes by (rewrite length_drop; lia).
    rewrite Hsync. cbn [negb].
    assert (match progress_monitor with
            | Some proceed => proceed y
            | None => true
            end = true) as ->
      by (destruct progress_monitor; [apply Hprogress|done]).
    cbn [negb].
    assert (y / rows_per_strip = q) as Hdiv
      by (symmetry; apply (Z.div_unique_pos y rows_per_strip q m); lia).
    assert (exists q1 m1,
              0 <= q1 /\ 0 <= m1 < rows_per_strip /\
              y + 1 = rows_per_strip * q1 + m1 /\
              extent - 1 - m =
                (if m1 =? 0 then 0
                 else Z.min rows_per_strip (rows - rows_per_strip * q1) - m1) /\
              (m1 <> 0 -> TIFFReadRGBAStrip (rows_per_strip * q1) = Some raster))
      as (q1 & m1 & Hq1 & Hm1 & Hqm1 & Hi1 & Hpixels1).
    { destruct (Z.eq_dec (m + 1) rows_per_strip) as [Hfull|Hmore].
      - exists (q + 1), 0. change (0 =? 0) with true. cbv iota.
        split; [lia|]. split; [lia|]. split; [lia|].
        split; [subst extent; lia|done].
      - exists q, (m + 1).
        destruct (Z.eqb_spec (m + 1) 0); [lia|].
        split; [lia|]. split; [lia|]. split; [lia|].
        split; [subst extent; lia|done]. }
    destruct (IH (y + 1) q1 m1 (extent - 1 - m) raster ltac:(lia) Hq1 Hm1
                Hqm1 Hi1 Hpixels1) as (synced & -> & Hlength & Hrows).
    eexists. split; [reflexivity|]. split; [simpl; lia|].
    intros [|k] Hk; cbv zeta.
    + rewrite Z.add_0_r, Hdiv.
      replace (q * rows_per_strip) with (rows_per_strip * q) by lia.
      exists qrow, raster. split; [done|split; [done|]].
      cbn [lookup list_lookup]. fold extent.
      replace (y - rows_per_strip * q) with m by lia. reflexivity.
    + specialize (Hrows k ltac:(lia)). cbv zeta in Hrows.
      replace (y + Z.of_nat (S k)) with (y + 1 + Z.of_nat k) by lia.
      exact Hrows.
Qed.

End Strips.

(** X30. The strip method of the TIFF reader.  The cursor [p] of the row
    loop is a pointer to bytes, and the raster [TIFFReadRGBAStrip] fills
    holds one 32-bit word per pixel; so when nothing ends the loop before
    its time, every row of the image is synced, and row [y] is made of the
    [columns] bytes of the raster of its strip that start at byte
    [columns*i], one byte per pixel, where [i] counts from the end of the
    strip: the byte is the red channel, and green, blue and, with a matte
    channel, the opacity are what [ScaleCharToQuantum] gives for 0.  The
    raster is the one [TIFFReadRGBAStrip] delivered at the first row of the
    strip, and [i] lies within the rows the strip has. *)
Theorem strip_rows_read_bytes (ScaleCharToQuantum : Z -> Z) (matte : bool)
    (queue : Z -> option (list PNM.PixelPacket))
    (TIFFReadRGBAStrip : Z -> option (list Z)) (sync : Z -> bool)
    (progress_monitor : option (Z -> bool))
    (columns rows rows_per_strip : Z) (pixels : list Z) :
  0 <= rows < 2 ^ 32 -> 0 < rows_per_strip < 2 ^ 32 ->
  0 <= columns -> columns * rows_per_strip < 2 ^ 64 ->
  strip_reads_succeed columns rows rows_per_strip queue TIFFReadRGBAStrip sync
    progress_monitor ->
  exists synced,
    TIFFStrip.ReadStripMethod ScaleCharToQuantum matte queue TIFFReadRGBAStrip
      sync progress_monitor columns rows rows_per_strip pixels = Some synced /\
    Z.of_nat (length synced) = rows /\
    forall y, 0 <= y < rows ->
      let start := y / rows_per_strip * rows_per_strip in
      let extent := Z.min rows_per_strip (rows - start) in
      let i := extent - 1 - (y - start) in
      0 <= i < extent /\
      exists qrow raster,
        queue y = Some qrow /\ TIFFReadRGBAStrip start = Some raster /\
        synced !! Z.to_nat y =
        Some (y, zip_with (strip_byte_pixel ScaleCharToQuantum matte)
                   (drop (Z.to_nat (columns * i)) raster) qrow).
Proof.
  intros Hrows Hstrip Hcolumns Hproduct Hsucceed.
  unfold TIFFStrip.ReadStripMethod. rewrite (to_long_small rows) by lia.
  destruct (strip_rows_synced ScaleCharToQuantum matte queue TIFFReadRGBAStrip
              sync progress_monitor columns rows rows_per_strip Hrows Hstrip
              (conj Hcolumns Hproduct) Hsucceed (Z.to_nat rows) 0 0 0 0 pixels
              ltac:(lia) ltac:(lia) ltac:(lia) ltac:(lia) eq_refl
              ltac:(done))
    as (synced & Hrun & Hlength & Hsynced).
  exists synced. split; [exact Hrun|]. split; [lia|].
  intros y Hy. cbv zeta.
  pose proof (Z.div_mod y rows_per_strip ltac:(lia)) as Hdm.
  pose proof (Z.mod_pos_bound y rows_per_strip ltac:(lia)) as Hmod.
  pose proof (Z.div_pos y rows_per_strip ltac:(lia) ltac:(lia)) as Hdiv.
  split; [nia|].
  specialize (Hsynced (Z.to_nat y) ltac:(lia)). cbv zeta in Hsynced.
  rewrite Z.add_0_l, Z2Nat.id in Hsynced by lia. exact Hsynced.
Qed.

Lemma strip_rows_read_bytes_witness :
  let queue := fun _ : Z => Some [PNM.mkPixel 0 0 0 7; PNM.mkPixel 0 0 0 7] in
  let raster := [1; 2; 3; 255; 4; 5; 6; 255; 7; 8; 9; 255; 10; 11; 12; 255] in
  exists synced,
    TIFFStrip.ReadStripMethod (fun v => 257 * v) false queue
      (fun _ => Some raster) (fun _ => true) None 2 2 2 [] = Some synced /\
    synced !! Z.to_nat 0 =
    Some (0, [PNM.mkPixel 771 0 0 7; PNM.mkPixel 65535 0 0 7]).
Proof.
  intros queue raster.
  assert (strip_reads_succeed 2 2 2 queue (fun _ => Some raster)
            (fun _ => true) None) as Hsucceed.
  { split; [|split; [|done]].
    - intros y _. by eexists.
    - intros start Hstart _. eexists. split; [reflexivity|].
      cbn [length raster]. lia. }
  destruct (strip_rows_read_bytes (fun v => 257 * v) false queue
              (fun _ => Some raster) (fun _ => true) None 2 2 2 []
              ltac:(lia) ltac:(lia) ltac:(lia) ltac:(lia) Hsucceed)
    as (synced & Hrun & _ & Hrows).
  exists synced. split; [exact Hrun|].
  destruct (Hrows 0 ltac:(lia)) as (_ & qrow & raster' & Hq & Hr & Hrow).
  injection Hq as <-. injection Hr as <-. exact Hrow.
Defined.
